(* ===== verification/_CoqProject ===== *)
-Q . S2P
Prelude.v
Binary64.v
Prog.v
Effects.v
Stats.v
Machine.v
Layout.v
Segment.v
Queue.v
Lifecycle.v
Claim.v
Resources.v
Timing.v
Objects.v
Shm.v
Ring.v
Sequential.v
Refinement.v
Blocking.v
Interference.v
Session.v
RaMemory.v
RelyGuarantee.v
SpscProtocol.v
Concurrent.v
Delivery.v
Quiescent.v
Fleet.v
Footprint.v
System.v
Caveats.v
Message.v
Demo.v
Bench.v
Latency.v
Programs.v
