(* ===== verification/Prelude.v ===== *)
(** * shmspsc: a verification of the shared-memory SPSC queue

    The program is a header-only C++17 library: a bounded single-producer
    single-consumer queue that lives in a POSIX shared-memory segment and is used by
    two processes.  [include/shmspsc/ShmSegment.h] owns a mapping;
    [include/shmspsc/ShmSpscQueue.h] lays a control block and a slot array out in it
    and implements creation, attachment, the ring operations and the liveness
    protocol; [src/common.h] and the two [src/demo_*.cpp] programs stream numbered,
    checksummed messages through it, [src/bench_throughput.cpp] times bulk transfers
    and [src/bench_latency.cpp] round trips over two queues.

    ** How the code is modelled

    A C++ function that touches the segment or the operating system is a tree of its
    primitive accesses in program order ([prog], Prog.v).  The accesses
    ([memE], [osE], Effects.v) are the atomic loads, stores and compare-exchanges
    with their memory orders, the plain accesses to the geometry and to one slot, and
    the system calls.  Fields of a handle that live in the process are threaded as a
    record.  Unsigned arithmetic is [Z] with the wrap-around written out ([u64],
    [u32], [i32]).  Exceptions are values of [exn + A]; where one leaves the scope of
    a handle, the handle's destructor is run.  Addresses are integers, each process
    mapping the segment at its own base.  Function names are the source's, qualified
    where C++ overloads them: [void pop()] is [pop_front], [bind] is [bind_queue],
    [capacity()] is [capacity_of], the blocking [push] and [pop] are [push] and [pop].

    The same trees are executed in these settings:
    - [run alone] (Shm.v): one process at a time on the segment's contents;
    - the release/acquire machine (RaMemory.v): two processes, arbitrary
      interleaving, stale loads, views and vector clocks; an unsynchronised access
      to a slot, an access outside the mapping or a failed assertion is undefined;
    - several such memories and a common steady clock (Fleet.v): two processes that
      share any number of queues, in either direction; the memories are not
      synchronised with each other, which only allows more behaviours;
    - [amid] (Interference.v): the consumer alone on the segment's contents, with steps
      of the producer before each of its accesses, every load reading the latest value;
    - [newest] (Quiescent.v): one process on the memory two concurrent clients have
      left, every load reading the last entry;
    - [owp] and [runs] (Resources.v): every answer the system calls and the memory may
      give; the runs of one program from a kernel state to another;
    - the slot system (Claim.v): any number of processes competing for a pid slot.
    [traced] (Prog.v) lists what a program observes while it runs in any of them, so
    that a statement can say which clock readings a result was computed from.

    ** Files

    - Prelude.v: machine integers, positions modulo the ring size, lists, tactics.
    - Prog.v, Effects.v: programs, exceptions, [run]; the accesses.
    - Binary64.v, Stats.v: double-precision products and truncation; [percentile],
      [printLatency] and [clockOverheadNs] of [src/common.h].  Property: the printed
      numbers have the rank they are printed for.
    - Machine.v: the interleaving of two programs over an abstract shared state.
    - Layout.v: [ControlBlock]'s layout computed with the standard-layout rules,
      [bytesNeeded].  Properties: the header's static assertions, no implicit
      padding, no shared cache line; no overflow of the size.
    - Segment.v: [ShmSegment].  Property: exactly which names are accepted.
    - Queue.v: [ShmSpscQueue], its ring and blocking operations, [peerAlive].
    - Lifecycle.v: [create], [attach], [bind], [validate], [detach], [waitForPeer],
      the moves.
    - Resources.v: the operating system as a class [Posix] with the documented
      effect of each call as laws [PosixOk].  Properties: [create] and [attach] leak
      no descriptor, mapping or name on any path.  Only resources are meant: an access
      to a slot is always allowed there.  Module Kernel is a concrete instance.
    - Timing.v: on systems whose calls take a bounded time ([Prompt]), the timeouts of
      [attach] and [waitForPeer] are deadlines on the clock, not numbers of rounds.
    - Objects.v: names, objects and sizes, as laws [ObjectsOk] (the system may make an
      object larger than asked).  Properties: [create] and [open] round trip; what [remove] and [exists] do.  Module Store is a
      concrete, executable instance.
    - Claim.v: at most one live process owns a role.
    - Shm.v, Ring.v: the segment's contents; the ring arithmetic: the code's index
      computations are differences of push and pop counts.
    - Sequential.v, Refinement.v: each operation run alone, and the refinement: every
      sequence of calls behaves as a bounded FIFO; a batch equals its elements one by
      one; [pop()] on an empty queue.
    - Blocking.v: wait-freedom of the non-blocking operations; the outcomes of the
      blocking [push].
    - Interference.v: the blocking [pop] next to a producer that pushes, detaches or
      crashes: false means gone and drained.
    - Session.v: [detach], [bind], [validate] on the segment; moves, self-moves included.
    - RaMemory.v, RelyGuarantee.v: the release/acquire memory, and a rely-guarantee
      logic for any machine, stated against an abstract [Protocol].
    - SpscProtocol.v: the protocol of the ring: what each side may rely on, its
      knowledge, and the rules for its accesses; it discharges [ProtocolOk].
    - Concurrent.v: the operations verified in the logic.
    - Delivery.v: arbitrary client programs on both sides: no undefined behaviour,
      first-in-first-out delivery, the range of [size()].
    - Quiescent.v: after any concurrent run, at rest: everything sent can be received,
      the space comes back, and the operations answer exactly.
    - Fleet.v: the same for several queues and a clock, with a predicate on the
      elements of each queue that clients may rely on.
    - Footprint.v: what an operation can touch whatever the peer does: no resource, and
      only its own ring as long as the indices it loads are below the ring size.
    - System.v: what [create] and [attach] leave behind is where Delivery.v starts.
    - Caveats.v: executions a reader of the documentation would not expect.
    - Message.v: the message format, the checksum and the consumer's verdict.
    - Demo.v: the loops of the two demo programs, and the demo end to end.
    - Bench.v: the transfer loops of [src/bench_throughput.cpp].
    - Latency.v: the ping-pong of [src/bench_latency.cpp]: its samples are the
      differences of the clock readings and stamps they claim to be.
    - Programs.v: the four [main] functions on all their paths: what resources they
      leave behind, and what happens when [fork] fails.

    ** Bounds and fuel

    The ring arithmetic holds for [2 <= n <= 2 ^ 63] slots: fewer are never created,
    and more cannot be mapped, as a mapping's length is an [off_t].  The code's
    unbounded loops take a fuel, and [None] is "still looping": the spins of [push]
    and [pop] ([peerCheckSpins + 1] attempts are enough against a dead peer), the
    polls of [attach] (more polls than the timeout has milliseconds are enough), the
    waits of [waitForPeer] (likewise), and the weak compare-exchange of [bind], which
    may fail spuriously without bound (one round is enough when it does not).  So do
    the loops of the programs: a loop over messages has one round more than messages,
    the spins around [try_push] and [try_pop] and the consumer's loop any number.  The
    statistics are exact for up to [2 ^ 53] samples, where sizes are exact in [double].

    ** Not modelled

    Mixed-size accesses (the code has none) and sequential consistency (the one
    default-ordered load, of the pid demo_consumer prints, is taken as an acquire
    load); a copy of an element is one access, torn copies being excluded by the
    race-freedom theorem; pid reuse (the code calls its liveness probe advisory);
    failing allocations; the parsing of arguments; the text that is printed, with the
    rates computed for it; the removal of names by third processes while a program
    runs; the tests and build files. *)

From stdpp Require Export base list gmap strings.
From stdpp Require Import numbers.
From Stdlib Require Export ZArith Lia Ascii.

#[global] Open Scope Z_scope.

(** ** Machine integers

    The code uses [std::uint64_t], [std::size_t] (64 bits on every platform the
    layout assertions allow), [std::uint32_t] and [std::int32_t].  A value of a
    w-bit type is a [Z] in its range; every arithmetic operation of the source
    that can wrap is followed by the matching wrap function. *)

Declare Scope word_scope.
Delimit Scope word_scope with word.

Definition W64 : Z := 2 ^ 64.
Definition W32 : Z := 2 ^ 32.

Definition u64 (z : Z) : Z := z mod W64.
Definition u32 (z : Z) : Z := z mod W32.
Definition i32 (z : Z) : Z := (z + 2 ^ 31) mod W32 - 2 ^ 31.

Notation "x +64 y" := (u64 (x + y)) (at level 50, left associativity) : word_scope.
Notation "x -64 y" := (u64 (x - y)) (at level 50, left associativity) : word_scope.
Notation "x *64 y" := (u64 (x * y)) (at level 40, left associativity) : word_scope.
Notation "x *32 y" := (u32 (x * y)) (at level 40, left associativity) : word_scope.

Definition kSizeMax : Z := W64 - 1.

Create HintDb word.
Create Rewrite HintDb word.

Lemma u64_small z : 0 <= z < W64 -> u64 z = z.
Proof. apply Z.mod_small. Qed.

Lemma u32_small z : 0 <= z < W32 -> u32 z = z.
Proof. apply Z.mod_small. Qed.

Lemma u64_range z : 0 <= u64 z < W64.
Proof. apply Z.mod_pos_bound. reflexivity. Qed.

Lemma u32_range z : 0 <= u32 z < W32.
Proof. apply Z.mod_pos_bound. reflexivity. Qed.

Lemma u64_idemp z : u64 (u64 z) = u64 z.
Proof. apply u64_small, u64_range. Qed.

Lemma W64_val : W64 = 18446744073709551616.
Proof. reflexivity. Qed.

Lemma W32_val : W32 = 4294967296.
Proof. reflexivity. Qed.

Lemma kSizeMax_val : kSizeMax = 18446744073709551615.
Proof. reflexivity. Qed.

#[export] Hint Resolve u64_range u32_range : word.
#[export] Hint Rewrite u64_small u32_small using (rewrite ?W64_val, ?W32_val in *; lia) : word.

(** [W64] and [W32] stay folded in goals and are revealed to [lia] only. *)
#[global] Opaque W64 W32 kSizeMax.
Ltac word_lia := rewrite ?kSizeMax_val, ?W64_val, ?W32_val in *; lia.
Ltac word := autorewrite with word.

(** ** Boolean tests

    [case_Z] splits on the first integer comparison the goal branches on. *)
Ltac case_Z :=
  match goal with
  | |- context [if (?a =? ?b)%Z then _ else _] => destruct (Z.eqb_spec a b)
  | |- context [if (?a <? ?b)%Z then _ else _] => destruct (Z.ltb_spec a b)
  | |- context [if (?a <=? ?b)%Z then _ else _] => destruct (Z.leb_spec a b)
  | |- context [if (?a >? ?b)%Z then _ else _] => rewrite (Z.gtb_ltb a b)
  | |- context [if (?a >=? ?b)%Z then _ else _] => rewrite (Z.geb_leb a b)
  end.

Tactic Notation "case_Z" "in" hyp(H) :=
  match type of H with
  | context [if (?a =? ?b)%Z then _ else _] => destruct (Z.eqb_spec a b)
  | context [if (?a <? ?b)%Z then _ else _] => destruct (Z.ltb_spec a b)
  | context [if (?a <=? ?b)%Z then _ else _] => destruct (Z.leb_spec a b)
  | context [if (?a >? ?b)%Z then _ else _] => rewrite (Z.gtb_ltb a b) in H
  | context [if (?a >=? ?b)%Z then _ else _] => rewrite (Z.geb_leb a b) in H
  end.

(** ** Pointwise update of a function *)
Definition fupd {A B} `{EqDecision A} (a : A) (b : B) (f : A -> B) : A -> B :=
  fun x => if decide (x = a) then b else f x.

Lemma fupd_eq {A B} `{EqDecision A} (a : A) (b : B) f : fupd a b f a = b.
Proof. unfold fupd. by rewrite decide_True. Qed.

Lemma fupd_ne {A B} `{EqDecision A} (a x : A) (b : B) f : x <> a -> fupd a b f x = f x.
Proof. intros. unfold fupd. by rewrite decide_False. Qed.

Create HintDb fupd.
Create Rewrite HintDb fupd.
#[export] Hint Rewrite @fupd_eq : fupd.
#[export] Hint Rewrite @fupd_ne using (first [done | congruence | lia]) : fupd.

(** ** Positions modulo the ring size

    The ring stores the [k]-th element ever pushed at slot [k mod n].  These are
    the only facts on [mod] the development needs. *)
Section modulo.
Context (n : Z) (Hn : 0 < n).

Lemma mod_range k : 0 <= k mod n < n.
Proof. by apply Z.mod_pos_bound. Qed.

Lemma mod_shift k d : 0 <= k mod n + d -> k mod n + d < n -> (k + d) mod n = k mod n + d.
Proof.
  intros. rewrite <- Z.add_mod_idemp_l by lia. apply Z.mod_small. lia.
Qed.

Lemma mod_shift_wrap k d :
  n <= k mod n + d -> k mod n + d < 2 * n -> (k + d) mod n = k mod n + d - n.
Proof.
  intros. rewrite <- Z.add_mod_idemp_l by lia.
  transitivity ((k mod n + d - n + 1 * n) mod n); [f_equal; lia|].
  rewrite Z.mod_add by lia. apply Z.mod_small. lia.
Qed.

Lemma mod_succ k : (k + 1) mod n = if k mod n + 1 =? n then 0 else k mod n + 1.
Proof.
  pose proof (mod_range k). case_Z.
  - rewrite mod_shift_wrap by lia. lia.
  - apply mod_shift; lia.
Qed.

Lemma mod_inj k k' : k mod n = k' mod n -> Z.abs (k - k') < n -> k = k'.
Proof.
  intros He Hd.
  pose proof (Z.div_mod k n ltac:(lia)). pose proof (Z.div_mod k' n ltac:(lia)).
  assert (k / n = k' / n) by nia. nia.
Qed.

Lemma mod_sub_ge p c : 0 <= p - c < n -> c mod n <= p mod n -> p mod n - c mod n = p - c.
Proof.
  intros. pose proof (mod_range c). pose proof (mod_range p).
  pose proof (Z.div_mod p n ltac:(lia)). pose proof (Z.div_mod c n ltac:(lia)).
  assert (p / n = c / n) by nia. nia.
Qed.

Lemma mod_sub_lt p c : 0 <= p - c < n -> p mod n < c mod n -> p mod n + n - c mod n = p - c.
Proof.
  intros. pose proof (mod_range c). pose proof (mod_range p).
  pose proof (Z.div_mod p n ltac:(lia)). pose proof (Z.div_mod c n ltac:(lia)).
  assert (p / n = c / n + 1) by nia. nia.
Qed.
End modulo.

(** ** Lists indexed by integers *)
Definition zlen {A} (l : list A) : Z := Z.of_nat (length l).
Definition ztake {A} (k : Z) (l : list A) : list A := take (Z.to_nat k) l.
Definition zdrop {A} (k : Z) (l : list A) : list A := drop (Z.to_nat k) l.

Lemma zlen_nonneg {A} (l : list A) : 0 <= zlen l.
Proof. unfold zlen. lia. Qed.

Lemma zlen_app {A} (l k : list A) : zlen (l ++ k) = zlen l + zlen k.
Proof. unfold zlen. rewrite length_app. lia. Qed.

Lemma zlen_nil {A} : zlen (@nil A) = 0.
Proof. done. Qed.

Lemma zlen_cons {A} (x : A) l : zlen (x :: l) = zlen l + 1.
Proof. unfold zlen. simpl. lia. Qed.

Lemma zlen_ztake {A} k (l : list A) : 0 <= k <= zlen l -> zlen (ztake k l) = k.
Proof. unfold zlen, ztake. intros. rewrite length_take. lia. Qed.

Lemma zlen_zdrop {A} k (l : list A) : 0 <= k <= zlen l -> zlen (zdrop k l) = zlen l - k.
Proof. unfold zlen, zdrop. intros. rewrite length_drop. lia. Qed.

Lemma ztake_zdrop {A} k (l : list A) : ztake k l ++ zdrop k l = l.
Proof. apply take_drop. Qed.

Lemma ztake_split {A} i j (l : list A) :
  0 <= i <= j -> ztake i l ++ ztake (j - i) (zdrop i l) = ztake j l.
Proof.
  intros. unfold ztake, zdrop. replace (Z.to_nat j) with (Z.to_nat i + Z.to_nat (j - i))%nat by lia.
  apply take_take_drop.
Qed.

Lemma prefix_ztake {A} k (l l' : list A) : l `prefix_of` l' -> zlen l <= k -> l `prefix_of` ztake k l'.
Proof.
  intros [r ->] Hk. unfold ztake, zlen in *. rewrite take_app_ge by lia. by apply prefix_app_r.
Qed.

Lemma prefix_lookup_zlt {A} (l l' : list A) k :
  l `prefix_of` l' -> 0 <= k < zlen l -> l' !! Z.to_nat k = l !! Z.to_nat k.
Proof. intros [r ->] Hk. apply lookup_app_l. unfold zlen in Hk. lia. Qed.

Lemma prefix_snoc {A} (l k : list A) v :
  l `prefix_of` k -> k !! length l = Some v -> l ++ [v] `prefix_of` k.
Proof.
  intros [[|v' r] ->] Hv; rewrite lookup_app_r, Nat.sub_diag in Hv by lia; simplify_eq/=.
  exists r. by rewrite <- app_assoc.
Qed.

Create HintDb zlist.
Create Rewrite HintDb zlist.
#[export] Hint Rewrite @zlen_app @zlen_nil @zlen_cons : zlist.
#[export] Hint Rewrite @zlen_ztake @zlen_zdrop using lia : zlist.
#[export] Hint Resolve zlen_nonneg : zlist.
Ltac zl := autorewrite with zlist in *.
