(* ===== verification/Binary64.v ===== *)
(** * Double precision, as far as [percentile] uses it

    The source computes an index as [p * (size - 1)] in [double].  The arithmetic is
    the one of [SpecFloat] at precision 53 and maximal exponent 1024: the conversion
    of a [size_t] and the product are rounded to nearest, ties to even, and the
    conversion back truncates.  The lemmas evaluate it for a factor in [0.5, 1) and
    a size below [2 ^ 53]: the result is the rounding of the exact product, which is
    between its floor and its ceiling and grows with the factor. *)

From Stdlib Require Export Floats.SpecFloat.
From S2P Require Import Prelude.
#[local] Open Scope Z_scope.

Definition double : Type := spec_float.

(** [static_cast<double>] of a [size_t], and the product. *)
Definition double_of_size (n : Z) : double := binary_normalize 53 1024 n 0 false.
Definition double_mul (x y : double) : double := SFmul 53 1024 x y.

(** [static_cast<std::size_t>] of a double drops the fraction; out of range it is
    undefined. *)
Definition truncated (m e : Z) : Z := if e <? 0 then m / 2 ^ (- e) else m * 2 ^ e.
Definition size_of_double (x : double) : option Z :=
  match x with
  | S754_zero _ => Some 0
  | S754_finite s m e =>
      let i := truncated (Zpos m) e in
      let i := if s then - i else i in
      if (0 <=? i) && (i <? W64) then Some i else None
  | _ => None
  end.

(** ** Powers of two *)
Lemma pow2_pos k : 0 <= k -> 0 < 2 ^ k.
Proof. intros. apply Z.pow_pos_nonneg; lia. Qed.

Lemma pow2_split a b : 0 <= a -> 0 <= b -> 2 ^ (a + b) = 2 ^ a * 2 ^ b.
Proof. apply Z.pow_add_r. Qed.

Lemma digits2_spec p : 2 ^ (Zpos (digits2_pos p) - 1) <= Zpos p < 2 ^ Zpos (digits2_pos p).
Proof.
  induction p as [p IH|p IH|]; cbn [digits2_pos]; [| |done].
  all: rewrite Pos2Z.inj_succ; set (d := Zpos (digits2_pos p)) in *.
  all: assert (1 <= d) by (subst d; lia).
  all: replace (Z.succ d - 1) with (Z.succ (d - 1)) by lia.
  all: rewrite !Z.pow_succ_r by lia; lia.
Qed.

Lemma digits2_unique p d : 0 < d -> 2 ^ (d - 1) <= Zpos p < 2 ^ d -> Zpos (digits2_pos p) = d.
Proof.
  intros Hd Hp. pose proof (digits2_spec p). set (k := Zpos (digits2_pos p)) in *.
  assert (0 < k) by (subst k; lia).
  assert (d - 1 < k) by (apply (Z.pow_lt_mono_r_iff 2); lia).
  assert (k - 1 < d) by (apply (Z.pow_lt_mono_r_iff 2); lia). lia.
Qed.

(** ** Shifting right with a sticky bit *)
Lemma iter_pos_nat {A} (f : A -> A) p x : SpecFloat.iter_pos f p x = Nat.iter (Pos.to_nat p) f x.
Proof.
  revert x. induction p as [p IH|p IH|]; intros x; cbn [SpecFloat.iter_pos]; [..|done]; rewrite !IH.
  - rewrite <- Nat.iter_add, <- Nat.iter_succ_r. f_equal. lia.
  - rewrite <- Nat.iter_add. f_equal. lia.
Qed.

Lemma shr_1_spec m r s :
  0 <= m -> shr_1 (Build_shr_record m r s) = Build_shr_record (m / 2) (Z.odd m) (r || s).
Proof.
  intros Hm. rewrite <- Z.div2_div. destruct m as [|[p|p|]|p]; try reflexivity. lia.
Qed.

Lemma div_mod_pow2_succ m k :
  0 <= k -> m / 2 ^ (k + 1) = m / 2 ^ k / 2 /\
            m mod 2 ^ (k + 1) = m mod 2 ^ k + 2 ^ k * Z.b2z (Z.odd (m / 2 ^ k)).
Proof.
  intros Hk. pose proof (pow2_pos k Hk). rewrite pow2_split by lia. change (2 ^ 1) with 2. split.
  - symmetry. apply Z.div_div; lia.
  - rewrite Z.rem_mul_r by lia. by rewrite Zmod_odd.
Qed.

(** After [k + 1] steps: the quotient, the last bit dropped, and whether any bit
    was dropped before it. *)
Lemma shr_iter_spec m k :
  0 <= m ->
  Nat.iter (S k) shr_1 (Build_shr_record m false false) =
  Build_shr_record (m / 2 ^ (Z.of_nat k + 1)) (Z.odd (m / 2 ^ Z.of_nat k))
    (negb (m mod 2 ^ Z.of_nat k =? 0)).
Proof.
  intros Hm. induction k as [|k IH].
  { change (Nat.iter 1 shr_1 ?x) with (shr_1 x). rewrite shr_1_spec by done.
    change (2 ^ Z.of_nat 0) with 1. by rewrite Z.div_1_r, Z.mod_1_r. }
  rewrite Nat.iter_succ, IH. pose proof (pow2_pos (Z.of_nat k) ltac:(lia)).
  destruct (div_mod_pow2_succ m (Z.of_nat k)) as [Hq Hr]; [lia|].
  destruct (div_mod_pow2_succ m (Z.of_nat k + 1)) as [Hq' _]; [lia|].
  pose proof (Z.mod_pos_bound m (2 ^ Z.of_nat k) ltac:(lia)).
  rewrite shr_1_spec by (apply Z.div_pos; [lia|apply pow2_pos; lia]).
  replace (Z.of_nat (S k)) with (Z.of_nat k + 1) by lia. rewrite Hq', Hr.
  f_equal. destruct (Z.odd (m / 2 ^ Z.of_nat k)); cbn [Z.b2z orb].
  - destruct (Z.eqb_spec (m mod 2 ^ Z.of_nat k + 2 ^ Z.of_nat k * 1) 0); [lia|done].
  - by rewrite Z.mul_0_r, Z.add_0_r.
Qed.

(** ** Rounding to nearest, ties to even

    The reference definition: [m / 2 ^ k], with one added when the remainder is
    more than half, or half and the quotient odd. *)
Definition nearest (m k : Z) : Z :=
  let q := m / 2 ^ k in
  match 2 * (m mod 2 ^ k) ?= 2 ^ k with
  | Lt => q
  | Eq => if Z.even q then q else q + 1
  | Gt => q + 1
  end.

Lemma nearest_shr m k :
  0 <= m ->
  let mrs := Nat.iter (S k) shr_1 (Build_shr_record m false false) in
  round_nearest_even (shr_m mrs) (loc_of_shr_record mrs) = nearest m (Z.of_nat k + 1).
Proof.
  intros Hm. cbv zeta. rewrite shr_iter_spec by done. cbn [shr_m]. unfold nearest.
  destruct (div_mod_pow2_succ m (Z.of_nat k)) as [_ Hr]; [lia|]. rewrite Hr.
  pose proof (pow2_pos (Z.of_nat k) ltac:(lia)).
  pose proof (Z.mod_pos_bound m (2 ^ Z.of_nat k) ltac:(lia)).
  set (q := m / 2 ^ (Z.of_nat k + 1)). rewrite pow2_split by lia. change (2 ^ 1) with 2.
  destruct (Z.odd (m / 2 ^ Z.of_nat k)); cbn [Z.b2z];
    destruct (Z.eqb_spec (m mod 2 ^ Z.of_nat k) 0); cbn [negb loc_of_shr_record round_nearest_even].
  - destruct (Z.compare_spec (2 * (m mod 2 ^ Z.of_nat k + 2 ^ Z.of_nat k * 1)) (2 ^ Z.of_nat k * 2)); lia || done.
  - destruct (Z.compare_spec (2 * (m mod 2 ^ Z.of_nat k + 2 ^ Z.of_nat k * 1)) (2 ^ Z.of_nat k * 2)); lia || done.
  - destruct (Z.compare_spec (2 * (m mod 2 ^ Z.of_nat k + 2 ^ Z.of_nat k * 0)) (2 ^ Z.of_nat k * 2)); lia || done.
  - destruct (Z.compare_spec (2 * (m mod 2 ^ Z.of_nat k + 2 ^ Z.of_nat k * 0)) (2 ^ Z.of_nat k * 2)); lia || done.
Qed.

(** It is one of the two neighbours, exact on multiples, and monotone. *)
Lemma nearest_bounds m k :
  0 <= k -> m / 2 ^ k <= nearest m k /\ (forall b, m <= b * 2 ^ k -> nearest m k <= b).
Proof.
  intros Hk. pose proof (pow2_pos k Hk). unfold nearest.
  pose proof (Z.div_mod m (2 ^ k) ltac:(lia)) as Hd. pose proof (Z.mod_pos_bound m (2 ^ k) ltac:(lia)).
  split; [destruct (2 * _ ?= _); [destruct (Z.even _)|..]; lia|]. intros b Hb.
  assert (m / 2 ^ k <= b) by (apply Z.div_le_upper_bound; lia).
  destruct (Z.compare_spec (2 * (m mod 2 ^ k)) (2 ^ k)); [destruct (Z.even _)|..]; try lia; nia.
Qed.

Lemma nearest_mono m m' k : 0 <= k -> m <= m' -> nearest m k <= nearest m' k.
Proof.
  intros Hk Hle. pose proof (pow2_pos k Hk).
  destruct (Z.eq_dec (m / 2 ^ k) (m' / 2 ^ k)) as [Hq|Hq].
  - pose proof (Z.div_mod m (2 ^ k) ltac:(lia)). pose proof (Z.div_mod m' (2 ^ k) ltac:(lia)).
    unfold nearest. rewrite <- Hq in *.
    destruct (Z.compare_spec (2 * (m mod 2 ^ k)) (2 ^ k)), (Z.compare_spec (2 * (m' mod 2 ^ k)) (2 ^ k));
      destruct (Z.even (m / 2 ^ k)); lia.
  - assert (m / 2 ^ k <= m' / 2 ^ k) by (apply Z.div_le_mono; lia).
    destruct (nearest_bounds m k Hk) as [_ Hup]. destruct (nearest_bounds m' k Hk) as [Hlo _].
    etransitivity; [|exact Hlo]. apply Hup.
    pose proof (Z.div_mod m (2 ^ k) ltac:(lia)). pose proof (Z.mod_pos_bound m (2 ^ k) ltac:(lia)). nia.
Qed.

Lemma nearest_exact q k : 0 <= k -> nearest (q * 2 ^ k) k = q.
Proof.
  intros Hk. pose proof (pow2_pos k Hk). unfold nearest. rewrite Z.div_mul, Z.mod_mul by lia.
  destruct (Z.compare_spec (2 * 0) (2 ^ k)); lia.
Qed.

(** ** The operations on a positive number *)

(** A mantissa of 53 bits is not rounded. *)
Lemma shr_fexp_53 p e :
  2 ^ 52 <= Zpos p < 2 ^ 53 -> -1074 <= e ->
  shr_fexp 53 1024 (Zpos p) e loc_Exact = (Build_shr_record (Zpos p) false false, e).
Proof.
  intros Hp He. unfold shr_fexp. cbn [Zdigits2]. rewrite (digits2_unique p 53) by lia.
  unfold fexp, emin. replace (Z.max (53 + e - 53) (3 - 1024 - 53) - e) with 0 by lia. done.
Qed.

Lemma binary_round_53 p e :
  2 ^ 52 <= Zpos p < 2 ^ 53 -> -1074 <= e <= 971 ->
  binary_round_aux 53 1024 false (Zpos p) e loc_Exact = S754_finite false p e.
Proof.
  intros Hp He. unfold binary_round_aux. rewrite shr_fexp_53 by lia.
  cbn [shr_m loc_of_shr_record round_nearest_even]. rewrite shr_fexp_53 by lia. cbn [shr_m].
  case_Z; [done|lia].
Qed.

Lemma truncated_shift e : truncated (2 ^ 52) (e + 1) = truncated (2 ^ 53) e.
Proof.
  unfold truncated. destruct (Z.ltb_spec (e + 1) 0), (Z.ltb_spec e 0); try lia.
  - replace (- e) with (- (e + 1) + 1) by lia. rewrite pow2_split by lia.
    change (2 ^ 53) with (2 ^ 52 * 2). change (2 ^ 1) with 2. pose proof (pow2_pos (- (e + 1))).
    by rewrite Z.div_mul_cancel_r by lia.
  - assert (e = -1) as -> by lia. done.
  - rewrite pow2_split by lia. change (2 ^ 53) with (2 ^ 52 * 2). change (2 ^ 1) with 2. lia.
Qed.

(** A longer one is rounded to [nearest]. *)
Lemma binary_round_trunc p e s :
  0 < s -> 2 ^ (52 + s) <= Zpos p < 2 ^ (53 + s) -> -1074 <= e + s < 971 ->
  exists m e', binary_round_aux 53 1024 false (Zpos p) e loc_Exact = S754_finite false m e' /\
    truncated (Zpos m) e' = truncated (nearest (Zpos p) s) (e + s).
Proof.
  intros Hs Hp He. unfold binary_round_aux.
  assert (shr_fexp 53 1024 (Zpos p) e loc_Exact =
          (Nat.iter (S (Z.to_nat (s - 1))) shr_1 (Build_shr_record (Zpos p) false false), e + s)) as ->.
  { unfold shr_fexp. cbn [Zdigits2 shr_record_of_loc].
    rewrite (digits2_unique p (53 + s)); [|lia|by replace (53 + s - 1) with (52 + s) by lia].
    unfold fexp, emin. replace (Z.max (53 + s + e - 53) (3 - 1024 - 53) - e) with s by lia.
    unfold shr. destruct s as [|s|s]; [lia| |lia]. rewrite iter_pos_nat. do 2 f_equal. lia. }
  rewrite nearest_shr by lia. replace (Z.of_nat (Z.to_nat (s - 1)) + 1) with s by lia.
  assert (2 ^ 52 <= nearest (Zpos p) s <= 2 ^ 53) as HR.
  { destruct (nearest_bounds (Zpos p) s) as [Hlo Hup]; [lia|].
    rewrite !pow2_split in Hp by lia. pose proof (pow2_pos s ltac:(lia)). split; [|apply Hup; lia].
    etransitivity; [|exact Hlo]. apply Z.div_le_lower_bound; lia. }
  destruct (nearest (Zpos p) s) as [|r|r]; [lia| |lia].
  destruct (Z.eq_dec (Zpos r) (2 ^ 53)) as [Hr|Hr].
  - rewrite Hr. change (shr_fexp 53 1024 (2 ^ 53) (e + s) loc_Exact) with
      (shr (Build_shr_record (2 ^ 53) false false) (e + s) (fexp 53 1024 (54 + (e + s)) - (e + s))).
    unfold fexp, emin. replace (Z.max (54 + (e + s) - 53) (3 - 1024 - 53) - (e + s)) with 1 by lia.
    simpl shr. cbn [shr_m]. case_Z; [|lia]. do 2 eexists. split; [done|]. apply truncated_shift.
  - rewrite shr_fexp_53 by lia. cbn [shr_m]. case_Z; [|lia]. by do 2 eexists.
Qed.

Lemma double_of_size_pos p d :
  2 ^ (d - 1) <= Zpos p < 2 ^ d -> 0 < d <= 53 ->
  exists m, double_of_size (Zpos p) = S754_finite false m (d - 53) /\ Zpos m = Zpos p * 2 ^ (53 - d).
Proof.
  intros Hp Hd. unfold double_of_size, binary_normalize, binary_round.
  rewrite (digits2_unique p d) by lia. unfold fexp, emin.
  replace (Z.max (d + 0 - 53) (3 - 1024 - 53)) with (d - 53) by lia.
  assert (exists m, shl_align p 0 (d - 53) = (m, d - 53) /\ Zpos m = Zpos p * 2 ^ (53 - d)) as (m & -> & Hm).
  { unfold shl_align. rewrite Z.sub_0_r. destruct (d - 53) as [|q|q] eqn:Hq; [|lia|].
    - exists p. split; [done|]. replace (53 - d) with 0 by lia. lia.
    - eexists. split; [done|]. replace (53 - d) with (Zpos q) by lia.
      change (Pos.iter xO p q) with (shift_pos q p). rewrite shift_pos_correct. apply Z.mul_comm. }
  exists m. split; [|done]. apply binary_round_53; [|lia]. rewrite Hm.
  replace (2 ^ 52) with (2 ^ (d - 1) * 2 ^ (53 - d)) by (rewrite <- pow2_split by lia; f_equal; lia).
  replace (2 ^ 53) with (2 ^ d * 2 ^ (53 - d)) by (rewrite <- pow2_split by lia; f_equal; lia).
  pose proof (pow2_pos (53 - d) ltac:(lia)). nia.
Qed.

(** ** The index computation

    [scaled k m] is the index computed for [m / 2 ^ 53] of [k]. *)
Definition scaled (k m : Z) : Z :=
  let d := Z.log2 k + 1 in
  let pr := m * (k * 2 ^ (53 - d)) in
  let s := if pr <? 2 ^ 105 then 52 else 53 in
  nearest pr s / 2 ^ (106 - d - s).

Section scale.
Context (k : Z) (Hk : 0 < k < 2 ^ 53).
#[local] Abbreviation d := (Z.log2 k + 1).

Lemma size_digits : 2 ^ (d - 1) <= k < 2 ^ d /\ 0 < d <= 53.
Proof.
  destruct (Z.log2_spec k) as [Hlo Hup]; [lia|]. rewrite Z.add_1_r in *.
  split; [by replace (Z.succ (Z.log2 k) - 1) with (Z.log2 k) by lia|].
  pose proof (Z.log2_nonneg k). assert (Z.log2 k < 53) by (by apply Z.log2_lt_pow2; lia). lia.
Qed.

Lemma mantissa_bounds : 2 ^ 52 <= k * 2 ^ (53 - d) < 2 ^ 53.
Proof.
  destruct size_digits as [Hp Hd]. pose proof (pow2_pos (53 - d) ltac:(lia)).
  replace (2 ^ 52) with (2 ^ (d - 1) * 2 ^ (53 - d)) by (rewrite <- pow2_split by lia; f_equal; lia).
  replace (2 ^ 53) with (2 ^ d * 2 ^ (53 - d)) by (rewrite <- pow2_split by lia; f_equal; lia). nia.
Qed.

Lemma product_div m s :
  0 <= s <= 53 -> m * (k * 2 ^ (53 - d)) / 2 ^ s / 2 ^ (106 - d - s) = m * k / 2 ^ 53.
Proof.
  intros Hs. destruct size_digits as [_ Hd].
  pose proof (pow2_pos s). pose proof (pow2_pos (106 - d - s)). pose proof (pow2_pos (53 - d)).
  rewrite Z.div_div, <- pow2_split by lia.
  replace (s + (106 - d - s)) with (53 + (53 - d)) by lia.
  rewrite pow2_split, Z.mul_assoc by lia. apply Z.div_mul_cancel_r; lia.
Qed.

(** Between the floor and the ceiling of the exact product. *)
Lemma scaled_bounds m :
  m * k / 2 ^ 53 <= scaled k m /\ forall b, m * k <= b * 2 ^ 53 -> scaled k m <= b.
Proof.
  destruct size_digits as [_ Hd]. unfold scaled. set (pr := m * (k * 2 ^ (53 - d))).
  assert (exists s, (if pr <? 2 ^ 105 then 52 else 53) = s /\ 0 <= s <= 53) as (s & -> & Hs)
    by (case_Z; eexists; split; done).
  pose proof (pow2_pos s). pose proof (pow2_pos (106 - d - s)).
  destruct (nearest_bounds pr s) as [Hlo Hup]; [lia|]. split.
  - rewrite <- (product_div m s Hs). apply Z.div_le_mono; [lia|exact Hlo].
  - intros b Hb. apply Z.div_le_upper_bound; [lia|]. apply Hup.
    assert (2 ^ (106 - d - s) * b * 2 ^ s = b * 2 ^ 53 * 2 ^ (53 - d)) as ->.
    { rewrite <- Z.mul_assoc, (Z.mul_comm b), Z.mul_assoc, <- pow2_split by lia.
      replace (106 - d - s + s) with (53 + (53 - d)) by lia. rewrite pow2_split by lia. lia. }
    subst pr. rewrite Z.mul_assoc. pose proof (pow2_pos (53 - d)). nia.
Qed.

Lemma double_mul_scaled p :
  2 ^ 52 <= Zpos p < 2 ^ 53 ->
  size_of_double (double_mul (S754_finite false p (-53)) (double_of_size k)) = Some (scaled k (Zpos p)).
Proof.
  intros Hp. destruct size_digits as [Hd1 Hd]. pose proof mantissa_bounds as Hm.
  destruct (scaled_bounds (Zpos p)) as [Hlo Hup]. specialize (Hup k ltac:(nia)).
  assert (0 <= Zpos p * k / 2 ^ 53) by (apply Z.div_pos; lia).
  destruct k as [|kp|kp] eqn:Ek; [lia| |lia]. rewrite <- Ek in *.
  destruct (double_of_size_pos kp d) as (mk & Hof & Hmk); [by rewrite <- Ek|lia|].
  rewrite <- Ek in Hof, Hmk. rewrite Hof. unfold double_mul, SFmul. cbn [xorb].
  set (s := if Zpos p * (k * 2 ^ (53 - d)) <? 2 ^ 105 then 52 else 53).
  assert (0 < s <= 53 /\ 2 ^ (52 + s) <= Zpos (p * mk) < 2 ^ (53 + s)) as [Hs Hpr].
  { rewrite Pos2Z.inj_mul, Hmk. subst s. destruct (Z.ltb_spec (Zpos p * (k * 2 ^ (53 - d))) (2 ^ 105)).
    - split; [lia|]. split; [change (2 ^ (52 + 52)) with (2 ^ 52 * 2 ^ 52); nia|done].
    - split; [lia|]. split; [done|change (2 ^ (53 + 53)) with (2 ^ 53 * 2 ^ 53); nia]. }
  destruct (binary_round_trunc (p * mk) (-53 + (d - 53)) s) as (m & e & -> & Ht); [lia|done|lia|].
  unfold size_of_double. cbv zeta. rewrite Ht, Pos2Z.inj_mul, Hmk.
  assert (truncated (nearest (Zpos p * (k * 2 ^ (53 - d))) s) (-53 + (d - 53) + s) = scaled k (Zpos p)) as ->.
  { unfold scaled, truncated. fold s. destruct (Z.ltb_spec (-53 + (d - 53) + s) 0).
    - do 2 f_equal. lia.
    - replace (106 - d - s) with 0 by lia. replace (-53 + (d - 53) + s) with 0 by lia.
      by rewrite Z.div_1_r, Z.mul_1_r. }
  destruct (Z.leb_spec 0 (scaled k (Zpos p))), (Z.ltb_spec (scaled k (Zpos p)) W64); try lia; [done|].
  exfalso. word_lia.
Qed.

Lemma scaled_mono m m' : 2 ^ 52 <= m -> m <= m' -> m' < 2 ^ 53 -> scaled k m <= scaled k m'.
Proof.
  intros H1 H2 H3. destruct size_digits as [_ Hd]. pose proof mantissa_bounds as Hm.
  assert (m * (k * 2 ^ (53 - d)) <= m' * (k * 2 ^ (53 - d))) as Hle by nia.
  unfold scaled. set (x := m * (k * 2 ^ (53 - d))) in *. set (x' := m' * (k * 2 ^ (53 - d))) in *.
  assert (forall s, 0 <= s <= 53 -> nearest x s / 2 ^ (106 - d - s) <= nearest x' s / 2 ^ (106 - d - s)) as Hsame.
  { intros s Hs. apply Z.div_le_mono; [apply pow2_pos; lia|apply nearest_mono; lia]. }
  destruct (Z.ltb_spec x (2 ^ 105)), (Z.ltb_spec x' (2 ^ 105)); try lia; [by apply Hsame| |by apply Hsame].
  pose proof (pow2_pos (d - 1)). pose proof (pow2_pos (106 - d - 52)). pose proof (pow2_pos (106 - d - 53)).
  transitivity (2 ^ (d - 1)).
  - apply Z.div_le_upper_bound; [lia|]. rewrite <- pow2_split by lia.
    replace (106 - d - 52 + (d - 1)) with 53 by lia. apply (nearest_bounds x 52); [lia|]. lia.
  - apply Z.div_le_lower_bound; [lia|]. rewrite <- pow2_split by lia.
    replace (106 - d - 53 + (d - 1)) with 52 by lia.
    etransitivity; [|exact (proj1 (nearest_bounds x' 53 ltac:(lia)))]. apply Z.div_le_lower_bound; lia.
Qed.

(** Half of [k] is exact, and truncated. *)
Lemma scaled_half : scaled k (2 ^ 52) = k / 2.
Proof.
  destruct size_digits as [_ Hd]. pose proof mantissa_bounds as Hm. unfold scaled.
  set (x := k * 2 ^ (53 - d)) in *. destruct (Z.ltb_spec (2 ^ 52 * x) (2 ^ 105)); [|lia].
  rewrite (Z.mul_comm (2 ^ 52)), nearest_exact by lia. subst x.
  replace (106 - d - 52) with (1 + (53 - d)) by lia. pose proof (pow2_pos (53 - d)).
  rewrite pow2_split by lia. change (2 ^ 1) with 2. apply Z.div_mul_cancel_r; lia.
Qed.
End scale.

(** The same with a size of zero, where the product is zero. *)
Lemma scaled_0 m : scaled 0 m = 0.
Proof. unfold scaled. by rewrite Z.mul_0_l, Z.mul_0_r. Qed.

Section size.
Context (k : Z) (Hk : 0 <= k < 2 ^ 53).

Lemma index_scaled p :
  2 ^ 52 <= Zpos p < 2 ^ 53 ->
  size_of_double (double_mul (S754_finite false p (-53)) (double_of_size k)) = Some (scaled k (Zpos p)).
Proof.
  destruct (Z.eq_dec k 0) as [->|]; [by rewrite scaled_0|]. intros. apply double_mul_scaled; lia.
Qed.

Lemma index_bounds m :
  0 <= m -> 0 <= scaled k m /\ m * k / 2 ^ 53 <= scaled k m /\
  forall b, m * k <= b * 2 ^ 53 -> scaled k m <= b.
Proof.
  intros Hm. destruct (Z.eq_dec k 0) as [->|].
  - rewrite scaled_0, Z.mul_0_r. split_and!; [done|done|]. intros b Hb. lia.
  - destruct (scaled_bounds k ltac:(lia) m) as [Hlo Hup]. split_and!; [|done|done].
    etransitivity; [|exact Hlo]. apply Z.div_pos; nia.
Qed.

Lemma index_mono m m' : 2 ^ 52 <= m -> m <= m' -> m' < 2 ^ 53 -> scaled k m <= scaled k m'.
Proof.
  destruct (Z.eq_dec k 0) as [->|]; [by rewrite !scaled_0|]. apply scaled_mono. lia.
Qed.

Lemma index_half : scaled k (2 ^ 52) = k / 2.
Proof. destruct (Z.eq_dec k 0) as [->|]; [by rewrite scaled_0|]. apply scaled_half. lia. Qed.
End size.
