(* ===== verification/Prog.v ===== *)
(** * Programs over effects

    A C++ function that touches shared memory or the operating system is a
    [prog E A]: a tree whose inner nodes are the primitive accesses it performs,
    in program order, and whose leaves are its results.  The same tree is given
    three meanings: [run] executes it alone (this file), the interleaved
    release/acquire machine executes it next to its peer, and [wp] is the logic
    the latter is verified in. *)

From S2P Require Import Prelude.

Inductive prog (E : Type -> Type) (A : Type) : Type :=
| Ret (a : A)
| Vis (X : Type) (e : E X) (k : X -> prog E A).
Arguments Ret {E A} a.
Arguments Vis {E A X} e k.

Declare Scope prog_scope.
Delimit Scope prog_scope with prog.

Fixpoint bind {E A B} (p : prog E A) (f : A -> prog E B) : prog E B :=
  match p with
  | Ret a => f a
  | Vis e k => Vis e (fun x => bind (k x) f)
  end.

(** A single access. *)
Definition act {E X} (e : E X) : prog E X := Vis e Ret.

Notation "'let*' x := c 'in' k" := (bind c (fun x => k))
  (at level 10, x pattern, c at level 200, k at level 200) : prog_scope.
Notation "c ;; k" := (bind c (fun _ => k))
  (at level 100, k at level 200, right associativity) : prog_scope.

(** ** Exceptions

    A function that may throw returns [exn + A]. *)
Inductive exn : Type :=
| invalid_argument (what : string)
| runtime_error (what : string)
| system_error (errno : Z) (what : string).

Definition throw {E A} (e : exn) : prog E (exn + A) := Ret (inl e).
Definition ok {E A} (a : A) : prog E (exn + A) := Ret (inr a).
Definition try_bind {E A B} (p : prog E (exn + A)) (f : A -> prog E (exn + B)) :
    prog E (exn + B) :=
  bind p (fun r => match r with inl e => Ret (inl e) | inr a => f a end).
Notation "'let?' x := c 'in' k" := (try_bind c (fun x => k))
  (at level 10, x pattern, c at level 200, k at level 200) : prog_scope.

(** ** Running a program alone

    A handler gives each access its effect on a world; [None] is undefined
    behaviour (an access outside the mapping, a failed assertion). *)
Definition handler (E : Type -> Type) (W : Type) : Type :=
  forall X, E X -> W -> option (X * W).

Fixpoint run {E W A} (h : handler E W) (p : prog E A) (w : W) : option (A * W) :=
  match p with
  | Ret a => Some (a, w)
  | Vis e k =>
      match h _ e w with
      | Some (x, w') => run h (k x) w'
      | None => None
      end
  end.

Lemma run_bind {E W A B} (h : handler E W) (p : prog E A) (f : A -> prog E B) w :
  run h (bind p f) w =
  match run h p w with Some (a, w') => run h (f a) w' | None => None end.
Proof.
  revert w. induction p as [a|X e k IH]; intros w; simpl; [done|].
  destruct (h X e w) as [[x w']|]; auto.
Qed.

Lemma run_bind_Some {E W A B} (h : handler E W) (p : prog E A) (f : A -> prog E B) w a w' :
  run h p w = Some (a, w') -> run h (bind p f) w = run h (f a) w'.
Proof. intros H. rewrite run_bind, H. done. Qed.

Lemma bind_assoc {E W A B C} (p : prog E A) (f : A -> prog E B) (g : B -> prog E C)
    (h : handler E W) w :
  run h (bind (bind p f) g) w = run h (bind p (fun a => bind (f a) g)) w.
Proof.
  rewrite !run_bind. destruct (run h p w) as [[a w']|]; [|done]. by rewrite run_bind.
Qed.

(** ** Results that do not depend on the answers *)
Fixpoint always {E A} (P : A -> Prop) (p : prog E A) : Prop :=
  match p with
  | Ret a => P a
  | Vis e k => forall x, always P (k x)
  end.

Lemma always_seq {E A B} (P : A -> Prop) (Q : B -> Prop) (p : prog E A) (f : A -> prog E B) :
  always P p -> (forall a, P a -> always Q (f a)) -> always Q (bind p f).
Proof. intros Hp Hf. induction p as [a|X e k IH]; simpl in *; auto. Qed.

Lemma always_bind {E A B} (P : B -> Prop) (p : prog E A) (f : A -> prog E B) :
  (forall a, always P (f a)) -> always P (bind p f).
Proof. intros Hf. induction p as [a|X e k IH]; simpl; auto. Qed.

Lemma always_trivial {E A} (p : prog E A) : always (fun _ => True) p.
Proof. induction p; simpl; auto. Qed.

Lemma always_mono {E A} (P Q : A -> Prop) (p : prog E A) :
  always P p -> (forall a, P a -> Q a) -> always Q p.
Proof. induction p; simpl; eauto. Qed.

(** ** Observing a program

    [traced] runs the program and lists what [obs] observes of its accesses and their
    answers, after [tr]. *)
Fixpoint traced {E A O} (obs : forall X, E X -> X -> list O) (p : prog E A) (tr : list O) :
    prog E (A * list O) :=
  match p with
  | Ret a => Ret (a, tr)
  | Vis e k => Vis e (fun x => traced obs (k x) (tr ++ obs _ e x))
  end.
