(* ===== verification/Effects.v ===== *)
(** * The accesses the code performs

    [memE] are the accesses to the mapped segment: atomic loads, stores and
    compare-exchanges on the control block with their C++ memory order, plain
    accesses to the control block's geometry fields, and plain copies of one
    element in or out of the slot array.  [osE] are the calls that leave the
    process.  Pointers are integer addresses of the calling process's own address
    space; 0 is [nullptr]. *)

From S2P Require Import Prelude Prog.

Inductive Role : Type := Producer | Consumer.

#[export] Instance Role_eq_dec : EqDecision Role.
Proof. solve_decision. Defined.

Definition peer (r : Role) : Role :=
  match r with Producer => Consumer | Consumer => Producer end.

Inductive memory_order : Type := relaxed | acquire | release | acq_rel.

(** [memory_order_acquire] or stronger, [memory_order_release] or stronger. *)
Definition is_acquire (o : memory_order) : bool :=
  match o with acquire | acq_rel => true | _ => false end.
Definition is_release (o : memory_order) : bool :=
  match o with release | acq_rel => true | _ => false end.

(** The atomic members of [ControlBlock]. *)
Inductive afield : Type := producerPid | consumerPid | ready | writeIdx | readIdx.

#[export] Instance afield_eq_dec : EqDecision afield.
Proof. solve_decision. Defined.

(** The plain members of [ControlBlock]. *)
Inductive hfield : Type :=
| magic | capacity | totalBytes | version | cacheLineSize | elemSize | elemAlign
| slotsOffset.

#[export] Instance hfield_eq_dec : EqDecision hfield.
Proof. solve_decision. Defined.

Inductive memE (T : Type) : Type -> Type :=
| ALoad (ctrl : Z) (f : afield) (o : memory_order) : memE T Z
| AStore (ctrl : Z) (f : afield) (v : Z) (o : memory_order) : memE T unit
| ACas (weak : bool) (ctrl : Z) (f : afield) (expected desired : Z)
    (succ fail : memory_order) : memE T (bool * Z)
| FLoad (ctrl : Z) (f : hfield) : memE T Z
| FStore (ctrl : Z) (f : hfield) (v : Z) : memE T unit
| MemsetCtrl (ctrl : Z) : memE T unit
| SlotRead (a : Z) : memE T T
| SlotWrite (a : Z) (v : T) : memE T unit.
Arguments ALoad {T} ctrl f o.
Arguments AStore {T} ctrl f v o.
Arguments ACas {T} weak ctrl f expected desired succ fail.
Arguments FLoad {T} ctrl f.
Arguments FStore {T} ctrl f v.
Arguments MemsetCtrl {T} ctrl.
Arguments SlotRead {T} a.
Arguments SlotWrite {T} a v.

(** Flags of [shm_open]. *)
Inductive oflag : Type := O_CREAT | O_EXCL | O_RDWR | O_RDONLY.

(** A call that reports failure through [errno] answers its return value and the
    value [errno] has after it.  [Signalled] reads the flag a signal handler sets. *)
Inductive osE : Type -> Type :=
| Kill (pid sig : Z) : osE (Z * Z)
| GetPid : osE Z
| SchedYield : osE unit
| Usleep (us : Z) : osE unit
| SteadyNow : osE Z
| ShmOpen (name : string) (flags : list oflag) (mode : Z) : osE (Z * Z)
| ShmUnlink (name : string) : osE Z
| Ftruncate (fd len : Z) : osE (Z * Z)
| Fstat (fd : Z) : osE (Z * Z * Z)
| Mmap (bytes fd : Z) : osE (Z * Z)
| Munmap (addr bytes : Z) : osE Z
| Close (fd : Z) : osE Z
| Signalled : osE bool
| Fork : osE Z
| Waitpid (pid : Z) : osE Z
| AssertFail : osE unit.

Inductive evE (T : Type) (X : Type) : Type :=
| Mem (e : memE T X)
| Os (e : osE X).
Arguments Mem {T X} e.
Arguments Os {T X} e.

Definition ESRCH : Z := 3.
Definition EPERM : Z := 1.

(** Shorthands for the accesses, in the order the source writes them. *)
Section access.
Context {T : Type}.
Definition load (ctrl : Z) (f : afield) (o : memory_order) : prog (evE T) Z :=
  act (Mem (ALoad ctrl f o)).
Definition store (ctrl : Z) (f : afield) (v : Z) (o : memory_order) : prog (evE T) unit :=
  act (Mem (AStore ctrl f v o)).
Definition get (ctrl : Z) (f : hfield) : prog (evE T) Z := act (Mem (FLoad ctrl f)).
Definition set (ctrl : Z) (f : hfield) (v : Z) : prog (evE T) unit :=
  act (Mem (FStore ctrl f v)).
Definition slot_read (a : Z) : prog (evE T) T := act (Mem (SlotRead a)).
Definition slot_write (a : Z) (v : T) : prog (evE T) unit := act (Mem (SlotWrite a v)).
Definition sys {X} (e : osE X) : prog (evE T) X := act (Os e).
End access.
