(* ===== verification/Stats.v ===== *)
(** * Latency statistics

    [percentile], [printLatency] and [clockOverheadNs] of common.h.  A double is
    that of Binary64.v; [std::sort] on integers has one possible result, the sorted
    permutation, and is modelled by a merge sort; reading [back()] of an empty vector
    is undefined. *)

From stdpp Require Import sorting.
From S2P Require Import Prelude Binary64 Prog Effects.
#[local] Open Scope Z_scope.
#[local] Open Scope prog_scope.

(** The literals [0.50], [0.99] and [0.999]. *)
Definition p50_mantissa : positive := 4503599627370496.
Definition p99_mantissa : positive := 8917127262193582.
Definition p999_mantissa : positive := 8998192055486251.
Definition literal (m : positive) : double := S754_finite false m (-53).

(** They are the doubles nearest to the decimal fractions written. *)
Lemma literals_nearest :
  2 * Z.abs (100 * Zpos p50_mantissa - 50 * 2 ^ 53) <= 100 /\
  2 * Z.abs (100 * Zpos p99_mantissa - 99 * 2 ^ 53) <= 100 /\
  2 * Z.abs (1000 * Zpos p999_mantissa - 999 * 2 ^ 53) <= 1000.
Proof. vm_compute. split_and!; discriminate. Qed.

Definition percentile (sorted : list Z) (p : double) : option Z :=
  match sorted with
  | [] => Some 0
  | _ =>
      match size_of_double (double_mul p (double_of_size (u64 (zlen sorted - 1)))) with
      | Some i => sorted !! Z.to_nat (Z.min i (u64 (zlen sorted - 1)))
      | None => None
      end
  end.

(** The four numbers printed after the label. *)
Record summary : Type := MkSummary { s_p50 : Z; s_p99 : Z; s_p999 : Z; s_max : Z }.

Definition printLatency (samples : list Z) : option summary :=
  let samples := merge_sort Z.le samples in
  match percentile samples (literal p50_mantissa), percentile samples (literal p99_mantissa),
        percentile samples (literal p999_mantissa), last samples with
  | Some a, Some b, Some c, Some d => Some (MkSummary a b c d)
  | _, _, _, _ => None
  end.

(** ** Sorting and ranks *)

(** Whatever algorithm [std::sort] is, its result is the one of the model. *)
Lemma sort_unique l l' : l' ≡ₚ l -> StronglySorted Z.le l' -> l' = merge_sort Z.le l.
Proof.
  intros Hp Hs. apply (StronglySorted_unique Z.le); [done|apply StronglySorted_merge_sort; apply _|].
  by rewrite merge_sort_Permutation.
Qed.

Definition count_le (v : Z) (l : list Z) : Z := zlen (filter (fun x => x <= v) l).
Definition count_lt (v : Z) (l : list Z) : Z := zlen (filter (fun x => x < v) l).

Lemma count_le_perm v l l' : l ≡ₚ l' -> count_le v l = count_le v l'.
Proof. intros Hp. unfold count_le, zlen. by rewrite Hp. Qed.

Lemma count_lt_perm v l l' : l ≡ₚ l' -> count_lt v l = count_lt v l'.
Proof. intros Hp. unfold count_lt, zlen. by rewrite Hp. Qed.

Lemma sorted_lookup_le l i j x y :
  StronglySorted Z.le l -> (i <= j)%nat -> l !! i = Some x -> l !! j = Some y -> x <= y.
Proof.
  intros Hs. revert i j. induction Hs as [|z l Hs IH Hz]; intros i j Hij Hi Hj; [done|].
  destruct i as [|i], j as [|j]; simplify_eq/=; [done| |lia|].
  - rewrite Forall_lookup in Hz. by eapply Hz.
  - eapply (IH i j); [lia|done|done].
Qed.

Lemma filter_all (P : Z -> Prop) `{forall x, Decision (P x)} l : Forall P l -> filter P l = l.
Proof. induction 1; [done|]. rewrite filter_cons_True by done. by f_equal. Qed.

Lemma filter_none (P : Z -> Prop) `{forall x, Decision (P x)} l :
  Forall (fun x => ~ P x) l -> filter P l = [].
Proof. induction 1; [done|]. by rewrite filter_cons_False by done. Qed.

(** The element at index [i] of a sorted list has at least [i + 1] elements at most
    it, and at most [i] below it. *)
Lemma sorted_rank l i v :
  StronglySorted Z.le l -> l !! i = Some v ->
  Z.of_nat i + 1 <= count_le v l /\ count_lt v l <= Z.of_nat i.
Proof.
  intros Hs Hi. apply lookup_lt_Some in Hi as Hlt. unfold count_le, count_lt, zlen. split.
  - rewrite <- (take_drop (S i) l), filter_app, length_app, filter_all; [rewrite length_take; lia|].
    apply Forall_lookup. intros j x [Hj ?]%lookup_take_Some. by eapply (sorted_lookup_le l j i); [|lia|..].
  - rewrite <- (take_drop i l), filter_app, length_app, (filter_none _ (drop i l)).
    + pose proof (length_filter (fun x => x < v) (take i l)). rewrite length_take in *. simpl. lia.
    + apply Forall_lookup. intros j x Hj. rewrite lookup_drop in Hj.
      assert (v <= x) by (by eapply (sorted_lookup_le l i (i + j)); [|lia|..]). lia.
Qed.

(** ** What is printed *)

(** The rank of the percentile [m / 2 ^ 53]: more than [p * (n - 1)] of the samples
    are at most it, and no more than [p * (n - 1)], rounded up, are below it. *)
Definition rank_ok (m : positive) (v : Z) (l : list Z) : Prop :=
  Zpos m * (zlen l - 1) < count_le v l * 2 ^ 53 /\
  forall b, Zpos m * (zlen l - 1) <= b * 2 ^ 53 -> count_lt v l <= b.

(** The lower median: at least half of the samples are at most it, and fewer than
    half below it. *)
Definition median_ok (v : Z) (l : list Z) : Prop :=
  zlen l <= 2 * count_le v l /\ 2 * count_lt v l < zlen l.

Section percentile.
Context (l : list Z) (Hs : StronglySorted Z.le l) (Hl : 0 < zlen l <= 2 ^ 53).
#[local] Abbreviation at_ m v := (l !! Z.to_nat (scaled (zlen l - 1) (Zpos m)) = Some v).

Lemma percentile_at m :
  2 ^ 52 <= Zpos m < 2 ^ 53 -> exists v, percentile l (literal m) = Some v /\ at_ m v.
Proof.
  intros Hm. assert (0 <= zlen l - 1 < 2 ^ 53) as Hk by lia.
  destruct (index_bounds (zlen l - 1) Hk (Zpos m)) as (H0 & _ & Hup); [lia|].
  specialize (Hup (zlen l - 1) ltac:(nia)).
  destruct (lookup_lt_is_Some_2 l (Z.to_nat (scaled (zlen l - 1) (Zpos m)))) as [v Hv];
    [unfold zlen in *; lia|].
  exists v. split; [|done]. unfold percentile. destruct l as [|x l'] eqn:El; [done|]. rewrite <- El in *.
  rewrite u64_small by word_lia. unfold literal. rewrite index_scaled by done.
  by rewrite Z.min_l by done.
Qed.

Lemma percentile_rank m v : 2 ^ 52 <= Zpos m < 2 ^ 53 -> at_ m v -> rank_ok m v l.
Proof.
  intros Hm Hv. destruct (index_bounds (zlen l - 1) ltac:(lia) (Zpos m)) as (H0 & Hlo & Hup); [lia|].
  destruct (sorted_rank l _ v Hs Hv) as [Hr1 Hr2]. rewrite Z2Nat.id in * by done. split.
  - pose proof (Z.mod_pos_bound (Zpos m * (zlen l - 1)) (2 ^ 53) ltac:(lia)).
    pose proof (Z.div_mod (Zpos m * (zlen l - 1)) (2 ^ 53) ltac:(lia)). lia.
  - intros b Hb. specialize (Hup b Hb). lia.
Qed.

Lemma percentile_median v : at_ p50_mantissa v -> median_ok v l.
Proof.
  intros Hv. destruct (sorted_rank l _ v Hs Hv) as [Hr1 Hr2].
  change (Zpos p50_mantissa) with (2 ^ 52) in *. rewrite index_half in * by lia.
  pose proof (Z.div_mod (zlen l - 1) 2 ltac:(lia)). pose proof (Z.mod_pos_bound (zlen l - 1) 2 ltac:(lia)).
  rewrite Z2Nat.id in * by lia. split; lia.
Qed.

Lemma percentile_mono m m' v v' :
  2 ^ 52 <= Zpos m -> Zpos m <= Zpos m' -> Zpos m' < 2 ^ 53 -> at_ m v -> at_ m' v' -> v <= v'.
Proof.
  intros H1 H2 H3. apply sorted_lookup_le; [done|].
  apply Z2Nat.inj_le; [apply index_bounds; lia..|apply index_mono; lia].
Qed.
End percentile.

Lemma rank_ok_perm m v l l' : l ≡ₚ l' -> rank_ok m v l -> rank_ok m v l'.
Proof.
  intros Hp. unfold rank_ok. rewrite (count_le_perm v l l' Hp), (count_lt_perm v l l' Hp).
  assert (zlen l = zlen l') as -> by (unfold zlen; by rewrite Hp). done.
Qed.

Lemma median_ok_perm v l l' : l ≡ₚ l' -> median_ok v l -> median_ok v l'.
Proof.
  intros Hp. unfold median_ok. rewrite (count_le_perm v l l' Hp), (count_lt_perm v l l' Hp).
  assert (zlen l = zlen l') as -> by (unfold zlen; by rewrite Hp). done.
Qed.

Lemma last_sorted l d x : StronglySorted Z.le l -> last l = Some d -> x ∈ l -> x <= d.
Proof.
  intros Hs Hd [i Hi]%list_elem_of_lookup_1. rewrite last_lookup in Hd.
  apply lookup_lt_Some in Hi as Hlt. eapply (sorted_lookup_le l i); [done| |exact Hi|exact Hd]. lia.
Qed.

(** The sorted samples, and where the four numbers come from. *)
Lemma printLatency_parts samples :
  samples <> [] -> zlen samples <= 2 ^ 53 ->
  exists l a b c d, printLatency samples = Some (MkSummary a b c d) /\
    l ≡ₚ samples /\ StronglySorted Z.le l /\ 0 < zlen l <= 2 ^ 53 /\
    l !! Z.to_nat (scaled (zlen l - 1) (Zpos p50_mantissa)) = Some a /\
    l !! Z.to_nat (scaled (zlen l - 1) (Zpos p99_mantissa)) = Some b /\
    l !! Z.to_nat (scaled (zlen l - 1) (Zpos p999_mantissa)) = Some c /\ last l = Some d.
Proof.
  intros Hne Hlen. unfold printLatency. pose proof (merge_sort_Permutation Z.le samples) as Hp.
  assert (StronglySorted Z.le (merge_sort Z.le samples)) as Hs by (apply StronglySorted_merge_sort; apply _).
  set (l := merge_sort Z.le samples) in *. clearbody l.
  assert (0 < zlen l <= 2 ^ 53) as Hl.
  { assert (zlen l = zlen samples) as -> by (unfold zlen; by rewrite Hp).
    destruct samples; [done|]. rewrite zlen_cons in *. pose proof (zlen_nonneg samples). lia. }
  destruct (percentile_at l Hs Hl p50_mantissa) as (a & -> & Ha); [done|].
  destruct (percentile_at l Hs Hl p99_mantissa) as (b & -> & Hb); [done|].
  destruct (percentile_at l Hs Hl p999_mantissa) as (c & -> & Hc); [done|].
  destruct (last l) as [d|] eqn:Hd; [|apply last_None in Hd; subst l; unfold zlen in Hl; simpl in Hl; lia].
  by exists l, a, b, c, d.
Qed.

(** C33: what [printLatency] prints of a non-empty vector (of at most [2 ^ 53]
    samples): the four numbers are samples, in increasing order; the last is the
    largest sample, the first the lower median, and the other two have their rank:
    more than [p * (n - 1)] of the samples are at most the number and no more than
    that, rounded up, are below it, in spite of the rounding of the product. *)
Theorem printLatency_summary samples :
  samples <> [] -> zlen samples <= 2 ^ 53 ->
  exists s, printLatency samples = Some s /\
    (s_p50 s <= s_p99 s <= s_p999 s /\ s_p999 s <= s_max s) /\
    (s_p50 s ∈ samples /\ s_p99 s ∈ samples /\ s_p999 s ∈ samples /\ s_max s ∈ samples) /\
    (forall x, x ∈ samples -> x <= s_max s) /\ median_ok (s_p50 s) samples /\
    rank_ok p99_mantissa (s_p99 s) samples /\ rank_ok p999_mantissa (s_p999 s) samples.
Proof.
  intros Hne Hlen.
  destruct (printLatency_parts samples Hne Hlen) as (l & a & b & c & d & -> & Hp & Hs & Hl & Ha & Hb & Hc & Hd).
  eexists. split; [done|]. cbn [s_p50 s_p99 s_p999 s_max].
  assert (forall x, x ∈ l <-> x ∈ samples) as Hin by (intros x; by rewrite Hp).
  assert (d ∈ l) by (by apply last_Some_elem_of). pose proof (list_elem_of_lookup_2 _ _ _ Hc).
  split_and!.
  - by eapply (percentile_mono l Hs Hl p50_mantissa p99_mantissa).
  - by eapply (percentile_mono l Hs Hl p99_mantissa p999_mantissa).
  - by eapply last_sorted.
  - apply Hin. by eapply list_elem_of_lookup_2.
  - apply Hin. by eapply list_elem_of_lookup_2.
  - by apply Hin.
  - by apply Hin.
  - intros x Hx. eapply last_sorted; [done|done|]. by apply Hin.
  - eapply median_ok_perm; [exact Hp|]. by apply percentile_median.
  - eapply rank_ok_perm; [exact Hp|]. by apply percentile_rank.
  - eapply rank_ok_perm; [exact Hp|]. by apply percentile_rank.
Qed.

(** [printLatency] of an empty vector reads [back()] of it, which is undefined.
    Nothing else can go wrong: it is undefined for no other vector. *)
Theorem printLatency_undefined samples :
  zlen samples <= 2 ^ 53 -> printLatency samples = None <-> samples = [].
Proof.
  intros Hlen. split; [|by intros ->]. intros Hu. destruct samples as [|x l]; [done|].
  destruct (printLatency_parts (x :: l)) as (? & ? & ? & ? & ? & Hsome & _); [done|done|]. congruence.
Qed.

(** ** The cost of reading the clock *)
Section clock.
Context {T : Type}.

(** The loop of [iters] readings, added up in [sink] so that they are not removed. *)
Fixpoint read_clock (iters : nat) (sink : Z) : prog (evE T) Z :=
  match iters with
  | O => Ret sink
  | S iters => let* t := sys SteadyNow in read_clock iters (u64 (sink + t))
  end.

(** A division by zero is undefined. *)
Definition clockOverheadNs (iters : nat) : prog (evE T) (option Z) :=
  let* start := sys SteadyNow in
  let* _ := read_clock iters 0 in
  let* fin := sys SteadyNow in
  Ret (if (iters =? 0)%nat then None else Some (u64 (fin - start) / Z.of_nat iters)).

(** A clock that answers the given readings, and nothing else. *)
Definition clock_handler : handler (evE T) (list Z) := fun X e w =>
  match e with
  | Mem _ => None
  | Os e =>
      match e in osE X return option (X * list Z) with
      | SteadyNow => match w with t :: w' => Some (t, w') | [] => None end
      | _ => None
      end
  end.

Lemma run_read_clock ts rest sink :
  run clock_handler (read_clock (length ts) sink) (ts ++ rest) =
  Some (foldl (fun s t => u64 (s + t)) sink ts, rest).
Proof.
  revert sink. induction ts as [|t ts IH]; intros sink; [done|]. cbn [length read_clock app bind act sys].
  unfold sys, act. cbn [bind run clock_handler]. apply IH.
Qed.

(** The clock overhead is the average of [iters] readings, rounded down: the
    readings together took at least [iters] times it, and less than [iters] times
    one nanosecond more. *)
Theorem clockOverhead_average start ts fin rest :
  ts <> [] -> 0 <= fin - start < W64 ->
  exists ns, run clock_handler (clockOverheadNs (length ts)) (start :: ts ++ fin :: rest) =
      Some (Some ns, rest) /\
    zlen ts * ns <= fin - start < zlen ts * (ns + 1).
Proof.
  intros Hne Hr. exists ((fin - start) / zlen ts). split.
  - unfold clockOverheadNs, sys, act. cbn [bind run clock_handler].
    rewrite run_bind, run_read_clock. cbn [bind run clock_handler].
    destruct ts as [|t ts]; [done|]. by rewrite u64_small.
  - destruct ts as [|t ts]; [done|]. rewrite zlen_cons. pose proof (zlen_nonneg ts).
    split; [apply Z.mul_div_le; lia|]. rewrite Z.add_1_r. apply Z.mul_succ_div_gt. lia.
Qed.
End clock.

(** ** Examples *)
Module StatsSample.
Definition samples : list Z := [70; 10; 40; 20; 90; 30; 60; 50; 100; 80].

Example summary_of_samples : printLatency samples = Some (MkSummary 50 90 90 100).
Proof. vm_compute. reflexivity. Qed.

(** The product is rounded up to [99] here; the exact index is below it. *)
Example rounding_up : scaled 100 (Zpos p99_mantissa) = 99 /\ Zpos p99_mantissa * 100 / 2 ^ 53 = 98.
Proof. vm_compute. done. Qed.

Lemma printLatency_summary_witness :
  exists s, printLatency samples = Some s /\
    (s_p50 s <= s_p99 s <= s_p999 s /\ s_p999 s <= s_max s) /\
    (s_p50 s ∈ samples /\ s_p99 s ∈ samples /\ s_p999 s ∈ samples /\ s_max s ∈ samples) /\
    (forall x, x ∈ samples -> x <= s_max s) /\ median_ok (s_p50 s) samples /\
    rank_ok p99_mantissa (s_p99 s) samples /\ rank_ok p999_mantissa (s_p999 s) samples.
Proof. apply (printLatency_summary samples); [done|vm_compute; done]. Defined.

Lemma printLatency_undefined_witness : printLatency [] = None <-> @nil Z = [].
Proof. apply (printLatency_undefined []). vm_compute. done. Defined.

Lemma clockOverhead_average_witness :
  exists ns, run (clock_handler (T := unit)) (clockOverheadNs (length [110; 125])) ([100; 110; 125; 140]) =
      Some (Some ns, []) /\ zlen [110; 125] * ns <= 140 - 100 < zlen [110; 125] * (ns + 1).
Proof. apply (clockOverhead_average 100 [110; 125] 140 []); [done|word_lia]. Defined.
End StatsSample.
