(* ===== verification/Machine.v ===== *)
(** * Two processes, interleaved

    The interface between the programs and a shared state: when an access of a
    process is defined, and what it may answer and leave behind.  On top of it, the
    interleaving of two programs and an executable scheduler; the release/acquire
    memory of one segment (RaMemory.v) and several segments with a common clock
    (Fleet.v) are its instances.  A process is identified by its role on the
    segment, the first one where there are several. *)

From stdpp Require Import relations.
From S2P Require Import Prelude Prog Effects.
#[local] Open Scope Z_scope.

Class Machine (E : Type -> Type) (W : Type) : Type := {
  m_safe : forall {X}, Role -> E X -> W -> Prop;
  m_step : forall {X}, Role -> E X -> W -> X -> W -> Prop }.

(** A scheduler's choice of one outcome; the number says how old a value to read. *)
Class Executor (E : Type -> Type) (W : Type) `{Machine E W} : Type := {
  m_exec : forall {X}, Role -> nat -> E X -> W -> option (X * W);
  m_exec_sound : forall {X} t back (e : E X) w x w',
    m_exec t back e w = Some (x, w') -> m_step t e w x w' }.

Record conf (E : Type -> Type) (W A B : Type) : Type := MkConf {
  pthread : prog E A;
  cthread : prog E B;
  memory : W }.
Arguments MkConf {E W A B} pthread cthread memory.
Arguments pthread {E W A B} c.
Arguments cthread {E W A B} c.
Arguments memory {E W A B} c.

Section interleaving.
Context {E : Type -> Type} {W : Type} `{Machine E W}.

Definition psafe {A} (t : Role) (p : prog E A) (w : W) : Prop :=
  match p with Ret _ => True | Vis e _ => m_safe t e w end.
Definition pstep {A} (t : Role) (p : prog E A) (w : W) (p' : prog E A) (w' : W) : Prop :=
  match p with
  | Ret _ => False
  | Vis e k => exists x, m_step t e w x w' /\ p' = k x
  end.

Inductive cstep {A B} : conf E W A B -> conf E W A B -> Prop :=
| cstep_prod p p' c w w' : pstep Producer p w p' w' -> cstep (MkConf p c w) (MkConf p' c w')
| cstep_cons p c c' w w' : pstep Consumer c w c' w' -> cstep (MkConf p c w) (MkConf p c' w').

(** No access of the configuration is undefined. *)
Definition conf_safe {A B} (c : conf E W A B) : Prop :=
  psafe Producer (pthread c) (memory c) /\ psafe Consumer (cthread c) (memory c).

(** ** Executing a schedule *)
Context `{!Executor E W}.

Definition exec {A} (t : Role) (back : nat) (p : prog E A) (w : W) : option (prog E A * W) :=
  match p with
  | Ret _ => None
  | Vis e k =>
      match m_exec t back e w with
      | Some (x, w') => Some (k x, w')
      | None => None
      end
  end.

Fixpoint sched {A B} (l : list (Role * nat)) (c : conf E W A B) : conf E W A B :=
  match l with
  | [] => c
  | (Producer, back) :: l' =>
      match exec Producer back (pthread c) (memory c) with
      | Some (p, w) => sched l' (MkConf p (cthread c) w)
      | None => sched l' c
      end
  | (Consumer, back) :: l' =>
      match exec Consumer back (cthread c) (memory c) with
      | Some (p, w) => sched l' (MkConf (pthread c) p w)
      | None => sched l' c
      end
  end.

Lemma exec_sound {A} t back (p p' : prog E A) w w' :
  exec t back p w = Some (p', w') -> pstep t p w p' w'.
Proof.
  destruct p as [a|X e k]; simpl; [done|]. destruct (m_exec t back e w) as [[x w1]|] eqn:Hx; [|done].
  intros. simplify_eq. exists x. split; [by eapply m_exec_sound|done].
Qed.

Lemma sched_sound {A B} l (c : conf E W A B) : rtc cstep c (sched l c).
Proof.
  revert c. induction l as [|[[] back] l IH]; intros [p q w]; simpl; [done|..].
  - destruct (exec Producer back p w) as [[p' w']|] eqn:Hx; [|apply IH].
    eapply rtc_l; [|apply IH]. constructor. by eapply exec_sound.
  - destruct (exec Consumer back q w) as [[q' w']|] eqn:Hx; [|apply IH].
    eapply rtc_l; [|apply IH]. constructor. by eapply exec_sound.
Qed.
End interleaving.
