(* ===== verification/Layout.v ===== *)
(** * The wire format

    The layout of [ControlBlock], computed with the rules of a standard-layout C++
    struct, the static assertions of the header as theorems, and [bytesNeeded]. *)

From stdpp Require Import pretty.
From S2P Require Import Prelude Prog Effects.
#[local] Open Scope Z_scope.

(** [SHMSPSC_CACHE_LINE_SIZE]: 128 on Apple Silicon, 64 elsewhere, or what the
    build defines; [alignas] makes it a power of two, and compilers stop at [2 ^ 28]. *)
Class Platform : Type := { kCacheLine : Z }.
Class PlatformOk (P : Platform) : Prop := {
  kCacheLine_pow : exists k, 6 <= k <= 28 /\ kCacheLine = 2 ^ k }.

(** The element type: what [sizeof] and [alignof] say of it, and the value whose
    object representation is all zero bytes (what a fresh segment holds). *)
Class Elem (T : Type) : Type := { sizeT : Z; alignT : Z; zeroT : T }.
Class ElemOk (T : Type) `{Platform} `{Elem T} : Prop := {
  sizeT_pos : 0 < sizeT;
  alignT_pow : exists k, 0 <= k /\ alignT = 2 ^ k;
  alignT_line : alignT <= kCacheLine;  (* the second static_assert of the class *)
  alignT_size : (alignT | sizeT) }.
Arguments sizeT T {_}.
Arguments alignT T {_}.
Arguments zeroT T {_}.

(** ** Struct layout *)
Record member : Type := Member { m_name : string; m_size : Z; m_align : Z }.

Definition align_up (x a : Z) : Z := (x + a - 1) / a * a.

(** The members with their byte offsets, starting at byte [cur]. *)
Fixpoint place (ms : list member) (cur : Z) : list (string * Z) :=
  match ms with
  | [] => []
  | m :: ms' =>
      let o := align_up cur (m_align m) in (m_name m, o) :: place ms' (o + m_size m)
  end.

Fixpoint struct_end (ms : list member) (cur : Z) : Z :=
  match ms with
  | [] => cur
  | m :: ms' => struct_end ms' (align_up cur (m_align m) + m_size m)
  end.

Definition alignof_struct (ms : list member) : Z :=
  foldr (fun m a => Z.max (m_align m) a) 1 ms.
Definition sizeof_struct (ms : list member) : Z :=
  align_up (struct_end ms 0) (alignof_struct ms).

Fixpoint assoc_offset (f : string) (os : list (string * Z)) : option Z :=
  match os with
  | [] => None
  | (g, o) :: os' => if decide (g = f) then Some o else assoc_offset f os'
  end.
Definition offsetof (ms : list member) (f : string) : option Z := assoc_offset f (place ms 0).

Section control_block.
Context `{Platform}.

(** [struct alignas(kCacheLine) ControlBlock]; each [alignas] member carries the
    line size as its alignment, and so does the struct. *)
Definition ControlBlock_members : list member :=
  [ Member "magic" 8 8; Member "capacity" 8 8; Member "totalBytes" 8 8;
    Member "version" 4 4; Member "cacheLineSize" 4 4; Member "elemSize" 4 4;
    Member "elemAlign" 4 4; Member "slotsOffset" 4 4;
    Member "producerPid" 4 4; Member "consumerPid" 4 4; Member "ready" 4 4;
    Member "pad0_" (kCacheLine - 56) 1;
    Member "writeIdx" 8 kCacheLine; Member "pad1_" (kCacheLine - 8) 1;
    Member "readIdx" 8 kCacheLine; Member "pad2_" (kCacheLine - 8) 1;
    Member "pad3_" kCacheLine kCacheLine ].

Definition sizeof_ControlBlock : Z := sizeof_struct ControlBlock_members.

Context `{!PlatformOk _}.

Lemma kCacheLine_facts : 64 <= kCacheLine <= 2 ^ 28 /\ (64 | kCacheLine).
Proof.
  destruct kCacheLine_pow as (k & Hk & ->).
  replace k with (6 + (k - 6)) by lia. rewrite Z.pow_add_r by lia.
  assert (2 ^ (k - 6) <= 2 ^ 22) by (apply Z.pow_le_mono_r; lia).
  assert (0 < 2 ^ (k - 6)) by (apply Z.pow_pos_nonneg; lia).
  split; [change (2 ^ 6) with 64; change (2 ^ 28) with (64 * 2 ^ 22); lia|].
  exists (2 ^ (k - 6)). change (2 ^ 6) with 64. lia.
Qed.

(** An offset that is already a multiple of the alignment stays; the next multiple
    is one alignment further. *)
Lemma align_up_id q a : 0 < a -> align_up (q * a) a = q * a.
Proof.
  intros. unfold align_up. f_equal. symmetry.
  apply (Z.div_unique _ _ _ (a - 1)); lia.
Qed.

Lemma align_up_eq x q a : 0 < a -> x = q * a -> align_up x a = x.
Proof. intros ? ->. by apply align_up_id. Qed.

Lemma align_up_1 x : align_up x 1 = x.
Proof. apply (align_up_eq x x); lia. Qed.

(** Evaluates the placement of the members before the first padding. *)
Ltac geometry_at :=
  rewrite ?align_up_1;
  repeat match goal with
  | |- context [align_up ?x 8] => change (align_up x 8) with x
  | |- context [align_up ?x 4] => change (align_up x 4) with x
  end.

(** Rewrites the placement of a control block member whose running offset is the
    given number of lines. *)
Ltac line_at q :=
  match goal with
  | |- context [align_up ?x kCacheLine] =>
      lazymatch x with context [align_up] => fail | _ => idtac end;
      rewrite (align_up_eq x q kCacheLine) by lia
  end.

(** Laying the control block out places every member without implicit padding. *)
Lemma ControlBlock_place :
  place ControlBlock_members 0 =
  [ ("magic", 0); ("capacity", 8); ("totalBytes", 16); ("version", 24);
    ("cacheLineSize", 28); ("elemSize", 32); ("elemAlign", 36); ("slotsOffset", 40);
    ("producerPid", 44); ("consumerPid", 48); ("ready", 52); ("pad0_", 56);
    ("writeIdx", kCacheLine); ("pad1_", kCacheLine + 8);
    ("readIdx", 2 * kCacheLine); ("pad2_", 2 * kCacheLine + 8);
    ("pad3_", 3 * kCacheLine) ].
Proof.
  pose proof kCacheLine_facts as [? _]. unfold ControlBlock_members.
  cbn [place m_name m_size m_align]. geometry_at.
  line_at 1. line_at 2. line_at 3.
  repeat (apply f_equal2; [apply f_equal2; [reflexivity|first [reflexivity|lia]]|]).
  reflexivity.
Qed.

Lemma alignof_ControlBlock : alignof_struct ControlBlock_members = kCacheLine.
Proof.
  pose proof kCacheLine_facts as [? _].
  unfold alignof_struct, ControlBlock_members. cbn [foldr m_align]. lia.
Qed.

Lemma sizeof_ControlBlock_eq : sizeof_ControlBlock = 4 * kCacheLine.
Proof.
  pose proof kCacheLine_facts as [? _].
  unfold sizeof_ControlBlock, sizeof_struct.
  rewrite alignof_ControlBlock.
  unfold ControlBlock_members. cbn [struct_end m_size m_align]. geometry_at.
  line_at 1. line_at 2. line_at 3. line_at 4. lia.
Qed.

Lemma sizeof_ControlBlock_bounds : 256 <= sizeof_ControlBlock <= 2 ^ 30.
Proof. rewrite sizeof_ControlBlock_eq. pose proof kCacheLine_facts as [? _]. lia. Qed.
End control_block.

(** The cache line a byte offset falls on. *)
Definition line_of `{Platform} (off : Z) : Z := off / kCacheLine.

Section lines.
Context {T : Type} `{PlatformOk} `{!Elem T} `{!ElemOk T}.

Lemma line_of_unique off k : k * kCacheLine <= off < (k + 1) * kCacheLine -> line_of off = k.
Proof. intros Hk. symmetry. apply (Z.div_unique _ _ _ (off - k * kCacheLine)); lia. Qed.

(** C29: the control block is laid out as the wire format says, on every platform:
    the four layout assertions of the header hold, no padding is implicit (the
    members' sizes add up to the block's), the geometry ends at byte 56, and the
    geometry, the producer's index, the consumer's index and the slots never share
    a cache line; every slot is aligned for its type. *)
Theorem control_block_layout :
  sizeof_ControlBlock = 4 * kCacheLine /\
  alignof_struct ControlBlock_members = kCacheLine /\
  offsetof ControlBlock_members "writeIdx" = Some kCacheLine /\
  offsetof ControlBlock_members "readIdx" = Some (2 * kCacheLine) /\
  offsetof ControlBlock_members "pad0_" = Some 56 /\
  foldr (fun m => Z.add (m_size m)) 0 ControlBlock_members = sizeof_ControlBlock /\
  (forall b, 0 <= b < 56 -> line_of b = 0) /\
  (forall b, 0 <= b < 8 -> line_of (kCacheLine + b) = 1 /\ line_of (2 * kCacheLine + b) = 2) /\
  (forall i, 0 <= i -> 4 <= line_of (sizeof_ControlBlock + i * sizeT T) /\
                       (alignT T | sizeof_ControlBlock + i * sizeT T)).
Proof.
  pose proof kCacheLine_facts as [Hl _]. pose proof (sizeT_pos (T := T)) as Hs.
  assert (alignT T | kCacheLine) as Hdiv.
  { destruct (alignT_pow (T := T)) as (j & Hj & Ha). destruct kCacheLine_pow as (k & Hk & Hc).
    pose proof (alignT_line (T := T)) as Hle. rewrite Ha, Hc in *.
    apply Z.pow_le_mono_r_iff in Hle; [|lia..]. exists (2 ^ (k - j)).
    rewrite <- Z.pow_add_r by lia. f_equal. lia. }
  unfold offsetof. rewrite ControlBlock_place. rewrite sizeof_ControlBlock_eq, alignof_ControlBlock.
  split_and!; try done.
  - unfold ControlBlock_members. cbn [foldr m_size]. lia.
  - intros b Hb. apply line_of_unique. lia.
  - intros b Hb. split; apply line_of_unique; lia.
  - intros i Hi. split.
    + apply Z.div_le_lower_bound; [lia|]. nia.
    + apply Z.divide_add_r; [by apply Z.divide_mul_r|]. apply Z.divide_mul_r, alignT_size.
Qed.
End lines.

(** ** bytesNeeded *)
Section bytes_needed.
Context {T : Type} `{Platform} `{Elem T}.

Definition bytesNeeded (cap : Z) : exn + Z :=
  if (cap =? kSizeMax)
     || (u64 (cap + 1) >? (kSizeMax - sizeof_ControlBlock) / sizeT T)
  then inl (invalid_argument ("capacity " +:+ pretty cap +:+ " x " +:+ pretty (sizeT T)
              +:+ " bytes overflows size_t"))
  else inr (u64 (sizeof_ControlBlock + u64 (u64 (cap + 1) * sizeT T))).

Context `{!PlatformOk _} `{!ElemOk T}.

(** C28: [bytesNeeded] never wraps.  For every capacity a [size_t] can hold it either
    returns the exact number of bytes of a control block and [capacity + 1] slots,
    or throws [invalid_argument], and it throws exactly when that number does not
    fit in a [size_t]. *)
Theorem bytesNeeded_exact cap :
  0 <= cap < W64 ->
  let exact := sizeof_ControlBlock + (cap + 1) * sizeT T in
  if exact <? W64 then bytesNeeded cap = inr exact
  else exists m, bytesNeeded cap = inl (invalid_argument m).
Proof.
  intros Hc exact. unfold bytesNeeded.
  pose proof sizeof_ControlBlock_bounds as Hcb. pose proof sizeT_pos as Hs.
  set (q := (kSizeMax - sizeof_ControlBlock) / sizeT T).
  assert (Hq : forall x, x <= q <-> sizeof_ControlBlock + x * sizeT T < W64).
  { intros x. subst q. split; intros Hx.
    - pose proof (Z.mul_div_le (kSizeMax - sizeof_ControlBlock) (sizeT T) Hs).
      assert (x * sizeT T <= sizeT T * ((kSizeMax - sizeof_ControlBlock) / sizeT T)) by nia.
      word_lia.
    - apply Z.div_le_lower_bound; [done|]. word_lia. }
  assert (Hmax : cap = kSizeMax -> W64 <= exact) by (intros ->; subst exact; word_lia || nia).
  assert (u64 (cap + 1) = cap + 1 \/ cap = kSizeMax) as Hw.
  { destruct (Z.eq_dec cap kSizeMax); [by right|left]. apply u64_small. word_lia. }
  destruct (Z.eqb_spec cap kSizeMax) as [->|Hne]; cbn [orb].
  { rewrite (proj2 (Z.ltb_ge _ _)) by auto. by eexists. }
  destruct Hw as [->|]; [|contradiction]. rewrite Z.gtb_ltb. specialize (Hq (cap + 1)).
  destruct (Z.ltb_spec exact W64), (Z.ltb_spec q (cap + 1)); subst exact; try lia.
  - f_equal. rewrite (u64_small ((cap + 1) * _)) by nia. apply u64_small. nia.
  - by eexists.
Qed.
End bytes_needed.

(** ** Concrete instances

    The default build and the element type of most of the tests. *)
Definition x86_64 : Platform := {| kCacheLine := 64 |}.
Definition apple_arm64 : Platform := {| kCacheLine := 128 |}.
Definition elem_u64 : Elem Z := {| sizeT := 8; alignT := 8; zeroT := 0 |}.

Lemma x86_64_ok : PlatformOk x86_64.
Proof. split. exists 6. split; [lia|reflexivity]. Defined.

Lemma elem_u64_ok : @ElemOk Z x86_64 elem_u64.
Proof.
  split; simpl; [lia|exists 3; split; [lia|reflexivity]|lia|exists 1; reflexivity].
Defined.

#[local] Existing Instance x86_64.
#[local] Existing Instance elem_u64.
#[local] Existing Instance x86_64_ok.
#[local] Existing Instance elem_u64_ok.

Lemma fits_8 : (sizeof_ControlBlock + (8 + 1) * sizeT Z <? W64) = true.
Proof. vm_compute. reflexivity. Qed.

Lemma fits_not_2_61 : (sizeof_ControlBlock + (2 ^ 61 + 1) * sizeT Z <? W64) = false.
Proof. vm_compute. reflexivity. Qed.

Lemma bytesNeeded_exact_witness :
  bytesNeeded (T := Z) 8 = inr (sizeof_ControlBlock + (8 + 1) * sizeT Z) /\
  exists m, bytesNeeded (T := Z) (2 ^ 61) = inl (invalid_argument m).
Proof.
  split.
  - pose proof (bytesNeeded_exact (T := Z) 8 ltac:(word_lia)) as Hx. cbv zeta in Hx.
    rewrite fits_8 in Hx. exact Hx.
  - pose proof (bytesNeeded_exact (T := Z) (2 ^ 61) ltac:(word_lia)) as Hx. cbv zeta in Hx.
    rewrite fits_not_2_61 in Hx. exact Hx.
Defined.

Lemma control_block_layout_witness :
  sizeof_ControlBlock = 256 /\ offsetof ControlBlock_members "readIdx" = Some 128.
Proof. destruct (control_block_layout (T := Z)) as (? & _ & _ & ? & _). done. Defined.
