(* ===== verification/Segment.v ===== *)
(** * ShmSegment: the owner of one mapping

    [ShmSegment] of ShmSegment.h: the RAII object that creates, opens, maps and
    unlinks a POSIX shared-memory object.  Its functions are programs over the
    system calls; what the calls answer is left open. *)

From S2P Require Import Prelude Prog Effects.
#[local] Open Scope Z_scope.
#[local] Open Scope prog_scope.

(** macOS caps shm names at PSHMNAMLEN; enforced everywhere. *)
Definition kMaxShmNameLen : nat := 31.

(** [MAP_FAILED], the all-ones address. *)
Definition MAP_FAILED : Z := W64 - 1.

(** The conversion [static_cast<off_t>] of a [size_t]. *)
Definition off_t (z : Z) : Z := (z + 2 ^ 63) mod 2 ^ 64 - 2 ^ 63.

Record ShmSegment : Type := MkSegment {
  addr_ : Z;
  size_ : Z;
  owner_ : bool;
  name_ : string }.

(** The default member initialisers. *)
Definition ShmSegment_default : ShmSegment := MkSegment 0 0 false "".

Definition slash : ascii := "/"%char.

Definition validateName (name : string) : exn + unit :=
  if (String.length name <? 2)%nat || negb (bool_decide (String.get 0 name = Some slash)) then
    inl (invalid_argument ("shm name must start with '/': " +:+ name))
  else if (kMaxShmNameLen <? String.length name)%nat then
    inl (invalid_argument ("shm name exceeds 31 chars: " +:+ name))
  else match String.index 1 "/" name with
  | Some _ => inl (invalid_argument ("shm name may only contain a leading '/': " +:+ name))
  | None => inr tt
  end.

Section segment.
Context {T : Type}.
#[local] Abbreviation io := (prog (evE T)).

Definition throwErrno {A} (what : string) (e : Z) : io (exn + A) := throw (system_error e what).

Definition mapAndClose (fd : Z) (name : string) (bytes : Z) (owner : bool) :
    io (exn + ShmSegment) :=
  let* (addr, e) := sys (Mmap bytes fd) in
  sys (Close fd);;
  if addr =? MAP_FAILED then
    (if owner then sys (ShmUnlink name) else Ret 0);;
    throwErrno ("mmap " +:+ name) e
  else
    ok (MkSegment addr bytes owner name).

Definition ShmSegment_create (name : string) (bytes : Z) : io (exn + ShmSegment) :=
  let? _ := Ret (validateName name) in
  if bytes =? 0 then throw (invalid_argument "ShmSegment::create: bytes must be > 0") else
  sys (ShmUnlink name);;
  let* (fd, errno) := sys (ShmOpen name [O_CREAT; O_EXCL; O_RDWR] 384) in
  if fd <? 0 then throwErrno ("shm_open(O_CREAT) " +:+ name) errno else
  let* (rc, errno) := sys (Ftruncate fd (off_t bytes)) in
  if negb (rc =? 0) then
    sys (Close fd);;
    sys (ShmUnlink name);;
    throwErrno ("ftruncate " +:+ name) errno
  else
    mapAndClose fd name bytes true.

Definition ShmSegment_open (name : string) : io (exn + ShmSegment) :=
  let? _ := Ret (validateName name) in
  let* (fd, errno) := sys (ShmOpen name [O_RDWR] 384) in
  if fd <? 0 then throwErrno ("shm_open " +:+ name +:+ " (is the peer running?)") errno else
  let* (rc, errno, st_size) := sys (Fstat fd) in
  if negb (rc =? 0) then
    sys (Close fd);;
    throwErrno ("fstat " +:+ name) errno
  else if st_size <=? 0 then
    sys (Close fd);;
    throw (runtime_error ("shm object " +:+ name
             +:+ " has zero size (peer still initialising?)"))
  else
    mapAndClose fd name (u64 st_size) false.

Definition ShmSegment_exists (name : string) : io bool :=
  let* (fd, _) := sys (ShmOpen name [O_RDONLY] 384) in
  if fd <? 0 then Ret false else
  sys (Close fd);;
  Ret true.

Definition ShmSegment_remove (name : string) : io unit :=
  sys (ShmUnlink name);; Ret tt.

Definition ShmSegment_data (s : ShmSegment) : Z := addr_ s.
Definition ShmSegment_size (s : ShmSegment) : Z := size_ s.
Definition ShmSegment_name (s : ShmSegment) : string := name_ s.
Definition ShmSegment_valid (s : ShmSegment) : bool := negb (addr_ s =? 0).
Definition ShmSegment_owns (s : ShmSegment) : bool := owner_ s.
Definition ShmSegment_release (s : ShmSegment) : ShmSegment :=
  MkSegment (addr_ s) (size_ s) false (name_ s).

(** [reset()], also the destructor. *)
Definition ShmSegment_reset (s : ShmSegment) : io ShmSegment :=
  (if negb (addr_ s =? 0) then sys (Munmap (addr_ s) (size_ s));; Ret tt else Ret tt);;
  (if owner_ s && negb (bool_decide (name_ s = "")) then
     sys (ShmUnlink (name_ s));; Ret tt
   else Ret tt);;
  Ret ShmSegment_default.

(** [swap]: the pair (this, o) after the exchange. *)
Definition ShmSegment_swap (this o : ShmSegment) : ShmSegment * ShmSegment :=
  ( MkSegment (addr_ o) (size_ o) (owner_ o) (name_ o),
    MkSegment (addr_ this) (size_ this) (owner_ this) (name_ this) ).

(** The move constructor: a default object swapped with the source; the pair
    (constructed, source). *)
Definition ShmSegment_move (o : ShmSegment) : ShmSegment * ShmSegment :=
  ShmSegment_swap ShmSegment_default o.

(** Move assignment: the pair (this, o) after it.  [self] says whether the two are the
    same object ([this == &o]).  The temporary's destructor releases what [this]
    held. *)
Definition ShmSegment_assign (self : bool) (this o : ShmSegment) : io (ShmSegment * ShmSegment) :=
  if self then Ret (this, o) else
  let (tmp, o') := ShmSegment_move o in
  let (this', tmp') := ShmSegment_swap this tmp in
  ShmSegment_reset tmp';;
  Ret (this', o').
End segment.

(** ** The names the code accepts *)
Definition no_slash (s : string) : Prop := forall i, String.get i s <> Some slash.

Lemma prefix_empty s : String.prefix "" s = true.
Proof. by destruct s. Qed.

Lemma index_slash s : String.index 0 "/" s = None <-> no_slash s.
Proof.
  induction s as [|a s IH]; [split; [by intros _ i|done]|].
  cbn [String.index String.prefix]. destruct (ascii_dec "/" a) as [<-|Hne].
  - rewrite prefix_empty. split; [done|]. intros Hn. by destruct (Hn O).
  - transitivity (String.index 0 "/" s = None); [by destruct (String.index 0 "/" s)|]. rewrite IH. split.
    + intros Hn [|i]; [|apply Hn]. cbn. intros [= ->]. done.
    + intros Hn i. apply (Hn (S i)).
Qed.

(** C30: [validateName] accepts exactly the names that are portable for [shm_open]: a
    leading slash followed by 1 to 30 characters with no further slash. *)
Theorem validateName_accepts name :
  validateName name = inr tt <->
  exists rest, name = String slash rest /\ (1 <= String.length rest <= 30)%nat /\ no_slash rest.
Proof.
  unfold validateName, kMaxShmNameLen. destruct name as [|a rest].
  { split; [done|]. by intros (? & ? & _). }
  cbn [String.length String.get String.index].
  destruct (decide (a = slash)) as [->|Hne].
  2: { rewrite (bool_decide_false (Some a = Some slash)) by congruence. cbn [negb]. rewrite orb_true_r.
       split; [done|]. intros (? & [= -> _] & _). done. }
  rewrite bool_decide_true by done. cbn [negb]. rewrite orb_false_r.
  destruct (Nat.ltb_spec (S (String.length rest)) 2).
  { split; [done|]. intros (r & [= <-] & ? & _). lia. }
  destruct (Nat.ltb_spec 31 (S (String.length rest))).
  { split; [done|]. intros (r & [= <-] & ? & _). lia. }
  transitivity (String.index 0 "/" rest = None); [by destruct (String.index 0 "/" rest)|].
  rewrite index_slash. split.
  - intros Hn. exists rest. split_and!; [done|lia|lia|done].
  - by intros (r & [= <-] & _ & Hn).
Qed.
