(* ===== verification/Queue.v ===== *)
(** * ShmSpscQueue: the ring operations

    The handle [ShmSpscQueue<T>] of ShmSpscQueue.h and every operation on an
    attached queue, as programs over the shared accesses.  The fields that live in
    the process ([readIdxCache_], ...) are threaded as a record; the fields that
    live in the segment are only reached through accesses. *)

From S2P Require Import Prelude Prog Effects Layout Segment.
#[local] Open Scope Z_scope.
#[local] Open Scope prog_scope.

Record ShmSpscQueue : Type := MkQueue {
  seg_ : ShmSegment;
  ctrl_ : Z;
  slots_ : Z;
  capacity_ : Z;
  role_ : Role;
  bound_ : bool;
  readIdxCache_ : Z;
  writeIdxCache_ : Z }.

(** The default member initialisers. *)
Definition ShmSpscQueue_default : ShmSpscQueue :=
  MkQueue ShmSegment_default 0 0 0 Producer false 0 0.

Definition set_readIdxCache (q : ShmSpscQueue) (r : Z) : ShmSpscQueue :=
  MkQueue (seg_ q) (ctrl_ q) (slots_ q) (capacity_ q) (role_ q) (bound_ q) r (writeIdxCache_ q).
Definition set_writeIdxCache (q : ShmSpscQueue) (w : Z) : ShmSpscQueue :=
  MkQueue (seg_ q) (ctrl_ q) (slots_ q) (capacity_ q) (role_ q) (bound_ q) (readIdxCache_ q) w.

Definition freeSlots (q : ShmSpscQueue) (w r : Z) : Z :=
  u64 ((if r >? w then u64 (r - w) else u64 (u64 (r + capacity_ q) - w)) - 1).

Definition usedSlots (q : ShmSpscQueue) (w r : Z) : Z :=
  if w >=? r then u64 (w - r) else u64 (u64 (w + capacity_ q) - r).

Section queue.
Context {T : Type} `{Platform} `{Elem T}.
(** Whether the build defines [NDEBUG], which removes the assertion of [pop]. *)
Context (ndebug : bool).
#[local] Abbreviation io := (prog (evE T)).

(** [&slots_[i]] *)
Definition slot_addr (q : ShmSpscQueue) (i : Z) : Z := slots_ q + i * sizeT T.

(** [memcpy] of a run of elements into, and out of, consecutive slots. *)
Fixpoint memcpy_in (a : Z) (src : list T) : io unit :=
  match src with
  | [] => Ret tt
  | v :: src' => slot_write a v;; memcpy_in (a + sizeT T) src'
  end.

Fixpoint memcpy_out (a : Z) (n : nat) : io (list T) :=
  match n with
  | O => Ret []
  | S n' =>
      let* v := slot_read a in
      let* vs := memcpy_out (a + sizeT T) n' in
      Ret (v :: vs)
  end.

Definition try_push (q : ShmSpscQueue) (v : T) : io (ShmSpscQueue * bool) :=
  let* w := load (ctrl_ q) writeIdx relaxed in
  let next := u64 (w + 1) in
  let next := if next =? capacity_ q then 0 else next in
  let write q' :=
    slot_write (slot_addr q' w) v;;
    store (ctrl_ q') writeIdx next release;;
    Ret (q', true) in
  if next =? readIdxCache_ q then
    let* r := load (ctrl_ q) readIdx acquire in
    let q' := set_readIdxCache q r in
    if next =? readIdxCache_ q' then Ret (q', false) else write q'
  else write q.

(** [push_n(src, n)]: [src] is the buffer the caller points to. *)
Definition push_n (q : ShmSpscQueue) (src : list T) (n : Z) : io (ShmSpscQueue * Z) :=
  if n =? 0 then Ret (q, 0) else
  let* w := load (ctrl_ q) writeIdx relaxed in
  let free := freeSlots q w (readIdxCache_ q) in
  let copy q' free :=
    let count := Z.min n free in
    let first := Z.min count (u64 (capacity_ q' - w)) in
    memcpy_in (slot_addr q' w) (ztake first src);;
    (if count >? first then
       memcpy_in (slot_addr q' 0) (ztake (count - first) (zdrop first src))
     else Ret tt);;
    let next := u64 (w + count) in
    let next := if next >=? capacity_ q' then u64 (next - capacity_ q') else next in
    store (ctrl_ q') writeIdx next release;;
    Ret (q', count) in
  if free <? n then
    let* r := load (ctrl_ q) readIdx acquire in
    let q' := set_readIdxCache q r in
    let free := freeSlots q' w (readIdxCache_ q') in
    if free =? 0 then Ret (q', 0) else copy q' free
  else copy q free.

(** The address of the oldest element, 0 ([nullptr]) when empty. *)
Definition front (q : ShmSpscQueue) : io (ShmSpscQueue * Z) :=
  let* r := load (ctrl_ q) readIdx relaxed in
  if r =? writeIdxCache_ q then
    let* w := load (ctrl_ q) writeIdx acquire in
    let q' := set_writeIdxCache q w in
    if r =? writeIdxCache_ q' then Ret (q', 0) else Ret (q', slot_addr q' r)
  else Ret (q, slot_addr q r).

(** [void pop()] *)
Definition pop_front (q : ShmSpscQueue) : io unit :=
  let* r := load (ctrl_ q) readIdx relaxed in
  (if ndebug then Ret tt else
     let* w := load (ctrl_ q) writeIdx acquire in
     if w =? r then sys AssertFail else Ret tt);;
  let next := u64 (r + 1) in
  let next := if next =? capacity_ q then 0 else next in
  store (ctrl_ q) readIdx next release.

(** [try_pop(out)]: [Some v] when it returns true with [v] in [out]. *)
Definition try_pop (q : ShmSpscQueue) : io (ShmSpscQueue * option T) :=
  let* (q', p) := front q in
  if p =? 0 then Ret (q', None) else
  let* v := slot_read p in
  pop_front q';;
  Ret (q', Some v).

(** [pop_n(dst, n)]: the count and the elements stored in [dst[0 .. count)]. *)
Definition pop_n (q : ShmSpscQueue) (n : Z) : io (ShmSpscQueue * Z * list T) :=
  if n =? 0 then Ret (q, 0, []) else
  let* r := load (ctrl_ q) readIdx relaxed in
  let avail := usedSlots q (writeIdxCache_ q) r in
  let copy q' avail :=
    let count := Z.min n avail in
    let first := Z.min count (u64 (capacity_ q' - r)) in
    let* d1 := memcpy_out (slot_addr q' r) (Z.to_nat first) in
    let* d2 := (if count >? first then
                  memcpy_out (slot_addr q' 0) (Z.to_nat (count - first))
                else Ret []) in
    let next := u64 (r + count) in
    let next := if next >=? capacity_ q' then u64 (next - capacity_ q') else next in
    store (ctrl_ q') readIdx next release;;
    Ret (q', count, d1 ++ d2) in
  if avail <? n then
    let* w := load (ctrl_ q) writeIdx acquire in
    let q' := set_writeIdxCache q w in
    let avail := usedSlots q' (writeIdxCache_ q') r in
    if avail =? 0 then Ret (q', 0, []) else copy q' avail
  else copy q avail.

Definition size (q : ShmSpscQueue) : io Z :=
  let* w := load (ctrl_ q) writeIdx acquire in
  let* r := load (ctrl_ q) readIdx acquire in
  Ret (usedSlots q w r).

Definition empty (q : ShmSpscQueue) : io bool :=
  let* w := load (ctrl_ q) writeIdx acquire in
  let* r := load (ctrl_ q) readIdx acquire in
  Ret (w =? r).

Definition capacity_of (q : ShmSpscQueue) : Z := u64 (capacity_ q - 1).

Definition valid (q : ShmSpscQueue) : bool := negb (ctrl_ q =? 0).

(** [processAlive(pid)] *)
Definition processAlive (pid : Z) : io bool :=
  if pid <=? 0 then Ret false else
  let* (rc, errno) := sys (Kill pid 0) in
  if rc =? 0 then Ret true else Ret (negb (errno =? ESRCH)).

(** The pid slot of the peer of a role, and of the role itself. *)
Definition peer_slot (r : Role) : afield :=
  match r with Producer => consumerPid | Consumer => producerPid end.
Definition own_slot (r : Role) : afield :=
  match r with Producer => producerPid | Consumer => consumerPid end.

Definition peerAlive (q : ShmSpscQueue) : io bool :=
  let* pid := load (ctrl_ q) (peer_slot (role_ q)) relaxed in
  if pid =? 0 then Ret true else processAlive pid.

(** The blocking [push]: [fuel] bounds the attempts; [None] is "still spinning".
    [spins] is the loop variable, [unsigned]. *)
Fixpoint push_loop (fuel : nat) (q : ShmSpscQueue) (v : T) (peerCheckSpins spins : Z) :
    io (ShmSpscQueue * option bool) :=
  match fuel with
  | O => Ret (q, None)
  | S fuel =>
      let* (q', done) := try_push q v in
      if (done : bool) then Ret (q', Some true) else
      if spins >=? peerCheckSpins then
        let* alive := peerAlive q' in
        if negb alive then Ret (q', Some false) else
        sys SchedYield;;
        push_loop fuel q' v peerCheckSpins (u32 (0 + 1))
      else push_loop fuel q' v peerCheckSpins (u32 (spins + 1))
  end.
Definition push (fuel : nat) (q : ShmSpscQueue) (v : T) (peerCheckSpins : Z) :=
  push_loop fuel q v peerCheckSpins 0.

(** The blocking [pop(out)], likewise; [Some None] is a return of false. *)
Fixpoint pop_loop (fuel : nat) (q : ShmSpscQueue) (peerCheckSpins spins : Z) :
    io (ShmSpscQueue * option (option T)) :=
  match fuel with
  | O => Ret (q, None)
  | S fuel =>
      let* (q', out) := try_pop q in
      match out with
      | Some v => Ret (q', Some (Some v))
      | None =>
          if spins >=? peerCheckSpins then
            let* alive := peerAlive q' in
            let* gone := (if negb alive then empty q' else Ret false) in
            if (gone : bool) then Ret (q', Some None) else
            sys SchedYield;;
            pop_loop fuel q' peerCheckSpins (u32 (0 + 1))
          else pop_loop fuel q' peerCheckSpins (u32 (spins + 1))
      end
  end.
Definition pop (fuel : nat) (q : ShmSpscQueue) (peerCheckSpins : Z) :=
  pop_loop fuel q peerCheckSpins 0.
End queue.
