(* ===== verification/Lifecycle.v ===== *)
(** * Creating, attaching to and leaving a queue

    The life cycle of a [ShmSpscQueue<T>] handle: [create], [attach], [validate],
    [bind], [detach], [waitForPeer] and the moves.  Loops take a fuel; [None] is
    "still looping".  The destructor of a local handle runs where an exception
    leaves its scope, as [detach]. *)

From stdpp Require Import pretty.
From S2P Require Import Prelude Prog Effects Layout Segment Queue.
#[local] Open Scope Z_scope.
#[local] Open Scope prog_scope.

Definition kMagic : Z := 0x53484d5350534331.
Definition kVersion : Z := 1.

(** Nanoseconds per millisecond of [std::chrono::milliseconds]. *)
Definition ns_per_ms : Z := 1000000.

Definition role_name (r : Role) : string :=
  match r with Producer => "producer" | Consumer => "consumer" end.

Section lifecycle.
Context {T : Type} `{Platform} `{Elem T}.
#[local] Abbreviation io := (prog (evE T)).

(** [std::swap] of two segments: a move construction and two move assignments,
    then the end of the temporary. *)
Definition ShmSegment_std_swap (a b : ShmSegment) : io (ShmSegment * ShmSegment) :=
  let (tmp, a1) := ShmSegment_move a in
  let* (a2, b1) := ShmSegment_assign false a1 b in
  let* (b2, tmp1) := ShmSegment_assign false b1 tmp in
  ShmSegment_reset tmp1;;
  Ret (a2, b2).

(** [swapWith]: the pair (this, o) after the exchange. *)
Definition swapWith (this o : ShmSpscQueue) : io (ShmSpscQueue * ShmSpscQueue) :=
  let* (s1, s2) := ShmSegment_std_swap (seg_ this) (seg_ o) in
  Ret ( MkQueue s1 (ctrl_ o) (slots_ o) (capacity_ o) (role_ o) (bound_ o)
          (readIdxCache_ o) (writeIdxCache_ o),
        MkQueue s2 (ctrl_ this) (slots_ this) (capacity_ this) (role_ this) (bound_ this)
          (readIdxCache_ this) (writeIdxCache_ this) ).

(** The slot is given up only if it still holds this process's pid. *)
Definition release_slot (ctrl : Z) (role : Role) (self : Z) : io unit :=
  act (Mem (ACas false ctrl (own_slot role) self (-1) release relaxed));;
  Ret tt.

Definition detach (q : ShmSpscQueue) : io ShmSpscQueue :=
  (if negb (ctrl_ q =? 0) && bound_ q then
     let* pid := sys GetPid in
     let self := i32 pid in
     release_slot (ctrl_ q) (role_ q) self
   else Ret tt);;
  let* seg := ShmSegment_reset (seg_ q) in
  Ret (MkQueue seg 0 0 (capacity_ q) (role_ q) false (readIdxCache_ q) (writeIdxCache_ q)).

(** The move constructor: the pair (constructed, source). *)
Definition ShmSpscQueue_move (o : ShmSpscQueue) : io (ShmSpscQueue * ShmSpscQueue) :=
  swapWith ShmSpscQueue_default o.

(** Move assignment among the handles of a process, [this] and [o] being the objects'
    identities: a handle assigned to itself is left alone. *)
Definition ShmSpscQueue_assign (objs : nat -> ShmSpscQueue) (this o : nat) : io (nat -> ShmSpscQueue) :=
  if (this =? o)%nat then Ret objs else
  let* q := detach (objs this) in
  let objs := fupd this q objs in
  let* (q, q') := swapWith (objs this) (objs o) in
  Ret (fupd this q (fupd o q' objs)).

(** An exception that leaves the scope of the local handle [q]. *)
Definition unwind {A} (q : ShmSpscQueue) (e : exn) : io (option (exn + A)) :=
  detach q;; Ret (Some (inl e)).

(** The claim of a pid slot in [bind]: [expected] is the value last read. *)
Fixpoint claim_loop (fuel : nat) (ctrl : Z) (role : Role) (self expected : Z) :
    io (option (exn + unit)) :=
  match fuel with
  | O => Ret None
  | S fuel =>
      if expected =? self then Ret (Some (inr tt)) else
      let* conflict := (if expected >? 0 then processAlive expected else Ret false) in
      if (conflict : bool) then
        Ret (Some (inl (runtime_error ("a live " +:+ role_name role
               +:+ " is already attached (pid " +:+ pretty expected +:+ ")"))))
      else
      let* (won, seen) := act (Mem (ACas true ctrl (own_slot role) expected self acq_rel acquire)) in
      if (won : bool) then Ret (Some (inr tt)) else claim_loop fuel ctrl role self seen
  end.

Definition claim_slot (fuel : nat) (ctrl : Z) (role : Role) (self : Z) : io (option (exn + unit)) :=
  let* expected := load ctrl (own_slot role) acquire in
  claim_loop fuel ctrl role self expected.

(** [bind]: the handle as left behind, and how it ended. *)
Definition bind_queue (fuel : nat) (q : ShmSpscQueue) (role : Role) :
    io (ShmSpscQueue * option (exn + unit)) :=
  let* cap := get (ctrl_ q) capacity in
  let* off := get (ctrl_ q) slotsOffset in
  let* r := load (ctrl_ q) readIdx acquire in
  let* w := load (ctrl_ q) writeIdx acquire in
  let q' bound := MkQueue (seg_ q) (ctrl_ q) (ctrl_ q + off) cap role bound r w in
  let* pid := sys GetPid in
  let self := i32 pid in
  let* res := claim_slot fuel (ctrl_ q) role self in
  Ret (q' (match res with Some (inr _) => true | _ => bound_ q end), res).

Definition validate (q : ShmSpscQueue) : io (exn + unit) :=
  let c := ctrl_ q in
  let* m := get c magic in
  if negb (m =? kMagic) then throw (runtime_error "bad magic: not a shmspsc segment") else
  let* v := get c version in
  if negb (v =? kVersion) then
    let* v := get c version in
    throw (runtime_error ("version mismatch: segment v" +:+ pretty v +:+ ", binary v"
             +:+ pretty kVersion))
  else
  let* l := get c cacheLineSize in
  if negb (l =? kCacheLine) then
    let* l := get c cacheLineSize in
    throw (runtime_error ("cache line mismatch: segment " +:+ pretty l +:+ ", binary "
             +:+ pretty kCacheLine))
  else
  let* es := get c elemSize in
  let* differs := (if negb (es =? sizeT T) then Ret true else
                     let* ea := get c elemAlign in Ret (negb (ea =? alignT T))) in
  if (differs : bool) then
    let* es := get c elemSize in
    let* ea := get c elemAlign in
    throw (runtime_error ("element layout mismatch: segment " +:+ pretty es +:+ "/"
             +:+ pretty ea +:+ ", binary " +:+ pretty (sizeT T) +:+ "/" +:+ pretty (alignT T)))
  else
  let* off := get c slotsOffset in
  let* cap := get c capacity in
  let needed := u64 (off + u64 (cap * sizeT T)) in
  let* tb := get c totalBytes in
  let* small := (if needed >? tb then Ret true else
                   let* tb := get c totalBytes in Ret (tb >? ShmSegment_size (seg_ q))) in
  if (small : bool) then
    let* tb := get c totalBytes in
    throw (runtime_error ("segment too small: needs " +:+ pretty needed +:+ ", declared "
             +:+ pretty tb +:+ ", mapped " +:+ pretty (ShmSegment_size (seg_ q))))
  else ok tt.

(** The part of [create] after the segment is mapped: the control block is written,
    the creator's pid registered, and [ready] published. *)
Definition publish (fuel : nat) (q : ShmSpscQueue) (slots : Z) (role : Role) :
    io (option (exn + ShmSpscQueue)) :=
  let c := ctrl_ q in
  act (Mem (MemsetCtrl c));;
  set c magic kMagic;;
  set c version kVersion;;
  set c cacheLineSize (u32 kCacheLine);;
  set c elemSize (u32 (sizeT T));;
  set c elemAlign (u32 (alignT T));;
  set c capacity slots;;
  set c slotsOffset (u32 sizeof_ControlBlock);;
  set c totalBytes (ShmSegment_size (seg_ q));;
  store c writeIdx 0 relaxed;;
  store c readIdx 0 relaxed;;
  let* (q, res) := bind_queue fuel q role in
  match res with
  | None => Ret None
  | Some (inl e) => unwind q e
  | Some (inr _) =>
      store (ctrl_ q) ready 1 release;;
      Ret (Some (inr q))
  end.

(** [q.seg_ = s; q.ctrl_ = q.seg_.data()] for a temporary [s]. *)
Definition take_segment (q : ShmSpscQueue) (s : ShmSegment) : io ShmSpscQueue :=
  let* (seg, s') := ShmSegment_assign false (seg_ q) s in
  ShmSegment_reset s';;
  Ret (MkQueue seg (ShmSegment_data seg) (slots_ q) (capacity_ q) (role_ q) (bound_ q)
         (readIdxCache_ q) (writeIdxCache_ q)).

Definition create (fuel : nat) (name : string) (cap : Z) (role : Role) :
    io (option (exn + ShmSpscQueue)) :=
  let cap := if cap <? 1 then 1 else cap in
  let slots := u64 (cap + 1) in
  let q := ShmSpscQueue_default in
  match bytesNeeded (T := T) cap with
  | inl e => unwind q e
  | inr bytes =>
      let* r := ShmSegment_create name bytes in
      match r with
      | inl e => unwind q e
      | inr s =>
          let* q := take_segment q s in
          publish fuel q slots role
      end
  end.

(** The polling loop of [attach]: the handle, and the exception it throws, if any. *)
Fixpoint attach_loop (fuel : nat) (q : ShmSpscQueue) (name : string) (deadline : Z) :
    io (ShmSpscQueue * option (exn + unit)) :=
  match fuel with
  | O => Ret (q, None)
  | S fuel =>
      let* now := sys SteadyNow in
      let lastAttempt := now >=? deadline in
      let retry q :=
        if (lastAttempt : bool) then
          Ret (q, Some (inl (runtime_error ("timed out waiting for " +:+ name))))
        else
          sys (Usleep 1000);;
          attach_loop fuel q name deadline in
      let* r := ShmSegment_open name in
      match r with
      | inl e => if (lastAttempt : bool) then Ret (q, Some (inl e)) else retry q
      | inr s =>
          let* q := take_segment q s in
          let* rdy := load (ctrl_ q) ready acquire in
          if rdy =? 1 then Ret (q, Some (inr tt)) else retry q
      end
  end.

(** [attach]: [fuel] bounds the polls, [fuel'] the claim loop. *)
Definition attach (fuel fuel' : nat) (name : string) (role : Role) (timeoutMs : Z) :
    io (option (exn + ShmSpscQueue)) :=
  let* now := sys SteadyNow in
  let deadline := now + timeoutMs * ns_per_ms in
  let* (q, r) := attach_loop fuel ShmSpscQueue_default name deadline in
  match r with
  | None => Ret None
  | Some (inl e) => unwind q e
  | Some (inr _) =>
      let* r := validate q in
      match r with
      | inl e => unwind q e
      | inr _ =>
          let* (q, res) := bind_queue fuel' q role in
          match res with
          | None => Ret None
          | Some (inl e) => unwind q e
          | Some (inr _) => Ret (Some (inr q))
          end
      end
  end.

Fixpoint wait_loop (fuel : nat) (q : ShmSpscQueue) (deadline : Z) : io (option bool) :=
  match fuel with
  | O => Ret None
  | S fuel =>
      let* pid := load (ctrl_ q) (peer_slot (role_ q)) acquire in
      if pid >? 0 then Ret (Some true) else
      let* now := sys SteadyNow in
      if now >=? deadline then Ret (Some false) else
      sys (Usleep 1000);;
      wait_loop fuel q deadline
  end.

Definition waitForPeer (fuel : nat) (q : ShmSpscQueue) (timeoutMs : Z) : io (option bool) :=
  let* now := sys SteadyNow in
  let deadline := now + timeoutMs * ns_per_ms in
  wait_loop fuel q deadline.

Definition control (q : ShmSpscQueue) : Z := ctrl_ q.
Definition name_of (q : ShmSpscQueue) : string := name_ (seg_ q).
End lifecycle.
