(* ===== verification/Claim.v ===== *)
(** * Who owns a role

    Any number of processes compete for one pid slot, starting, claiming, leaving
    and crashing in any order.  The slot is one atomic location: the list of the
    values it has held, of which a read may return any that the process has not
    seen overwritten, and a compare-exchange succeeds only on the latest.  At most
    one live process owns the role at any time. *)

From stdpp Require Import relations.
From S2P Require Import Prelude Prog Effects Layout Segment Queue Lifecycle.
#[local] Open Scope Z_scope.
#[local] Open Scope prog_scope.

Section claim.
Context {T : Type} (ctrl : Z) (role : Role) (fuel : nat).
#[local] Abbreviation io := (prog (evE T)).

(** A process: outside, running the claim of [bind], inside with a bound handle, or
    giving its slot up in [detach]. *)
Inductive tstate : Type :=
| TOut
| TClaim (p : io (option (exn + unit)))
| TInside
| TLeave (p : io unit).

(** [held] are the values the slot has had; [seen pid] is the newest one the process
    knows of. *)
Record slot_sys : Type := MkSys {
  held : list Z;
  seen : Z -> nat;
  alive : Z -> bool;
  thr : Z -> tstate }.

(** What an access of process [pid] may answer.  [kill] finds every live process;
    of a dead one it may say anything (it may be a zombie). *)
Definition slot_step {X} (s : slot_sys) (pid : Z) (e : evE T X) : X -> list Z -> nat -> Prop :=
  match e with
  | Mem m =>
      match m in memE _ X return X -> list Z -> nat -> Prop with
      | ALoad c f _ => fun x h i =>
          c = ctrl /\ f = own_slot role /\ h = held s /\ (seen s pid <= i)%nat /\ held s !! i = Some x
      | ACas weak c f expected desired _ _ => fun x h i =>
          c = ctrl /\ f = own_slot role /\
          ((last (held s) = Some expected /\ x = (true, expected) /\
            h = held s ++ [desired] /\ i = length (held s)) \/
           (exists v, h = held s /\ (seen s pid <= i)%nat /\ held s !! i = Some v /\
              (weak = true \/ v <> expected) /\ x = (false, v)))
      | AStore c f v _ => fun _ h i =>
          c = ctrl /\ f = own_slot role /\ h = held s ++ [v] /\ i = length (held s)
      | _ => fun _ _ _ => False
      end
  | Os o =>
      match o in osE X return X -> list Z -> nat -> Prop with
      | Kill target sig => fun x h i =>
          h = held s /\ i = seen s pid /\
          (alive s target = true -> x.1 = 0 \/ x.2 <> ESRCH)
      | _ => fun _ _ _ => False
      end
  end.

Definition goto (s : slot_sys) (pid : Z) (t : tstate) : slot_sys :=
  MkSys (held s) (seen s) (alive s) (fupd pid t (thr s)).
Definition advance (s : slot_sys) (pid : Z) (t : tstate) (h : list Z) (i : nat) : slot_sys :=
  MkSys h (fupd pid i (seen s)) (alive s) (fupd pid t (thr s)).

Inductive sstep : slot_sys -> slot_sys -> Prop :=
| s_start s pid :
    alive s pid = true -> thr s pid = TOut -> sstep s (goto s pid (TClaim (claim_slot fuel ctrl role pid)))
| s_claim s pid X (e : evE T X) k x h i :
    alive s pid = true -> thr s pid = TClaim (Vis e k) -> slot_step s pid e x h i ->
    sstep s (advance s pid (TClaim (k x)) h i)
| s_enter s pid :
    alive s pid = true -> thr s pid = TClaim (Ret (Some (inr tt))) -> sstep s (goto s pid TInside)
| s_refused s pid r :
    alive s pid = true -> thr s pid = TClaim (Ret r) -> r <> Some (inr tt) -> sstep s (goto s pid TOut)
| s_detach s pid :
    alive s pid = true -> thr s pid = TInside -> sstep s (goto s pid (TLeave (release_slot ctrl role pid)))
| s_leave s pid X (e : evE T X) k x h i :
    alive s pid = true -> thr s pid = TLeave (Vis e k) -> slot_step s pid e x h i ->
    sstep s (advance s pid (TLeave (k x)) h i)
| s_left s pid :
    alive s pid = true -> thr s pid = TLeave (Ret tt) -> sstep s (goto s pid TOut)
| s_crash s pid :
    sstep s (MkSys (held s) (seen s) (fupd pid false (alive s)) (thr s)).

(** A fresh slot; the live processes have positive pids. *)
Definition fresh_slot (live : Z -> bool) : slot_sys :=
  MkSys [0] (fun _ => O) (fun pid => (0 <? pid) && live pid) (fun _ => TOut).

(** The process believes it owns the role. *)
Definition owner (t : tstate) : bool :=
  match t with
  | TClaim (Ret (Some (inr _))) => true
  | TInside => true
  | TLeave (Vis _ _) => true
  | _ => false
  end.

(** ** The states of a claim *)

(** The compare-exchange of the claim loop and what follows it. *)
Definition cas_then (n : nat) (pid e : Z) : io (option (exn + unit)) :=
  let* (won, now) := act (Mem (ACas true ctrl (own_slot role) e pid acq_rel acquire)) in
  if (won : bool) then Ret (Some (inr tt)) else claim_loop n ctrl role pid now.

Inductive shape (gone : Z -> Prop) (pid : Z) : io (option (exn + unit)) -> Prop :=
| sh_start n : shape gone pid (claim_slot n ctrl role pid)
| sh_loop n e : e <> pid -> shape gone pid (claim_loop n ctrl role pid e)
| sh_cas n e : e <> pid -> (e <= 0 \/ gone e) -> shape gone pid (cas_then n pid e)
| sh_refused r : r <> Some (inr tt) -> shape gone pid (Ret r).

Lemma shape_mono (gone gone' : Z -> Prop) pid p :
  (forall e, gone e -> gone' e) -> shape gone pid p -> shape gone' pid p.
Proof.
  intros Hg [n|n e Hne|n e Hne [?|?]|r Hr]; [apply sh_start|by apply sh_loop|apply sh_cas; auto..|by apply sh_refused].
Qed.

(** A claim still under way has not been granted. *)
Lemma shape_not_granted gone pid : ~ shape gone pid (Ret (Some (inr tt))).
Proof.
  intros Hs. remember (Ret (Some (inr tt))) as p eqn:Hp.
  destruct Hs as [n|[|n] e Hne|n e Hne Hg|r Hr]; try done; [|congruence].
  cbn [claim_loop] in Hp. rewrite (proj2 (Z.eqb_neq e pid)) in Hp by done. rewrite Z.gtb_ltb in Hp.
  destruct (Z.ltb_spec 0 e); [|done]. unfold processAlive in Hp.
  by rewrite (proj2 (Z.leb_gt e 0)) in Hp.
Qed.

(** Outside, a process has seen its last own entry overwritten. *)
Definition not_mine (s : slot_sys) (pid : Z) : Prop :=
  forall j v, (seen s pid <= j)%nat -> held s !! j = Some v -> v <> pid.

(** The process has read entry [i], and the slot is as before. *)
Definition only_read (s : slot_sys) (pid : Z) (h : list Z) (i : nat) : Prop :=
  h = held s /\ (seen s pid <= i)%nat /\ (i < length (held s))%nat.

(** The process has replaced a value that stood for nobody alive. *)
Definition took_over (s : slot_sys) (pid : Z) (h : list Z) (i : nat) : Prop :=
  exists e, last (held s) = Some e /\ (e <= 0 \/ alive s e = false) /\
    h = held s ++ [pid] /\ i = length (held s).

Definition claim_step_ok (s : slot_sys) (pid : Z) (p : io (option (exn + unit))) : Prop :=
  match p with
  | Ret _ => True
  | Vis e k => forall x h i, slot_step s pid e x h i ->
      (only_read s pid h i /\ shape (fun e => alive s e = false) pid (k x)) \/
      (took_over s pid h i /\ k x = Ret (Some (inr tt)))
  end.

Lemma cas_then_step s pid n e :
  not_mine s pid -> (e <= 0 \/ alive s e = false) -> claim_step_ok s pid (cas_then n pid e).
Proof.
  intros Hm Hg [won v] h i. simpl. intros (_ & _ & [(Hl & [= -> ->] & -> & ->)|(v' & -> & Hi & Hv & _ & [= -> ->])]).
  - right. split; [|done]. by exists e.
  - left. split; [split_and!; [done|done|by eapply lookup_lt_Some]|]. apply sh_loop. by apply (Hm i).
Qed.

Lemma claim_loop_step s pid n e :
  (seen s pid < length (held s))%nat -> not_mine s pid -> e <> pid ->
  claim_step_ok s pid (claim_loop n ctrl role pid e).
Proof.
  intros Hlt Hm Hne. destruct n as [|n]; [done|]. cbn [claim_loop].
  rewrite (proj2 (Z.eqb_neq e pid)) by done. rewrite Z.gtb_ltb.
  destruct (Z.ltb_spec 0 e) as [Hpos|Hneg]; [|apply cas_then_step; auto].
  unfold processAlive. rewrite (proj2 (Z.leb_gt e 0)) by done. simpl.
  intros [rc errno] h i (-> & -> & Hk). left. split; [by split_and!|]. simpl in *.
  destruct (Z.eqb_spec rc 0); simpl; [by apply sh_refused|].
  destruct (Z.eqb_spec errno ESRCH); simpl; [|by apply sh_refused].
  apply (sh_cas _ _ n e); [done|]. right. destruct (alive s e) eqn:Ha; [|done].
  destruct (Hk eq_refl); done.
Qed.

Lemma claim_step s pid p :
  (seen s pid < length (held s))%nat -> not_mine s pid ->
  shape (fun e => alive s e = false) pid p -> claim_step_ok s pid p.
Proof.
  intros Hlt Hm Hp. destruct Hp as [n|n e Hne|n e Hne Hg|r Hr]; [|by apply claim_loop_step|by apply cas_then_step|done].
  intros x h i. simpl. intros (_ & _ & -> & Hi & Hx). left.
  split; [split_and!; [done|done|by eapply lookup_lt_Some]|]. apply sh_loop. by apply (Hm i).
Qed.

(** ** The invariant *)
Definition thread_ok (s : slot_sys) (pid : Z) : Prop :=
  match thr s pid with
  | TOut => not_mine s pid
  | TClaim p => (shape (fun e => alive s e = false) pid p /\ not_mine s pid) \/
                (p = Ret (Some (inr tt)) /\ last (held s) = Some pid /\ S (seen s pid) = length (held s))
  | TInside => last (held s) = Some pid /\ S (seen s pid) = length (held s)
  | TLeave p => (p = release_slot ctrl role pid /\ last (held s) = Some pid /\
                 S (seen s pid) = length (held s)) \/
                (p = Ret tt /\ not_mine s pid)
  end.

Definition slot_inv (s : slot_sys) : Prop :=
  (forall pid, alive s pid = true -> 0 < pid /\ thread_ok s pid) /\
  (forall pid, (seen s pid < length (held s))%nat).

(** Another process's reading changes nothing for this one; its taking over is only
    possible when this one does not own the slot. *)
Lemma thread_ok_other s pid pid' t h i :
  pid <> pid' -> thread_ok s pid -> (h = held s) -> thread_ok (advance s pid' t h i) pid.
Proof.
  intros Hne Hok ->. unfold thread_ok, not_mine in *. cbn. by rewrite !fupd_ne.
Qed.

Lemma not_mine_append s pid v h :
  not_mine s pid -> v <> pid -> h = held s ++ [v] ->
  forall j w, (seen s pid <= j)%nat -> h !! j = Some w -> w <> pid.
Proof.
  intros Hm Hne -> j w Hj [Hw|[_ [_ <-]%list_lookup_singleton_Some]]%lookup_app_Some; [|done].
  by apply (Hm j).
Qed.

Lemma thread_ok_taken s pid pid' t v :
  pid <> pid' -> v <> pid -> last (held s) <> Some pid -> thread_ok s pid ->
  thread_ok (advance s pid' t (held s ++ [v]) (length (held s))) pid.
Proof.
  intros Hne Hv Hl Hok. unfold thread_ok in *. cbn. rewrite !fupd_ne by done.
  assert (forall j w, (seen s pid <= j)%nat -> (held s ++ [v]) !! j = Some w -> not_mine s pid -> w <> pid) as Hn.
  { intros j w Hj Hw Hm. by eapply (not_mine_append s pid v). }
  destruct (thr s pid) as [|p| |p].
  - intros j w Hj Hw. simpl in *. rewrite fupd_ne in Hj by done. by apply (Hn j).
  - destruct Hok as [[Hs Hm]|(_ & ? & _)]; [|done]. left. split; [done|].
    intros j w Hj Hw. simpl in *. rewrite fupd_ne in Hj by done. by apply (Hn j).
  - by destruct Hok.
  - destruct Hok as [(_ & ? & _)|[? Hm]]; [done|]. right. split; [done|].
    intros j w Hj Hw. simpl in *. rewrite fupd_ne in Hj by done. by apply (Hn j).
Qed.

Lemma thread_ok_goto s pid pid' t :
  pid <> pid' -> thread_ok s pid -> thread_ok (goto s pid' t) pid.
Proof. intros Hne Hok. unfold thread_ok, not_mine in *. cbn. by rewrite !fupd_ne. Qed.

Lemma thread_ok_crash s pid pid' :
  thread_ok s pid -> thread_ok (MkSys (held s) (seen s) (fupd pid' false (alive s)) (thr s)) pid.
Proof.
  unfold thread_ok. cbn. destruct (thr s pid) as [|p| |p]; try done.
  intros [[Hs Hm]|Hr]; [left|by right]. split; [|done]. eapply shape_mono; [|exact Hs].
  intros e He. cbn. unfold fupd. by case_decide.
Qed.

Lemma slot_inv_goto s pid t :
  slot_inv s -> thread_ok (goto s pid t) pid -> slot_inv (goto s pid t).
Proof.
  intros [Ht Hb] Hok. split; [|exact Hb]. intros pid2 Ha. destruct (Ht pid2 Ha) as [Hpos Hok2].
  split; [done|]. destruct (decide (pid2 = pid)) as [->|Hne]; [done|]. by apply thread_ok_goto.
Qed.

Lemma slot_inv_read s pid t i h :
  slot_inv s -> only_read s pid h i -> thread_ok (advance s pid t h i) pid ->
  slot_inv (advance s pid t h i).
Proof.
  intros [Ht Hb] (-> & _ & Hi) Hok. split.
  - intros pid2 Ha. destruct (Ht pid2 Ha) as [Hpos Hok2]. split; [done|].
    destruct (decide (pid2 = pid)) as [->|Hne]; [done|]. by apply thread_ok_other.
  - intros pid2. cbn. unfold fupd. case_decide; [done|apply Hb].
Qed.

(** Writing [v] over a value that is no other live process's pid. *)
Lemma slot_inv_write s pid t v :
  slot_inv s -> (v <= 0 \/ v = pid) ->
  (forall pid2, alive s pid2 = true -> pid2 <> pid -> last (held s) <> Some pid2) ->
  thread_ok (advance s pid t (held s ++ [v]) (length (held s))) pid ->
  slot_inv (advance s pid t (held s ++ [v]) (length (held s))).
Proof.
  intros [Ht Hb] Hv Hl Hok. split.
  - intros pid2 Ha. destruct (Ht pid2 Ha) as [Hpos Hok2]. split; [done|].
    destruct (decide (pid2 = pid)) as [->|Hne]; [done|].
    apply thread_ok_taken; try done; [lia|by apply Hl].
  - intros pid2. cbn. rewrite length_app. cbn. pose proof (Hb pid2). unfold fupd. case_decide; lia.
Qed.

Definition leave_step_ok (s : slot_sys) (pid : Z) (p : io unit) : Prop :=
  match p with
  | Ret _ => True
  | Vis e k => forall x h i, slot_step s pid e x h i ->
      h = held s ++ [-1] /\ i = length (held s) /\ k x = Ret tt
  end.

(** The owner's exchange finds its own pid, and cannot fail. *)
Lemma release_step s pid :
  last (held s) = Some pid -> S (seen s pid) = length (held s) ->
  leave_step_ok s pid (release_slot ctrl role pid).
Proof.
  intros Hl Hs x h i. simpl. intros (_ & _ & [(_ & -> & -> & ->)|(v & _ & Hi & Hv & [?|Hne] & _)]); [done|done|].
  exfalso. apply Hne. assert (i = pred (length (held s))) as ->.
  { apply lookup_lt_Some in Hv as Hlt. lia. }
  rewrite last_lookup in Hl. congruence.
Qed.

Lemma slot_inv_step s s' : slot_inv s -> sstep s s' -> slot_inv s'.
Proof.
  intros Hi Hst. pose proof Hi as [Ht Hb].
  destruct Hst as [s pid Ha Hp|s pid X e k x h i Ha Hp Hx|s pid Ha Hp|s pid r Ha Hp Hr
                  |s pid Ha Hp|s pid X e k x h i Ha Hp Hx|s pid Ha Hp|s pid].
  all: try (destruct (Ht pid Ha) as [Hpos Hok]; unfold thread_ok in Hok; rewrite Hp in Hok).
  - apply slot_inv_goto; [done|]. unfold thread_ok. cbn. rewrite fupd_eq. left. split; [apply sh_start|done].
  - destruct Hok as [[Hs Hm]|[? _]]; [|done].
    destruct (claim_step s pid _ (Hb pid) Hm Hs x h i Hx) as [[Hrd Hsh]|[(e' & Hl & Hg & -> & ->) Hk]].
    + apply slot_inv_read; [done..|]. destruct Hrd as (-> & Hle & Hlt).
      unfold thread_ok. cbn. rewrite fupd_eq. left. split; [done|].
      intros j v. cbn. rewrite fupd_eq. intros Hj. apply Hm. lia.
    + apply slot_inv_write; [done|by right| |].
      * intros pid2 Ha2 _ Hl2. rewrite Hl in Hl2. injection Hl2 as ->.
        destruct (Ht pid2 Ha2). destruct Hg; [lia|congruence].
      * unfold thread_ok. cbn. rewrite !fupd_eq, last_snoc, length_app. right. cbn. split_and!; [done|done|lia].
  - apply slot_inv_goto; [done|]. unfold thread_ok. cbn. rewrite fupd_eq.
    destruct Hok as [[Hs _]|(_ & ? & ?)]; [by apply shape_not_granted in Hs|done].
  - apply slot_inv_goto; [done|]. unfold thread_ok. cbn. rewrite fupd_eq.
    destruct Hok as [[_ Hm]|[[= ->] _]]; [done|done].
  - apply slot_inv_goto; [done|]. unfold thread_ok. cbn. rewrite fupd_eq. left. done.
  - destruct Hok as [(He & Hl & Hs)|[? _]]; [|done].
    pose proof (release_step s pid Hl Hs) as Hrel. rewrite <- He in Hrel.
    destruct (Hrel x h i Hx) as (-> & -> & Hk). apply slot_inv_write; [done|by left| |].
    + intros pid2 _ Hne Hl2. congruence.
    + unfold thread_ok. cbn. rewrite !fupd_eq, Hk. right. split; [done|].
      intros j v. cbn. rewrite fupd_eq. intros Hj [Hv|[_ [_ <-]%list_lookup_singleton_Some]]%lookup_app_Some; [|lia].
      apply lookup_lt_Some in Hv. lia.
  - apply slot_inv_goto; [done|]. unfold thread_ok. cbn. rewrite fupd_eq. by destruct Hok as [[? _]|[_ Hm]].
  - split; [|done]. intros pid2. cbn. unfold fupd at 1. case_decide; [done|]. intros Ha2.
    destruct (Ht pid2 Ha2). split; [done|]. by apply thread_ok_crash.
Qed.

Lemma slot_inv_fresh live : slot_inv (fresh_slot live).
Proof.
  split; [|simpl; lia]. intros pid [Hpos _]%andb_prop. apply Z.ltb_lt in Hpos. split; [done|].
  intros j v _ [_ <-]%list_lookup_singleton_Some. lia.
Qed.

(** C4: the claim is exclusive.  However many processes compete for a role, in
    whatever order their loads, liveness probes and compare-exchanges interleave,
    whatever stale values the loads return, however often the weak exchange fails
    spuriously, and whichever processes crash when: at most one live process is
    attached in the role, and the slot holds its pid for as long as it is. *)
Theorem claim_is_exclusive live s :
  rtc sstep (fresh_slot live) s ->
  (forall pid, alive s pid = true -> owner (thr s pid) = true -> last (held s) = Some pid) /\
  (forall p1 p2, alive s p1 = true -> alive s p2 = true ->
     owner (thr s p1) = true -> owner (thr s p2) = true -> p1 = p2).
Proof.
  intros Hs. assert (slot_inv s) as [Ht _].
  { revert Hs. generalize (slot_inv_fresh live). induction 2; eauto using slot_inv_step. }
  assert (forall pid, alive s pid = true -> owner (thr s pid) = true -> last (held s) = Some pid) as Ho.
  { intros pid Ha Ho. destruct (Ht pid Ha) as [_ Hok]. unfold thread_ok in Hok.
    destruct (thr s pid) as [|p| |p]; try done; [|by destruct Hok|].
    - destruct Hok as [[Hs' _]|(_ & ? & _)]; [|done]. destruct p as [[[|[]]|]|]; try done.
      by apply shape_not_granted in Hs'.
    - destruct Hok as [(_ & ? & _)|[-> _]]; done. }
  split; [done|]. intros p1 p2 Ha1 Ha2 H1 H2.
  apply Ho in H1; [|done]. apply Ho in H2; [|done]. congruence.
Qed.
End claim.

(** ** A concrete claim *)
Module ClaimSample.
Definition all_live (pid : Z) : bool := true.

(** Process 7 claims the producer's slot of a fresh segment: load, exchange, in. *)
Definition st0 : slot_sys (T := Z) := fresh_slot all_live.
Definition st1 := goto st0 7 (TClaim (claim_slot 3 4096 Producer 7)).
Definition st2 := advance st1 7 (TClaim (claim_loop 3 4096 Producer 7 0)) [0] 0.
Definition st3 := advance st2 7 (TClaim (Ret (Some (inr tt)))) [0; 7] 1.
Definition st4 := goto st3 7 TInside.

Lemma st4_reached : rtc (sstep 4096 Producer 3) st0 st4.
Proof.
  apply (rtc_l _ _ st1); [by apply s_start|].
  apply (rtc_l _ _ st2).
  { by apply (s_claim _ _ _ st1 7 Z (Mem (ALoad 4096 producerPid acquire))
                (fun e => claim_loop 3 4096 Producer 7 e) 0 [0] 0). }
  apply (rtc_l _ _ st3).
  { apply (s_claim _ _ _ st2 7 (bool * Z) (Mem (ACas true 4096 producerPid 0 7 acq_rel acquire))
             (fun x => let (won, now) := x in
                if won then Ret (Some (inr tt)) else claim_loop 2 4096 Producer 7 now)
             (true, 0) [0; 7] 1); [done|reflexivity|].
    split; [done|]. split; [done|]. by left. }
  apply rtc_once. by apply s_enter.
Defined.

Lemma claim_is_exclusive_witness :
  last (held st4) = Some 7 /\
  (forall p, alive st4 p = true -> owner (thr st4 p) = true -> 7 = p).
Proof.
  destruct (claim_is_exclusive 4096 Producer 3 all_live st4 st4_reached) as [Hl Hx].
  split; [by apply Hl|]. intros p Ha Ho. by apply Hx.
Defined.
End ClaimSample.
