(* ===== verification/Resources.v ===== *)
(** * Resources: descriptors, mappings and names

    The operating system is a parameter: a step relation for its calls over a
    kernel state of which the descriptors, the mappings and the linked names of the
    process are observed, with the documented effect of each call as a law.  The
    theorems hold for every answer the calls may give, errors included, and for
    every value found in the shared memory. *)

From S2P Require Import Prelude Prog Effects Layout Segment Queue Lifecycle.
From stdpp Require Import gmap.
#[local] Open Scope Z_scope.
#[local] Open Scope prog_scope.
#[local] Set Warnings "-clear-no-such-hyp".

#[export] Instance oflag_eq_dec : EqDecision oflag.
Proof. solve_decision. Defined.

(** Can the call change descriptors, mappings or names at all? *)
Definition quiet {X} (e : osE X) : bool :=
  match e with
  | ShmOpen _ _ _ | ShmUnlink _ | Mmap _ _ | Munmap _ _ | Close _ => false
  | _ => true
  end.

Class Posix (K : Type) : Type := {
  fds : K -> gset Z;
  maps : K -> gset (Z * Z);
  linked : K -> gset string;
  clock : K -> Z;
  os_step : forall {X}, osE X -> K -> X -> K -> Prop }.

(** What POSIX says of the calls.  [shm_open] answers a descriptor that is not open
    yet and links the name when it creates; [mmap] answers a new, non-null range;
    [munmap] and [close] release what they are given; [shm_unlink] removes the name
    (the process is taken to be permitted to).  The steady clock does not run
    backwards, and [usleep] sleeps at least what it is asked to. *)
Class PosixOk (K : Type) `{!Posix K} : Prop := {
  open_step name flags mode k fd e k' :
    os_step (ShmOpen name flags mode) k (fd, e) k' ->
    maps k' = maps k /\
    ((fd < 0 /\ fds k' = fds k /\ linked k' = linked k) \/
     (0 <= fd /\ (fd ∉ fds k) /\ fds k' = ({[fd]} ∪ fds k) /\
      linked k' = if bool_decide (O_CREAT ∈ flags) then {[name]} ∪ linked k else linked k));
  unlink_step name k rc k' :
    os_step (ShmUnlink name) k rc k' ->
    fds k' = fds k /\ maps k' = maps k /\ linked k' = linked k ∖ {[name]};
  mmap_step bytes fd k a e k' :
    os_step (Mmap bytes fd) k (a, e) k' ->
    fds k' = fds k /\ linked k' = linked k /\
    ((a = MAP_FAILED /\ maps k' = maps k) \/
     (0 < a /\ a <> MAP_FAILED /\ ((a, bytes) ∉ maps k) /\ maps k' = ({[(a, bytes)]} ∪ maps k)));
  munmap_step a bytes k rc k' :
    os_step (Munmap a bytes) k rc k' ->
    fds k' = fds k /\ linked k' = linked k /\ maps k' = maps k ∖ {[(a, bytes)]};
  close_step fd k rc k' :
    os_step (Close fd) k rc k' ->
    fds k' = fds k ∖ {[fd]} /\ linked k' = linked k /\ maps k' = maps k;
  quiet_step {X} (e : osE X) k x k' :
    quiet e = true -> os_step e k x k' -> fds k' = fds k /\ linked k' = linked k /\ maps k' = maps k;
  clock_step {X} (e : osE X) k x k' : os_step e k x k' -> clock k <= clock k';
  now_step k t k' : os_step SteadyNow k t k' -> clock k <= t <= clock k';
  usleep_step us k x k' : os_step (Usleep us) k x k' -> clock k + 1000 * us <= clock k' }.

Section resources.
Context {T : Type} `{Platform} `{Elem T} {K : Type} `{PosixOk K}.
#[local] Abbreviation io := (prog (evE T)).

(** A call is given only descriptors that are open and mappings that exist.  (A failed
    assertion uses no resource; that the assertions hold is shown in Delivery.v.) *)
Definition os_safe {X} (e : osE X) (k : K) : Prop :=
  match e with
  | Ftruncate fd _ | Fstat fd | Mmap _ fd | Close fd => fd ∈ fds k
  | Munmap a bytes => (a, bytes) ∈ maps k
  | _ => True
  end.

(** An access to the control block goes through the base of a live mapping.  Which slots
    are touched is not a question of resources and is left to Footprint.v, Delivery.v
    and Fleet.v. *)
Definition mapped_at (a : Z) (k : K) : Prop := exists bytes, (a, bytes) ∈ maps k.
Definition mem_live {X} (e : memE T X) (k : K) : Prop :=
  match e with
  | ALoad c _ _ | AStore c _ _ _ | ACas _ c _ _ _ _ _ | FLoad c _ | FStore c _ _ | MemsetCtrl c =>
      mapped_at c k
  | SlotRead _ | SlotWrite _ _ => True
  end.

(** Whatever the calls and the memory answer, the program uses only live resources
    and ends in a state that satisfies [Q]. *)
Fixpoint owp {A} (p : io A) (k : K) (Q : A -> K -> Prop) : Prop :=
  match p with
  | Ret a => Q a k
  | Vis e f =>
      match e with
      | Os o => os_safe o k /\ forall x k', os_step o k x k' -> owp (f x) k' Q
      | Mem m => mem_live m k /\ forall x, owp (f x) k Q
      end
  end.

Lemma owp_mono {A} (p : io A) k (Q Q' : A -> K -> Prop) :
  owp p k Q -> (forall a k', Q a k' -> Q' a k') -> owp p k Q'.
Proof.
  intros Hp HQ. revert k Hp. induction p as [a|X e f IH]; intros k Hp; simpl in *; [by apply HQ|].
  destruct e as [m|o]; destruct Hp as [Hs Hp]; split; auto.
Qed.

Lemma owp_bind {A B} (p : io A) (f : A -> io B) k Q :
  owp p k (fun a k' => owp (f a) k' Q) -> owp (bind p f) k Q.
Proof.
  revert k. induction p as [a|X e g IH]; intros k Hp; simpl in *; [done|].
  destruct e as [m|o]; destruct Hp as [Hs Hp]; split; auto.
Qed.

(** Time only passes. *)
Lemma owp_clock {A} (p : io A) k Q :
  owp p k Q -> owp p k (fun a k' => Q a k' /\ clock k <= clock k').
Proof.
  revert k. induction p as [a|X e f IH]; intros k Hp; simpl in *; [split; [done|lia]|].
  destruct e as [m|o]; destruct Hp as [Hs Hp]; (split; [done|]); [by auto|].
  intros x k' Hst. eapply owp_mono; [by apply IH, Hp|]. intros a k2 [HQ Hc].
  split; [done|]. apply clock_step in Hst. lia.
Qed.

Lemma owp_os {A X} (o : osE X) (f : X -> io A) k Q :
  os_safe o k -> (forall x k', os_step o k x k' -> owp (f x) k' Q) ->
  owp (bind (sys o) f) k Q.
Proof. done. Qed.

Lemma owp_mem {A X} (m : memE T X) (f : X -> io A) k Q :
  mem_live m k -> (forall x, owp (f x) k Q) -> owp (bind (act (Mem m)) f) k Q.
Proof. done. Qed.

(** A run of a program, from one kernel state to another. *)
Fixpoint runs {A} (p : io A) (k : K) (a : A) (k' : K) : Prop :=
  match p with
  | Ret b => b = a /\ k' = k
  | Vis e f =>
      match e with
      | Os o => exists x k1, os_step o k x k1 /\ runs (f x) k1 a k'
      | Mem m => exists x, runs (f x) k a k'
      end
  end.

Lemma runs_bind {A B} (p : io A) (f : A -> io B) k b k' :
  runs (bind p f) k b k' <-> exists a k1, runs p k a k1 /\ runs (f a) k1 b k'.
Proof.
  revert k. induction p as [a|X e g IH]; intros k; cbn [bind runs].
  { split; [by eauto|]. by intros (? & ? & [<- ->] & ?). }
  destruct e as [m|o].
  - setoid_rewrite IH. split; [by intros (x & a & k1 & ? & ?); eauto 6|by intros (a & k1 & (x & ?) & ?); eauto 6].
  - setoid_rewrite IH. split; [by intros (x & k2 & ? & a & k1 & ? & ?); eauto 9|].
    by intros (a & k1 & (x & k2 & ? & ?) & ?); eauto 9.
Qed.

Lemma runs_sys {A X} (o : osE X) (f : X -> io A) k b k' :
  runs (bind (sys o) f) k b k' -> exists x k1, os_step o k x k1 /\ runs (f x) k1 b k'.
Proof. done. Qed.

(** What holds whatever is answered holds of every run. *)
Lemma owp_runs {A} (p : io A) k Q a k' : owp p k Q -> runs p k a k' -> Q a k'.
Proof.
  revert k. induction p as [b|X e f IH]; intros k; cbn [owp runs]; [by intros ? [<- ->]|].
  destruct e as [m|o]; intros [_ Hp]; [intros [x Hx]; by eapply IH|intros (x & k1 & Ho & Hx); eauto].
Qed.

(** ** The segment *)
Record same (k k' : K) : Prop := {
  same_fds : fds k' = fds k; same_maps : maps k' = maps k; same_linked : linked k' = linked k }.

Lemma mapAndClose_spec fd name bytes owner k :
  fd ∈ fds k ->
  owp (mapAndClose fd name bytes owner) k (fun r k' =>
    fds k' = fds k ∖ {[fd]} /\
    match r with
    | inl _ => maps k' = maps k /\ linked k' = (if owner then linked k ∖ {[name]} else linked k)
    | inr s => exists a, s = MkSegment a bytes owner name /\ 0 < a /\ ((a, bytes) ∉ maps k) /\
        maps k' = ({[(a, bytes)]} ∪ maps k) /\ linked k' = linked k
    end).
Proof.
  intros Hfd. apply owp_os; [done|]. intros [a e] k1 (Hf1 & Hl1 & Hm1)%mmap_step.
  apply owp_os; [simpl; by rewrite Hf1|]. intros rc k2 (Hf2 & Hl2 & Hm2)%close_step.
  destruct (Z.eqb_spec a MAP_FAILED) as [->|Hne].
  - destruct Hm1 as [[_ Hm1]|(_ & Hne & _)]; [|done]. destruct owner; simpl.
    + split; [done|]. intros x k3 (Hf3 & Hm3 & Hl3)%unlink_step. split_and!; congruence.
    + split_and!; congruence.
  - destruct Hm1 as [[? _]|(Ha & _ & Hnew & Hm1)]; [done|]. simpl. split; [congruence|].
    exists a. split; [done|]. split; [done|]. split; [done|]. split_and!; congruence.
Qed.

(** [validateName] and the size check come before any call. *)
Definition create_spec (name : string) (bytes : Z) (k : K) (r : exn + ShmSegment) (k' : K) : Prop :=
  fds k' = fds k /\
  match r with
  | inl _ => maps k' = maps k /\
      linked k' = match validateName name with
                  | inr _ => if bytes =? 0 then linked k else linked k ∖ {[name]}
                  | inl _ => linked k
                  end
  | inr s => validateName name = inr tt /\ exists a, s = MkSegment a bytes true name /\ 0 < a /\ ((a, bytes) ∉ maps k) /\
      maps k' = ({[(a, bytes)]} ∪ maps k) /\ linked k' = {[name]} ∪ linked k
  end.

Lemma ShmSegment_create_spec name bytes k :
  owp (ShmSegment_create name bytes) k (create_spec name bytes k).
Proof.
  unfold ShmSegment_create, create_spec, try_bind, throw, throwErrno. simpl.
  destruct (validateName name) as [e|[]]; [done|].
  destruct (Z.eqb_spec bytes 0); [done|].
  apply owp_os; [done|]. intros rc k1 (Hf1 & Hm1 & Hl1)%unlink_step.
  apply owp_os; [done|]. intros [fd e] k2 (Hm2 & Hfd)%open_step.
  destruct (Z.ltb_spec fd 0).
  { destruct Hfd as [(_ & Hf2 & Hl2)|(? & _)]; [|lia]. simpl. split; [congruence|]. split_and!; congruence. }
  destruct Hfd as [(? & _)|(_ & Hnew & Hf2 & Hl2)]; [lia|]. rewrite bool_decide_true in Hl2 by set_solver.
  assert (fd ∈ fds k2) as Hin by set_solver.
  apply owp_os; [done|]. intros [rc' e'] k3 (Hf3 & Hl3 & Hm3)%quiet_step; [|done].
  destruct (Z.eqb_spec rc' 0); simpl negb; cbv iota.
  - eapply owp_mono; [apply mapAndClose_spec; by rewrite Hf3|].
    intros r k4 [Hf4 Hr]. split; [rewrite Hf4, Hf3, Hf2, Hf1; set_solver|].
    destruct r as [e2|s].
    + destruct Hr as [Hm4 Hl4]. split; [congruence|]. rewrite Hl4, Hl3, Hl2, Hl1. set_solver.
    + destruct Hr as (a & -> & Ha & Hni & Hm4 & Hl4). split; [done|]. exists a. split; [done|]. split; [done|].
      rewrite Hl4, Hl3, Hl2, Hl1, Hm4, Hm3, Hm2, Hm1 in *. split; [congruence|]. split; [done|].
      apply set_eq. intros x. destruct (decide (x = name)); set_solver.
  - apply owp_os; [simpl; by rewrite Hf3|]. intros x4 k4 (Hf4 & Hl4 & Hm4)%close_step.
    apply owp_os; [done|]. intros x5 k5 (Hf5 & Hm5 & Hl5)%unlink_step. simpl.
    split; [rewrite Hf5, Hf4, Hf3, Hf2, Hf1; set_solver|]. split; [congruence|].
    rewrite Hl5, Hl4, Hl3, Hl2, Hl1. set_solver.
Qed.

Lemma ShmSegment_open_spec name k :
  owp (ShmSegment_open name) k (fun r k' =>
    fds k' = fds k /\ linked k' = linked k /\
    match r with
    | inl _ => maps k' = maps k
    | inr s => exists a b, s = MkSegment a b false name /\ 0 < a /\ ((a, b) ∉ maps k) /\
        maps k' = ({[(a, b)]} ∪ maps k)
    end).
Proof.
  unfold ShmSegment_open, try_bind, throw, throwErrno. simpl.
  destruct (validateName name) as [e|[]]; [done|].
  apply owp_os; [done|]. intros [fd e] k1 (Hm1 & Hfd)%open_step.
  destruct (Z.ltb_spec fd 0).
  { destruct Hfd as [(_ & Hf1 & Hl1)|(? & _)]; [|lia]. done. }
  destruct Hfd as [(? & _)|(_ & Hnew & Hf1 & Hl1)]; [lia|]. rewrite bool_decide_false in Hl1 by set_solver.
  assert (fd ∈ fds k1) as Hin by set_solver.
  apply owp_os; [done|]. intros [[rc e'] sz] k2 (Hf2 & Hl2 & Hm2)%quiet_step; [|done].
  assert (fds k ∖ {[fd]} = fds k) as Hd by set_solver.
  assert (forall (e : exn), owp (bind (sys (Close fd)) (fun _ => Ret (inl e))) k2 (fun r k' =>
    fds k' = fds k /\ linked k' = linked k /\
    match r with inl _ => maps k' = maps k | inr s => exists a b, s = MkSegment a b false name /\
      0 < a /\ ((a, b) ∉ maps k) /\ maps k' = ({[(a, b)]} ∪ maps k) end)) as Hfail.
  { intros e2. apply owp_os; [simpl; by rewrite Hf2|]. intros x3 k3 (Hf3 & Hl3 & Hm3)%close_step. simpl.
    split; [rewrite Hf3, Hf2, Hf1; set_solver|]. split_and!; congruence. }
  destruct (rc =? 0); simpl negb; cbv iota; [|apply Hfail].
  destruct (sz <=? 0); [apply Hfail|].
  eapply owp_mono; [apply mapAndClose_spec; by rewrite Hf2|].
  intros r k4 [Hf4 Hr]. split; [rewrite Hf4, Hf2, Hf1; set_solver|]. destruct r as [e2|s].
  - destruct Hr as [Hm4 Hl4]. split_and!; congruence.
  - destruct Hr as (a & -> & Ha & Hni & Hm4 & Hl4). split; [congruence|]. exists a, (u64 sz).
    rewrite Hm4, Hm2, Hm1 in *. done.
Qed.

(** What a segment object holds: its mapping, and its name when it owns it. *)
Definition held (s : ShmSegment) : gset (Z * Z) :=
  if addr_ s =? 0 then ∅ else {[(addr_ s, size_ s)]}.
Definition held_name (s : ShmSegment) : gset string :=
  if owner_ s && negb (bool_decide (name_ s = "")) then {[name_ s]} else ∅.

Lemma ShmSegment_reset_spec s k :
  held s ⊆ maps k ->
  owp (ShmSegment_reset s) k (fun s' k' => s' = ShmSegment_default /\ fds k' = fds k /\
    maps k' = maps k ∖ held s /\ linked k' = linked k ∖ held_name s).
Proof.
  intros Hh. unfold ShmSegment_reset, held, held_name in *. apply owp_bind.
  apply (owp_mono _ _ (fun _ k1 => fds k1 = fds k /\ linked k1 = linked k /\
    maps k1 = maps k ∖ (if addr_ s =? 0 then ∅ else {[(addr_ s, size_ s)]}))).
  - destruct (addr_ s =? 0); simpl.
    + split_and!; [done|done|set_solver].
    + split; [set_solver|]. by intros x k1 (? & ? & ?)%munmap_step.
  - intros _ k1 (Hf & Hl & Hm). apply owp_bind. destruct (owner_ s && _); simpl.
    + split; [done|]. intros x k2 (Hf2 & Hm2 & Hl2)%unlink_step. split_and!; congruence.
    + split_and!; try done. rewrite Hl. set_solver.
Qed.

Lemma owp_reset {A} s (f : ShmSegment -> io A) k Q :
  held s ⊆ maps k ->
  (forall k', fds k' = fds k -> maps k' = maps k ∖ held s -> linked k' = linked k ∖ held_name s ->
     owp (f ShmSegment_default) k' Q) ->
  owp (bind (ShmSegment_reset s) f) k Q.
Proof.
  intros Hh Hf. apply owp_bind. eapply owp_mono; [by apply ShmSegment_reset_spec|].
  intros s' k' (-> & H1' & H2' & H3'). by apply Hf.
Qed.

Lemma seg_eta s : MkSegment (addr_ s) (size_ s) (owner_ s) (name_ s) = s.
Proof. by destruct s. Qed.

(** Taking over a new segment releases exactly the one held before. *)
Lemma take_segment_spec q s k :
  held (seg_ q) ⊆ maps k ->
  owp (take_segment q s) k (fun q' k' =>
    q' = MkQueue s (addr_ s) (slots_ q) (capacity_ q) (role_ q) (bound_ q)
           (readIdxCache_ q) (writeIdxCache_ q) /\
    fds k' = fds k /\ maps k' = maps k ∖ held (seg_ q) /\ linked k' = linked k ∖ held_name (seg_ q)).
Proof.
  intros Hh. unfold take_segment, ShmSegment_assign, ShmSegment_move, ShmSegment_swap. cbn [addr_ size_ owner_ name_].
  apply owp_bind. rewrite !seg_eta. apply owp_reset; [done|]. intros k1 Hf Hm Hl. cbn [owp bind].
  apply owp_reset; [set_solver|]. intros k2 Hf2 Hm2 Hl2. cbn [owp].
  split; [by destruct s|]. rewrite Hf2, Hm2, Hl2. cbn. split_and!; [done|set_solver|set_solver].
Qed.

Lemma detach_spec q k :
  held (seg_ q) ⊆ maps k -> (bound_ q = true -> ctrl_ q <> 0 -> mapped_at (ctrl_ q) k) ->
  owp (detach (T := T) q) k (fun q' k' =>
    q' = MkQueue ShmSegment_default 0 0 (capacity_ q) (role_ q) false (readIdxCache_ q) (writeIdxCache_ q) /\
    fds k' = fds k /\ maps k' = maps k ∖ held (seg_ q) /\ linked k' = linked k ∖ held_name (seg_ q)).
Proof.
  intros Hh Hc. unfold detach. apply owp_bind.
  apply (owp_mono _ _ (fun _ k1 => fds k1 = fds k /\ linked k1 = linked k /\ maps k1 = maps k)).
  - destruct (Z.eqb_spec (ctrl_ q) 0), (bound_ q) eqn:Hb; cbn [negb andb]; try done.
    apply owp_os; [done|]. intros pid k1 (Hf & Hl & Hm)%quiet_step; [|done].
    apply owp_mem; [|done]. destruct (Hc eq_refl n) as [b Hin]. exists b. by rewrite Hm.
  - intros _ k1 (Hf & Hl & Hm). apply owp_reset; [by rewrite Hm|]. intros k2 Hf2 Hm2 Hl2. cbn [owp].
    split; [done|]. split_and!; congruence.
Qed.

(** ** Accesses that leave the resources alone *)
#[local] Instance same_preorder : PreOrder same.
Proof. split; [by constructor|]. intros k1 k2 k3 [] []. constructor; congruence. Qed.

Lemma same_mapped c k k' : same k k' -> mapped_at c k -> mapped_at c k'.
Proof. intros [_ Hm _] [b Hb]. exists b. by rewrite Hm. Qed.

Lemma owp_quiet {A X} (o : osE X) (f : X -> io A) k Q :
  quiet o = true -> os_safe o k -> (forall x k', same k k' -> owp (f x) k' Q) ->
  owp (bind (sys o) f) k Q.
Proof.
  intros Hq Hs Hf. apply owp_os; [done|]. intros x k' (H1' & H2' & H3')%quiet_step; [|done].
  apply Hf. by constructor.
Qed.

Lemma processAlive_spec pid k : owp (processAlive (T := T) pid) k (fun _ k' => same k k').
Proof.
  unfold processAlive. case_Z; [by constructor|].
  apply owp_quiet; [done|done|]. intros [rc e] k' Hs. by case_Z.
Qed.

Lemma claim_loop_spec fuel c role self e k :
  mapped_at c k -> owp (claim_loop (T := T) fuel c role self e) k (fun _ k' => same k k').
Proof.
  revert e k. induction fuel as [|fuel IH]; intros e k Hc; cbn [claim_loop]; [by constructor|].
  case_Z; [by constructor|]. apply owp_bind.
  apply (owp_mono _ _ (fun _ k' => same k k')).
  { destruct (e >? 0); [apply processAlive_spec|by constructor]. }
  intros b k1 Hs. destruct b; [done|]. apply owp_mem; [by apply (same_mapped c k)|].
  intros [won seen]. destruct won; [done|]. eapply owp_mono; [apply IH; by eapply same_mapped|].
  intros ? k2 Hs2. by etransitivity.
Qed.

Lemma bind_queue_spec fuel q role k :
  mapped_at (ctrl_ q) k ->
  owp (bind_queue (T := T) fuel q role) k (fun r k' => same k k' /\
    seg_ r.1 = seg_ q /\ ctrl_ r.1 = ctrl_ q /\
    bound_ r.1 = match r.2 with Some (inr _) => true | _ => bound_ q end).
Proof.
  intros Hc. unfold bind_queue. do 4 (apply owp_mem; [done|]; intros ?).
  apply owp_quiet; [done|done|]. intros pid k1 Hs1.
  apply owp_mem; [by eapply same_mapped|]. intros e.
  apply owp_bind. eapply owp_mono; [apply claim_loop_spec; by eapply same_mapped|].
  intros res k2 Hs2. cbn. split; [by etransitivity|]. done.
Qed.

Lemma validate_spec q k :
  mapped_at (ctrl_ q) k -> owp (validate (T := T) q) k (fun _ k' => k' = k).
Proof.
  intros Hc. unfold validate.
  repeat first [ done
               | apply owp_mem; [done|]; intros ?
               | match goal with |- context [if ?b then _ else _] => destruct b end; cbn [bind negb] ].
Qed.

(** ** [attach] and [create] *)

(** A handle that is not bound holds at most one mapping, made since [k0] and
    released when the handle is destroyed; [s] says which names it owns. *)
Record holds (k0 : K) (q : ShmSpscQueue) (k : K) : Prop := {
  h_ctrl : ctrl_ q = addr_ (seg_ q);
  h_fds : fds k = fds k0;
  h_new : held (seg_ q) ## maps k0;
  h_maps : maps k = held (seg_ q) ∪ maps k0 }.

Lemma holds_default k0 : holds k0 ShmSpscQueue_default k0.
Proof. constructor; cbn; [done|done|set_solver|set_solver]. Qed.

Lemma holds_same k0 q k k' : holds k0 q k -> same k k' -> holds k0 q k'.
Proof. intros [] [Hf Hm _]. by constructor; rewrite ?Hf, ?Hm. Qed.

Lemma holds_mapped k0 q k : holds k0 q k -> ctrl_ q <> 0 -> mapped_at (ctrl_ q) k.
Proof.
  intros [Hc _ _ Hm] Hne. exists (size_ (seg_ q)). rewrite Hm, Hc in *. unfold held.
  rewrite (proj2 (Z.eqb_neq _ _)) by done. set_solver.
Qed.

(** Unwinding releases the mapping, and nothing else but the owned name. *)
Lemma unwind_spec {A} k0 q e k :
  holds k0 q k ->
  owp (unwind (T := T) (A := A) q e) k (fun r k' => r = Some (inl e) /\
    fds k' = fds k0 /\ maps k' = maps k0 /\ linked k' = linked k ∖ held_name (seg_ q)).
Proof.
  intros Hh. pose proof Hh as [Hc Hf Hn Hm]. unfold unwind. apply owp_bind.
  eapply owp_mono; [apply detach_spec; [set_solver|intros _ Hne; by eapply holds_mapped]|].
  intros q' k' (-> & Hf' & Hm' & Hl'). cbn. split; [done|]. split; [congruence|].
  split; [|done]. rewrite Hm', Hm. apply set_eq. intros x. set_solver.
Qed.

(** How the polling loop may end: with the handle's one mapping; out of fuel only
    if a millisecond per poll does not reach the deadline; by an exception only once the deadline has
    passed. *)
Definition polled (k0 k : K) (fuel : nat) (deadline : Z)
    (r : ShmSpscQueue * option (exn + unit)) (k' : K) : Prop :=
  holds k0 r.1 k' /\ linked k' = linked k /\ owner_ (seg_ r.1) = false /\ bound_ r.1 = false /\
  (r.2 = Some (inr tt) -> 0 < addr_ (seg_ r.1)) /\
  (r.2 = None -> fuel = O \/ clock k + ns_per_ms * (Z.of_nat fuel - 1) < deadline) /\
  (forall e, r.2 = Some (inl e) -> deadline <= clock k').

Lemma polled_throw k0 k fuel deadline q e k' :
  holds k0 q k' -> owner_ (seg_ q) = false -> bound_ q = false -> linked k' = linked k ->
  deadline <= clock k' -> owp (Ret (q, Some (inl e))) k' (polled k0 k fuel deadline).
Proof. intros. cbn. unfold polled. cbn. split_and!; done. Qed.

Lemma attach_loop_spec fuel k0 q name deadline k :
  holds k0 q k -> owner_ (seg_ q) = false -> bound_ q = false ->
  owp (attach_loop (T := T) fuel q name deadline) k (fun r k' =>
    polled k0 k fuel deadline r k').
Proof.
  revert q k. induction fuel as [|fuel IH]; intros q k Hh Ho Hb; cbn [attach_loop].
  { cbn. unfold polled. cbn. split_and!; try done. by left. }
  apply owp_os; [done|]. intros now k1 Hst. apply now_step in Hst as Hnow.
  assert (same k k1) as Hs1 by (apply quiet_step in Hst as (? & ? & ?); [by constructor|done]).
  assert (forall q' k', holds k0 q' k' -> owner_ (seg_ q') = false -> bound_ q' = false ->
    linked k' = linked k -> now <= clock k' ->
    owp (if now >=? deadline
         then Ret (q', Some (inl (runtime_error ("timed out waiting for " +:+ name))))
         else sys (Usleep 1000);; attach_loop fuel q' name deadline) k'
      (polled k0 k (S fuel) deadline)) as Hretry.
  { intros q' k' Hh' Ho' Hb' Hl' Hk'. rewrite Z.geb_leb.
    destruct (Z.leb_spec deadline now) as [Hle|]; [apply polled_throw; done || lia|].
    apply owp_os; [done|]. intros [] k2 Hst2. apply usleep_step in Hst2 as Hsl.
    assert (same k' k2) as Hs2 by (apply quiet_step in Hst2 as (? & ? & ?); [by constructor|done]).
    eapply owp_mono; [apply IH; [by eapply holds_same|done|done]|].
    intros r k3 (? & Hl3 & ? & ? & ? & Hn & He). unfold polled. split_and!; try done.
    - rewrite Hl3. by destruct Hs2; congruence.
    - intros Hr. right. destruct (Hn Hr) as [->|?]; unfold ns_per_ms in *; lia. }
  pose proof (holds_same _ _ _ _ Hh Hs1) as Hh1. pose proof (same_linked _ _ Hs1) as Hl1.
  apply owp_bind. eapply owp_mono; [apply owp_clock, ShmSegment_open_spec|].
  intros [e|s] k2 [(Hf2 & Hl2 & Hr) Hk2].
  - assert (holds k0 q k2) as Hh2 by (destruct Hh1; constructor; rewrite ?Hf2, ?Hr; done).
    destruct (now >=? deadline) eqn:Hlast.
    + rewrite Z.geb_leb in Hlast. apply Z.leb_le in Hlast. apply polled_throw; done || lia || congruence.
    + specialize (Hretry q k2). rewrite ?Hlast in Hretry. apply Hretry; done || lia || congruence.
  - destruct Hr as (a & b & -> & Ha & Hnew & Hm2). apply owp_bind.
    pose proof Hh1 as [_ Hf1 Hd1 Hm1].
    eapply owp_mono; [apply owp_clock, take_segment_spec; rewrite Hm2; set_solver|].
    intros q' k3 [(-> & Hf3 & Hm3 & Hl3) Hk3].
    assert (linked k3 = linked k) as Hlk.
    { rewrite Hl3. unfold held_name. rewrite Ho. cbn. rewrite Hl2, Hl1. set_solver. }
    set (q' := MkQueue _ _ _ _ _ _ _ _).
    assert (held (seg_ q') = {[(a, b)]}) as Hheld.
    { unfold held, q'. cbn. by rewrite (proj2 (Z.eqb_neq a 0)) by lia. }
    assert (holds k0 q' k3) as Hh3.
    { constructor; [done|congruence|rewrite Hheld; set_solver|].
      rewrite Hheld, Hm3, Hm2, Hm1 in *. apply set_eq. intros x.
      destruct (decide (x = (a, b))); set_solver. }
    apply owp_mem; [apply (holds_mapped _ _ _ Hh3); cbn; lia|]. intros rdy. case_Z.
    + cbn. unfold polled. cbn. split_and!; done || lia.
    + apply Hretry; done || lia.
Qed.

(** How [attach] may end, from kernel state [k]. *)
Definition attach_post (k : K) (r : option (exn + ShmSpscQueue)) (k' : K) : Prop :=
  fds k' = fds k /\ linked k' = linked k /\
  match r with
  | None => True
  | Some (inl _) => maps k' = maps k
  | Some (inr q) => holds k q k' /\ bound_ q = true /\ owner_ (seg_ q) = false /\ 0 < ctrl_ q
  end.

Lemma unwind_attach k q e k1 :
  holds k q k1 -> owner_ (seg_ q) = false -> linked k1 = linked k ->
  owp (unwind (T := T) q e) k1 (attach_post k).
Proof.
  intros Hh Ho Hl. eapply owp_mono; [by apply (unwind_spec k)|].
  intros r k' (-> & Hf & Hm & Hl'). split; [done|]. split; [|done].
  rewrite Hl'. unfold held_name. rewrite Ho, Hl. cbn. set_solver.
Qed.

Lemma attach_spec fuel fuel' name role ms k :
  owp (attach (T := T) fuel fuel' name role ms) k (attach_post k).
Proof.
  unfold attach. apply owp_quiet; [done|done|]. intros now k1 Hs1.
  assert (holds k ShmSpscQueue_default k1) as Hd by (apply (holds_same _ _ k), Hs1; apply holds_default).
  apply owp_bind. eapply owp_mono; [by apply (attach_loop_spec fuel k)|].
  intros [q r] k2 (Hh2 & Hl2 & Ho2 & Hb2 & Ha2 & _). cbn [fst snd] in *.
  assert (linked k2 = linked k) as Hl by (destruct Hs1; congruence).
  destruct r as [[e|[]]|]; [by apply unwind_attach| |by destruct Hh2].
  specialize (Ha2 eq_refl). assert (0 < ctrl_ q) as Hpos by (by rewrite (h_ctrl _ _ _ Hh2)).
  assert (mapped_at (ctrl_ q) k2) as Hmap by (apply (holds_mapped k); [done|lia]).
  apply owp_bind. eapply owp_mono; [by apply validate_spec|].
  intros v k3 ->. destruct v as [e|[]]; [by apply unwind_attach|].
  apply owp_bind. eapply owp_mono; [by apply bind_queue_spec|].
  intros [q' res] k4 (Hs4 & Hseg & Hctrl & Hb). cbn [fst snd] in *.
  assert (holds k q' k4) as Hh4.
  { apply (holds_same _ _ k2); [|done]. destruct Hh2. constructor; by rewrite ?Hctrl, ?Hseg. }
  assert (linked k4 = linked k) as Hl4 by (destruct Hs4; congruence).
  destruct res as [[e|[]]|]; [apply unwind_attach; [done|by rewrite Hseg|done]| |by destruct Hh4].
  cbn. pose proof (h_fds _ _ _ Hh4). split_and!; try done; [by rewrite Hseg|by rewrite Hctrl].
Qed.

(** How [create] may end.  [named] says whether it got as far as touching the name. *)
Definition create_post (name : string) (k : K) (r : option (exn + ShmSpscQueue)) (k' : K) : Prop :=
  fds k' = fds k /\
  match r with
  | None => True
  | Some (inl _) => maps k' = maps k /\ (linked k' = linked k \/ linked k' = linked k ∖ {[name]})
  | Some (inr q) => holds k q k' /\ bound_ q = true /\ owner_ (seg_ q) = true /\
      name_ (seg_ q) = name /\ name <> "" /\ 0 < ctrl_ q /\ linked k' = {[name]} ∪ linked k
  end.

Lemma publish_spec fuel q n role name k k1 :
  holds k q k1 -> 0 < ctrl_ q -> bound_ q = false -> owner_ (seg_ q) = true -> name_ (seg_ q) = name ->
  name <> "" -> linked k1 = {[name]} ∪ linked k ->
  owp (publish (T := T) fuel q n role) k1 (create_post name k).
Proof.
  intros Hh Hpos Hb Ho Hn Hne Hl. pose proof (holds_mapped _ _ _ Hh ltac:(lia)) as Hmap.
  unfold publish. do 11 (apply owp_mem; [done|]; intros _).
  apply owp_bind. eapply owp_mono; [by apply bind_queue_spec|].
  intros [q' res] k2 (Hs2 & Hseg & Hctrl & Hb'). cbn [fst snd] in *.
  assert (holds k q' k2) as Hh2.
  { apply (holds_same _ _ k1); [|done]. destruct Hh. constructor; by rewrite ?Hctrl, ?Hseg. }
  assert (linked k2 = {[name]} ∪ linked k) as Hl2 by (destruct Hs2; congruence).
  destruct res as [[e|[]]|]; [| |by destruct Hh2].
  - eapply owp_mono; [by apply (unwind_spec k)|]. intros r k3 (-> & Hf & Hm & Hl3).
    split; [done|]. split; [done|]. right. rewrite Hl3, Hl2. unfold held_name.
    rewrite Hseg, Ho, Hn, bool_decide_false by done. cbn. set_solver.
  - apply owp_mem; [rewrite Hctrl; by eapply same_mapped|]. intros _. cbn.
    pose proof (h_fds _ _ _ Hh2). split_and!; by rewrite ?Hseg, ?Hctrl.
Qed.

Lemma validateName_nonempty name : validateName name = inr tt -> name <> "".
Proof. by destruct name. Qed.

Lemma create_spec_queue fuel name cap role k :
  owp (create (T := T) fuel name cap role) k (create_post name k).
Proof.
  unfold create. destruct (bytesNeeded _) as [e|bytes].
  { eapply owp_mono; [apply unwind_spec, holds_default|]. intros r k' (-> & Hf & Hm & Hl).
    cbn in Hl. split; [done|]. split; [done|]. left. set_solver. }
  apply owp_bind. eapply owp_mono; [apply ShmSegment_create_spec|].
  intros r k1 [Hf Hr]. destruct r as [e|s].
  - destruct Hr as [Hm Hl]. assert (holds k ShmSpscQueue_default k1) as Hd.
    { constructor; cbn; [done|done|set_solver|set_solver]. }
    eapply owp_mono; [by apply (unwind_spec k)|]. intros r k' (-> & Hf' & Hm' & Hl').
    cbn in Hl'. split; [done|]. split; [done|].
    destruct (validateName name); [left; set_solver|]. destruct (bytes =? 0); [left|right]; set_solver.
  - destruct Hr as (Hv%validateName_nonempty & a & -> & Ha & Hnew & Hm & Hl). apply owp_bind.
    eapply owp_mono; [apply take_segment_spec; set_solver|].
    intros q k2 (-> & Hf2 & Hm2 & Hl2). cbn in Hm2, Hl2.
    apply publish_spec; cbn; try done; [|rewrite Hl2, Hl; set_solver].
    assert (held (MkSegment a bytes true name) = {[(a, bytes)]}) as Hheld.
    { unfold held. cbn. by rewrite (proj2 (Z.eqb_neq a 0)) by lia. }
    constructor; cbn [seg_ ctrl_ addr_]; rewrite ?Hheld; [done|congruence|set_solver|set_solver].
Qed.

(** A handle obtained and destroyed. *)
Definition session (op : io (option (exn + ShmSpscQueue))) : io (option (exn + ShmSpscQueue)) :=
  let* r := op in
  match r with
  | Some (inr q) => detach q;; Ret r
  | _ => Ret r
  end.

Lemma detach_holds k q k1 :
  holds k q k1 -> 0 < ctrl_ q ->
  owp (detach (T := T) q) k1 (fun _ k' => fds k' = fds k /\ maps k' = maps k /\
    linked k' = linked k1 ∖ held_name (seg_ q)).
Proof.
  intros Hh Hpos. pose proof Hh as [Hc Hf Hn Hm].
  eapply owp_mono; [apply detach_spec; [set_solver|intros _ ?; by eapply holds_mapped]|].
  intros q' k' (-> & Hf' & Hm' & Hl'). split; [congruence|]. split; [|done]. rewrite Hm', Hm. set_solver.
Qed.

(** C17: [attach] leaks nothing.  Whatever each system call answers, in whatever
    state the segment is and however often it polls: every descriptor opened is
    closed once, every access goes to a live mapping; if it throws, the
    descriptors, mappings and names are those before the call; if it returns, the
    only difference is the one mapping the handle holds; and destroying the handle
    restores the state. *)
Theorem attach_leaks_nothing fuel fuel' name role ms k :
  owp (attach (T := T) fuel fuel' name role ms) k (attach_post k) /\
  owp (session (attach (T := T) fuel fuel' name role ms)) k (fun r k' => r <> None -> same k k').
Proof.
  pose proof (attach_spec fuel fuel' name role ms k) as Ha. split; [done|].
  unfold session. apply owp_bind. eapply owp_mono; [exact Ha|].
  intros [[e|q]|] k1 (Hf & Hl & Hr); [by constructor| |done]. destruct Hr as (Hh & Hb & Ho & Hpos).
  apply owp_bind. eapply owp_mono; [by apply (detach_holds k)|].
  intros _ k2 (Hf2 & Hm2 & Hl2) _. constructor; [done|done|]. rewrite Hl2, Hl. unfold held_name.
  rewrite Ho. cbn. set_solver.
Qed.

(** C18: [create] leaks nothing either, and cleans up its name.  If it throws at
    any point the descriptors and mappings are those before the call and the name
    is not left behind by it; if it returns, the handle holds the one new mapping
    and owns the linked name; destroying it unmaps and unlinks. *)
Theorem create_leaks_nothing fuel name cap role k :
  owp (create (T := T) fuel name cap role) k (create_post name k) /\
  owp (session (create (T := T) fuel name cap role)) k (fun r k' => r <> None ->
    fds k' = fds k /\ maps k' = maps k /\ (linked k' = linked k \/ linked k' = linked k ∖ {[name]}) /\
    (forall q, r = Some (inr q) -> name ∉ linked k')).
Proof.
  pose proof (create_spec_queue fuel name cap role k) as Ha. split; [done|].
  unfold session. apply owp_bind. eapply owp_mono; [exact Ha|].
  intros [[e|q]|] k1 (Hf & Hr); [by destruct Hr; cbn| |done].
  destruct Hr as (Hh & Hb & Ho & Hn & Hne & Hpos & Hl).
  apply owp_bind. eapply owp_mono; [by apply (detach_holds k)|].
  intros _ k2 (Hf2 & Hm2 & Hl2) _. split; [done|]. split; [done|].
  assert (linked k2 = linked k ∖ {[name]}) as ->; [|split; [by right|set_solver]].
  rewrite Hl2, Hl. unfold held_name. rewrite Ho, Hn, bool_decide_false by done. cbn. set_solver.
Qed.

End resources.

(** ** A concrete kernel

    Every answer the documentation allows, for processes that start with whatever
    they hold. *)
Module Kernel.
#[local] Existing Instance x86_64.
#[local] Existing Instance elem_u64.

Record kern : Type := MkKern {
  k_fds : gset Z; k_maps : gset (Z * Z); k_linked : gset string; k_clock : Z }.

Definition kstep {X} (e : osE X) (k : kern) : X -> kern -> Prop :=
  match e in osE X return X -> kern -> Prop with
  | ShmOpen name flags _ => fun x k' =>
      (x.1 < 0 /\ k' = k) \/
      (0 <= x.1 /\ (x.1 ∉ k_fds k) /\
       k' = MkKern ({[x.1]} ∪ k_fds k) (k_maps k)
              (if bool_decide (O_CREAT ∈ flags) then {[name]} ∪ k_linked k else k_linked k) (k_clock k))
  | ShmUnlink name => fun _ k' =>
      k' = MkKern (k_fds k) (k_maps k) (k_linked k ∖ {[name]}) (k_clock k)
  | Mmap bytes _ => fun x k' =>
      (x.1 = MAP_FAILED /\ k' = k) \/
      (0 < x.1 /\ x.1 <> MAP_FAILED /\ ((x.1, bytes) ∉ k_maps k) /\
       k' = MkKern (k_fds k) ({[(x.1, bytes)]} ∪ k_maps k) (k_linked k) (k_clock k))
  | Munmap a bytes => fun _ k' =>
      k' = MkKern (k_fds k) (k_maps k ∖ {[(a, bytes)]}) (k_linked k) (k_clock k)
  | Close fd => fun _ k' => k' = MkKern (k_fds k ∖ {[fd]}) (k_maps k) (k_linked k) (k_clock k)
  | SteadyNow => fun t k' => k_clock k <= t /\ k' = MkKern (k_fds k) (k_maps k) (k_linked k) t
  | Usleep us => fun _ k' => exists t, k_clock k + 1000 * Z.max 0 us <= t /\
      k' = MkKern (k_fds k) (k_maps k) (k_linked k) t
  | _ => fun _ k' => k' = k
  end.

Ltac split_hyps :=
  repeat match goal with
  | H : _ /\ _ |- _ => destruct H
  | H : _ \/ _ |- _ => destruct H
  | H : exists _, _ |- _ => destruct H
  end.

#[export] Instance kern_posix : Posix kern := {|
  fds := k_fds; maps := k_maps; linked := k_linked; clock := k_clock; os_step := @kstep |}.

#[export] Instance kern_posix_ok : PosixOk kern.
Proof.
  split; simpl.
  - intros name flags mode k fd e k' [[? ->]|(? & ? & ->)]; split; auto 10.
  - by intros name k rc k' ->.
  - intros bytes fd k a e k' [[? ->]|(? & ? & ? & ->)]; split_and!; auto 10.
  - by intros a bytes k rc k' ->.
  - by intros fd k rc k' ->.
  - intros X e k x k' Hq He. destruct e; simpl in *; split_hyps; by subst.
  - intros X e k x k' He. destruct e; simpl in *; split_hyps; subst; simpl; lia.
  - intros k t k' [? ->]. simpl. lia.
  - intros us k x k' (t & ? & ->). simpl. lia.
Defined.

(** Every call has an answer in every state, so the theorems are about real runs. *)
Lemma kstep_total {X} (e : osE X) k : exists x k', kstep e k x k'.
Proof.
  destruct e; simpl;
    first [ exists 0; by eexists | exists false; by eexists | exists tt; by eexists | exists (0, 0, 0); by eexists
          | exists (0, 0); by eexists | exists (-1, 0), k; by left
          | exists (k_clock k); by eexists
          | exists tt; do 2 eexists; by split
          | exists (MAP_FAILED, 0), k; by left ].
Qed.

Definition boot : kern := MkKern {[0; 1; 2]} ∅ {["/other"]} 0.

Lemma attach_leaks_nothing_witness :
  owp (T := Z) (attach 3 3 "/q" Consumer 5) boot (attach_post boot) /\
  owp (T := Z) (session (attach 3 3 "/q" Consumer 5)) boot (fun r k' => r <> None -> same boot k').
Proof. exact (attach_leaks_nothing (T := Z) 3 3 "/q" Consumer 5 boot). Defined.

Lemma create_leaks_nothing_witness :
  owp (T := Z) (create 3 "/q" 8 Producer) boot (create_post "/q" boot) /\
  owp (T := Z) (session (create 3 "/q" 8 Producer)) boot (fun r k' => r <> None ->
    fds k' = fds boot /\ maps k' = maps boot /\
    (linked k' = linked boot \/ linked k' = linked boot ∖ {["/q"]}) /\
    (forall q, r = Some (inr q) -> "/q" ∉ linked k')).
Proof. exact (create_leaks_nothing (T := Z) 3 "/q" 8 Producer boot). Defined.
End Kernel.
