(* ===== verification/Timing.v ===== *)
(** * Deadlines

    [attach] and [waitForPeer] take a timeout.  Their bound is a deadline on the clock
    and not a number of rounds, which matters because a call may take long and a sleep
    lasts at least, not exactly, as long as asked.  The theorems are about every run
    from a kernel state, on any system on which a call, or what a sleep takes over the
    time asked for, costs at most [D] nanoseconds; the memory may change at any time. *)

From S2P Require Import Prelude Prog Effects Layout Segment Queue Lifecycle Resources.
#[local] Open Scope Z_scope.
#[local] Open Scope prog_scope.
#[local] Set Warnings "-clear-no-such-hyp".

Definition cost {X} (D : Z) (e : osE X) : Z :=
  match e with Usleep us => 1000 * us + D | _ => D end.

Class Prompt (K : Type) `{!Posix K} (D : Z) : Prop := {
  prompt_nonneg : 0 <= D;
  prompt_step {X} (e : osE X) k x k' : os_step e k x k' -> clock k' <= clock k + cost D e }.

Section timing.
Context {T : Type} `{Platform} `{Elem T} {K : Type} `{PosixOk K} (D : Z) `{!Prompt K D}.
#[local] Abbreviation io := (prog (evE T)).


















(** ** [waitForPeer] *)

(** The atomic loads of a program and what they returned. *)
Definition loads_of X (e : evE T X) : X -> list (afield * Z) :=
  match e with
  | Mem m => match m in memE _ X return X -> list (afield * Z) with ALoad _ f _ => fun x => [(f, x)] | _ => fun _ => [] end
  | Os _ => fun _ => []
  end.

(** How the wait may end: on the first positive pid, or past the deadline without one;
    out of fuel only if a millisecond per round does not reach the deadline. *)
Definition waited (slot : afield) (k : K) (fuel : nat) (deadline : Z) (seen : list (afield * Z))
    (r : option bool * list (afield * Z)) (k' : K) : Prop :=
  exists pids, r.2 = seen ++ map (pair slot) pids /\
  match r.1 with
  | Some true => exists l pid, pids = l ++ [pid] /\ 0 < pid /\ Forall (fun p => p <= 0) l
  | Some false => pids <> [] /\ Forall (fun p => p <= 0) pids /\ deadline <= clock k'
  | None => fuel = O \/ clock k + ns_per_ms * (Z.of_nat fuel - 1) < deadline
  end.

Lemma wait_loop_runs fuel q deadline seen k r k' :
  runs (traced loads_of (wait_loop (T := T) fuel q deadline) seen) k r k' ->
  waited (peer_slot (role_ q)) k fuel deadline seen r k' /\
  clock k' <= Z.max (clock k) (deadline + ns_per_ms + 2 * D) + D.
Proof.
  pose proof (prompt_nonneg (D := D)) as HD. unfold ns_per_ms, waited.
  revert seen k. induction fuel as [|fuel IH]; intros seen k Hr; cbn [wait_loop] in Hr.
  { destruct Hr as [<- ->]. split; [|lia]. exists []. cbn. rewrite app_nil_r. by split; [|left]. }
  unfold load, sys, act in Hr. cbn [bind traced runs loads_of] in Hr. destruct Hr as (pid & Hr).
  rewrite Z.gtb_ltb in Hr. destruct (Z.ltb_spec 0 pid).
  { destruct Hr as [<- ->]. split; [|lia]. exists [pid]. split; [done|]. by exists [], pid. }
  cbn [traced runs] in Hr. destruct Hr as (now & k1 & Hnow & Hr).
  apply prompt_step in Hnow as Hc1. apply now_step in Hnow. cbn [cost] in Hc1. rewrite Z.geb_leb in Hr.
  destruct (Z.leb_spec deadline now).
  { destruct Hr as [<- ->]. split; [|lia]. exists [pid]. rewrite app_nil_r. split; [done|]. cbn.
    split; [done|]. split; [by repeat constructor|lia]. }
  cbn [traced runs] in Hr. destruct Hr as ([] & k2 & Hs & Hr).
  apply prompt_step in Hs as Hc2. apply usleep_step in Hs. cbn [cost] in Hc2. rewrite !app_nil_r in Hr.
  apply IH in Hr as [(pids & Hp & Hres) Hk]. split; [|lia]. exists (pid :: pids). split.
  { by rewrite Hp, <- app_assoc. }
  destruct r as [[[|]|] l]; cbn [fst snd] in *.
  - destruct Hres as (l' & p & -> & ? & ?). exists (pid :: l'), p. split_and!; [done|done|by constructor].
  - destruct Hres as (? & ? & ?). split_and!; [done|by constructor|done].
  - right. destruct Hres as [->|?]; unfold ns_per_ms in *; lia.
Qed.

(** C27: [waitForPeer] waits for the peer until its deadline.  On every run, with the
    peer arriving at any time or not at all and sleeps lasting at least as long as
    asked: it reads only the peer's pid slot; it returns true exactly on the first
    positive pid it reads; it returns false only after the timeout has passed on the
    clock, having read no positive one; and it is over by the timeout plus one sleep
    and the time of four calls, however many rounds that was. *)
Theorem waitForPeer_deadline fuel q timeoutMs k r seen k' :
  0 <= timeoutMs < Z.of_nat fuel ->
  runs (traced loads_of (waitForPeer (T := T) fuel q timeoutMs) []) k (r, seen) k' ->
  clock k' <= clock k + (timeoutMs + 1) * ns_per_ms + 4 * D /\
  exists b pids, r = Some b /\ seen = map (pair (peer_slot (role_ q))) pids /\
    if (b : bool) then exists l pid, pids = l ++ [pid] /\ 0 < pid /\ Forall (fun p => p <= 0) l
    else pids <> [] /\ Forall (fun p => p <= 0) pids /\ clock k + timeoutMs * ns_per_ms <= clock k'.
Proof.
  pose proof (prompt_nonneg (D := D)) as HD. intros Hf Hr.
  unfold waitForPeer, sys, act in Hr. cbn [bind traced runs] in Hr. destruct Hr as (now & k1 & Hnow & Hr).
  apply prompt_step in Hnow as Hc1. apply now_step in Hnow. cbn [cost] in Hc1.
  apply wait_loop_runs in Hr as [(pids & Hp & Hres) Hk]. cbn [fst snd app loads_of] in *. unfold ns_per_ms in *.
  split; [lia|]. destruct r as [b|]; [|destruct Hres as [->|?]; lia].
  exists b, pids. split; [done|]. split; [done|]. destruct b; [done|]. destruct Hres as (? & ? & ?).
  split_and!; [done|done|lia].
Qed.
End timing.

(** ** A concrete system *)
Module Clocked.
Import Kernel.
#[local] Existing Instance x86_64.
#[local] Existing Instance elem_u64.

(** The kernel of Resources.v, with calls of at most a microsecond. *)
Definition us : Z := 1000.
Definition cstep {X} (e : osE X) (k : kern) (x : X) (k' : kern) : Prop :=
  kstep e k x k' /\ k_clock k' <= k_clock k + cost us e.

#[local] Instance clocked_posix : Posix kern := {|
  fds := k_fds; maps := k_maps; linked := k_linked; clock := k_clock; os_step := @cstep |}.

#[local] Instance clocked_ok : PosixOk kern.
Proof.
  destruct kern_posix_ok. split; simpl in *.
  - intros name flags mode k fd e k' [Hs _]. eauto.
  - intros name k rc k' [Hs _]. eauto.
  - intros bytes fd k a e k' [Hs _]. eauto.
  - intros a bytes k rc k' [Hs _]. eauto.
  - intros fd k rc k' [Hs _]. eauto.
  - intros X e k x k' Hq [Hs _]. eauto.
  - intros X e k x k' [Hs _]. eauto.
  - intros k t k' [Hs _]. eauto.
  - intros u k x k' [Hs _]. eauto.
Defined.

#[local] Instance clocked_prompt : Prompt kern us.
Proof. split; [vm_compute; congruence|]. intros X e k x k' [_ Hc]. exact Hc. Defined.


(** A run: nobody at first, and the sleep takes half a microsecond too long; then
    process 8. *)
Definition waiter : ShmSpscQueue := MkQueue ShmSegment_default 4096 4352 5 Producer true 0 0.
Definition at_time (t : Z) : kern := MkKern (k_fds boot) (k_maps boot) (k_linked boot) t.

Lemma wait_run :
  runs (T := Z) (traced loads_of (waitForPeer 3 waiter 2) []) boot
    (Some true, [(consumerPid, 0); (consumerPid, 8)]) (at_time 1000600).
Proof.
  exists 0, boot. split; [by split; [split|vm_compute]|]. exists 0. cbn.
  exists 100, (at_time 100). split; [split; [split; [done|reflexivity]|vm_compute; congruence]|]. cbn.
  exists tt, (at_time 1000600).
  split; [split; [exists 1000600; split; [vm_compute; congruence|reflexivity]|vm_compute; congruence]|].
  exists 8. done.
Qed.

Lemma waitForPeer_deadline_witness :
  clock (at_time 1000600) <= clock boot + (2 + 1) * ns_per_ms + 4 * us /\
  exists b pids, Some true = Some b /\
    [(consumerPid, 0); (consumerPid, 8)] = map (pair (peer_slot (role_ waiter))) pids /\
    if (b : bool) then exists l pid, pids = l ++ [pid] /\ 0 < pid /\ Forall (fun p => p <= 0) l
    else pids <> [] /\ Forall (fun p => p <= 0) pids /\ clock boot + 2 * ns_per_ms <= clock (at_time 1000600).
Proof. apply (waitForPeer_deadline (T := Z) us 3 waiter 2 boot); [lia|apply wait_run]. Defined.
End Clocked.
