(* ===== verification/Objects.v ===== *)
(** * Names, objects and sizes

    What [ShmSegment] relies on beyond resources: a name refers to an object, opening
    it again gives a descriptor of the same object, [ftruncate] gives an object at
    least the size asked for (a system may round it up to a page), [fstat] tells the
    size it has, and a mapping shows the object of its descriptor.  The kernel is
    again a parameter, with these facts as laws; the theorems say that [create] and
    [open] agree, and what [exists] and [remove] do. *)

From stdpp Require Import gmap.
From S2P Require Import Prelude Prog Effects Segment Resources.
#[local] Open Scope Z_scope.
#[local] Open Scope prog_scope.
#[local] Set Warnings "-clear-no-such-hyp".

(** Objects have identities that are not used again. *)
Class Objects (K : Type) : Type := {
  named : K -> gmap string Z;
  fd_of : K -> gmap Z Z;
  size_of : K -> gmap Z Z;
  backing : K -> gmap Z Z }.

(** The four observations after a call. *)
Record sees {K} `{Objects K} (k : K) (n : gmap string Z) (f s b : gmap Z Z) : Prop := {
  sees_named : named k = n; sees_fd : fd_of k = f; sees_size : size_of k = s; sees_backing : backing k = b }.

Definition unseen {K} `{Objects K} (k k' : K) : Prop := sees k' (named k) (fd_of k) (size_of k) (backing k).

Class ObjectsOk (K : Type) `{!Posix K, !Objects K} : Prop := {
  create_object name flags mode k fd e k' :
    O_CREAT ∈ flags -> O_EXCL ∈ flags -> os_step (ShmOpen name flags mode) k (fd, e) k' ->
    (fd < 0 /\ unseen k k') \/
    (0 <= fd /\ named k !! name = None /\ exists o, size_of k !! o = None /\
     sees k' (<[name := o]> (named k)) (<[fd := o]> (fd_of k)) (<[o := 0]> (size_of k)) (backing k));
  open_object name flags mode k fd e k' :
    O_CREAT ∉ flags -> os_step (ShmOpen name flags mode) k (fd, e) k' ->
    (fd < 0 /\ unseen k k') \/
    (0 <= fd /\ exists o, named k !! name = Some o /\
     sees k' (named k) (<[fd := o]> (fd_of k)) (size_of k) (backing k));
  unlink_object name k rc k' :
    os_step (ShmUnlink name) k rc k' -> sees k' (delete name (named k)) (fd_of k) (size_of k) (backing k);
  truncate_object fd len k rc e k' :
    os_step (Ftruncate fd len) k (rc, e) k' ->
    (rc <> 0 /\ unseen k k') \/
    (rc = 0 /\ 0 <= len /\ exists o sz, fd_of k !! fd = Some o /\ len <= sz < 2 ^ 63 /\
     sees k' (named k) (fd_of k) (<[o := sz]> (size_of k)) (backing k));
  stat_object fd k rc e sz k' :
    os_step (Fstat fd) k (rc, e, sz) k' ->
    unseen k k' /\ (rc = 0 -> exists o, fd_of k !! fd = Some o /\ size_of k !! o = Some sz);
  map_object bytes fd k a e k' :
    os_step (Mmap bytes fd) k (a, e) k' ->
    (a = MAP_FAILED /\ unseen k k') \/
    (a <> MAP_FAILED /\ exists o, fd_of k !! fd = Some o /\
     sees k' (named k) (fd_of k) (size_of k) (<[a := o]> (backing k)));
  unmap_object a bytes k rc k' :
    os_step (Munmap a bytes) k rc k' -> sees k' (named k) (fd_of k) (size_of k) (delete a (backing k));
  close_object fd k rc k' :
    os_step (Close fd) k rc k' -> sees k' (named k) (delete fd (fd_of k)) (size_of k) (backing k) }.

Section objects.
Context {T : Type} {K : Type} `{ObjectsOk K}.
#[local] Abbreviation runs := (runs (T := T)).

(** ** The operations *)

(** A segment shows object [o]. *)
Definition shows (k : K) (s : ShmSegment) (o : Z) : Prop := backing k !! addr_ s = Some o.

Lemma mapAndClose_runs fd name bytes owner k r k' o :
  fd_of k !! fd = Some o -> runs (mapAndClose fd name bytes owner) k r k' ->
  match r with
  | inl _ => named k' = if owner then delete name (named k) else named k
  | inr s => named k' = named k /\ shows k' s o /\ s = MkSegment (addr_ s) bytes owner name
  end /\ size_of k' = size_of k /\ fd_of k' = delete fd (fd_of k).
Proof.
  intros Hfd Hr. apply runs_sys in Hr as ([a e] & k1 & Hm & Hr). apply runs_sys in Hr as (rc & k2 & Hc & Hr).
  apply close_object in Hc as [Hn2 Hf2 Hs2 Hb2].
  destruct (Z.eqb_spec a MAP_FAILED).
  - apply map_object in Hm as [[_ [Hn Hf Hs Hb]]|[? _]]; [|done]. destruct owner; cbn in Hr.
    + destruct Hr as (x & k3 & Hu & <- & ->). apply unlink_object in Hu as [Hn3 Hf3 Hs3 Hb3]. split_and!; congruence.
    + destruct Hr as [<- ->]. split_and!; congruence.
  - apply map_object in Hm as [[? _]|(_ & o' & Ho & [Hn Hf Hs Hb])]; [done|]. destruct Hr as [<- ->].
    split; [|split; congruence]. split; [congruence|]. split; [|done]. unfold shows. cbn. rewrite Hb2, Hb.
    rewrite lookup_insert_eq. congruence.
Qed.

(** [create] makes a new object, of at least the size asked for, and names it. *)
Lemma ShmSegment_create_runs name bytes k s k' :
  0 <= bytes < W64 -> runs (ShmSegment_create name bytes) k (inr s) k' ->
  exists o sz, named k' = <[name := o]> (named k) /\ size_of k !! o = None /\ shows k' s o /\
    size_of k' !! o = Some sz /\ bytes <= sz < 2 ^ 63 /\ s = MkSegment (addr_ s) bytes true name.
Proof.
  intros Hb Hr. unfold ShmSegment_create, try_bind, throw, throwErrno in Hr. cbn [bind] in Hr.
  destruct (validateName name) as [e|[]]; [by destruct Hr|]. destruct (bytes =? 0); [by destruct Hr|].
  apply runs_sys in Hr as (rc & k1 & Hu & Hr). apply unlink_object in Hu as [Hn1 Hf1 Hs1 Hb1].
  apply runs_sys in Hr as ([fd e] & k2 & Ho & Hr). destruct (Z.ltb_spec fd 0); [by destruct Hr|].
  apply create_object in Ho as [[? _]|(_ & _ & o & Hnew & [Hn2 Hf2 Hs2 Hb2])]; [lia| |set_solver|set_solver].
  apply runs_sys in Hr as ([rc' e'] & k3 & Ht & Hr).
  apply truncate_object in Ht as [[Hrc _]|(-> & Hlen & o' & sz & Ho' & Hsz & [Hn3 Hf3 Hs3 Hb3])].
  { rewrite (proj2 (Z.eqb_neq _ _)) in Hr by done. cbn in Hr.
    destruct Hr as (? & ? & _ & ? & ? & _ & ? & _). done. }
  rewrite Hf2, lookup_insert_eq in Ho'. simplify_eq. cbn [Z.eqb negb] in Hr.
  eapply mapAndClose_runs in Hr as ((Hn4 & Hsh & Hs) & Hs4 & _); [|by rewrite Hf3, Hf2, lookup_insert_eq].
  exists o', sz. split; [rewrite Hn4, Hn3, Hn2, Hn1; apply insert_delete_eq|]. split; [congruence|].
  split; [done|]. split; [by rewrite Hs4, Hs3, lookup_insert_eq|]. split; [|done].
  unfold off_t in *. rewrite W64_val in Hb. destruct (decide (bytes < 2 ^ 63)).
  - rewrite Z.mod_small in Hsz by lia. lia.
  - assert ((bytes + 2 ^ 63) mod 2 ^ 64 = bytes - 2 ^ 63) as Hm; [|lia].
    symmetry. apply (Zmod_unique _ _ 1); lia.
Qed.

(** [open] shows the object the name refers to, all of it. *)
Lemma ShmSegment_open_runs name k s k' :
  runs (ShmSegment_open name) k (inr s) k' ->
  exists o sz, named k !! name = Some o /\ shows k' s o /\ size_of k !! o = Some sz /\ 0 < sz /\
    s = MkSegment (addr_ s) (u64 sz) false name /\ named k' = named k /\ size_of k' = size_of k.
Proof.
  intros Hr. unfold ShmSegment_open, try_bind, throw, throwErrno in Hr. cbn [bind] in Hr.
  destruct (validateName name) as [e|[]]; [by destruct Hr|].
  apply runs_sys in Hr as ([fd e] & k1 & Ho & Hr). destruct (Z.ltb_spec fd 0); [by destruct Hr|].
  apply open_object in Ho as [[? _]|(_ & o & Hn & [Hn1 Hf1 Hs1 Hb1])]; [lia| |set_solver].
  apply runs_sys in Hr as ([[rc e'] sz] & k2 & Hst & Hr).
  apply stat_object in Hst as [[Hn2 Hf2 Hs2 Hb2] Hst].
  destruct (Z.eqb_spec rc 0) as [->|]; cbn [negb] in Hr; [|by destruct Hr as (? & ? & _ & ? & _)].
  destruct (Hst eq_refl) as (o' & Ho' & Hsz). rewrite Hf1, lookup_insert_eq in Ho'. simplify_eq.
  destruct (Z.leb_spec sz 0); [by destruct Hr as (? & ? & _ & ? & _)|].
  eapply mapAndClose_runs in Hr as ((Hn3 & Hsh & Hs) & Hs3 & _); [|by rewrite Hf2, Hf1, lookup_insert_eq].
  exists o', sz. rewrite Hs1 in Hsz. split_and!; done || congruence.
Qed.

Lemma ShmSegment_exists_runs name k b k' :
  runs (ShmSegment_exists name) k b k' ->
  named k' = named k /\ size_of k' = size_of k /\ backing k' = backing k /\ (b = true -> name ∈ dom (named k)).
Proof.
  intros Hr. apply runs_sys in Hr as ([fd e] & k1 & Ho & Hr).
  apply open_object in Ho as [[? [Hn Hf Hs Hb]]|(? & o & Hn & [Hn1 Hf1 Hs1 Hb1])]; [| |set_solver].
  - rewrite (proj2 (Z.ltb_lt _ _)) in Hr by done. by destruct Hr as [<- ->].
  - rewrite (proj2 (Z.ltb_ge _ _)) in Hr by done. apply runs_sys in Hr as (rc & k2 & Hc & Hr).
    apply close_object in Hc as [Hn2 Hf2 Hs2 Hb2]. destruct Hr as [<- ->]. split_and!; try congruence.
    intros _. by eapply elem_of_dom_2.
Qed.

(** What other processes may do in between: anything but rename, resize or replace
    the object the name refers to. *)
Definition undisturbed (name : string) (k k' : K) : Prop :=
  named k' !! name = named k !! name /\
  forall o, named k !! name = Some o -> size_of k' !! o = size_of k !! o.

(** C13: create and open round trip.  If [create] returns a segment and, the object
    undisturbed, [open] of the name returns one, the two have the same name and show
    the same object; the object is new, so nothing left over from an earlier run under
    the same name is shown.  The creator's segment has the size asked for, the
    opener's that of the object, which the system may have rounded up: it covers all
    of the creator's and is never smaller.  Only the creator owns the name. *)
Theorem create_open_round_trip name bytes k k1 k2 k3 s s' :
  0 <= bytes < W64 ->
  runs (ShmSegment_create name bytes) k (inr s) k1 -> undisturbed name k1 k2 ->
  runs (ShmSegment_open name) k2 (inr s') k3 ->
  (name_ s' = name_ s /\ name_ s = name) /\ (owner_ s = true /\ owner_ s' = false) /\
  exists o, shows k1 s o /\ shows k3 s' o /\ size_of k !! o = None /\
    size_ s = bytes /\ size_ s <= size_ s' /\ size_of k3 !! o = Some (size_ s').
Proof.
  intros Hb Hc [Hn Hsz] Ho.
  apply ShmSegment_create_runs in Hc as (o & sz & Hname & Hnew & Hsh & Hsize & Hfit & Hs); [|done].
  apply ShmSegment_open_runs in Ho as (o' & sz' & Hname' & Hsh' & Hsize' & Hpos & Hs' & _ & Hsame).
  rewrite Hname, lookup_insert_eq in Hn, Hsz. rewrite Hn in Hname'. simplify_eq.
  rewrite (Hsz _ eq_refl), Hsize in Hsize'. simplify_eq.
  assert (size_ s' = sz') as Hs2 by (rewrite Hs'; cbn; apply u64_small; word_lia).
  rewrite Hs2, Hs, Hs'. cbn. split; [done|]. split; [done|]. exists o'. rewrite <- Hs, <- Hs'.
  split_and!; [done|done|done|done|lia|]. rewrite Hsame, (Hsz _ eq_refl). done.
Qed.

(** The name is gone, and nothing but the mapping at [a] has changed. *)
Lemma removal_runs name s k k1 :
  owner_ s = true -> name_ s = name -> name <> "" ->
  (runs (ShmSegment_remove name) k tt k1 \/ runs (ShmSegment_reset s) k ShmSegment_default k1) ->
  named k1 = delete name (named k) /\ size_of k1 = size_of k /\
  forall s2 o, addr_ s2 <> addr_ s -> shows k s2 o -> shows k1 s2 o.
Proof.
  intros Hown Hname Hne [Hr|Hr].
  - apply runs_sys in Hr as (rc & k' & Hu & _ & ->). apply unlink_object in Hu as [Hn _ Hs Hb].
    unfold shows. by rewrite Hb.
  - unfold ShmSegment_reset in Hr. rewrite Hown, Hname, bool_decide_false in Hr by done. cbn [negb andb] in Hr.
    apply runs_bind in Hr as (? & k4 & Hm & Hr). apply runs_bind in Hr as (? & k5 & Hu & _ & ->).
    apply runs_sys in Hu as (? & ? & Hu & _ & ->). apply unlink_object in Hu as [Hn5 _ Hs5 Hb5].
    unfold shows. rewrite Hn5, Hs5, Hb5. destruct (addr_ s =? 0); cbn in Hm; [by destruct Hm as [_ ->]|].
    destruct Hm as (? & ? & Hm & _ & ->). apply unmap_object in Hm as [-> _ -> ->].
    split; [done|]. split; [done|]. intros s2 o Hne2 Ho. by rewrite lookup_delete_ne.
Qed.

(** C32: removal.  After [remove], and after the destructor of the creator's segment,
    [exists] answers [false], and [open] fails, until someone creates the name again;
    whoever else has the object mapped keeps it. *)
Theorem removed_name_is_gone name s k k1 k2 :
  owner_ s = true -> name_ s = name -> name <> "" ->
  (runs (ShmSegment_remove name) k tt k1 \/ runs (ShmSegment_reset s) k ShmSegment_default k1) ->
  undisturbed name k1 k2 ->
  (forall b k3, runs (ShmSegment_exists name) k2 b k3 -> b = false) /\
  (forall s' k3, ~ runs (ShmSegment_open name) k2 (inr s') k3) /\
  (forall s' o, addr_ s' <> addr_ s -> shows k s' o -> shows k1 s' o).
Proof.
  intros Hown Hname Hne Hrm [Hn _].
  destruct (removal_runs _ _ _ _ Hown Hname Hne Hrm) as (Hgone & _ & Hkeep).
  rewrite Hgone, lookup_delete_eq in Hn. split_and!; [|..|exact Hkeep].
  - intros [|] k3 He; [|done]. apply ShmSegment_exists_runs in He as (_ & _ & _ & Hb).
    specialize (Hb eq_refl). rewrite elem_of_dom, Hn in Hb. by destruct Hb.
  - intros s' k3 (o & sz & Ho & _)%ShmSegment_open_runs. congruence.
Qed.
End objects.

(** ** A concrete kernel

    Deterministic: descriptors, objects and addresses are numbered as they are made. *)
Module Store.
Record store : Type := MkStore {
  st_named : gmap string Z; st_fd : gmap Z Z; st_size : gmap Z Z; st_backing : gmap Z Z;
  st_maps : gset (Z * Z); st_next : nat }.

Definition tick (w : store) (n : gmap string Z) (f s b : gmap Z Z) : store :=
  MkStore n f s b (st_maps w) (S (st_next w)).

(** An object's size is a number of pages. *)
Definition pages (len : Z) : Z := (len + 4095) / 4096 * 4096.

Lemma pages_range len : 0 <= len < 2 ^ 62 -> len <= pages len < 2 ^ 63.
Proof.
  intros Hl. unfold pages. pose proof (Z.mul_div_le (len + 4095) 4096 ltac:(lia)).
  pose proof (Z.mul_succ_div_gt (len + 4095) 4096 ltac:(lia)). lia.
Qed.

Definition store_open (name : string) (flags : list oflag) (w : store) : (Z * Z) * store :=
  let i := Z.of_nat (st_next w) in
  match st_named w !! name with
  | Some o =>
      if bool_decide (O_CREAT ∈ flags) then ((-1, 17), w)
      else ((i, 0), tick w (st_named w) (<[i := o]> (st_fd w)) (st_size w) (st_backing w))
  | None =>
      if bool_decide (O_CREAT ∈ flags) then
        if bool_decide (st_size w !! i = None) then
          ((i, 0), tick w (<[name := i]> (st_named w)) (<[i := i]> (st_fd w)) (<[i := 0]> (st_size w)) (st_backing w))
        else ((-1, 24), w)
      else ((-1, 2), w)
  end.

Definition store_os {X} (e : osE X) (w : store) : X * store :=
  match e in osE X return X * store with
  | ShmOpen name flags _ => store_open name flags w
  | ShmUnlink name => (0, tick w (delete name (st_named w)) (st_fd w) (st_size w) (st_backing w))
  | Ftruncate fd len =>
      match st_fd w !! fd with
      | Some o =>
          if (0 <=? len) && (len <? 2 ^ 62)
          then ((0, 0), tick w (st_named w) (st_fd w) (<[o := pages len]> (st_size w)) (st_backing w))
          else ((-1, 22), w)
      | None => ((-1, 9), w)
      end
  | Fstat fd =>
      match st_fd w !! fd ≫= fun o => st_size w !! o with
      | Some sz => ((0, 0, sz), w)
      | None => ((-1, 9, 0), w)
      end
  | Mmap bytes fd =>
      match st_fd w !! fd with
      | Some o =>
          let a := 4096 * (Z.of_nat (st_next w) + 1) in
          ((a, 0), MkStore (st_named w) (st_fd w) (st_size w) (<[a := o]> (st_backing w))
                     ({[(a, bytes)]} ∪ st_maps w) (S (st_next w)))
      | None => ((MAP_FAILED, 9), w)
      end
  | Munmap a bytes =>
      (0, MkStore (st_named w) (st_fd w) (st_size w) (delete a (st_backing w)) (st_maps w ∖ {[(a, bytes)]}) (S (st_next w)))
  | Close fd => (0, tick w (st_named w) (delete fd (st_fd w)) (st_size w) (st_backing w))
  | SteadyNow => (Z.of_nat (st_next w), tick w (st_named w) (st_fd w) (st_size w) (st_backing w))
  | Kill _ _ => ((0, 0), w)
  | GetPid | Fork | Waitpid _ => (1, w)
  | Signalled => (false, w)
  | SchedYield | Usleep _ | AssertFail => (tt, w)
  end.

#[export] Instance store_posix : Posix store := {|
  fds w := dom (st_fd w); maps := st_maps; linked w := dom (st_named w); clock w := Z.of_nat (st_next w);
  os_step X e w x w' := store_os e w = (x, w') |}.
#[export] Instance store_objects : Objects store := {|
  named := st_named; fd_of := st_fd; size_of := st_size; backing := st_backing |}.

Ltac store_law :=
  unfold unseen; intros; repeat case_match; simplify_option_eq;
  rewrite ?bool_decide_eq_true, ?andb_true_iff, ?Z.leb_le, ?Z.ltb_lt in *; unfold MAP_FAILED in *; rewrite ?W64_val in *;
  try (split; [by apply Build_sees|by intros]);
  eauto 14 using Build_sees, Nat2Z.is_nonneg, pages_range with lia.

#[export] Instance store_ok : ObjectsOk store.
Proof.
  split; cbn [os_step store_posix store_os named fd_of size_of backing store_objects]; unfold store_open.
  1: intros name flags mode k fd e k' Hc _; rewrite bool_decide_true by done.
  2: intros name flags mode k fd e k' Hc; rewrite bool_decide_false by done.
  all: store_law.
Qed.

(** Running a program alone gives one of its runs. *)
Definition store_handler : handler (evE Z) store := fun X e w =>
  match e with Os e => Some (store_os e w) | Mem _ => None end.

Lemma run_runs {A} (p : prog (evE Z) A) w a w' :
  run store_handler p w = Some (a, w') -> runs p w a w'.
Proof.
  revert w. induction p as [b|X e f IH]; intros w; cbn [run runs]; [by intros [= -> ->]|].
  destruct e as [m|o]; cbn [store_handler]; [done|]. destruct (store_os o w) as [x w1] eqn:Hx.
  intros Hr. exists x, w1. split; [done|by apply IH].
Qed.

(** A stale object of another size has the name at first. *)
Definition stale : store := MkStore {["/q" := 3]} ∅ {[3 := 100]} ∅ ∅ 4.
Definition after {A} (p : prog (evE Z) A) (w : store) : store :=
  match run store_handler p w with Some (_, w') => w' | None => w end.
Definition created : store := after (ShmSegment_create "/q" 5000) stale.
Definition reopened : store := after (ShmSegment_open "/q") created.
Definition mine : ShmSegment := MkSegment 32768 5000 true "/q".
Definition theirs : ShmSegment := MkSegment 45056 8192 false "/q".

Lemma undisturbed_refl name (w : store) : undisturbed name w w.
Proof. by split. Qed.

Lemma create_open_round_trip_witness :
  (name_ theirs = name_ mine /\ name_ mine = "/q") /\ (owner_ mine = true /\ owner_ theirs = false) /\
  exists o, shows created mine o /\ shows reopened theirs o /\ size_of stale !! o = None /\
    size_ mine = 5000 /\ size_ mine <= size_ theirs /\ size_of reopened !! o = Some (size_ theirs).
Proof.
  apply (create_open_round_trip (T := Z) "/q" 5000 stale created created reopened);
    [word_lia|apply run_runs; vm_compute; reflexivity|apply undisturbed_refl
    |apply run_runs; vm_compute; reflexivity].
Defined.

Lemma removed_name_is_gone_witness :
  let gone := after (ShmSegment_reset mine) reopened in
  (forall b k3, runs (T := Z) (ShmSegment_exists "/q") gone b k3 -> b = false) /\
  (forall s' k3, ~ runs (T := Z) (ShmSegment_open "/q") gone (inr s') k3) /\
  (forall s' o, addr_ s' <> addr_ mine -> shows reopened s' o -> shows gone s' o).
Proof.
  apply (removed_name_is_gone (T := Z) "/q" mine reopened (after (ShmSegment_reset mine) reopened));
    [done|done|done|right; apply run_runs; vm_compute; reflexivity|apply undisturbed_refl].
Defined.
End Store.
