(* ===== verification/Shm.v ===== *)
(** * A segment's contents, and running a process alone on it

    [shm T] is what the mapped bytes hold: the control block and the slot array.
    [alone] is the handler of a single process that has the segment mapped at its
    own base address while nobody else runs. *)

From S2P Require Import Prelude Prog Effects Layout Segment Queue.
#[local] Open Scope Z_scope.

Record ControlBlock : Type := MkCB {
  cb_magic : Z; cb_capacity : Z; cb_totalBytes : Z; cb_version : Z;
  cb_cacheLineSize : Z; cb_elemSize : Z; cb_elemAlign : Z; cb_slotsOffset : Z;
  cb_producerPid : Z; cb_consumerPid : Z; cb_ready : Z;
  cb_writeIdx : Z; cb_readIdx : Z }.

Definition cb_zero : ControlBlock := MkCB 0 0 0 0 0 0 0 0 0 0 0 0 0.

Definition get_a (c : ControlBlock) (f : afield) : Z :=
  match f with
  | producerPid => cb_producerPid c
  | consumerPid => cb_consumerPid c
  | ready => cb_ready c
  | writeIdx => cb_writeIdx c
  | readIdx => cb_readIdx c
  end.

Definition get_h (c : ControlBlock) (f : hfield) : Z :=
  match f with
  | magic => cb_magic c
  | capacity => cb_capacity c
  | totalBytes => cb_totalBytes c
  | version => cb_version c
  | cacheLineSize => cb_cacheLineSize c
  | elemSize => cb_elemSize c
  | elemAlign => cb_elemAlign c
  | slotsOffset => cb_slotsOffset c
  end.

(** A control block given by its members. *)
Definition cb_of (h : hfield -> Z) (a : afield -> Z) : ControlBlock :=
  MkCB (h magic) (h capacity) (h totalBytes) (h version) (h cacheLineSize) (h elemSize)
    (h elemAlign) (h slotsOffset) (a producerPid) (a consumerPid) (a ready)
    (a writeIdx) (a readIdx).

Definition set_a (c : ControlBlock) (f : afield) (v : Z) : ControlBlock :=
  cb_of (get_h c) (fupd f v (get_a c)).
Definition set_h (c : ControlBlock) (f : hfield) (v : Z) : ControlBlock :=
  cb_of (fupd f v (get_h c)) (get_a c).

Lemma get_a_of h a f : get_a (cb_of h a) f = a f.
Proof. by destruct f. Qed.

Lemma get_h_of h a f : get_h (cb_of h a) f = h f.
Proof. by destruct f. Qed.

Lemma get_set_a c f g v : get_a (set_a c f v) g = fupd f v (get_a c) g.
Proof. apply get_a_of. Qed.

Lemma get_h_set_a c f g v : get_h (set_a c f v) g = get_h c g.
Proof. apply get_h_of. Qed.

Create Rewrite HintDb shm.
#[export] Hint Rewrite get_set_a get_h_set_a get_a_of get_h_of : shm.

Section shm.
Context {T : Type} `{Platform} `{Elem T}.

Record shm : Type := MkShm { cb : ControlBlock; slots : list T }.

(** The process's view of the world: the segment and where it is mapped, what
    [kill] answers, the process's pid, its clock in nanoseconds, and how often it
    has yielded. *)
Record world : Type := MkWorld {
  w_shm : shm;
  w_base : Z;
  w_kill : Z -> Z -> Z * Z;
  w_self : Z;
  w_clock : Z;
  w_yields : Z }.

Definition upd_shm (w : world) (s : shm) : world :=
  MkWorld s (w_base w) (w_kill w) (w_self w) (w_clock w) (w_yields w).
Definition upd_cb (w : world) (c : ControlBlock) : world :=
  upd_shm w (MkShm c (slots (w_shm w))).
Definition upd_slots (w : world) (l : list T) : world :=
  upd_shm w (MkShm (cb (w_shm w)) l).
Definition upd_os (w : world) (clock yields : Z) : world :=
  MkWorld (w_shm w) (w_base w) (w_kill w) (w_self w) clock yields.

(** No address is the base of a mapping that is gone. *)
Definition unmap (w : world) : world :=
  MkWorld (w_shm w) (-1) (w_kill w) (w_self w) (w_clock w) (w_yields w).

(** The slot an address designates in a segment mapped at [base]: the array
    starts right after the control block. *)
Definition slot_at (base a : Z) : option Z :=
  let d := a - (base + sizeof_ControlBlock) in
  if (0 <=? d) && (d mod sizeT T =? 0) then Some (d / sizeT T) else None.

Definition alone_mem {X} (e : memE T X) (w : world) : option (X * world) :=
  match e in memE _ X return option (X * world) with
  | ALoad c f _ => if c =? w_base w then Some (get_a (cb (w_shm w)) f, w) else None
  | AStore c f v _ =>
      if c =? w_base w then Some (tt, upd_cb w (set_a (cb (w_shm w)) f v)) else None
  | ACas _ c f expected desired _ _ =>
      if c =? w_base w then
        let cur := get_a (cb (w_shm w)) f in
        if cur =? expected then Some ((true, expected), upd_cb w (set_a (cb (w_shm w)) f desired))
        else Some ((false, cur), w)
      else None
  | FLoad c f => if c =? w_base w then Some (get_h (cb (w_shm w)) f, w) else None
  | FStore c f v =>
      if c =? w_base w then Some (tt, upd_cb w (set_h (cb (w_shm w)) f v)) else None
  | MemsetCtrl c => if c =? w_base w then Some (tt, upd_cb w cb_zero) else None
  | SlotRead a =>
      match slot_at (w_base w) a with
      | Some i => match slots (w_shm w) !! Z.to_nat i with
                  | Some v => Some (v, w)
                  | None => None
                  end
      | None => None
      end
  | SlotWrite a v =>
      match slot_at (w_base w) a with
      | Some i => if i <? zlen (slots (w_shm w))
                  then Some (tt, upd_slots w (<[Z.to_nat i := v]> (slots (w_shm w))))
                  else None
      | None => None
      end
  end.

(** The segment is given here, so the calls that create or map one are not served
    by this handler, nor are those that take time; the segment outlives the process's
    mapping and its name.  A failed assertion aborts. *)
Definition alone_os {X} (e : osE X) (w : world) : option (X * world) :=
  match e in osE X return option (X * world) with
  | Kill pid sig => Some (w_kill w pid sig, w)
  | GetPid => Some (w_self w, w)
  | SchedYield => Some (tt, upd_os w (w_clock w) (w_yields w + 1))
  | Munmap a _ => Some (0, if a =? w_base w then unmap w else w)
  | ShmUnlink _ => Some (0, w)
  | _ => None
  end.

Definition alone : handler (evE T) world :=
  fun X e w => match e with Mem m => alone_mem m w | Os o => alone_os o w end.

Lemma slot_at_addr `{!PlatformOk _} `{!ElemOk T} base i :
  0 <= i -> slot_at base (base + sizeof_ControlBlock + i * sizeT T) = Some i.
Proof.
  intros Hi. unfold slot_at. pose proof (sizeT_pos (T := T)) as Hs.
  replace (base + sizeof_ControlBlock + i * sizeT T - (base + sizeof_ControlBlock))
    with (i * sizeT T) by lia.
  rewrite Z.mod_mul, Z.div_mul by lia.
  rewrite (proj2 (Z.leb_le _ _)) by nia. done.
Qed.
End shm.
Arguments shm T : clear implicits.
Arguments world T : clear implicits.

Ltac shm_simpl := autorewrite with shm fupd; cbn.
