(* ===== verification/Ring.v ===== *)
(** * Ring arithmetic

    The [k]-th element ever pushed lives in slot [k mod n].  When the code's
    indices are the residues of the push count [p] and the pop count [c], the index
    computations of the source are the plain differences of the counts, and no
    unsigned subtraction wraps. *)

From S2P Require Import Prelude Prog Effects Layout Segment Queue Shm.
#[local] Open Scope Z_scope.

(** The ring sizes the code can reach: at least one usable slot and the slack one;
    at most what a mapping, whose length is an [off_t], can hold. *)
Definition ring_size (n : Z) : Prop := 2 <= n <= 2 ^ 63.

Section arithmetic.
Context (n : Z) (Hn : ring_size n) (q : ShmSpscQueue) (Hq : capacity_ q = n).

Lemma ring_pos : 0 < n.
Proof. unfold ring_size in Hn. lia. Qed.

Lemma ring_fits : 2 * n <= W64.
Proof. unfold ring_size in Hn. word_lia. Qed.

Lemma usedSlots_count p c :
  0 <= p - c < n -> usedSlots q (p mod n) (c mod n) = p - c.
Proof.
  intros Hd. pose proof ring_pos. pose proof ring_fits.
  pose proof (mod_range n ring_pos p). pose proof (mod_range n ring_pos c).
  unfold usedSlots. rewrite Hq, Z.geb_leb. case_Z.
  - rewrite u64_small by lia. by apply mod_sub_ge.
  - rewrite (u64_small (_ + n)) by lia. rewrite u64_small by lia. by apply mod_sub_lt.
Qed.

Lemma freeSlots_count p c :
  0 <= p - c < n -> freeSlots q (p mod n) (c mod n) = n - 1 - (p - c).
Proof.
  intros Hd. pose proof ring_pos. pose proof ring_fits.
  pose proof (mod_range n ring_pos p). pose proof (mod_range n ring_pos c).
  unfold freeSlots. rewrite Hq, Z.gtb_ltb. case_Z.
  - rewrite (u64_small (_ - p mod n)) by lia.
    pose proof (mod_sub_lt n ring_pos p c Hd ltac:(lia)). rewrite u64_small by lia. lia.
  - pose proof (mod_sub_ge n ring_pos p c Hd ltac:(lia)).
    rewrite (u64_small (_ + n)) by lia. rewrite (u64_small (_ - p mod n)) by lia.
    rewrite u64_small by lia. lia.
Qed.

(** The increment of [try_push] and [pop]. *)
Lemma next_count p :
  (if u64 (p mod n + 1) =? capacity_ q then 0 else u64 (p mod n + 1)) = (p + 1) mod n.
Proof.
  pose proof ring_pos. pose proof ring_fits. pose proof (mod_range n ring_pos p).
  rewrite Hq, u64_small by lia. symmetry. by apply mod_succ.
Qed.

(** The advance of [push_n] and [pop_n]. *)
Lemma advance_count p k :
  0 <= k < n ->
  (if u64 (p mod n + k) >=? capacity_ q then u64 (u64 (p mod n + k) - capacity_ q)
   else u64 (p mod n + k)) = (p + k) mod n.
Proof.
  intros. pose proof ring_pos. pose proof ring_fits. pose proof (mod_range n ring_pos p).
  rewrite Hq, u64_small, Z.geb_leb by lia. case_Z.
  - rewrite u64_small by lia. symmetry. apply mod_shift_wrap; lia.
  - symmetry. apply mod_shift; lia.
Qed.

(** The part of a batch before the wrap: the room up to the end of the array. *)
Lemma room_count p : u64 (capacity_ q - p mod n) = n - p mod n.
Proof.
  pose proof ring_pos. pose proof ring_fits. pose proof (mod_range n ring_pos p).
  rewrite Hq. apply u64_small. lia.
Qed.

(** Two counts less than a ring apart share a slot only if they are equal. *)
Lemma next_full p c :
  0 <= p - c < n -> (p + 1) mod n = c mod n <-> p - c = n - 1.
Proof.
  intros. pose proof ring_pos. split; intros He.
  - destruct (Z.eq_dec (p - c) (n - 1)); [done|].
    apply mod_inj in He; lia.
  - replace (p + 1) with (c + 1 * n) by lia. by rewrite Z.mod_add by lia.
Qed.

Lemma count_empty p c : 0 <= p - c < n -> c mod n = p mod n <-> p = c.
Proof.
  intros. pose proof ring_pos. split; [|by intros ->].
  intros He. apply mod_inj in He; lia.
Qed.
End arithmetic.

(** ** Runs of slots

    [ring_get l c k] are the [k] elements from count [c] on, and [ring_put l p vs]
    is the array after the elements [vs] were stored from count [p] on. *)
Section runs.
Context {T : Type}.

Fixpoint ring_get (l : list T) (c : Z) (k : nat) : list T :=
  match k with
  | O => []
  | S k' =>
      match l !! Z.to_nat (c mod zlen l) with
      | Some v => v :: ring_get l (c + 1) k'
      | None => []
      end
  end.

Fixpoint ring_put (l : list T) (p : Z) (vs : list T) : list T :=
  match vs with
  | [] => l
  | v :: vs' => ring_put (<[Z.to_nat (p mod zlen l) := v]> l) (p + 1) vs'
  end.

Lemma zlen_insert i v (l : list T) : zlen (<[i:=v]> l) = zlen l.
Proof. unfold zlen. by rewrite length_insert. Qed.

Lemma zlen_ring_put l p vs : zlen (ring_put l p vs) = zlen l.
Proof.
  revert l p. induction vs as [|v vs IH]; intros l p; simpl; [done|]. by rewrite IH, zlen_insert.
Qed.

Lemma ring_put_app l p vs1 vs2 :
  ring_put l p (vs1 ++ vs2) = ring_put (ring_put l p vs1) (p + zlen vs1) vs2.
Proof.
  revert l p. induction vs1 as [|v vs1 IH]; intros l p; simpl; zl.
  - by rewrite Z.add_0_r.
  - rewrite IH. f_equal. lia.
Qed.

Context (n : Z) (Hn : 0 < n).

Lemma ring_slot (l : list T) c : zlen l = n -> is_Some (l !! Z.to_nat (c mod zlen l)).
Proof.
  intros Hl. rewrite Hl. pose proof (mod_range n Hn c). apply lookup_lt_is_Some_2.
  unfold zlen in Hl. lia.
Qed.

Lemma length_ring_get l c k : zlen l = n -> length (ring_get l c k) = k.
Proof.
  intros Hl. revert c. induction k as [|k IH]; intros c; simpl; [done|].
  destruct (ring_slot l c Hl) as [v ->]. simpl. by rewrite IH.
Qed.

Lemma ring_get_app l c a b :
  zlen l = n -> ring_get l c (a + b) = ring_get l c a ++ ring_get l (c + Z.of_nat a) b.
Proof.
  intros Hl. revert c. induction a as [|a IH]; intros c.
  - cbn [ring_get Nat.add app]. f_equal. lia.
  - cbn [ring_get Nat.add]. destruct (ring_slot l c Hl) as [v ->]. simpl. rewrite IH.
    do 3 f_equal. lia.
Qed.

Lemma ring_get_mod l c k : zlen l = n -> ring_get l (c mod n) k = ring_get l c k.
Proof.
  intros Hl. assert (forall c', c' mod n = c mod n -> ring_get l c' k = ring_get l c k) as Hm.
  { revert c. induction k as [|k IH]; intros c c' Hc; simpl; [done|].
    rewrite Hl, Hc. destruct (l !! _); [|done]. f_equal. apply IH.
    rewrite <- (Z.add_mod_idemp_l c'), <- (Z.add_mod_idemp_l c), Hc by lia. done. }
  apply Hm. apply Z.mod_mod. lia.
Qed.

Lemma ring_get_insert l i v c k :
  zlen l = n -> c + Z.of_nat k <= i < c + n ->
  ring_get (<[Z.to_nat (i mod n) := v]> l) c k = ring_get l c k.
Proof.
  intros Hl. revert c. induction k as [|k IH]; intros c Hi; simpl; [done|].
  rewrite zlen_insert, Hl.
  rewrite list_lookup_insert_ne.
  - rewrite IH by lia. done.
  - pose proof (mod_range n Hn i). pose proof (mod_range n Hn c). intros He.
    apply Z2Nat.inj in He; [|lia..]. apply mod_inj in He; lia.
Qed.

Lemma ring_get_put_ne l p vs c k :
  zlen l = n -> c + Z.of_nat k <= p -> p + zlen vs <= c + n ->
  ring_get (ring_put l p vs) c k = ring_get l c k.
Proof.
  revert l p. induction vs as [|v vs IH]; intros l p Hl Hp Hv; simpl; [done|]. zl.
  pose proof (zlen_nonneg vs). rewrite IH by (rewrite ?zlen_insert; lia).
  rewrite Hl. apply ring_get_insert; [done|lia].
Qed.

Lemma ring_get_put_eq l p vs :
  zlen l = n -> zlen vs <= n -> ring_get (ring_put l p vs) p (length vs) = vs.
Proof.
  revert l p. induction vs as [|v vs IH]; intros l p Hl Hv; [done|].
  rewrite zlen_cons in Hv. cbn [length ring_put]. rewrite Hl.
  change (S (length vs)) with (1 + length vs)%nat. pose proof (zlen_nonneg vs).
  rewrite ring_get_app by (rewrite zlen_ring_put, zlen_insert; done).
  change (Z.of_nat 1) with 1. rewrite IH by (rewrite ?zlen_insert; lia).
  rewrite ring_get_put_ne by (rewrite ?zlen_insert; lia). simpl.
  pose proof (mod_range n Hn p). rewrite zlen_insert, Hl, list_lookup_insert_eq; [done|].
  unfold zlen in Hl. lia.
Qed.
End runs.
