(* ===== verification/Sequential.v ===== *)
(** * The operations run by one process at a time

    With nobody running in between, what each operation of the ring answers and
    leaves in the segment, on every branch. *)

From S2P Require Import Prelude Prog Effects Layout Segment Queue Shm Ring.
#[local] Open Scope Z_scope.
#[local] Open Scope prog_scope.

Section sequential.
Context {T : Type} `{Platform} `{Elem T} `{!PlatformOk _} `{!ElemOk T}.
Context (ndebug : bool).

(** What the ring holds, oldest first. *)
Definition contents (s : shm T) : list T :=
  let n := zlen (slots s) in
  let w := cb_writeIdx (cb s) in
  let r := cb_readIdx (cb s) in
  ring_get (slots s) r (Z.to_nat (if r <=? w then w - r else w + n - r)).

(** [p] elements were pushed into and [c] popped from the segment of the world so
    far, and it holds the rest. *)
Record ring (w : world T) (p c : Z) : Prop := {
  r_size : ring_size (zlen (slots (w_shm w)));
  r_base : 0 < w_base w;
  r_write : cb_writeIdx (cb (w_shm w)) = p mod zlen (slots (w_shm w));
  r_read : cb_readIdx (cb (w_shm w)) = c mod zlen (slots (w_shm w));
  r_order : 0 <= c <= p;
  r_room : p - c <= zlen (slots (w_shm w)) - 1 }.

(** A handle attached to the segment of the world. *)
Record mapped (q : ShmSpscQueue) (w : world T) : Prop := {
  m_ctrl : ctrl_ q = w_base w;
  m_slots : slots_ q = w_base w + sizeof_ControlBlock;
  m_cap : capacity_ q = zlen (slots (w_shm w)) }.

(** The cached indices: the producer's copy of the read index is some earlier pop
    count that leaves room for everything pushed, the consumer's copy of the write
    index some earlier push count. *)
Definition prod_ok (q : ShmSpscQueue) (w : world T) (p c : Z) : Prop :=
  mapped q w /\ exists rc, readIdxCache_ q = rc mod zlen (slots (w_shm w)) /\
    rc <= c /\ p - rc <= zlen (slots (w_shm w)) - 1.
Definition cons_ok (q : ShmSpscQueue) (w : world T) (p c : Z) : Prop :=
  mapped q w /\ exists wc, writeIdxCache_ q = wc mod zlen (slots (w_shm w)) /\ c <= wc <= p.

(** The world after the elements [vs] were pushed, and after [k] were popped. *)
Definition pushed (w : world T) (p : Z) (vs : list T) : world T :=
  upd_shm w (MkShm (set_a (cb (w_shm w)) writeIdx ((p + zlen vs) mod zlen (slots (w_shm w))))
               (ring_put (slots (w_shm w)) p vs)).
Definition popped (w : world T) (c k : Z) : world T :=
  upd_cb w (set_a (cb (w_shm w)) readIdx ((c + k) mod zlen (slots (w_shm w)))).

Lemma zlen_pushed w p vs : zlen (slots (w_shm (pushed w p vs))) = zlen (slots (w_shm w)).
Proof. apply zlen_ring_put. Qed.

Lemma ring_gap w p c : ring w p c -> 0 <= p - c < zlen (slots (w_shm w)).
Proof. intros []. lia. Qed.

Lemma contents_counts w p c :
  ring w p c -> contents (w_shm w) = ring_get (slots (w_shm w)) c (Z.to_nat (p - c)).
Proof.
  intros Hr. pose proof (ring_gap _ _ _ Hr) as Hg. destruct Hr as [Hsz _ Hw Hr Ho Hroom].
  unfold contents. rewrite Hw, Hr. set (n := zlen _) in *.
  pose proof (ring_pos n Hsz) as Hpos. rewrite ring_get_mod with (n := n) by done.
  f_equal. f_equal. case_Z; [by apply mod_sub_ge|by apply mod_sub_lt].
Qed.

Lemma zlen_contents w p c : ring w p c -> zlen (contents (w_shm w)) = p - c.
Proof.
  intros Hr. rewrite (contents_counts _ _ _ Hr). unfold zlen at 1. pose proof (ring_gap _ _ _ Hr).
  destruct Hr. rewrite (length_ring_get (zlen (slots (w_shm w)))); [lia|by apply ring_pos|done].
Qed.

(** *** What a push and a pop do to the ring *)
Lemma ring_pushed w p c vs :
  ring w p c -> p + zlen vs - c <= zlen (slots (w_shm w)) - 1 ->
  ring (pushed w p vs) (p + zlen vs) c.
Proof.
  intros Hr Hroom. pose proof (zlen_nonneg vs). destruct Hr.
  constructor; rewrite ?zlen_pushed; try done; lia.
Qed.

Lemma contents_pushed w p c vs :
  ring w p c -> p + zlen vs - c <= zlen (slots (w_shm w)) - 1 ->
  contents (w_shm (pushed w p vs)) = contents (w_shm w) ++ vs.
Proof.
  intros Hr Hroom. pose proof (zlen_nonneg vs). pose proof (ring_gap _ _ _ Hr).
  rewrite (contents_counts _ _ _ Hr), (contents_counts _ _ _ (ring_pushed _ _ _ _ Hr Hroom)).
  pose proof (ring_pos _ (r_size _ _ _ Hr)) as Hn. cbn [pushed upd_shm w_shm slots].
  set (n := zlen (slots (w_shm w))) in *.
  replace (Z.to_nat (p + zlen vs - c)) with (Z.to_nat (p - c) + length vs)%nat
    by (unfold zlen in *; lia).
  rewrite (ring_get_app n) by (done || apply zlen_ring_put).
  rewrite Z2Nat.id by lia. replace (c + (p - c)) with p by lia.
  rewrite (ring_get_put_eq n) by (done || lia).
  rewrite (ring_get_put_ne n) by (done || lia). done.
Qed.

Lemma ring_popped w p c k : ring w p c -> 0 <= k <= p - c -> ring (popped w c k) p (c + k).
Proof. intros [] Hk. constructor; try done; cbn; lia. Qed.

Lemma contents_popped w p c k :
  ring w p c -> 0 <= k <= p - c ->
  contents (w_shm (popped w c k)) = zdrop k (contents (w_shm w)).
Proof.
  intros Hr Hk. pose proof (ring_pos _ (r_size _ _ _ Hr)) as Hn.
  rewrite (contents_counts _ _ _ Hr), (contents_counts _ _ _ (ring_popped _ _ _ _ Hr Hk)).
  cbn [popped upd_cb upd_shm w_shm slots]. set (n := zlen (slots (w_shm w))) in *.
  replace (Z.to_nat (p - c)) with (Z.to_nat k + Z.to_nat (p - (c + k)))%nat by lia.
  rewrite (ring_get_app n) by done. rewrite Z2Nat.id by lia. unfold zdrop.
  rewrite drop_app_length' by (by rewrite (length_ring_get n)). done.
Qed.

Lemma contents_take w p c k :
  ring w p c -> 0 <= k <= p - c ->
  ring_get (slots (w_shm w)) c (Z.to_nat k) = ztake k (contents (w_shm w)).
Proof.
  intros Hr Hk. pose proof (ring_pos _ (r_size _ _ _ Hr)) as Hn.
  rewrite (contents_counts _ _ _ Hr). set (n := zlen (slots (w_shm w))) in *.
  replace (Z.to_nat (p - c)) with (Z.to_nat k + Z.to_nat (p - (c + k)))%nat by lia.
  rewrite (ring_get_app n) by done. unfold ztake.
  rewrite take_app_length' by (by rewrite (length_ring_get n)). done.
Qed.

(** *** The handles across the other side's operations *)
Lemma mapped_pushed q w p vs : mapped q w -> mapped q (pushed w p vs).
Proof. intros []. constructor; rewrite ?zlen_pushed; done. Qed.

Lemma mapped_popped q w c k : mapped q w -> mapped q (popped w c k).
Proof. by intros []. Qed.

Lemma cons_ok_pushed q w p c vs : cons_ok q w p c -> cons_ok q (pushed w p vs) (p + zlen vs) c.
Proof.
  intros [Hm (wc & Hwc & Hle)]. split; [by apply mapped_pushed|].
  exists wc. rewrite zlen_pushed. pose proof (zlen_nonneg vs). split; [done|lia].
Qed.

Lemma prod_ok_popped q w p c k : 0 <= k -> prod_ok q w p c -> prod_ok q (popped w c k) p (c + k).
Proof.
  intros Hk [Hm (rc & Hrc & Hle)]. split; [by apply mapped_popped|].
  exists rc. cbn. repeat split; [done|lia|lia].
Qed.

(** *** Running the accesses *)
Lemma run_load (q : ShmSpscQueue) w f o A (k : Z -> prog (evE T) A) :
  mapped q w ->
  run alone (bind (load (ctrl_ q) f o) k) w = run alone (k (get_a (cb (w_shm w)) f)) w.
Proof. intros [Hc _ _]. simpl. by rewrite Hc, Z.eqb_refl. Qed.

Lemma run_store (q : ShmSpscQueue) w f v o A (k : unit -> prog (evE T) A) :
  mapped q w ->
  run alone (bind (store (ctrl_ q) f v o) k) w =
  run alone (k tt) (upd_cb w (set_a (cb (w_shm w)) f v)).
Proof. intros [Hc _ _]. simpl. by rewrite Hc, Z.eqb_refl. Qed.

(** A copy of a run of elements that stays inside the array, from the slot of
    count [p] on. *)
Lemma run_memcpy_in (q : ShmSpscQueue) w p vs :
  mapped q w -> 0 < zlen (slots (w_shm w)) -> p mod zlen (slots (w_shm w)) + zlen vs <= zlen (slots (w_shm w)) ->
  run alone (memcpy_in (slot_addr (T := T) q (p mod zlen (slots (w_shm w)))) vs) w =
  Some (tt, upd_slots w (ring_put (slots (w_shm w)) p vs)).
Proof.
  intros Hm. revert w p Hm. induction vs as [|v vs IH]; intros w p Hm Hn Hroom.
  { by destruct w as [[]]. }
  rewrite zlen_cons in Hroom. pose proof (zlen_nonneg vs). pose proof (mod_range _ Hn p).
  cbn [memcpy_in]. simpl. unfold slot_addr. rewrite (m_slots _ _ Hm).
  rewrite slot_at_addr by lia. rewrite (proj2 (Z.ltb_lt _ _)) by lia.
  destruct (Z.eq_dec (zlen vs) 0) as [H0'|Hne].
  { destruct vs; [done|]. rewrite zlen_cons in H0'. pose proof (zlen_nonneg vs). lia. }
  set (w' := upd_slots w _). specialize (IH w' (p + 1)).
  assert (zlen (slots (w_shm w')) = zlen (slots (w_shm w))) as Hl by apply zlen_insert.
  rewrite Hl in IH. rewrite mod_shift in IH by lia. unfold slot_addr in IH.
  rewrite (m_slots _ _ Hm) in IH.
  replace (w_base w + sizeof_ControlBlock + p mod zlen (slots (w_shm w)) * sizeT T + sizeT T)
    with (w_base w + sizeof_ControlBlock + (p mod zlen (slots (w_shm w)) + 1) * sizeT T) by lia.
  rewrite IH; [done| |lia|lia]. destruct Hm. constructor; rewrite ?Hl; done.
Qed.

Lemma run_memcpy_out (q : ShmSpscQueue) w c k :
  mapped q w -> 0 < zlen (slots (w_shm w)) ->
  c mod zlen (slots (w_shm w)) + Z.of_nat k <= zlen (slots (w_shm w)) ->
  run alone (memcpy_out (slot_addr (T := T) q (c mod zlen (slots (w_shm w)))) k) w =
  Some (ring_get (slots (w_shm w)) c k, w).
Proof.
  intros Hm Hn. revert c. induction k as [|k IH]; intros c Hroom; [done|].
  pose proof (mod_range _ Hn c). cbn [memcpy_out]. simpl. unfold slot_addr.
  rewrite (m_slots _ _ Hm), slot_at_addr by lia.
  destruct (ring_slot _ Hn (slots (w_shm w)) c eq_refl) as [v Hv]. rewrite Hv.
  rewrite run_bind. destruct k as [|k]; [done|]. 
  specialize (IH (c + 1)). rewrite mod_shift in IH by lia. unfold slot_addr in IH.
  rewrite (m_slots _ _ Hm) in IH.
  replace (w_base w + sizeof_ControlBlock + c mod zlen (slots (w_shm w)) * sizeT T + sizeT T)
    with (w_base w + sizeof_ControlBlock + (c mod zlen (slots (w_shm w)) + 1) * sizeT T) by lia.
  rewrite IH by lia. done.
Qed.

(** *** The producer's operations *)
Lemma set_readIdxCache_eta (q : ShmSpscQueue) : set_readIdxCache q (readIdxCache_ q) = q.
Proof. by destruct q. Qed.

Lemma set_writeIdxCache_eta (q : ShmSpscQueue) : set_writeIdxCache q (writeIdxCache_ q) = q.
Proof. by destruct q. Qed.

Lemma pushed_nil w p c : ring w p c -> pushed w p [] = w.
Proof.
  intros [_ _ Hw _ _ _]. destruct w as [[[] l] b kl sf ck ys]. cbn in *. subst.
  unfold pushed, set_a, cb_of. rewrite zlen_nil, Z.add_0_r. reflexivity.
Qed.

Lemma popped_0 w p c : ring w p c -> popped w c 0 = w.
Proof.
  intros [_ _ _ Hr _ _]. destruct w as [[[] l] b kl sf ck ys]. cbn in *. subst.
  unfold popped, upd_cb, set_a, cb_of. rewrite Z.add_0_r. reflexivity.
Qed.

Lemma prod_ok_fresh q w p c :
  ring w p c -> mapped q w -> prod_ok (set_readIdxCache q (c mod zlen (slots (w_shm w)))) w p c.
Proof. intros Hr []. split; [by constructor|]. exists c. destruct Hr. split; [done|lia]. Qed.

Lemma cons_ok_fresh q w p c :
  ring w p c -> mapped q w -> cons_ok (set_writeIdxCache q (p mod zlen (slots (w_shm w)))) w p c.
Proof. intros Hr []. split; [by constructor|]. exists p. destruct Hr. split; [done|lia]. Qed.

(** A producer that still has room, after pushing what its cache allows. *)
Lemma prod_ok_pushed q w p c vs rc :
  mapped q w -> readIdxCache_ q = rc mod zlen (slots (w_shm w)) -> rc <= c ->
  p + zlen vs - rc <= zlen (slots (w_shm w)) - 1 -> prod_ok q (pushed w p vs) (p + zlen vs) c.
Proof.
  intros Hm Hrc Hle Hroom. split; [by apply mapped_pushed|]. exists rc. by rewrite zlen_pushed.
Qed.

(** What a producer's operation that published [vs] leaves behind. *)
Definition published (q : ShmSpscQueue) (w : world T) (p c : Z) (vs : list T)
    (q' : ShmSpscQueue) : Prop :=
  (exists r, q' = set_readIdxCache q r) /\
  p + zlen vs - c <= zlen (slots (w_shm w)) - 1 /\
  prod_ok q' (pushed w p vs) (p + zlen vs) c.

Lemma published_idle q w p c : ring w p c -> prod_ok q w p c -> published q w p c [] q.
Proof.
  intros Hr Hq. split; [exists (readIdxCache_ q); by rewrite set_readIdxCache_eta|].
  rewrite (pushed_nil _ _ _ Hr), zlen_nil, Z.add_0_r. split; [by destruct Hr|done].
Qed.

Lemma published_nothing q w p c :
  ring w p c -> mapped q w ->
  published q w p c [] (set_readIdxCache q (c mod zlen (slots (w_shm w)))).
Proof.
  intros Hr Hm. split; [by eexists|]. rewrite (pushed_nil _ _ _ Hr), zlen_nil, Z.add_0_r.
  split; [by destruct Hr|by apply prod_ok_fresh].
Qed.

(** The store of one element and the publication of the next index, by a handle
    whose cache [rc] shows room. *)
Lemma run_push_write q q' w p c rc v :
  ring w p c -> mapped q' w -> readIdxCache_ q' = rc mod zlen (slots (w_shm w)) -> rc <= c ->
  p - rc < zlen (slots (w_shm w)) - 1 -> (exists r, q' = set_readIdxCache q r) ->
  run alone (slot_write (slot_addr q' (p mod zlen (slots (w_shm w)))) v;;
             store (ctrl_ q') writeIdx ((p + 1) mod zlen (slots (w_shm w))) release;;
             Ret (q', true)) w = Some ((q', true), pushed w p [v]) /\
  published q w p c [v] q'.
Proof.
  intros Hr Hm Hrc Hle Hroom He. pose proof (ring_pos _ (r_size _ _ _ Hr)) as Hn.
  pose proof (ring_gap _ _ _ Hr) as Hg. set (n := zlen (slots (w_shm w))) in *. split.
  - pose proof (run_memcpy_in q' w p [v] Hm Hn) as Hin. fold n in Hin.
    pose proof (mod_range n Hn p). change (zlen [v]) with 1 in Hin.
    cbn [memcpy_in] in Hin. rewrite run_bind in Hin.
    destruct (run alone (slot_write (slot_addr q' (p mod n)) v) w) as [[[] w']|] eqn:Hw;
      specialize (Hin ltac:(lia)); [|done]. injection Hin as ->.
    rewrite (run_bind_Some _ _ _ _ _ _ Hw), run_store; [done|].
    destruct Hm. constructor; try done. cbn. unfold zlen. by rewrite length_insert.
  - split; [done|]. change (zlen [v]) with 1. split; [fold n; lia|].
    apply (prod_ok_pushed _ _ _ _ [v] rc); try done. change (zlen [v]) with 1. fold n. lia.
Qed.

Lemma run_try_push q w p c v :
  ring w p c -> prod_ok q w p c ->
  let room := p - c <? zlen (slots (w_shm w)) - 1 in
  exists q',
    run alone (try_push q v) w = Some ((q', room), pushed w p (if room then [v] else [])) /\
    published q w p c (if room then [v] else []) q'.
Proof.
  intros Hr [Hm (rc & Hrc & Hle & Hrm)].
  pose proof (r_size _ _ _ Hr) as Hsz. pose proof (ring_gap _ _ _ Hr) as Hg.
  unfold try_push. rewrite run_load by done. cbn [get_a]. rewrite (r_write _ _ _ Hr).
  rewrite (next_count _ Hsz q (m_cap _ _ Hm)), Hrc. set (n := zlen (slots (w_shm w))) in *. case_Z.
  - rewrite run_load by done. cbn [get_a]. rewrite (r_read _ _ _ Hr).
    cbn [set_readIdxCache readIdxCache_]. fold n. case_Z.
    + assert (p - c = n - 1) as Hf by (by apply (next_full n Hsz)).
      rewrite (proj2 (Z.ltb_ge _ _)) by lia. eexists. rewrite (pushed_nil _ _ _ Hr).
      split; [done|]. by apply published_nothing.
    + assert (p - c <> n - 1) by (intros Hf; by apply (next_full n Hsz) in Hf).
      rewrite (proj2 (Z.ltb_lt _ _)) by lia. eexists.
      apply (run_push_write q _ w p c c); [done|by destruct Hm|done|lia|fold n; lia|by eexists].
  - assert (p - rc <> n - 1) by (intros Hf; apply (next_full n Hsz) in Hf; [done|lia]).
    rewrite (proj2 (Z.ltb_lt _ _)) by lia. exists q.
    apply (run_push_write q q w p c rc); [done..|fold n; lia|].
    exists (readIdxCache_ q). by rewrite set_readIdxCache_eta.
Qed.

(** The two copies of a batch store, and load, one run of the ring. *)
Lemma run_batch_in q w p src k A (f : unit -> prog (evE T) A) :
  mapped q w -> 0 < zlen (slots (w_shm w)) -> 0 <= k < zlen (slots (w_shm w)) -> k <= zlen src ->
  let n := zlen (slots (w_shm w)) in
  let first := Z.min k (n - p mod n) in
  run alone (memcpy_in (slot_addr q (p mod n)) (ztake first src);;
             (if k >? first then memcpy_in (slot_addr q 0) (ztake (k - first) (zdrop first src))
              else Ret tt);; f tt) w =
  run alone (f tt) (upd_slots w (ring_put (slots (w_shm w)) p (ztake k src))).
Proof.
  intros Hm Hn Hk Hsrc n first. pose proof (mod_range n Hn p).
  assert (0 <= first <= k) as Hfk by lia.
  rewrite (run_bind_Some _ _ _ _ _ _ (run_memcpy_in q w p (ztake first src) Hm Hn
             ltac:(rewrite zlen_ztake by lia; fold n; lia))).
  rewrite <- (ztake_split first k src) by lia. rewrite ring_put_app, zlen_ztake by lia.
  rewrite Z.gtb_ltb. destruct (Z.ltb_spec first k) as [Hlt|Hge].
  - assert (first = n - p mod n) as Hfirst by lia.
    set (w1 := upd_slots w _).
    assert (zlen (slots (w_shm w1)) = n) as Hl1 by apply zlen_ring_put.
    assert (mapped q w1) as Hm1 by (destruct Hm; constructor; rewrite ?Hl1; done).
    assert ((p + first) mod n = 0) as Hz.
    { replace (p + first) with (p + (n - p mod n)) by lia. rewrite mod_shift_wrap; lia. }
    assert (zlen (ztake (k - first) (zdrop first src)) = k - first) as Hz2.
    { apply zlen_ztake. rewrite zlen_zdrop; lia. }
    pose proof (run_memcpy_in q w1 (p + first) (ztake (k - first) (zdrop first src)) Hm1) as Hin.
    rewrite Hl1, Hz, Hz2 in Hin. rewrite (run_bind_Some _ _ _ _ _ _ (Hin ltac:(lia) ltac:(lia))).
    done.
  - replace (k - first) with 0 by lia. done.
Qed.

Lemma run_batch_out q w c k A (f : list T -> prog (evE T) A) :
  mapped q w -> 0 < zlen (slots (w_shm w)) -> 0 <= k < zlen (slots (w_shm w)) ->
  let n := zlen (slots (w_shm w)) in
  let first := Z.min k (n - c mod n) in
  run alone (let* d1 := memcpy_out (slot_addr q (c mod n)) (Z.to_nat first) in
             let* d2 := (if k >? first then memcpy_out (slot_addr q 0) (Z.to_nat (k - first))
                         else Ret []) in f (d1 ++ d2)) w =
  run alone (f (ring_get (slots (w_shm w)) c (Z.to_nat k))) w.
Proof.
  intros Hm Hn Hk n first. pose proof (mod_range n Hn c). assert (0 <= first <= k) as Hfk by lia.
  rewrite (run_bind_Some _ _ _ _ _ _ (run_memcpy_out q w c (Z.to_nat first) Hm Hn
             ltac:(fold n; lia))).
  replace (Z.to_nat k) with (Z.to_nat first + Z.to_nat (k - first))%nat by lia.
  rewrite (ring_get_app n Hn _ _ _ _ eq_refl), Z2Nat.id by lia.
  rewrite Z.gtb_ltb. destruct (Z.ltb_spec first k) as [Hlt|Hge].
  - assert ((c + first) mod n = 0) as Hz.
    { replace (c + first) with (c + (n - c mod n)) by lia. rewrite mod_shift_wrap; lia. }
    pose proof (run_memcpy_out q w (c + first) (Z.to_nat (k - first)) Hm Hn) as Hout.
    fold n in Hout. rewrite Hz in Hout.
    rewrite (run_bind_Some _ _ _ _ _ _ (Hout ltac:(lia))). done.
  - replace (k - first) with 0 by lia. done.
Qed.

(** The copy part of [push_n], by a handle whose cache [rc] shows room for [count]. *)
Definition push_copy (q : ShmSpscQueue) (w count : Z) (src : list T) :
    prog (evE T) (ShmSpscQueue * Z) :=
  let first := Z.min count (u64 (capacity_ q - w)) in
  memcpy_in (slot_addr q w) (ztake first src);;
  (if count >? first then memcpy_in (slot_addr q 0) (ztake (count - first) (zdrop first src))
   else Ret tt);;
  store (ctrl_ q) writeIdx
    (if u64 (w + count) >=? capacity_ q then u64 (u64 (w + count) - capacity_ q)
     else u64 (w + count)) release;;
  Ret (q, count).

Lemma run_push_copy q q' w p c rc src count :
  ring w p c -> mapped q' w -> readIdxCache_ q' = rc mod zlen (slots (w_shm w)) -> rc <= c ->
  0 <= count <= zlen src -> count <= zlen (slots (w_shm w)) - 1 - (p - rc) ->
  (exists r, q' = set_readIdxCache q r) ->
  run alone (push_copy q' (p mod zlen (slots (w_shm w))) count src) w =
    Some ((q', count), pushed w p (ztake count src)) /\
  published q w p c (ztake count src) q'.
Proof.
  intros Hr Hm Hrc Hle Hc Hroom He. pose proof (r_size _ _ _ Hr) as Hsz.
  pose proof (ring_pos _ Hsz) as Hn. pose proof (ring_gap _ _ _ Hr) as Hg.
  set (n := zlen (slots (w_shm w))) in *.
  assert (zlen (ztake count src) = count) as Hlen by (apply zlen_ztake; lia). split.
  - unfold push_copy.
    rewrite (room_count n Hsz q' (m_cap _ _ Hm)), (advance_count n Hsz q' (m_cap _ _ Hm)) by lia.
    etransitivity.
    { apply (run_batch_in q' w p src count _ (fun _ => store (ctrl_ q') writeIdx
        ((p + count) mod n) release;; Ret (q', count)) Hm); fold n; lia. }
    rewrite run_store; [unfold pushed; rewrite Hlen; done|].
    destruct Hm. constructor; try done. cbn. by rewrite zlen_ring_put.
  - split; [done|]. rewrite Hlen. split; [fold n; lia|]. rewrite <- Hlen at 2.
    apply (prod_ok_pushed _ _ _ _ _ rc); try done. rewrite Hlen. fold n. lia.
Qed.

Lemma run_push_n q w p c src k :
  ring w p c -> prod_ok q w p c -> 0 <= k <= zlen src ->
  let count := Z.min k (zlen (slots (w_shm w)) - 1 - (p - c)) in
  exists q',
    run alone (push_n q src k) w = Some ((q', count), pushed w p (ztake count src)) /\
    published q w p c (ztake count src) q'.
Proof.
  intros Hr [Hm (rc & Hrc & Hle & Hrm)] Hk.
  pose proof (r_size _ _ _ Hr) as Hsz. pose proof (ring_gap _ _ _ Hr) as Hg.
  set (n := zlen (slots (w_shm w))) in *. intros count.
  assert (exists r, q = set_readIdxCache q r) as Heta.
  { exists (readIdxCache_ q). by rewrite set_readIdxCache_eta. }
  unfold push_n. case_Z.
  { exists q. assert (count = 0) as -> by lia. change (ztake 0 src) with (@nil T).
    split; [by rewrite (pushed_nil _ _ _ Hr)|]. apply published_idle; [done|].
    split; eauto. }
  rewrite run_load by done. cbn [get_a]. rewrite (r_write _ _ _ Hr), Hrc. fold n.
  rewrite (freeSlots_count n Hsz q (m_cap _ _ Hm)) by lia. case_Z.
  - rewrite run_load by done. cbn [get_a]. rewrite (r_read _ _ _ Hr). fold n.
    set (q' := set_readIdxCache q (c mod n)). assert (mapped q' w) as Hm' by (by destruct Hm).
    change (readIdxCache_ q') with (c mod n). exists q'.
    rewrite (freeSlots_count n Hsz q' (m_cap _ _ Hm')) by lia. case_Z.
    + assert (count = 0) as -> by lia. change (ztake 0 src) with (@nil T).
      rewrite (pushed_nil _ _ _ Hr). split; [done|]. by apply published_nothing.
    + apply (run_push_copy q q' w p c c); [done|done|done|lia|lia|fold n; lia|by eexists].
  - exists q. assert (count = Z.min k (n - 1 - (p - rc))) as Hc by lia. clearbody count. subst count.
    apply (run_push_copy q q w p c rc); [done..|lia|fold n; lia|done].
Qed.

(** *** The consumer's operations *)
Definition consumed (q : ShmSpscQueue) (w : world T) (p c k : Z) (q' : ShmSpscQueue) : Prop :=
  (exists r, q' = set_writeIdxCache q r) /\ 0 <= k <= p - c /\ cons_ok q' (popped w c k) p (c + k).

Lemma consumed_idle q w p c : ring w p c -> cons_ok q w p c -> consumed q w p c 0 q.
Proof.
  intros Hr Hq. split; [exists (writeIdxCache_ q); by rewrite set_writeIdxCache_eta|].
  rewrite (popped_0 _ _ _ Hr), Z.add_0_r. split; [destruct Hr; lia|done].
Qed.

Lemma consumed_nothing q w p c :
  ring w p c -> mapped q w ->
  consumed q w p c 0 (set_writeIdxCache q (p mod zlen (slots (w_shm w)))).
Proof.
  intros Hr Hm. split; [by eexists|]. rewrite (popped_0 _ _ _ Hr), Z.add_0_r.
  split; [destruct Hr; lia|by apply cons_ok_fresh].
Qed.

Lemma consumed_upto q q' w p c k wc :
  ring w p c -> mapped q' w -> writeIdxCache_ q' = wc mod zlen (slots (w_shm w)) ->
  c <= wc <= p -> 0 <= k <= wc - c -> (exists r, q' = set_writeIdxCache q r) ->
  consumed q w p c k q'.
Proof.
  intros Hr Hm Hwc Hle Hk He. split; [done|]. split; [lia|].
  split; [by apply mapped_popped|]. exists wc. cbn. split; [done|lia].
Qed.

(** [front] answers null exactly when the ring is empty, and otherwise the address
    of the oldest element, with a cache that covers it. *)
Lemma run_front q w p c :
  ring w p c -> cons_ok q w p c ->
  exists q' wc,
    run alone (front q) w =
      Some ((q', if p =? c then 0 else slot_addr (T := T) q (c mod zlen (slots (w_shm w)))), w) /\
    (exists r, q' = set_writeIdxCache q r) /\ mapped q' w /\
    writeIdxCache_ q' = wc mod zlen (slots (w_shm w)) /\ c <= wc <= p /\ (p <> c -> c < wc).
Proof.
  intros Hr [Hm (wc & Hwc & Hle)].
  pose proof (r_size _ _ _ Hr) as Hsz. pose proof (ring_gap _ _ _ Hr) as Hg.
  unfold front. rewrite run_load by done. cbn [get_a]. rewrite (r_read _ _ _ Hr), Hwc.
  set (n := zlen (slots (w_shm w))) in *. destruct (Z.eqb_spec (c mod n) (wc mod n)) as [e|ne].
  - rewrite run_load by done. cbn [get_a]. rewrite (r_write _ _ _ Hr).
    cbn [set_writeIdxCache writeIdxCache_]. fold n.
    exists (set_writeIdxCache q (p mod n)), p.
    assert (c mod n = p mod n <-> p = c) as Hi by (apply (count_empty n Hsz); lia).
    split.
    { destruct (Z.eqb_spec (c mod n) (p mod n)), (Z.eqb_spec p c); try done; tauto. }
    split; [by eexists|]. split; [by destruct Hm|]. split; [done|lia].
  - assert (c <> wc) by (by intros ->). rewrite (proj2 (Z.eqb_neq p c)) by lia.
    exists q, wc. split; [done|]. split; [exists (writeIdxCache_ q); by rewrite set_writeIdxCache_eta|].
    split; [done|]. split; [done|lia].
Qed.

(** [pop()] on a ring that is not empty, with or without its assertion. *)
Lemma run_pop_front q w p c :
  ring w p c -> mapped q w -> c < p ->
  run alone (pop_front ndebug q) w = Some (tt, popped w c 1).
Proof.
  intros Hr Hm Hlt. pose proof (r_size _ _ _ Hr) as Hsz. pose proof (ring_gap _ _ _ Hr) as Hg.
  unfold pop_front. rewrite run_load by done. cbn [get_a]. rewrite (r_read _ _ _ Hr).
  rewrite (next_count _ Hsz q (m_cap _ _ Hm)). set (n := zlen (slots (w_shm w))) in *.
  assert (run alone (if ndebug then Ret tt else
     let* w := load (ctrl_ q) writeIdx acquire in
     if w =? c mod n then sys AssertFail else Ret tt) w = Some (tt, w)) as Ha.
  { destruct ndebug; [done|]. rewrite run_load by done. cbn [get_a]. rewrite (r_write _ _ _ Hr).
    fold n. rewrite (proj2 (Z.eqb_neq _ _)); [done|].
    intros He. symmetry in He. apply (count_empty n Hsz p c) in He; lia. }
  rewrite (run_bind_Some _ _ _ _ _ _ Ha). simpl. by rewrite (m_ctrl _ _ Hm), Z.eqb_refl.
Qed.

(** The address [front] answers designates the oldest element. *)
Lemma run_slot_read q w p c :
  ring w p c -> mapped q w -> c < p ->
  exists v, run alone (slot_read (slot_addr (T := T) q (c mod zlen (slots (w_shm w))))) w = Some (v, w) /\
    contents (w_shm w) = v :: zdrop 1 (contents (w_shm w)).
Proof.
  intros Hr Hm Hlt. pose proof (ring_pos _ (r_size _ _ _ Hr)) as Hn.
  pose proof (ring_gap _ _ _ Hr) as Hg. pose proof (mod_range _ Hn c).
  pose proof (contents_counts _ _ _ Hr) as Hc.
  replace (Z.to_nat (p - c)) with (S (Z.to_nat (p - c - 1))) in Hc by lia. cbn [ring_get] in Hc.
  destruct (ring_slot _ Hn (slots (w_shm w)) c eq_refl) as [v Hv]. rewrite Hv in Hc.
  exists v. rewrite Hc. split; [|done]. simpl. unfold slot_addr.
  rewrite (m_slots _ _ Hm), slot_at_addr by lia. by rewrite Hv.
Qed.

Lemma slot_addr_pos q w i : mapped q w -> 0 < w_base w -> 0 <= i -> 0 < slot_addr (T := T) q i.
Proof.
  intros Hm Hb Hi. unfold slot_addr. rewrite (m_slots _ _ Hm).
  pose proof sizeof_ControlBlock_bounds. pose proof (sizeT_pos (T := T)). nia.
Qed.

Lemma run_try_pop q w p c :
  ring w p c -> cons_ok q w p c ->
  exists q' k,
    run alone (try_pop ndebug q) w = Some ((q', head (contents (w_shm w))), popped w c k) /\
    k = (if p =? c then 0 else 1) /\ consumed q w p c k q'.
Proof.
  intros Hr Hq. pose proof (zlen_contents _ _ _ Hr) as Hz.
  destruct (run_front _ _ _ _ Hr Hq) as (q' & wc & Hf & He & Hm' & Hwc & Hle & Hlt).
  pose proof (proj1 Hq) as Hm. unfold try_pop. rewrite (run_bind_Some _ _ _ _ _ _ Hf).
  destruct (Z.eqb_spec p c) as [->|ne].
  - exists q', 0. destruct (contents (w_shm w)); [|rewrite zlen_cons in Hz; pose proof (zlen_nonneg l); lia].
    rewrite (popped_0 _ _ _ Hr). split; [done|]. split; [done|].
    apply (consumed_upto q q' w c c 0 wc); try done; lia.
  - pose proof (ring_pos _ (r_size _ _ _ Hr)) as Hn. pose proof (mod_range _ Hn c).
    pose proof (slot_addr_pos q w (c mod zlen (slots (w_shm w))) Hm (r_base _ _ _ Hr) ltac:(lia)).
    rewrite (proj2 (Z.eqb_neq _ 0)) by lia. exists q', 1.
    destruct (run_slot_read q w p c Hr Hm ltac:(lia)) as (v & Hv & Hc).
    rewrite (run_bind_Some _ _ _ _ _ _ Hv).
    rewrite (run_bind_Some _ _ _ _ _ _ (run_pop_front q' w p c Hr Hm' ltac:(lia))).
    rewrite Hc. split; [done|]. split; [done|].
    apply (consumed_upto q q' w p c 1 wc); try done; lia.
Qed.

(** The copy part of [pop_n]. *)
Definition pop_copy (q : ShmSpscQueue) (r count : Z) :
    prog (evE T) (ShmSpscQueue * Z * list T) :=
  let first := Z.min count (u64 (capacity_ q - r)) in
  let* d1 := memcpy_out (slot_addr (T := T) q r) (Z.to_nat first) in
  let* d2 := (if count >? first then memcpy_out (slot_addr (T := T) q 0) (Z.to_nat (count - first))
              else Ret []) in
  store (ctrl_ q) readIdx
    (if u64 (r + count) >=? capacity_ q then u64 (u64 (r + count) - capacity_ q)
     else u64 (r + count)) release;;
  Ret (q, count, d1 ++ d2).

Lemma run_pop_copy q q' w p c wc count :
  ring w p c -> mapped q' w -> writeIdxCache_ q' = wc mod zlen (slots (w_shm w)) -> c <= wc <= p ->
  0 <= count <= wc - c -> (exists r, q' = set_writeIdxCache q r) ->
  run alone (pop_copy q' (c mod zlen (slots (w_shm w))) count) w =
    Some ((q', count, ztake count (contents (w_shm w))), popped w c count) /\
  consumed q w p c count q'.
Proof.
  intros Hr Hm Hwc Hle Hc He. pose proof (r_size _ _ _ Hr) as Hsz.
  pose proof (ring_pos _ Hsz) as Hn. pose proof (ring_gap _ _ _ Hr) as Hg.
  split; [|by apply (consumed_upto q q' w p c count wc)].
  rewrite <- (contents_take _ _ _ _ Hr) by lia.
  set (n := zlen (slots (w_shm w))) in *. unfold pop_copy.
  rewrite (room_count n Hsz q' (m_cap _ _ Hm)), (advance_count n Hsz q' (m_cap _ _ Hm)) by lia.
  etransitivity.
  { apply (run_batch_out q' w c count _ (fun d => store (ctrl_ q') readIdx
      ((c + count) mod n) release;; Ret (q', count, d)) Hm); fold n; lia. }
  by rewrite run_store.
Qed.

Lemma run_pop_n q w p c k :
  ring w p c -> cons_ok q w p c -> 0 <= k ->
  let count := Z.min k (p - c) in
  exists q',
    run alone (pop_n q k) w =
      Some ((q', count, ztake count (contents (w_shm w))), popped w c count) /\
    consumed q w p c count q'.
Proof.
  intros Hr Hq Hk. pose proof Hq as [Hm (wc & Hwc & Hle)].
  pose proof (r_size _ _ _ Hr) as Hsz. pose proof (ring_gap _ _ _ Hr) as Hg.
  set (n := zlen (slots (w_shm w))) in *. intros count.
  unfold pop_n. case_Z.
  { exists q. assert (count = 0) as -> by lia.
    split; [by rewrite (popped_0 _ _ _ Hr)|]. by apply consumed_idle. }
  rewrite run_load by done. cbn [get_a]. rewrite (r_read _ _ _ Hr), Hwc. fold n.
  rewrite (usedSlots_count n Hsz q (m_cap _ _ Hm)) by lia. case_Z.
  - rewrite run_load by done. cbn [get_a]. rewrite (r_write _ _ _ Hr). fold n.
    set (q' := set_writeIdxCache q (p mod n)). assert (mapped q' w) as Hm' by (by destruct Hm).
    change (writeIdxCache_ q') with (p mod n). exists q'.
    rewrite (usedSlots_count n Hsz q' (m_cap _ _ Hm')) by lia. case_Z.
    + assert (count = 0) as -> by lia. rewrite (popped_0 _ _ _ Hr). split; [done|].
      by apply consumed_nothing.
    + apply (run_pop_copy q q' w p c p); [done|done|done|lia|lia|by eexists].
  - exists q. assert (count = Z.min k (wc - c)) as Hc by lia. clearbody count. subst count.
    apply (run_pop_copy q q w p c wc); [done..|lia|].
    exists (writeIdxCache_ q). by rewrite set_writeIdxCache_eta.
Qed.

Lemma run_size q w p c :
  ring w p c -> mapped q w -> run alone (size q) w = Some (p - c, w).
Proof.
  intros Hr Hm. unfold size. rewrite !run_load by done. cbn [get_a].
  rewrite (r_read _ _ _ Hr), (r_write _ _ _ Hr). simpl.
  by rewrite (usedSlots_count _ (r_size _ _ _ Hr) q (m_cap _ _ Hm)) by (by apply ring_gap).
Qed.

Lemma run_empty q w p c :
  ring w p c -> mapped q w -> run alone (empty q) w = Some (p =? c, w).
Proof.
  intros Hr Hm. unfold empty. rewrite !run_load by done. cbn [get_a].
  rewrite (r_read _ _ _ Hr), (r_write _ _ _ Hr). simpl. do 2 f_equal. pose proof (ring_gap _ _ _ Hr).
  destruct (Z.eqb_spec p c) as [->|ne]; [by rewrite Z.eqb_refl|]. apply Z.eqb_neq.
  intros He. by apply ne, (count_empty _ (r_size _ _ _ Hr) p c).
Qed.
End sequential.
