(* ===== verification/Refinement.v ===== *)
(** * The ring against a bounded FIFO

    Every sequence of calls on an attached queue gives the answers of the same calls
    on a bounded first-in-first-out list of [capacity()] elements, and a batch is the
    same as its elements one by one. *)

From S2P Require Import Prelude Prog Effects Layout Segment Queue Shm Ring Sequential.
#[local] Open Scope Z_scope.
#[local] Open Scope prog_scope.

(** ** The specification: a bounded FIFO *)
Module Fifo.
Section fifo.
Context {T : Type}.

Definition push (cap : Z) (l : list T) (v : T) : list T * bool :=
  if zlen l <? cap then (l ++ [v], true) else (l, false).

Definition push_n (cap : Z) (l : list T) (src : list T) (k : Z) : list T * Z :=
  let count := Z.min k (cap - zlen l) in (l ++ ztake count src, count).

Definition pop (l : list T) : list T * option T :=
  match l with [] => ([], None) | v :: l' => (l', Some v) end.

Definition pop_n (l : list T) (k : Z) : list T * list T := (zdrop k l, ztake k l).

Lemma pop_n_min (l : list T) k :
  0 <= k ->
  (let (l', vs) := pop_n l k in (l', zlen vs, vs)) =
  (zdrop (Z.min k (zlen l)) l, Z.min k (zlen l), ztake (Z.min k (zlen l)) l).
Proof.
  intros Hk. unfold pop_n. destruct (Z.le_ge_cases k (zlen l)) as [Hl|Hl].
  - rewrite Z.min_l by lia. by rewrite zlen_ztake by lia.
  - rewrite Z.min_r by lia. unfold zlen, ztake, zdrop in *.
    rewrite !take_ge, !drop_ge by lia. done.
Qed.
End fifo.
End Fifo.

(** ** Sequences of operations

    A process may push and pop through one handle, or use a producer's and a
    consumer's handle. *)
Inductive handles : Type :=
| One (q : ShmSpscQueue)
| Two (qp qc : ShmSpscQueue).

Definition prod_h (h : handles) : ShmSpscQueue := match h with One q => q | Two q _ => q end.
Definition cons_h (h : handles) : ShmSpscQueue := match h with One q => q | Two _ q => q end.
Definition set_prod (h : handles) (q : ShmSpscQueue) : handles :=
  match h with One _ => One q | Two _ qc => Two q qc end.
Definition set_cons (h : handles) (q : ShmSpscQueue) : handles :=
  match h with One _ => One q | Two qp _ => Two qp q end.

Section ops.
Context {T : Type} `{Platform} `{Elem T}.
Context (ndebug : bool).

(** The calls of a client, [OFront] also reading through the pointer it gets. *)
Inductive op : Type :=
| OTryPush (v : T)
| OPushN (src : list T) (k : Z)
| OTryPop
| OPopN (k : Z)
| OFront
| OSize
| OEmpty.

Inductive resp : Type :=
| RBool (b : bool)
| RCount (k : Z)
| RElem (v : option T)
| RBatch (k : Z) (vs : list T).

Definition do_op (h : handles) (o : op) : prog (evE T) (handles * resp) :=
  match o with
  | OTryPush v => let* (q, b) := try_push (prod_h h) v in Ret (set_prod h q, RBool b)
  | OPushN src k => let* (q, c) := push_n (prod_h h) src k in Ret (set_prod h q, RCount c)
  | OTryPop => let* (q, v) := try_pop ndebug (cons_h h) in Ret (set_cons h q, RElem v)
  | OPopN k => let* (q, c, vs) := pop_n (cons_h h) k in Ret (set_cons h q, RBatch c vs)
  | OFront =>
      let* (q, a) := front (cons_h h) in
      if a =? 0 then Ret (set_cons h q, RElem None) else
      let* v := slot_read a in Ret (set_cons h q, RElem (Some v))
  | OSize => let* k := size (cons_h h) in Ret (h, RCount k)
  | OEmpty => let* b := empty (cons_h h) in Ret (h, RBool b)
  end.

Fixpoint do_ops (h : handles) (os : list op) : prog (evE T) (handles * list resp) :=
  match os with
  | [] => Ret (h, [])
  | o :: os' =>
      let* (h1, r) := do_op h o in
      let* (h2, rs) := do_ops h1 os' in
      Ret (h2, r :: rs)
  end.

(** The same calls on the bounded FIFO. *)
Definition spec_op (cap : Z) (l : list T) (o : op) : list T * resp :=
  match o with
  | OTryPush v => let (l', b) := Fifo.push cap l v in (l', RBool b)
  | OPushN src k => let (l', c) := Fifo.push_n cap l src k in (l', RCount c)
  | OTryPop => let (l', v) := Fifo.pop l in (l', RElem v)
  | OPopN k => let (l', vs) := Fifo.pop_n l k in (l', RBatch (zlen vs) vs)
  | OFront => (l, RElem (head l))
  | OSize => (l, RCount (zlen l))
  | OEmpty => (l, RBool (zlen l =? 0))
  end.

Fixpoint spec_ops (cap : Z) (l : list T) (os : list op) : list T * list resp :=
  match os with
  | [] => (l, [])
  | o :: os' =>
      let (l1, r) := spec_op cap l o in
      let (l2, rs) := spec_ops cap l1 os' in
      (l2, r :: rs)
  end.

(** The buffer a batch call points to holds at least the elements it asks for. *)
Definition op_ok (o : op) : Prop :=
  match o with
  | OPushN src k => 0 <= k <= zlen src
  | OPopN k => 0 <= k
  | _ => True
  end.
End ops.
Arguments op T : clear implicits.
Arguments resp T : clear implicits.

(** ** The ring refines the bounded FIFO *)
Section refinement.
Context {T : Type} `{Platform} `{Elem T} `{!PlatformOk _} `{!ElemOk T}.
Context (ndebug : bool).

(** The handles are attached to the segment of the world. *)
Definition usable (h : handles) (w : world T) : Prop :=
  exists p c, ring w p c /\ prod_ok (prod_h h) w p c /\ cons_ok (cons_h h) w p c.

Lemma prod_ok_wcache q w p c r : prod_ok (T := T) q w p c -> prod_ok (set_writeIdxCache q r) w p c.
Proof. intros [[] Hx]. by split; [constructor|]. Qed.

Lemma cons_ok_rcache q w p c r : cons_ok (T := T) q w p c -> cons_ok (set_readIdxCache q r) w p c.
Proof. intros [[] Hx]. by split; [constructor|]. Qed.

Lemma usable_published h w p c vs q' :
  ring w p c -> cons_ok (cons_h h) w p c -> published (prod_h h) w p c vs q' ->
  usable (set_prod h q') (pushed w p vs).
Proof.
  intros Hr Hc ([r Hq] & Hroom & Hp). exists (p + zlen vs), c.
  split; [by apply ring_pushed|]. destruct h as [q|qp qc]; simpl in *; (split; [done|]).
  - subst q'. by apply cons_ok_rcache, cons_ok_pushed.
  - by apply cons_ok_pushed.
Qed.

Lemma usable_consumed h w p c k q' :
  ring w p c -> prod_ok (prod_h h) w p c -> consumed (cons_h h) w p c k q' ->
  usable (set_cons h q') (popped w c k).
Proof.
  intros Hr Hp ([r Hq] & Hk & Hc). exists p, (c + k).
  split; [by apply ring_popped|]. destruct h as [q|qp qc]; simpl in *; (split; [|done]).
  - subst q'. apply prod_ok_wcache, prod_ok_popped; [lia|done].
  - apply prod_ok_popped; [lia|done].
Qed.

(** How many elements the ring of the world takes: [capacity()]. *)
Definition room_of (w : world T) : Z := zlen (slots (w_shm w)) - 1.

(** The call [o] runs to completion, leaves the handles usable, and its answer and
    effect are those of the bounded FIFO. *)
Definition op_refines (h : handles) (w : world T) (o : op T) : Prop :=
  exists h' r w', run alone (do_op ndebug h o) w = Some ((h', r), w') /\ usable h' w' /\
    room_of w' = room_of w /\
    spec_op (room_of w) (contents (w_shm w)) o = (contents (w_shm w'), r).

Lemma try_push_refines h w v : usable h w -> op_refines h w (OTryPush v).
Proof.
  intros (p & c & Hr & Hp & Hc). pose proof (zlen_contents _ _ _ Hr) as Hz.
  unfold op_refines. cbn [do_op spec_op].
  destruct (run_try_push _ _ _ _ v Hr Hp) as (q' & Hrun & Hpub).
  rewrite (run_bind_Some _ _ _ _ _ _ Hrun). do 3 eexists. split; [done|].
  split; [by apply (usable_published _ _ _ c)|]. unfold room_of. rewrite zlen_pushed. split; [done|].
  destruct Hpub as (_ & Hroom & _). rewrite (contents_pushed _ _ _ _ Hr Hroom).
  unfold Fifo.push. rewrite Hz. by destruct (_ <? _); rewrite ?app_nil_r.
Qed.

Lemma push_n_refines h w src k : usable h w -> 0 <= k <= zlen src -> op_refines h w (OPushN src k).
Proof.
  intros (p & c & Hr & Hp & Hc) Ho. pose proof (zlen_contents _ _ _ Hr) as Hz.
  unfold op_refines. cbn [do_op spec_op].
  destruct (run_push_n _ _ _ _ src k Hr Hp Ho) as (q' & Hrun & Hpub).
  rewrite (run_bind_Some _ _ _ _ _ _ Hrun). do 3 eexists. split; [done|].
  split; [by apply (usable_published _ _ _ c)|]. unfold room_of. rewrite zlen_pushed. split; [done|].
  destruct Hpub as (_ & Hroom & _). rewrite (contents_pushed _ _ _ _ Hr Hroom).
  unfold Fifo.push_n. by rewrite Hz.
Qed.

Lemma try_pop_refines h w : usable h w -> op_refines h w OTryPop.
Proof.
  intros (p & c & Hr & Hp & Hc). pose proof (zlen_contents _ _ _ Hr) as Hz.
  unfold op_refines. cbn [do_op spec_op].
  destruct (run_try_pop ndebug _ _ _ _ Hr Hc) as (q' & k & Hrun & Hk & Hcon).
  rewrite (run_bind_Some _ _ _ _ _ _ Hrun). do 3 eexists. split; [done|].
  split; [by apply (usable_consumed _ _ p)|]. split; [done|].
  pose proof Hcon as (_ & Hkb & _). rewrite (contents_popped _ _ _ _ Hr Hkb).
  destruct (contents (w_shm w)) as [|v l].
  - by destruct (Z.to_nat k) eqn:Hk0; unfold zdrop; rewrite Hk0.
  - rewrite zlen_cons in Hz. pose proof (zlen_nonneg l).
    rewrite (proj2 (Z.eqb_neq p c)) in Hk by lia. by subst k.
Qed.

Lemma pop_n_refines h w k : usable h w -> 0 <= k -> op_refines h w (OPopN k).
Proof.
  intros (p & c & Hr & Hp & Hc) Ho. pose proof (zlen_contents _ _ _ Hr) as Hz.
  unfold op_refines. cbn [do_op spec_op].
  destruct (run_pop_n _ _ _ _ k Hr Hc Ho) as (q' & Hrun & Hcon).
  rewrite (run_bind_Some _ _ _ _ _ _ Hrun). do 3 eexists. split; [done|].
  split; [by apply (usable_consumed _ _ p)|]. split; [done|].
  pose proof Hcon as (_ & Hkb & _). rewrite (contents_popped _ _ _ _ Hr Hkb).
  pose proof (Fifo.pop_n_min (contents (w_shm w)) k Ho) as Hmin. rewrite Hz in Hmin.
  destruct (Fifo.pop_n _ _) as [l' vs]. by injection Hmin as -> -> ->.
Qed.

Lemma front_refines h w : usable h w -> op_refines h w OFront.
Proof.
  intros (p & c & Hr & Hp & Hc). pose proof (zlen_contents _ _ _ Hr) as Hz.
  unfold op_refines. cbn [do_op spec_op].
  destruct (run_front _ _ _ _ Hr Hc) as (q' & wc & Hf & He & Hm & Hwc & Hle & _).
  rewrite (run_bind_Some _ _ _ _ _ _ Hf).
  assert (usable (set_cons h q') w) as Hu.
  { rewrite <- (popped_0 _ _ _ Hr). apply (usable_consumed _ _ p); [done|done|].
    apply (consumed_upto _ _ _ _ _ _ wc); try done; lia. }
  destruct (Z.eqb_spec p c) as [->|ne].
  - do 3 eexists. split; [done|]. split; [done|]. split; [done|].
    by destruct (contents (w_shm w)) as [|v l]; [|rewrite zlen_cons in Hz; pose proof (zlen_nonneg l); lia].
  - pose proof (mod_range _ (ring_pos _ (r_size _ _ _ Hr)) c).
    pose proof (slot_addr_pos (cons_h h) w (c mod zlen (slots (w_shm w))) (proj1 Hc)
      (r_base _ _ _ Hr) ltac:(lia)).
    rewrite (proj2 (Z.eqb_neq _ 0)) by lia.
    destruct (run_slot_read (cons_h h) w p c Hr (proj1 Hc) ltac:(lia)) as (v & Hv & Hco).
    rewrite (run_bind_Some _ _ _ _ _ _ Hv). do 3 eexists. split; [done|]. split; [done|].
    split; [done|]. rewrite Hco. done.
Qed.

Lemma do_op_refines h w o : usable h w -> op_ok o -> op_refines h w o.
Proof.
  intros Hu Ho. destruct o as [v|src k| |k| | |]; simpl in Ho;
    auto using try_push_refines, push_n_refines, try_pop_refines, pop_n_refines, front_refines;
    destruct Hu as (p & c & Hr & Hp & Hc); pose proof (zlen_contents _ _ _ Hr) as Hz;
    unfold op_refines; cbn [do_op spec_op].
  - rewrite (run_bind_Some _ _ _ _ _ _ (run_size _ _ _ _ Hr (proj1 Hc))).
    do 3 eexists. split; [done|]. rewrite Hz. split; [by exists p, c|done].
  - rewrite (run_bind_Some _ _ _ _ _ _ (run_empty _ _ _ _ Hr (proj1 Hc))).
    do 3 eexists. split; [done|]. split; [by exists p, c|]. split; [done|]. rewrite Hz.
    do 2 f_equal. apply eq_true_iff_eq. rewrite !Z.eqb_eq. lia.
Qed.

Lemma usable_capacity h w : usable h w -> capacity_of (prod_h h) = room_of w.
Proof.
  intros (p & c & Hr & [Hm _] & _). unfold capacity_of, room_of. rewrite (m_cap _ _ Hm).
  pose proof (ring_fits _ (r_size _ _ _ Hr)). pose proof (ring_pos _ (r_size _ _ _ Hr)).
  apply u64_small. lia.
Qed.

(** C3: every sequence of calls a client makes on an attached queue, through one
    handle or through a producer's and a consumer's, runs to completion without
    touching memory outside the slots, and gives exactly the answers, and leaves
    exactly the contents, of the same calls on a bounded FIFO of [capacity()]
    elements: a push is refused only when the FIFO is full, a pop only when it is
    empty, a batch moves as many elements as fit. *)
Theorem queue_refines_fifo h w os :
  usable h w -> Forall op_ok os ->
  exists h' rs w', run alone (do_ops ndebug h os) w = Some ((h', rs), w') /\ usable h' w' /\
    spec_ops (capacity_of (prod_h h)) (contents (w_shm w)) os = (contents (w_shm w'), rs).
Proof.
  intros Hu Hos. rewrite (usable_capacity _ _ Hu). revert h w Hu. induction Hos as [|o os Ho _ IH]; intros h w Hu.
  { by exists h, [], w. }
  destruct (do_op_refines h w o Hu Ho) as (h1 & r & w1 & Hrun & Hu1 & Hcap & Hspec).
  destruct (IH h1 w1 Hu1) as (h2 & rs & w2 & Hrun2 & Hu2 & Hspec2).
  exists h2, (r :: rs), w2. cbn [do_ops spec_ops].
  rewrite (run_bind_Some _ _ _ _ _ _ Hrun), (run_bind_Some _ _ _ _ _ _ Hrun2).
  split; [done|]. split; [done|]. rewrite Hspec, <- Hcap, Hspec2. done.
Qed.

(** *** A batch against its elements one by one *)
Fixpoint push_singles (q : ShmSpscQueue) (src : list T) : prog (evE T) (ShmSpscQueue * Z) :=
  match src with
  | [] => Ret (q, 0)
  | v :: src' =>
      let* (q', b) := try_push q v in
      if (b : bool) then let* (q'', k) := push_singles q' src' in Ret (q'', k + 1)
      else Ret (q', 0)
  end.

Fixpoint pop_singles (q : ShmSpscQueue) (k : nat) : prog (evE T) (ShmSpscQueue * list T) :=
  match k with
  | O => Ret (q, [])
  | S k' =>
      let* (q', v) := try_pop ndebug q in
      match v with
      | Some x => let* (q'', xs) := pop_singles q' k' in Ret (q'', x :: xs)
      | None => Ret (q', [])
      end
  end.

Lemma pushed_pushed w p vs1 vs2 :
  pushed (T := T) (pushed w p vs1) (p + zlen vs1) vs2 = pushed w p (vs1 ++ vs2).
Proof.
  unfold pushed. cbn [upd_shm w_shm slots cb]. rewrite zlen_ring_put, ring_put_app, zlen_app.
  rewrite Z.add_assoc. done.
Qed.

Lemma popped_popped w c i j : popped (T := T) (popped w c i) (c + i) j = popped w c (i + j).
Proof. unfold popped. cbn [upd_cb upd_shm w_shm slots cb]. rewrite Z.add_assoc. done. Qed.

Lemma run_push_singles q w p c src :
  ring w p c -> prod_ok q w p c ->
  let count := Z.min (zlen src) (zlen (slots (w_shm w)) - 1 - (p - c)) in
  exists q', run alone (push_singles q src) w = Some ((q', count), pushed w p (ztake count src)).
Proof.
  revert q w p. induction src as [|v src IH]; intros q w p Hr Hq count.
  { exists q. assert (count = 0) as -> by (unfold count; rewrite zlen_nil; destruct Hr; lia).
    change (ztake 0 (@nil T)) with (@nil T). by rewrite (pushed_nil _ _ _ Hr). }
  cbn [push_singles]. destruct (run_try_push q w p c v Hr Hq) as (q1 & Hrun & _ & Hroom & Hq1).
  rewrite (run_bind_Some _ _ _ _ _ _ Hrun). subst count. rewrite zlen_cons.
  pose proof (zlen_nonneg src). pose proof (ring_gap _ _ _ Hr). destruct (Z.ltb_spec (p - c) (zlen (slots (w_shm w)) - 1)).
  - destruct (IH q1 (pushed w p [v]) (p + 1)) as (q2 & Hrun2); [by apply (ring_pushed _ _ _ [v])|done|].
    rewrite zlen_pushed in Hrun2. rewrite (run_bind_Some _ _ _ _ _ _ Hrun2). exists q2.
    set (j := Z.min (zlen src) _).
    replace (Z.min (zlen src + 1) (zlen (slots (w_shm w)) - 1 - (p - c))) with (j + 1) by lia.
    change (p + 1) with (p + zlen [v]). rewrite pushed_pushed. cbn [run]. do 3 f_equal.
    unfold ztake. replace (Z.to_nat (j + 1)) with (S (Z.to_nat j)) by lia. done.
  - exists q1. replace (Z.min _ _) with 0 by lia. done.
Qed.

Lemma run_pop_singles q w p c k :
  ring w p c -> cons_ok q w p c ->
  exists q', run alone (pop_singles q k) w =
    Some ((q', ztake (Z.of_nat k) (contents (w_shm w))), popped w c (Z.min (Z.of_nat k) (p - c))).
Proof.
  revert q w c. induction k as [|k IH]; intros q w c Hr Hq.
  { exists q. replace (Z.min _ _) with 0 by (destruct Hr; lia). by rewrite (popped_0 _ _ _ Hr). }
  cbn [pop_singles]. destruct (run_try_pop ndebug q w p c Hr Hq) as (q1 & j & Hrun & -> & _ & Hj & Hq1).
  rewrite (run_bind_Some _ _ _ _ _ _ Hrun). pose proof (zlen_contents _ _ _ Hr) as Hz.
  destruct (Z.eqb_spec p c) as [->|ne].
  - assert (contents (w_shm w) = []) as ->.
    { destruct (contents (w_shm w)) as [|x l]; [done|]. rewrite zlen_cons in Hz.
      pose proof (zlen_nonneg l). lia. }
    exists q1. replace (Z.min _ _) with 0 by lia. unfold ztake. by rewrite take_nil.
  - destruct (IH q1 (popped w c 1) (c + 1)) as (q2 & Hrun2); [by apply ring_popped|done|].
    rewrite popped_popped, (contents_popped _ _ _ _ Hr Hj) in Hrun2. pose proof (ring_gap _ _ _ Hr).
    destruct (contents (w_shm w)) as [|x l]; [rewrite zlen_nil in Hz; lia|]. cbn [head].
    rewrite (run_bind_Some _ _ _ _ _ _ Hrun2). exists q2. cbn [run]. do 3 f_equal; [|lia].
    unfold ztake. replace (Z.to_nat (Z.of_nat (S k))) with (S (Z.to_nat (Z.of_nat k))) by lia. done.
Qed.

(** C15: [push_n] of [k] elements and the loop that pushes them one at a time until
    one is refused report the same count and leave the segment identical, every
    slot and index included; and so do [pop_n] and the loop of single pops, which
    also deliver the same elements.  This covers batches that straddle the end of
    the array and batches larger than the free space or the contents. *)
Theorem batch_equals_singles h w src k :
  usable h w -> 0 <= k ->
  (exists q1 q2 count w',
     run alone (push_n (prod_h h) src (zlen src)) w = Some ((q1, count), w') /\
     run alone (push_singles (prod_h h) src) w = Some ((q2, count), w')) /\
  (exists q1 q2 dst w',
     run alone (pop_n (cons_h h) k) w = Some ((q1, zlen dst, dst), w') /\
     run alone (pop_singles (cons_h h) (Z.to_nat k)) w = Some ((q2, dst), w')).
Proof.
  intros (p & c & Hr & Hp & Hc) Hk. pose proof (zlen_nonneg src). split.
  - destruct (run_push_n _ _ _ _ src (zlen src) Hr Hp ltac:(lia)) as (q1 & Hb & _).
    destruct (run_push_singles _ _ _ _ src Hr Hp) as (q2 & Hs). eauto 10.
  - destruct (run_pop_n _ _ _ _ k Hr Hc Hk) as (q1 & Hb & _).
    destruct (run_pop_singles _ _ _ _ (Z.to_nat k) Hr Hc) as (q2 & Hs).
    pose proof (Fifo.pop_n_min (contents (w_shm w)) k Hk) as Hmin.
    rewrite (zlen_contents _ _ _ Hr) in Hmin. unfold Fifo.pop_n in Hmin.
    injection Hmin as _ Hlen Hdst. rewrite Z2Nat.id in Hs by lia.
    exists q1, q2, (ztake k (contents (w_shm w))). rewrite Hlen. rewrite <- Hdst in Hb. eauto.
Qed.
(** C35: [pop()] on an empty queue.  A debug build stops at the assertion; a build
    with [NDEBUG] moves the read index past the write index, after which [size()]
    reports a full queue of elements that were never pushed. *)
Theorem pop_on_empty_corrupts h w :
  usable h w -> contents (w_shm w) = [] ->
  run alone (pop_front false (cons_h h)) w = None /\
  exists w', run alone (pop_front true (cons_h h)) w = Some (tt, w') /\
    run alone (size (cons_h h)) w' = Some (capacity_of (cons_h h), w').
Proof.
  intros (p & c & Hr & Hp & [Hm _]) Hl. pose proof (zlen_contents _ _ _ Hr) as Hz.
  rewrite Hl, zlen_nil in Hz. assert (c = p) as -> by lia.
  pose proof (r_size _ _ _ Hr) as Hsz. pose proof (ring_pos _ Hsz). pose proof (ring_fits _ Hsz).
  unfold pop_front. rewrite !run_load by done. cbn [get_a]. rewrite (r_read _ _ _ Hr).
  rewrite (next_count _ Hsz (cons_h h) (m_cap _ _ Hm)). split.
  { rewrite run_bind, run_load by done. cbn [get_a]. by rewrite (r_write _ _ _ Hr), Z.eqb_refl. }
  exists (popped w p 1). split; [simpl; by rewrite (m_ctrl _ _ Hm), Z.eqb_refl|].
  set (n := zlen (slots (w_shm w))) in *.
  unfold size. rewrite !run_load by (by apply mapped_popped).
  change (get_a (cb (w_shm (popped w p 1))) readIdx) with ((p + 1) mod n).
  change (get_a (cb (w_shm (popped w p 1))) writeIdx) with (cb_writeIdx (cb (w_shm w))).
  rewrite (r_write _ _ _ Hr). fold n.
  unfold capacity_of. rewrite (m_cap _ _ Hm). fold n. cbn [run]. do 2 f_equal.
  replace (p mod n) with ((p + n) mod n) by (by rewrite <- (Z.mod_add p 1 n), Z.mul_1_l by lia).
  rewrite (usedSlots_count n Hsz _ (m_cap _ _ Hm)) by lia. rewrite u64_small by lia. lia.
Qed.
End refinement.

(** ** A concrete queue *)
Module Sample.
#[local] Existing Instance x86_64.
#[local] Existing Instance elem_u64.
#[local] Existing Instance x86_64_ok.
#[local] Existing Instance elem_u64_ok.

(** A ring of 5 slots that has wrapped: six elements were pushed, three popped, and
    14, 15, 16 are inside, across the end of the array.  Processes 7 and 8 are
    attached, and only 7 is alive. *)
Definition wrapped : ControlBlock := MkCB 0 5 0 1 64 8 8 256 7 8 1 1 3.
Definition kill78 (pid sig : Z) : Z * Z := if pid =? 7 then (0, 0) else (-1, ESRCH).
Definition world5 : world Z := MkWorld (MkShm wrapped [16; 12; 13; 14; 15]) 4096 kill78 7 0 0.

(** One handle with stale caches, used for both directions. *)
Definition handle5 : ShmSpscQueue := MkQueue ShmSegment_default 4096 (4096 + 256) 5 Producer true 2 4.

Lemma size5 : ring_size 5.
Proof. split; lia. Defined.

Lemma usable5 : usable (One handle5) world5.
Proof.
  exists 6, 3. split; [by constructor|]. split; (split; [by constructor|]).
  - by exists 2.
  - by exists 4.
Defined.

Definition calls5 : list (op Z) :=
  [OTryPush 17; OTryPush 18; OFront; OPopN 3; OPushN [20; 21; 22; 23] 4; OSize; OTryPop; OPopN 9; OTryPop; OEmpty].

Lemma queue_refines_fifo_witness :
  exists h' rs w', run alone (do_ops false (One handle5) calls5) world5 = Some ((h', rs), w') /\
    usable h' w' /\ spec_ops 4 [14; 15; 16] calls5 = (contents (w_shm w'), rs).
Proof.
  apply (queue_refines_fifo false (One handle5) world5 calls5 usable5).
  repeat constructor; vm_compute; congruence.
Defined.

Example calls5_answers : snd (spec_ops 4 [14; 15; 16] calls5) =
  [RBool true; RBool false; RElem (Some 14); RBatch 3 [14; 15; 16]; RCount 3; RCount 4;
   RElem (Some 17); RBatch 3 [20; 21; 22]; RElem None; RBool true].
Proof. reflexivity. Qed.

Lemma batch_equals_singles_witness :
  (exists q1 q2 count w',
     run alone (push_n handle5 [17; 18; 19] 3) world5 = Some ((q1, count), w') /\
     run alone (push_singles handle5 [17; 18; 19]) world5 = Some ((q2, count), w')) /\
  (exists q1 q2 dst w',
     run alone (pop_n handle5 4) world5 = Some ((q1, zlen dst, dst), w') /\
     run alone (pop_singles false handle5 4) world5 = Some ((q2, dst), w')).
Proof. apply (batch_equals_singles false (One handle5) world5 [17; 18; 19] 4 usable5). lia. Defined.

(** An empty ring whose producer, process 8, is dead, and a consumer's handle. *)
Definition empty5 : world Z :=
  MkWorld (MkShm (MkCB 0 5 0 1 64 8 8 256 8 7 1 3 3) [16; 17; 13; 14; 15]) 4096 kill78 7 0 0.
Definition consumer5 : ShmSpscQueue := MkQueue ShmSegment_default 4096 (4096 + 256) 5 Consumer true 3 3.

Lemma usable_empty5 : usable (One consumer5) empty5.
Proof.
  exists 8, 8. split; [by constructor|]. split; (split; [by constructor|]).
  - by exists 8.
  - by exists 8.
Defined.

Lemma pop_on_empty_corrupts_witness :
  run alone (pop_front false consumer5) empty5 = None /\
  exists w', run alone (pop_front true consumer5) empty5 = Some (tt, w') /\
    run alone (size consumer5) w' = Some (4, w').
Proof. exact (pop_on_empty_corrupts _ empty5 usable_empty5 eq_refl). Defined.
End Sample.
