(* ===== verification/Blocking.v ===== *)
(** * Bounded and blocking operations

    The non-blocking operations are wait-free: the accesses they make are bounded
    whatever the peer does.  The blocking [push] spins; run against a consumer that
    does not move, it gives up after a known number of attempts exactly when the
    consumer is dead.  The lemmas about the probe and about [pop] on a drained queue
    are used for the blocking [pop] in Interference.v. *)

From S2P Require Import Prelude Prog Effects Layout Segment Queue Shm Ring Sequential Refinement.
#[local] Open Scope Z_scope.
#[local] Open Scope prog_scope.

(** ** Wait-freedom

    [within p n]: on every path, whatever the accesses answer, [p] performs at
    most [n] accesses.  This is the wait-freedom measure: it does not depend on
    the peer's progress. *)
Fixpoint within {E A} (p : prog E A) (n : nat) : Prop :=
  match p with
  | Ret _ => True
  | Vis e k => match n with O => False | S m => forall x, within (k x) m end
  end.

Lemma within_mono {E A} (p : prog E A) n m : (n <= m)%nat -> within p n -> within p m.
Proof.
  revert n m. induction p as [a|X e k IH]; intros [|n] [|m] Hle H; simpl in *; try done; [lia|].
  intros x. eapply IH; [|apply H]. lia.
Qed.

Lemma within_bind {E A B} (p : prog E A) (f : A -> prog E B) n m :
  within p n -> (forall a, within (f a) m) -> within (bind p f) (n + m).
Proof.
  revert n. induction p as [a|X e k IH]; intros n Hp Hf; simpl in *.
  - eapply within_mono; [|apply Hf]. lia.
  - destruct n as [|n]; [done|]. simpl. intros x. by apply IH.
Qed.

Section wait_free.
Context {T : Type} `{Platform} `{Elem T}.
Context (ndebug : bool).

Lemma within_memcpy_in a (src : list T) : within (memcpy_in a src) (length src).
Proof. revert a. induction src as [|v src IH]; intros a; simpl; auto. Qed.

Lemma within_memcpy_out a k : within (memcpy_out (T := T) a k) k.
Proof.
  revert a. induction k as [|k IH]; intros a; simpl; [done|]. intros x.
  eapply within_mono; [|apply (within_bind _ _ k 0); [apply IH|done]]. lia.
Qed.

Lemma within_act {X A} (e : evE T X) (k : X -> prog (evE T) A) m :
  (forall x, within (k x) m) -> within (bind (act e) k) (S m).
Proof. done. Qed.

Lemma within_Ret {A} (a : A) m : within (Ret (E := evE T) a) m.
Proof. by destruct m. Qed.

Lemma within_push_n q src k : 0 <= k -> within (push_n q src k) (length src + 3).
Proof.
  intros Hk. unfold push_n. case_Z; [apply within_Ret|].
  assert (forall q' w count nxt,
    let first := Z.min count (u64 (capacity_ q' - w)) in
    within (memcpy_in (slot_addr q' w) (ztake first src);;
      (if count >? first then memcpy_in (slot_addr q' 0) (ztake (count - first) (zdrop first src))
       else Ret tt);; store (ctrl_ q') writeIdx nxt release;; Ret (q', count)) (length src + 1)) as Hc.
  { intros q' w count nxt first.
    apply within_mono with (length (ztake first src) + (length (zdrop first src) + 1))%nat.
    { rewrite <- (ztake_zdrop first src) at 3. rewrite length_app. lia. }
    apply within_bind; [apply within_memcpy_in|]. intros _.
    apply within_bind; [|done]. destruct (count >? first); [|apply within_Ret].
    eapply within_mono; [|apply within_memcpy_in]. unfold ztake. rewrite length_take. lia. }
  replace (length src + 3)%nat with (S (S (length src + 1))) by lia.
  apply within_act. intros w. case_Z.
  - apply within_act. intros r. case_Z; [apply within_Ret|]. apply Hc.
  - eapply within_mono; [|apply Hc]. lia.
Qed.

Lemma within_pop_n q k : 0 <= k -> within (pop_n (T := T) q k) (Z.to_nat k + 3).
Proof.
  intros Hk. unfold pop_n. case_Z; [apply within_Ret|].
  assert (forall q' r avail nxt,
    let count := Z.min k avail in
    let first := Z.min count (u64 (capacity_ q' - r)) in
    within (let* d1 := memcpy_out (slot_addr (T := T) q' r) (Z.to_nat first) in
      let* d2 := (if count >? first then memcpy_out (slot_addr (T := T) q' 0) (Z.to_nat (count - first))
                  else Ret []) in
      store (ctrl_ q') readIdx nxt release;; Ret (q', count, d1 ++ d2)) (Z.to_nat k + 1)) as Hc.
  { intros q' r avail nxt count first.
    apply within_mono with (Z.to_nat first + (Z.to_nat (Z.max 0 (count - Z.max 0 first)) + 1))%nat; [lia|].
    apply within_bind; [apply within_memcpy_out|]. intros d1.
    apply within_bind; [|done]. rewrite Z.gtb_ltb. case_Z; [|apply within_Ret].
    eapply within_mono; [|apply within_memcpy_out].
    unfold first in *. pose proof (u64_range (capacity_ q' - r)). lia. }
  replace (Z.to_nat k + 3)%nat with (S (S (Z.to_nat k + 1))) by lia.
  apply within_act. intros r. case_Z.
  - apply within_act. intros w. case_Z; [apply within_Ret|]. apply Hc.
  - eapply within_mono; [|apply Hc]. lia.
Qed.

Lemma within_front q : within (front (T := T) q) 2.
Proof.
  unfold front. apply within_act. intros r. case_Z; [|done]. apply within_act. intros w. by case_Z.
Qed.

(** C19: the non-blocking operations are wait-free.  Whatever values the shared
    accesses return, that is whatever the peer does or fails to do, [try_push]
    makes at most 4 accesses, [front] 2, [try_pop] 7, [size] and [empty] 2, and a
    batch at most one per element plus 3. *)
Theorem operations_wait_free q (v : T) src k :
  0 <= k ->
  within (try_push q v) 4 /\ within (push_n q src k) (length src + 3) /\
  within (front (T := T) q) 2 /\ within (try_pop (T := T) ndebug q) 7 /\
  within (pop_n (T := T) q k) (Z.to_nat k + 3) /\
  within (size (T := T) q) 2 /\ within (empty (T := T) q) 2.
Proof.
  intros Hk. split.
  { unfold try_push. apply within_act. intros w. case_Z; [|done]. apply within_act. intros r.
    case_Z; [done|]. done. }
  split; [by apply within_push_n|]. split; [apply within_front|]. split.
  { unfold try_pop. apply (within_bind _ _ 2 5); [apply within_front|].
    intros [q' a]. case_Z; [done|]. apply within_act. intros x. unfold pop_front.
    apply within_act. intros r. destruct ndebug; [done|]. apply within_act. intros w.
    by case_Z. }
  split; [by apply within_pop_n|done].
Qed.
End wait_free.

(** ** The blocking operations against a peer that does not move *)
Section blocking.
Context {T : Type} `{Platform} `{Elem T} `{!PlatformOk _} `{!ElemOk T}.
Context (ndebug : bool).

(** The peer's registered pid, and what the liveness probe concludes from it:
    nobody yet counts as alive, a clean detach ([-1]) and a pid that [kill] does
    not find ([ESRCH]) as dead, a pid that merely may not be signalled as alive. *)
Definition peer_pid (q : ShmSpscQueue) (w : world T) : Z :=
  get_a (cb (w_shm w)) (peer_slot (role_ q)).

Definition pid_alive (kill : Z -> Z -> Z * Z) (pid : Z) : bool :=
  (0 <? pid) && ((fst (kill pid 0) =? 0) || negb (snd (kill pid 0) =? ESRCH)).

Definition peer_seen_alive (q : ShmSpscQueue) (w : world T) : bool :=
  (peer_pid q w =? 0) || pid_alive (w_kill w) (peer_pid q w).

Lemma run_processAlive pid (w : world T) :
  run alone (processAlive pid) w = Some (pid_alive (w_kill w) pid, w).
Proof.
  unfold processAlive, pid_alive. case_Z.
  - by rewrite (proj2 (Z.ltb_ge 0 pid)) by lia.
  - rewrite (proj2 (Z.ltb_lt 0 pid)) by lia. simpl. destruct (w_kill w pid 0) as [rc e]. simpl.
    by destruct (rc =? 0).
Qed.

Lemma run_peerAlive q (w : world T) :
  mapped q w -> run alone (peerAlive q) w = Some (peer_seen_alive q w, w).
Proof.
  intros Hm. unfold peerAlive, peer_seen_alive. rewrite run_load by done.
  change (get_a _ _) with (peer_pid q w). case_Z; [done|]. by rewrite run_processAlive.
Qed.

(** On a full ring an attempt changes nothing but the cache. *)
Lemma run_try_push_full q w p c v :
  ring w p c -> prod_ok q w p c -> p - c = zlen (slots (w_shm w)) - 1 ->
  exists q', run alone (try_push q v) w = Some ((q', false), w) /\ prod_ok q' w p c /\
    role_ q' = role_ q.
Proof.
  intros Hr Hq Hf. destruct (run_try_push q w p c v Hr Hq) as (q' & Hrun & [r ->] & _ & Hq').
  rewrite (proj2 (Z.ltb_ge (p - c) _)) in Hrun, Hq' by lia.
  rewrite (pushed_nil _ _ _ Hr) in Hrun, Hq'. rewrite zlen_nil, Z.add_0_r in Hq'. eauto.
Qed.

Lemma run_try_pop_empty q w p :
  ring w p p -> cons_ok q w p p ->
  exists q', run alone (try_pop ndebug q) w = Some ((q', None), w) /\ cons_ok q' w p p /\
    role_ q' = role_ q.
Proof.
  intros Hr Hq. destruct (run_try_pop ndebug q w p p Hr Hq) as (q' & k & Hrun & Hk & [r ->] & _ & Hq').
  rewrite Z.eqb_refl in Hk. subst k. rewrite (popped_0 _ _ _ Hr) in Hrun, Hq'.
  rewrite Z.add_0_r in Hq'. pose proof (zlen_contents _ _ _ Hr) as Hz.
  destruct (contents (w_shm w)) as [|v l]; [by eauto|].
  rewrite zlen_cons in Hz. pose proof (zlen_nonneg l). lia.
Qed.

Lemma push_loop_dead d q w p c v s spins fuel :
  ring w p c -> prod_ok q w p c -> p - c = zlen (slots (w_shm w)) - 1 ->
  peer_seen_alive q w = false -> 0 <= spins < W32 -> 0 <= s < W32 -> s - spins <= Z.of_nat d ->
  (d < fuel)%nat ->
  exists q', run alone (push_loop fuel q v s spins) w = Some ((q', Some false), w).
Proof.
  intros Hr Hq Hf Hd. revert q spins fuel Hq Hd.
  induction d as [|d IH]; intros q spins [|fuel] Hq Hdead Hsp Hs Hds Hfuel; try lia;
    destruct (run_try_push_full q w p c v Hr Hq Hf) as (q' & Hrun & Hq' & Hrole);
    cbn [push_loop]; rewrite (run_bind_Some _ _ _ _ _ _ Hrun), Z.geb_leb;
    destruct (Z.leb_spec s spins); try lia.
  1,2: rewrite (run_bind_Some _ _ _ _ _ _ (run_peerAlive q' w (proj1 Hq')));
    unfold peer_seen_alive, peer_pid in *; rewrite Hrole, Hdead; by eexists.
  rewrite u32_small by lia. apply IH; try lia; [done|].
  unfold peer_seen_alive, peer_pid in *. by rewrite Hrole.
Qed.

Lemma pop_loop_dead d q w p s spins fuel :
  ring w p p -> cons_ok q w p p ->
  peer_seen_alive q w = false -> 0 <= spins < W32 -> 0 <= s < W32 -> s - spins <= Z.of_nat d ->
  (d < fuel)%nat ->
  exists q', run alone (pop_loop ndebug fuel q s spins) w = Some ((q', Some None), w).
Proof.
  intros Hr Hq Hd. revert q spins fuel Hq Hd.
  induction d as [|d IH]; intros q spins [|fuel] Hq Hdead Hsp Hs Hds Hfuel; try lia;
    destruct (run_try_pop_empty q w p Hr Hq) as (q' & Hrun & Hq' & Hrole);
    cbn [pop_loop]; rewrite (run_bind_Some _ _ _ _ _ _ Hrun), Z.geb_leb;
    destruct (Z.leb_spec s spins); try lia.
  1,2: rewrite (run_bind_Some _ _ _ _ _ _ (run_peerAlive q' w (proj1 Hq')));
    unfold peer_seen_alive, peer_pid in *; rewrite Hrole, Hdead; cbn [negb];
    rewrite (run_bind_Some _ _ _ _ _ _ (run_empty q' w p p Hr (proj1 Hq'))), Z.eqb_refl; by eexists.
  rewrite u32_small by lia. apply IH; try lia; [done|].
  unfold peer_seen_alive, peer_pid in *. by rewrite Hrole.
Qed.

(** Yielding the processor is not seen by the ring. *)
Lemma ring_os (w : world T) p c ck ys : ring w p c -> ring (upd_os w ck ys) p c.
Proof. intros []. by constructor. Qed.

Lemma mapped_os q (w : world T) ck ys : mapped q w -> mapped q (upd_os w ck ys).
Proof. intros []. by constructor. Qed.

Lemma prod_ok_os q (w : world T) p c ck ys : prod_ok q w p c -> prod_ok q (upd_os w ck ys) p c.
Proof. intros [Hm Hx]. split; [by apply mapped_os|done]. Qed.

Lemma cons_ok_os q (w : world T) p c ck ys : cons_ok q w p c -> cons_ok q (upd_os w ck ys) p c.
Proof. intros [Hm Hx]. split; [by apply mapped_os|done]. Qed.

Lemma push_loop_alive fuel q w p c v s spins :
  ring w p c -> prod_ok q w p c -> p - c = zlen (slots (w_shm w)) - 1 ->
  peer_seen_alive q w = true ->
  exists q' w', run alone (push_loop fuel q v s spins) w = Some ((q', None), w') /\ w_shm w' = w_shm w.
Proof.
  revert q w spins. induction fuel as [|fuel IH]; intros q w spins Hr Hq Hf Ha; [by eexists _, _|].
  destruct (run_try_push_full q w p c v Hr Hq Hf) as (q' & Hrun & Hq' & Hrole).
  assert (peer_seen_alive q' w = true) as Ha'.
  { unfold peer_seen_alive, peer_pid in *. by rewrite Hrole. }
  cbn [push_loop]. rewrite (run_bind_Some _ _ _ _ _ _ Hrun). destruct (spins >=? s); [|by apply IH].
  rewrite (run_bind_Some _ _ _ _ _ _ (run_peerAlive q' w (proj1 Hq'))), Ha'. cbn [negb].
  edestruct (IH q' (upd_os w (w_clock w) (w_yields w + 1))) as (q2 & w2 & Hrun2 & Hw2);
    [by apply ring_os|by apply prod_ok_os|done|exact Ha'|]. exists q2, w2. split; [exact Hrun2|done].
Qed.

(** C20: the blocking [push] against a consumer that does not move.  With room it
    pushes at the first attempt; on a full queue whose consumer is dead it returns
    false, having changed nothing, after at most [peerCheckSpins + 1] attempts; on
    a full queue whose consumer looks alive it keeps spinning and never writes. *)
Theorem blocking_push_outcome h w v s :
  usable h w -> 0 <= s < W32 ->
  let q := prod_h h in
  (zlen (contents (w_shm w)) < capacity_of q -> forall fuel, exists q' w',
     run alone (push (S fuel) q v s) w = Some ((q', Some true), w') /\
     contents (w_shm w') = contents (w_shm w) ++ [v]) /\
  (zlen (contents (w_shm w)) = capacity_of q -> peer_seen_alive q w = false ->
     forall fuel, s < Z.of_nat fuel -> exists q',
     run alone (push fuel q v s) w = Some ((q', Some false), w)) /\
  (zlen (contents (w_shm w)) = capacity_of q -> peer_seen_alive q w = true ->
     forall fuel, exists q' w',
     run alone (push fuel q v s) w = Some ((q', None), w') /\ w_shm w' = w_shm w).
Proof.
  intros Hu Hs q. pose proof (usable_capacity _ _ Hu) as Hcap. unfold q. rewrite Hcap. unfold room_of.
  destruct Hu as (p & c & Hr & Hp & Hc). rewrite (zlen_contents _ _ _ Hr).
  split; [|split].
  - intros Hlt fuel. destruct (run_try_push (prod_h h) w p c v Hr Hp) as (q' & Hrun & _ & Hroom & _).
    rewrite (proj2 (Z.ltb_lt (p - c) _)) in Hrun, Hroom by lia. unfold push. cbn [push_loop].
    rewrite (run_bind_Some _ _ _ _ _ _ Hrun). do 2 eexists. split; [done|].
    by apply (contents_pushed _ _ c).
  - intros Hf Hd fuel Hfuel. apply (push_loop_dead (Z.to_nat s) _ _ p c); try done; lia.
  - intros Hf Ha fuel. by apply (push_loop_alive fuel _ _ p c).
Qed.

End blocking.

(** ** Concrete queues *)
Module BlockingSample.
Import Sample.
#[local] Existing Instance x86_64.
#[local] Existing Instance elem_u64.
#[local] Existing Instance x86_64_ok.
#[local] Existing Instance elem_u64_ok.

Lemma operations_wait_free_witness :
  within (try_push handle5 17) 4 /\ within (push_n handle5 [17; 18] 2) 5 /\
  within (front (T := Z) handle5) 2 /\ within (try_pop (T := Z) false handle5) 7 /\ within (pop_n (T := Z) handle5 3) 6 /\
  within (size (T := Z) handle5) 2 /\ within (empty (T := Z) handle5) 2.
Proof.
  destruct (operations_wait_free false handle5 17 [17; 18] 2 ltac:(lia)) as (? & ? & _).
  destruct (operations_wait_free false handle5 17 [17; 18] 3 ltac:(lia)) as (_ & _ & ?). done.
Defined.

(** A full ring whose consumer, process 8, is dead. *)
Definition full5 : world Z :=
  MkWorld (MkShm (MkCB 0 5 0 1 64 8 8 256 7 8 1 2 3) [16; 17; 13; 14; 15]) 4096 kill78 7 0 0.
Definition producer5 : ShmSpscQueue := set_readIdxCache handle5 3.

Lemma usable_full5 : usable (One producer5) full5.
Proof.
  exists 7, 3. split; [by constructor|]. split; (split; [by constructor|]).
  - exists 3. done.
  - by exists 4.
Defined.

Lemma blocking_push_outcome_witness :
  exists q', run alone (push 4 producer5 18 3) full5 = Some ((q', Some false), full5).
Proof.
  apply (blocking_push_outcome _ full5 18 3 usable_full5); [word_lia|reflexivity|reflexivity|lia].
Defined.
End BlockingSample.
