(* ===== verification/Interference.v ===== *)
(** * The blocking pop next to a running producer

    [pop] makes its accesses one at a time while the producer may push, detach or
    crash in between.  [amid] runs a program under such interference: before every
    access the environment makes any number of its steps.  Loads read the latest value
    here; what release/acquire loads add to that is the subject of Caveats.v. *)

From S2P Require Import Prelude Prog Effects Layout Segment Queue Shm Ring Sequential Refinement Blocking.
#[local] Open Scope Z_scope.
#[local] Open Scope prog_scope.

(** ** Programs under interference *)
Section amid.
Context {E : Type -> Type} {W : Type} (h : handler E W) (R : W -> W -> Prop).

(** Whatever the environment does before each access, the access is defined and the
    program ends in a result and a world that satisfy [Q]. *)
Fixpoint amid {A} (p : prog E A) (w : W) (Q : A -> W -> Prop) : Prop :=
  match p with
  | Ret a => Q a w
  | Vis e k => forall w', rtc R w w' -> exists x w'', h _ e w' = Some (x, w'') /\ amid (k x) w'' Q
  end.

Lemma amid_bind {A B} (p : prog E A) (f : A -> prog E B) w Q :
  amid p w (fun a w' => amid (f a) w' Q) -> amid (bind p f) w Q.
Proof.
  revert w. induction p as [a|X e k IH]; intros w Hp; simpl in *; [done|].
  intros w' Hw. destruct (Hp w' Hw) as (x & w'' & Hx & Hk). eauto.
Qed.

Lemma amid_mono {A} (p : prog E A) w (Q Q' : A -> W -> Prop) :
  amid p w Q -> (forall a w', Q a w' -> Q' a w') -> amid p w Q'.
Proof.
  revert w. induction p as [a|X e k IH]; intros w Hp HQ; simpl in *; [auto|].
  intros w' Hw. destruct (Hp w' Hw) as (x & w'' & Hx & Hk). eauto.
Qed.
End amid.

Section interference.
Context {T : Type} `{Platform} `{Elem T} `{!PlatformOk _} `{!ElemOk T}.
Context (ndebug : bool).
#[local] Abbreviation state := (world T * list T)%type.

(** The world is paired with the list of all elements ever published. *)
Definition alone_ghost : handler (evE T) state :=
  fun X e s => match alone X e (fst s) with Some (x, w) => Some (x, (w, snd s)) | None => None end.

Definition producer_pid (w : world T) : Z := cb_producerPid (cb (w_shm w)).
(** No live process is registered as the producer, nor is one still to come. *)
Definition producer_gone (w : world T) : Prop := pid_alive (w_kill w) (producer_pid w) = false.

(** ** What the producer may do between two accesses of the consumer

    It stores an element into a slot the consumer may not read; it publishes the
    elements stored in the next [k] slots; it detaches, which leaves the tombstone -1
    in its pid slot; or it dies, after which [kill] does not find it.  A producer that
    is gone does nothing more. *)
Inductive producer_step : state -> state -> Prop :=
| step_store w st c i v :
    ~ producer_gone w -> ring w (zlen st) c -> zlen st <= i < c + zlen (slots (w_shm w)) ->
    producer_step (w, st)
      (upd_slots w (<[Z.to_nat (i mod zlen (slots (w_shm w))) := v]> (slots (w_shm w))), st)
| step_publish w st c k :
    ~ producer_gone w -> ring w (zlen st) c -> zlen st + Z.of_nat k - c <= zlen (slots (w_shm w)) - 1 ->
    producer_step (w, st)
      (upd_cb w (set_a (cb (w_shm w)) writeIdx ((zlen st + Z.of_nat k) mod zlen (slots (w_shm w)))),
       st ++ ring_get (slots (w_shm w)) (zlen st) k)
| step_detach w st :
    ~ producer_gone w ->
    producer_step (w, st) (upd_cb w (set_a (cb (w_shm w)) producerPid (-1)), st)
| step_die w st kill :
    ~ producer_gone w -> kill (producer_pid w) 0 = (-1, ESRCH) ->
    producer_step (w, st) (MkWorld (w_shm w) (w_base w) kill (w_self w) (w_clock w) (w_yields w), st).

Lemma gone_is_stuck w st s' : producer_gone w -> rtc producer_step (w, st) s' -> s' = (w, st).
Proof. intros Hg Hs. inversion Hs as [|? ? ? Hst]; subst; [done|]. by inversion Hst. Qed.

(** A whole [try_push] of the code is made of such steps. *)
Lemma try_push_steps q w st c v :
  ring w (zlen st) c -> prod_ok q w (zlen st) c -> ~ producer_gone w ->
  exists q' b w', run alone (try_push q v) w = Some ((q', b), w') /\
    rtc producer_step (w, st) (w', if b : bool then st ++ [v] else st).
Proof.
  intros Hr Hq Ha. destruct (run_try_push q w (zlen st) c v Hr Hq) as (q' & Hrun & _ & Hroom & _).
  pose proof (ring_pos _ (r_size _ _ _ Hr)) as Hn. pose proof (mod_range _ Hn (zlen st)).
  pose proof (ring_gap _ _ _ Hr). do 3 eexists. split; [exact Hrun|]. case_Z.
  - set (l := <[Z.to_nat (zlen st mod zlen (slots (w_shm w))) := v]> (slots (w_shm w))).
    assert (zlen l = zlen (slots (w_shm w))) as Hl by apply zlen_insert.
    eapply rtc_l; [apply (step_store _ _ c (zlen st) v); [done|done|lia]|]. fold l.
    assert (ring_get l (zlen st) 1 = [v]) as Hg.
    { cbn [ring_get]. rewrite Hl. unfold l. rewrite list_lookup_insert_eq; [done|unfold zlen in *; lia]. }
    apply rtc_once. unfold pushed. cbn [ring_put]. fold l.
    pose proof (step_publish (upd_slots w l) st c 1 Ha) as Hp.
    cbn [upd_slots upd_cb upd_shm w_shm slots cb] in Hp. rewrite Hl, Hg in Hp.
    apply Hp; [destruct Hr; constructor; cbn; rewrite ?Hl; done|].
    rewrite zlen_cons, zlen_nil in Hroom. lia.
  - by rewrite (pushed_nil _ _ _ Hr).
Qed.

(** ** The consumer's view

    Everything published is [st]; [c] elements were popped, the ring holds the others;
    the handle's cache knows of at least [b] published elements; [st0] had been published and the pid slot had held [pid] earlier on. *)
Record view (q : ShmSpscQueue) (c b pid : Z) (st0 : list T) (s : state) : Prop := {
  v_ring : ring (fst s) (zlen (snd s)) c;
  v_held : contents (w_shm (fst s)) = zdrop c (snd s);
  v_cons : cons_ok q (fst s) (zlen (snd s)) b;
  v_past : st0 `prefix_of` snd s;
  v_pid : producer_pid (fst s) = pid \/ producer_pid (fst s) = -1 }.

Lemma ring_unique (w : world T) p c c' : ring w p c -> ring w p c' -> c = c'.
Proof.
  intros H1 H2. pose proof (ring_pos _ (r_size _ _ _ H1)). pose proof (r_read _ _ _ H1) as E.
  rewrite (r_read _ _ _ H2) in E. destruct H1, H2. apply mod_inj in E; lia.
Qed.

(** *** The view is stable under the producer's steps *)
Lemma view_store q c b pid st0 w st i v :
  view q c b pid st0 (w, st) -> zlen st <= i < c + zlen (slots (w_shm w)) ->
  view q c b pid st0
    (upd_slots w (<[Z.to_nat (i mod zlen (slots (w_shm w))) := v]> (slots (w_shm w))), st).
Proof.
  intros [Hr Hh [Hm Hw] Hp Hi] Hlt. pose proof (ring_pos _ (r_size _ _ _ Hr)) as Hn.
  pose proof (ring_gap _ _ _ Hr). cbn [fst snd] in *.
  set (w' := upd_slots w _).
  assert (zlen (slots (w_shm w')) = zlen (slots (w_shm w))) as Hl by apply zlen_insert.
  assert (ring w' (zlen st) c) as Hr'.
  { destruct Hr. constructor; rewrite ?Hl; done. }
  constructor; cbn [fst snd]; try done.
  - rewrite <- Hh, (contents_counts _ _ _ Hr), (contents_counts _ _ _ Hr').
    apply (ring_get_insert _ Hn); [done|lia].
  - split; [destruct Hm; constructor; rewrite ?Hl; done|]. by rewrite Hl.
Qed.

Lemma view_publish q c b pid st0 w st k :
  view q c b pid st0 (w, st) -> zlen st + Z.of_nat k - c <= zlen (slots (w_shm w)) - 1 ->
  view q c b pid st0
    (upd_cb w (set_a (cb (w_shm w)) writeIdx ((zlen st + Z.of_nat k) mod zlen (slots (w_shm w)))),
     st ++ ring_get (slots (w_shm w)) (zlen st) k).
Proof.
  intros [Hr Hh [Hm (wc & Hw & Hle)] Hp Hi] Hk. pose proof (ring_pos _ (r_size _ _ _ Hr)) as Hn.
  pose proof (ring_gap _ _ _ Hr) as Hg. cbn [fst snd] in *. set (n := zlen (slots (w_shm w))) in *.
  assert (zlen (st ++ ring_get (slots (w_shm w)) (zlen st) k) = zlen st + Z.of_nat k) as Hz.
  { rewrite zlen_app. unfold zlen at 2. by rewrite (length_ring_get n). }
  set (w' := upd_cb w _). assert (ring w' (zlen st + Z.of_nat k) c) as Hr'.
  { destruct Hr. constructor; try done; cbn; fold n; lia. }
  constructor; cbn [fst snd]; rewrite ?Hz; try done.
  - rewrite (contents_counts _ _ _ Hr'). cbn [w' upd_cb upd_shm w_shm slots].
    replace (Z.to_nat (zlen st + Z.of_nat k - c)) with (Z.to_nat (zlen st - c) + k)%nat by lia.
    rewrite (ring_get_app n Hn) by done. rewrite <- (contents_counts _ _ _ Hr), Hh.
    unfold zdrop. rewrite drop_app_le by (destruct Hr; unfold zlen in *; lia).
    do 2 f_equal. lia.
  - split; [by destruct Hm|]. exists wc. split; [done|lia].
  - by apply prefix_app_r.
Qed.

Lemma view_step q c b pid st0 s s' : view q c b pid st0 s -> producer_step s s' -> view q c b pid st0 s'.
Proof.
  intros Hv Hs. destruct Hs as [w st c' i v _ Hr Hi|w st c' k _ Hr Hk|w st _|w st kill _ _].
  - pose proof (ring_unique _ _ _ _ Hr (v_ring _ _ _ _ _ _ Hv)) as ->. by apply view_store.
  - pose proof (ring_unique _ _ _ _ Hr (v_ring _ _ _ _ _ _ Hv)) as ->. by apply view_publish.
  - destruct Hv as [[] Hh [[] Hw] Hp Hi]. constructor; try done. by right.
  - by destruct Hv as [[] Hh [[] Hw] Hp Hi].
Qed.

Lemma view_steps q c b pid st0 s s' :
  view q c b pid st0 s -> rtc producer_step s s' -> view q c b pid st0 s'.
Proof. intros Hv Hs. revert Hv. induction Hs; eauto using view_step. Qed.

(** From here on [st0] may be what is published now, and [pid] what the slot holds. *)
Lemma view_now q c b pid st0 s :
  view q c b pid st0 s -> view q c b (producer_pid (fst s)) (snd s) s.
Proof. intros []. constructor; auto. Qed.

Lemma view_past q c b pid st0 st1 s :
  st0 `prefix_of` st1 -> view q c b pid st1 s -> view q c b pid st0 s.
Proof. intros Hp []. constructor; try done. by etransitivity. Qed.

Lemma view_len q c b pid st0 s : view q c b pid st0 s -> zlen st0 <= zlen (snd s).
Proof.
  intros []. destruct v_past0 as [l ->]. rewrite zlen_app. pose proof (zlen_nonneg l). lia.
Qed.

(** *** The consumer's accesses amid the producer's steps *)
#[local] Abbreviation amidst := (amid alone_ghost producer_step).

Lemma amid_load {A} q c b pid st0 s f o (k : Z -> prog (evE T) A) Q :
  view q c b pid st0 s ->
  (forall s', view q c b pid st0 s' -> amidst (k (get_a (cb (w_shm (fst s'))) f)) s' Q) ->
  amidst (bind (load (ctrl_ q) f o) k) s Q.
Proof.
  intros Hv Hk s' Hs. pose proof (view_steps _ _ _ _ _ _ _ Hv Hs) as Hv'.
  exists (get_a (cb (w_shm (fst s'))) f), s'. split; [|by apply Hk].
  unfold alone_ghost. cbn. rewrite (m_ctrl _ _ (proj1 (v_cons _ _ _ _ _ _ Hv'))), Z.eqb_refl.
  by destruct s'.
Qed.

Lemma view_cache q c b pid st0 s :
  view q c b pid st0 s ->
  view (set_writeIdxCache q (zlen (snd s) mod capacity_ q)) c (zlen (snd s)) pid st0 s.
Proof.
  intros [Hr Hh [Hm Hw] Hp Hi]. constructor; try done. split; [by destruct Hm|].
  exists (zlen (snd s)). cbn. by rewrite (m_cap _ _ Hm).
Qed.

Lemma view_weaken q c b b' pid st0 s : b' <= b -> view q c b pid st0 s -> view q c b' pid st0 s.
Proof.
  intros Hb [Hr Hh [Hm (wc & Hw & Hle)] Hp Hi]. constructor; try done. split; [done|].
  exists wc. split; [done|lia].
Qed.

(** [front] answers null only if nothing was left of what had been published before it. *)
Definition front_post (q : ShmSpscQueue) (c pid : Z) (st0 : list T) (r : ShmSpscQueue * Z) (s : state) :
    Prop :=
  role_ (fst r) = role_ q /\
  ((snd r = 0 /\ zlen st0 <= c /\ view (fst r) c c pid st0 s) \/
   (snd r = slot_addr (T := T) (fst r) (c mod capacity_ (fst r)) /\
    view (fst r) c (c + 1) pid st0 s)).

Lemma amid_front q c pid st0 s :
  view q c c pid st0 s -> amidst (front q) s (front_post q c pid st0).
Proof.
  intros Hv. unfold front. apply (amid_load _ c c pid st0); [done|]. intros s1 Hv1.
  pose proof (v_cons _ _ _ _ _ _ Hv1) as [Hm (wc & Hwc & Hle)].
  pose proof (v_ring _ _ _ _ _ _ Hv1) as Hr. cbn [get_a]. rewrite (r_read _ _ _ Hr), Hwc.
  rewrite <- (m_cap _ _ Hm). destruct (Z.eqb_spec (c mod capacity_ q) (wc mod capacity_ q)) as [e|ne].
  - apply (amid_load _ c c pid st0); [done|]. intros s2 Hv2.
    pose proof (v_ring _ _ _ _ _ _ Hv2) as Hr2. cbn [get_a]. rewrite (r_write _ _ _ Hr2).
    rewrite <- (m_cap _ _ (proj1 (v_cons _ _ _ _ _ _ Hv2))). pose proof (view_cache _ _ _ _ _ _ Hv2) as Hc.
    pose proof (view_len _ _ _ _ _ _ Hv2). pose proof (r_order _ _ _ Hr2).
    destruct (Z.eqb_spec (c mod capacity_ q) (writeIdxCache_ (set_writeIdxCache q (zlen (snd s2) mod capacity_ q))))
      as [e2|ne2]; cbn in *.
    + split; [done|]. left. split; [done|].
      rewrite (m_cap _ _ (proj1 (v_cons _ _ _ _ _ _ Hv2))) in e2.
      apply (count_empty _ (r_size _ _ _ Hr2) _ _ (ring_gap _ _ _ Hr2)) in e2.
      split; [lia|]. apply (view_weaken _ _ (zlen (snd s2))); [lia|done].
    + split; [done|]. right. split; [done|]. apply (view_weaken _ _ (zlen (snd s2))); [|done].
      assert (zlen (snd s2) <> c) by (intros Hz; by rewrite Hz in ne2). lia.
  - cbn. split; [done|]. right. split; [done|]. destruct Hv1. constructor; try done.
    split; [done|]. exists wc. split; [done|]. assert (c <> wc) by (by intros ->). lia.
Qed.

(** The slot of the oldest element holds it. *)
Lemma amid_slot_read {A} q c pid st0 s (k : T -> prog (evE T) A) Q :
  view q c (c + 1) pid st0 s ->
  (forall s' v, view q c (c + 1) pid st0 s' -> snd s' !! Z.to_nat c = Some v -> amidst (k v) s' Q) ->
  amidst (bind (slot_read (slot_addr (T := T) q (c mod capacity_ q))) k) s Q.
Proof.
  intros Hv Hk s' Hs. pose proof (view_steps _ _ _ _ _ _ _ Hv Hs) as Hv'.
  pose proof (v_ring _ _ _ _ _ _ Hv') as Hr.
  pose proof (v_cons _ _ _ _ _ _ Hv') as [Hm (wc & Hwc & Hle)].
  destruct (run_slot_read q (fst s') (zlen (snd s')) c Hr Hm ltac:(lia)) as (v & Hrun & Hc).
  exists v, s'. split.
  - cbn in Hrun. unfold alone_ghost. rewrite (m_cap _ _ Hm). cbn. unfold slot_at in *. 
    repeat case_match; simplify_eq; by destruct s'.
  - apply Hk; [done|]. rewrite (v_held _ _ _ _ _ _ Hv') in Hc. unfold zdrop in Hc.
    apply (f_equal (lookup 0%nat)) in Hc. rewrite lookup_drop in Hc. cbn in Hc.
    by rewrite Nat.add_0_r in Hc.
Qed.

(** [void pop()] of an element the cache knows of. *)
Lemma amid_pop_front q c pid st0 s :
  view q c (c + 1) pid st0 s ->
  amidst (pop_front ndebug q) s (fun _ s' => view q (c + 1) (c + 1) pid st0 s').
Proof.
  intros Hv. unfold pop_front. apply (amid_load _ c (c + 1) pid st0); [done|]. intros s1 Hv1.
  pose proof (v_ring _ _ _ _ _ _ Hv1) as Hr. pose proof (v_cons _ _ _ _ _ _ Hv1) as [Hm _].
  cbn [get_a]. rewrite (r_read _ _ _ Hr), (next_count _ (r_size _ _ _ Hr) q (m_cap _ _ Hm)).
  rewrite <- (m_cap _ _ Hm). apply amid_bind.
  apply amid_mono with (Q := fun _ s' => view q c (c + 1) pid st0 s').
  { destruct ndebug; [done|]. apply (amid_load _ c (c + 1) pid st0); [done|]. intros s2 Hv2.
    pose proof (v_ring _ _ _ _ _ _ Hv2) as Hr2.
    pose proof (v_cons _ _ _ _ _ _ Hv2) as [Hm2 (wc & Hwc & Hle)]. cbn [get_a].
    rewrite (r_write _ _ _ Hr2), (m_cap _ _ Hm2). case_Z; [|done]. exfalso.
    pose proof (count_empty _ (r_size _ _ _ Hr2) _ _ (ring_gap _ _ _ Hr2)) as [Hce _].
    assert (zlen (snd s2) = c) by (by apply Hce). lia. }
  intros _ s2 Hv2 s3 Hs. pose proof (view_steps _ _ _ _ _ _ _ Hv2 Hs) as Hv3.
  destruct s3 as [w3 st3]. destruct Hv3 as [Hr3 Hh [Hm3 (wc & Hwc & Hle)] Hp Hi]. cbn [fst snd] in *.
  exists tt, (popped w3 c 1, st3). split.
  { unfold alone_ghost, popped. cbn. by rewrite (m_ctrl _ _ Hm3), Z.eqb_refl, (m_cap _ _ Hm3). }
  constructor; cbn [fst snd].
  - apply ring_popped; [done|lia].
  - rewrite (contents_popped _ _ _ _ Hr3) by lia. rewrite Hh. unfold zdrop. rewrite drop_drop.
    f_equal. destruct Hr3. lia.
  - split; [by apply mapped_popped|]. exists wc. done.
  - done.
  - done.
Qed.

(** One attempt: it delivers the next element, or there was none when it began. *)
Definition try_pop_post (q : ShmSpscQueue) (c pid : Z) (st0 : list T) (r : ShmSpscQueue * option T) (s : state) :
    Prop :=
  role_ (fst r) = role_ q /\
  match snd r with
  | Some v => snd s !! Z.to_nat c = Some v /\ view (fst r) (c + 1) (c + 1) pid st0 s
  | None => zlen st0 <= c /\ view (fst r) c c pid st0 s
  end.

Lemma amid_try_pop q c pid st0 s :
  view q c c pid st0 s -> amidst (try_pop ndebug q) s (try_pop_post q c pid st0).
Proof.
  intros Hv. unfold try_pop. apply amid_bind.
  eapply amid_mono; [by apply amid_front|]. intros [q' a] s1 [Hrole Hf]. cbn [fst snd] in *.
  destruct Hf as [(-> & Hl & Hv1)|[-> Hv1]]; [done|].
  pose proof (v_ring _ _ _ _ _ _ Hv1) as Hr. pose proof (v_cons _ _ _ _ _ _ Hv1) as [Hm _].
  pose proof (mod_range _ (ring_pos _ (r_size _ _ _ Hr)) c).
  pose proof (slot_addr_pos q' (fst s1) (c mod capacity_ q') Hm (r_base _ _ _ Hr)
    ltac:(rewrite (m_cap _ _ Hm); lia)).
  rewrite (proj2 (Z.eqb_neq _ 0)) by lia. apply (amid_slot_read _ c pid st0); [done|].
  intros s2 v Hv2 Hlook. apply amid_bind.
  pose proof (v_past _ _ _ _ _ _ Hv2) as Hpast.
  apply amid_mono with (Q := fun _ s' => view q' (c + 1) (c + 1) pid (snd s2) s').
  { apply amid_pop_front. destruct Hv2. by constructor. }
  intros _ s3 Hv3. cbn. split; [done|]. split; [|by eapply view_past].
  by eapply prefix_lookup_Some; [|apply (v_past _ _ _ _ _ _ Hv3)].
Qed.
(** The liveness probe is conclusive: the pid it loads may be stale by the time [kill]
    answers, but only because the producer has detached since. *)
Lemma amid_peerAlive q c pid st0 s :
  view q c c pid st0 s -> role_ q = Consumer -> pid <> 0 ->
  amidst (peerAlive q) s (fun alive s' => view q c c pid st0 s' /\
    (alive = false -> producer_gone (fst s'))).
Proof.
  intros Hv Hrole Hpid. unfold peerAlive. rewrite Hrole. apply (amid_load _ c c pid st0); [done|].
  intros s1 Hv1. cbn [get_a peer_slot]. change (cb_producerPid _) with (producer_pid (fst s1)).
  pose proof (v_pid _ _ _ _ _ _ Hv1) as Hi. rewrite (proj2 (Z.eqb_neq _ 0)) by (destruct Hi; lia).
  unfold processAlive. case_Z.
  { cbn. split; [done|]. intros _. unfold producer_gone, pid_alive. by rewrite (proj2 (Z.ltb_ge 0 _)). }
  intros s2 Hs. pose proof (view_steps _ _ _ _ _ _ _ Hv1 Hs) as Hv2.
  pose proof (view_steps _ _ _ _ _ _ _ (view_now _ _ _ _ _ _ Hv1) Hs) as Hn2.
  exists (w_kill (fst s2) (producer_pid (fst s1)) 0), s2. split; [by destruct s2|].
  destruct (w_kill (fst s2) (producer_pid (fst s1)) 0) as [rc e] eqn:Hk.
  cbn. destruct (Z.eqb_spec rc 0) as [->|Hrc]; cbn; (split; [done|]); [done|].
  intros He. unfold producer_gone, pid_alive. destruct (v_pid _ _ _ _ _ _ Hn2) as [Hq|Hq]; rewrite Hq; [|done].
  rewrite Hk. cbn. rewrite (proj2 (Z.eqb_neq rc 0)), He by done. by rewrite andb_false_r.
Qed.

(** Once the producer is gone, [empty] is exact. *)
Lemma amid_empty q c pid st0 s :
  view q c c pid st0 s -> producer_gone (fst s) ->
  amidst (empty q) s (fun e s' => s' = s /\ e = (zlen (snd s) =? c)).
Proof.
  destruct s as [w st]. intros Hv Hg. pose proof (v_ring _ _ _ _ _ _ Hv) as Hr.
  pose proof (v_cons _ _ _ _ _ _ Hv) as [Hm _]. pose proof (run_empty q w (zlen st) c Hr Hm) as Hrun.
  unfold empty in *. cbn in *. rewrite (m_ctrl _ _ Hm), Z.eqb_refl in *. cbn in *.
  rewrite Z.eqb_refl in Hrun. injection Hrun as Hrun.
  intros s1 Hs1. rewrite (gone_is_stuck _ _ _ Hg Hs1). unfold alone_ghost. cbn. rewrite Z.eqb_refl.
  do 2 eexists. split; [done|]. intros s2 Hs2. rewrite (gone_is_stuck _ _ _ Hg Hs2). cbn.
  rewrite Z.eqb_refl. do 2 eexists. split; [done|]. done.
Qed.

Lemma amid_yield {A} q c pid st0 s (k : prog (evE T) A) Q :
  view q c c pid st0 s -> (forall s', view q c c pid st0 s' -> amidst k s' Q) ->
  amidst (sys SchedYield;; k) s Q.
Proof.
  intros Hv Hk s' Hs. pose proof (view_steps _ _ _ _ _ _ _ Hv Hs) as Hv'. destruct s' as [w st].
  do 2 eexists. split; [done|]. apply Hk. destruct Hv'. constructor; try done.
  - by apply ring_os.
  - by apply cons_ok_os.
Qed.

(** What the caller of [pop] knows when it returns. *)
Definition pop_post (c : Z) (st0 : list T) (fuel : nat) (r : ShmSpscQueue * option (option T)) (s : state) :
    Prop :=
  st0 `prefix_of` snd s /\
  (c < zlen st0 -> (0 < fuel)%nat -> exists v, snd r = Some (Some v)) /\
  match snd r with
  | Some (Some v) =>
      snd s !! Z.to_nat c = Some v /\ contents (w_shm (fst s)) = zdrop (c + 1) (snd s) /\
      cons_ok (fst r) (fst s) (zlen (snd s)) (c + 1)
  | Some None => producer_gone (fst s) /\ zlen (snd s) = c
  | None => contents (w_shm (fst s)) = zdrop c (snd s) /\ cons_ok (fst r) (fst s) (zlen (snd s)) c
  end.

Lemma amid_pop_loop fuel q c pid st0 s lim spins :
  view q c c pid st0 s -> role_ q = Consumer -> pid <> 0 ->
  amidst (pop_loop ndebug fuel q lim spins) s (pop_post c st0 fuel).
Proof.
  revert q s spins. induction fuel as [|fuel IH]; intros q s spins Hv Hrole Hpid.
  { destruct Hv. cbn. split; [done|]. split; [lia|done]. }
  cbn [pop_loop]. apply amid_bind. eapply amid_mono; [by apply (amid_try_pop _ c pid st0)|].
  intros [q' [v|]] s1 [Hrole1 Hpost]; cbn [fst snd] in *.
  { destruct Hpost as [Hl Hv1]. destruct Hv1. cbn. split; [done|]. split; [by eauto|done]. }
  destruct Hpost as [Hl Hv1]. rewrite Hrole in Hrole1.
  assert (forall s' sp, view q' c c pid st0 s' ->
    amidst (pop_loop ndebug fuel q' lim sp) s' (pop_post c st0 (S fuel))) as Hagain.
  { intros s' sp Hs'. eapply amid_mono; [by apply IH|]. intros r s2 (Hp & _ & Hr). split; [done|].
    split; [lia|done]. }
  destruct (spins >=? lim); [|by apply Hagain]. apply amid_bind.
  eapply amid_mono; [by apply (amid_peerAlive _ c pid st0)|]. intros alive s2 [Hv2 Hgone]. cbn beta.
  destruct alive; cbn [negb].
  { apply (amid_yield q' c pid st0); [done|]. intros s3 Hv3. by apply Hagain. }
  apply amid_bind. eapply amid_mono; [by apply (amid_empty q' c pid st0); auto|].
  intros e s3 [-> ->]. cbn beta. destruct (Z.eqb_spec (zlen (snd s2)) c) as [He|He].
  - destruct Hv2. cbn. split; [done|]. split; [lia|]. split; [by apply Hgone|done].
  - apply (amid_yield q' c pid st0); [done|]. intros s3 Hv3. by apply Hagain.
Qed.

(** C21: the blocking [pop] next to a producer that pushes, detaches or crashes between
    any two of its accesses, every load reading the latest value.  It never touches a
    slot out of range nor fails its assertion; what it delivers is the next element of
    the stream; it returns false only when the producer is gone and every element ever
    published has been consumed, also those published after the last failed attempt; an
    element that was there when it was called is delivered at the first attempt; and
    once the producer is gone it returns within [peerCheckSpins + 1] attempts, with the
    oldest element left, or false when there is none.  (With weaker loads the false can
    come too early, see Caveats.v.) *)
Theorem pop_false_means_drained q w st c lim fuel :
  ring w (zlen st) c -> contents (w_shm w) = zdrop c st -> cons_ok q w (zlen st) c ->
  role_ q = Consumer -> producer_pid w <> 0 -> 0 <= lim < W32 ->
  amidst (pop ndebug fuel q lim) (w, st) (pop_post c st fuel) /\
  (producer_gone w -> lim < Z.of_nat fuel -> exists q' w',
     run alone (pop ndebug fuel q lim) w = Some ((q', Some (head (zdrop c st))), w') /\
     contents (w_shm w') = zdrop 1 (zdrop c st)).
Proof.
  intros Hr Hh Hq Hrole Hpid Hlim. split.
  { apply (amid_pop_loop fuel q c (producer_pid w) st); [|done..]. constructor; cbn; auto. }
  intros Hg Hf. pose proof (zlen_contents _ _ _ Hr) as Hz. unfold pop.
  destruct (run_try_pop ndebug q w (zlen st) c Hr Hq) as (q' & k & Hrun & Hk & _ & Hkb & _).
  rewrite <- Hh. destruct (contents (w_shm w)) as [|v l] eqn:Hc.
  - rewrite zlen_nil in Hz. assert (c = zlen st) as -> by lia.
    edestruct (pop_loop_dead ndebug (Z.to_nat lim) q w (zlen st) lim 0 fuel) as [q2 H2]; try done; [|lia..|].
    + unfold peer_seen_alive, peer_pid. rewrite Hrole. cbn [peer_slot get_a].
      rewrite (proj2 (Z.eqb_neq _ 0)) by exact Hpid. exact Hg.
    + exists q2, w. by rewrite H2, Hc.
  - rewrite zlen_cons in Hz. pose proof (zlen_nonneg l).
    rewrite (proj2 (Z.eqb_neq (zlen st) c)) in Hk by lia. subst k.
    destruct fuel as [|fuel]; [lia|]. cbn [pop_loop]. rewrite (run_bind_Some _ _ _ _ _ _ Hrun).
    do 2 eexists. split; [done|]. by rewrite (contents_popped _ _ _ _ Hr Hkb), Hc.
Qed.
End interference.

(** ** Concrete worlds *)
Module InterferenceSample.
Import Sample.
#[local] Existing Instance x86_64.
#[local] Existing Instance elem_u64.
#[local] Existing Instance x86_64_ok.
#[local] Existing Instance elem_u64_ok.

(** Eight elements published, the last two still in the ring; the producer is process
    [pid], and process 7 is the only one that is alive. *)
Definition published8 : list Z := [10; 11; 12; 13; 14; 15; 16; 17].
Definition two_left (pid : Z) : world Z :=
  MkWorld (MkShm (MkCB 0 5 0 1 64 8 8 256 pid 9 1 3 1) [15; 16; 17; 13; 14]) 4096 kill78 9 0 0.

Lemma ring_two_left pid : ring (two_left pid) 8 6.
Proof. by constructor. Defined.

Lemma cons_ok_two_left pid : cons_ok consumer5 (two_left pid) 8 6.
Proof. split; [by constructor|]. by exists 8. Defined.

(** With a producer that is alive, and with one that is dead. *)
Lemma pop_false_means_drained_witness :
  amid alone_ghost producer_step (pop false 10 consumer5 4) (two_left 7, published8)
    (pop_post 6 published8 10) /\
  exists q' w', run alone (pop false 10 consumer5 4) (two_left 8) = Some ((q', Some (Some 16)), w') /\
    contents (w_shm w') = [17].
Proof.
  split.
  - apply (pop_false_means_drained false consumer5 (two_left 7) published8 6 4 10);
      [apply ring_two_left|reflexivity|apply cons_ok_two_left|reflexivity|discriminate|word_lia].
  - apply (pop_false_means_drained false consumer5 (two_left 8) published8 6 4 10);
      [apply ring_two_left|reflexivity|apply cons_ok_two_left|reflexivity|discriminate|word_lia|
       reflexivity|lia].
Defined.
End InterferenceSample.
