(* ===== verification/Session.v ===== *)
(** * Sessions: publishing a segment, attaching to it, leaving it

    What the life-cycle operations do to the segment's contents, run by one process
    at a time: a created segment passes [validate] and yields the handles the
    delivery theorems start from, the pid slots are claimed and released by their
    owners only, and a moved-from or detached handle is inert. *)

From S2P Require Import Prelude Prog Effects Layout Segment Queue Lifecycle Shm Ring Sequential Refinement Blocking.
#[local] Open Scope Z_scope.
#[local] Open Scope prog_scope.

(** ** Moves *)
Section moves.
Context {T : Type} `{Platform} `{Elem T}.

Lemma swapWith_eq (this o : ShmSpscQueue) : swapWith (T := T) this o = Ret (o, this).
Proof. by destruct this as [[] ? ? ? ? ? ? ?], o as [[] ? ? ? ? ? ? ?]. Qed.

(** A handle with nothing to release. *)
Definition inert (q : ShmSpscQueue) : Prop := seg_ q = ShmSegment_default /\ ctrl_ q = 0 /\
  slots_ q = 0 /\ bound_ q = false.

Lemma detach_inert q : inert q -> detach (T := T) q = Ret q.
Proof. destruct q. unfold inert. simpl. by intros (-> & -> & -> & ->). Qed.

Lemma run_reset {W} (h : handler (evE T) W) s w s' w' :
  run h (ShmSegment_reset s) w = Some (s', w') -> s' = ShmSegment_default.
Proof.
  unfold ShmSegment_reset. rewrite run_bind. destruct (run h _ w) as [[[] w1]|]; [|done].
  rewrite run_bind. destruct (run h _ w1) as [[[] w2]|]; [|done]. simpl. by intros [= <- _].
Qed.

Lemma run_detach_inert {W} (h : handler (evE T) W) q w q' w' :
  run h (detach q) w = Some (q', w') -> inert q'.
Proof.
  unfold detach. rewrite run_bind. destruct (run h _ w) as [[[] w1]|]; [|done].
  rewrite run_bind. destruct (run h (ShmSegment_reset _) w1) as [[s w2]|] eqn:Hr; [|done].
  apply run_reset in Hr as ->. simpl. by intros [= <- _].
Qed.

(** C24: moving a handle transfers everything and leaves an inert source.  Move
    construction performs no access, hands over the source's state unchanged, and
    destroying the source afterwards performs no access either.  Move assignment of a
    handle to itself does nothing; of one handle to another, it first releases what
    the target held, once, then gives it the source's state, leaves the source with
    the released, inert remains, and touches no other handle.  So no pid slot is
    cleared twice and no mapping is unmapped twice, whatever handler executes the
    accesses. *)
Theorem moves_leave_inert_source (objs : nat -> ShmSpscQueue) (this o : nat) :
  ShmSpscQueue_move (T := T) (objs o) = Ret (objs o, ShmSpscQueue_default) /\
  inert ShmSpscQueue_default /\ detach (T := T) ShmSpscQueue_default = Ret ShmSpscQueue_default /\
  (this = o -> ShmSpscQueue_assign (T := T) objs this o = Ret objs) /\
  forall W (h : handler (evE T) W) w objs' w', this <> o ->
    run h (ShmSpscQueue_assign objs this o) w = Some (objs', w') ->
    objs' this = objs o /\ run h (detach (objs this)) w = Some (objs' o, w') /\
    inert (objs' o) /\ detach (T := T) (objs' o) = Ret (objs' o) /\
    (forall i, i <> this -> i <> o -> objs' i = objs i).
Proof.
  split; [apply swapWith_eq|]. split; [done|]. split; [done|]. unfold ShmSpscQueue_assign. split.
  { intros ->. by rewrite Nat.eqb_refl. }
  intros W h w objs' w' Hne. rewrite (proj2 (Nat.eqb_neq this o)) by done. rewrite run_bind.
  destruct (run h (detach (objs this)) w) as [[q1 w1]|] eqn:Hd; [|done]. rewrite swapWith_eq.
  cbn [bind run]. autorewrite with fupd. intros [= <- <-].
  apply run_detach_inert in Hd as Hi. autorewrite with fupd.
  split; [done|]. split; [done|]. split; [done|]. split; [by apply detach_inert|].
  intros i Hi1 Hi2. by rewrite !fupd_ne.
Qed.
End moves.

(** ** Running the life-cycle accesses *)
Section sessions.
Context {T : Type} `{Platform} `{Elem T} `{!PlatformOk _} `{!ElemOk T}.

Lemma run_aload c w f o A (k : Z -> prog (evE T) A) :
  c = w_base w -> run alone (bind (load c f o) k) w = run alone (k (get_a (cb (w_shm w)) f)) w.
Proof. intros ->. simpl. by rewrite Z.eqb_refl. Qed.

Lemma run_get c w f A (k : Z -> prog (evE T) A) :
  c = w_base w -> run alone (bind (get c f) k) w = run alone (k (get_h (cb (w_shm w)) f)) w.
Proof. intros ->. simpl. by rewrite Z.eqb_refl. Qed.

Lemma run_astore c w f v o A (k : unit -> prog (evE T) A) :
  c = w_base w ->
  run alone (bind (store c f v o) k) w = run alone (k tt) (upd_cb w (set_a (cb (w_shm w)) f v)).
Proof. intros ->. simpl. by rewrite Z.eqb_refl. Qed.

Lemma run_set c w f v A (k : unit -> prog (evE T) A) :
  c = w_base w ->
  run alone (bind (set c f v) k) w = run alone (k tt) (upd_cb w (set_h (cb (w_shm w)) f v)).
Proof. intros ->. simpl. by rewrite Z.eqb_refl. Qed.

Lemma run_cas weak c w f e d o1 o2 A (k : bool * Z -> prog (evE T) A) :
  c = w_base w ->
  run alone (bind (act (Mem (ACas weak c f e d o1 o2))) k) w =
  (if get_a (cb (w_shm w)) f =? e then run alone (k (true, e)) (upd_cb w (set_a (cb (w_shm w)) f d))
   else run alone (k (false, get_a (cb (w_shm w)) f)) w).
Proof. intros ->. simpl. rewrite Z.eqb_refl. by destruct (_ =? e). Qed.

Lemma run_getpid w A (k : Z -> prog (evE T) A) :
  run alone (bind (sys GetPid) k) w = run alone (k (w_self w)) w.
Proof. done. Qed.

(** A pid as the operating system hands them out. *)
Definition pid_ok (pid : Z) : Prop := 0 < pid < 2 ^ 31.

Lemma i32_pid pid : pid_ok pid -> i32 pid = pid.
Proof. unfold pid_ok, i32. intros. rewrite Z.mod_small; word_lia. Qed.

(** ** Leaving *)

(** C23: [detach] (and so the destructor) gives up the handle's own pid slot and
    nothing else.  A bound handle whose slot still holds this process's pid turns
    it into -1; a slot that someone else has taken over since is left alone; an
    unbound handle does not touch the segment.  The control block is otherwise
    unchanged, the slots are unchanged, and the handle is inert afterwards, so that
    detaching again does nothing. *)
Theorem detach_releases_own_slot q w :
  pid_ok (w_self w) -> (bound_ q = true -> ctrl_ q = w_base w) -> 0 < w_base w ->
  exists q' w', run alone (detach q) w = Some (q', w') /\ inert q' /\ detach (T := T) q' = Ret q' /\
    slots (w_shm w') = slots (w_shm w) /\
    cb (w_shm w') =
      (if bound_ q && (get_a (cb (w_shm w)) (own_slot (role_ q)) =? w_self w)
       then set_a (cb (w_shm w)) (own_slot (role_ q)) (-1) else cb (w_shm w)).
Proof.
  intros Hp Hc Hb. unfold detach.
  set (c' := if bound_ q && _ then _ else _).
  assert (exists w1, run alone (if negb (ctrl_ q =? 0) && bound_ q then
     let* pid := sys GetPid in
     release_slot (ctrl_ q) (role_ q) (i32 pid)
     else Ret tt) w = Some (tt, w1) /\ slots (w_shm w1) = slots (w_shm w) /\ cb (w_shm w1) = c') as (w1 & Hr & Hsl & Hcb).
  { destruct (bound_ q); subst c'; cbn [andb].
    - rewrite (Hc eq_refl), (proj2 (Z.eqb_neq (w_base w) 0)) by lia. cbn [negb andb].
      rewrite run_getpid, i32_pid by done. unfold release_slot. rewrite run_cas by done. destruct (_ =? w_self w); by eexists.
    - rewrite andb_false_r. by exists w. }
  rewrite (run_bind_Some _ _ _ _ _ _ Hr).
  assert (exists w2, run alone (ShmSegment_reset (seg_ q)) w1 = Some (ShmSegment_default, w2) /\
    w_shm w2 = w_shm w1) as (w2 & Hr2 & Hw2).
  { unfold ShmSegment_reset. destruct (addr_ (seg_ q) =? 0), (owner_ (seg_ q) && _); simpl;
      try destruct (addr_ (seg_ q) =? w_base w1); by eexists. }
  rewrite (run_bind_Some _ _ _ _ _ _ Hr2). do 2 eexists. split; [done|]. by rewrite Hw2.
Qed.

(** ** Claiming a pid slot *)

(** What [bind] leaves in the handle, whether it succeeds or not. *)
Definition bound_handle (q : ShmSpscQueue) (w : world T) (role : Role) (b : bool) : ShmSpscQueue :=
  MkQueue (seg_ q) (ctrl_ q) (ctrl_ q + cb_slotsOffset (cb (w_shm w)))
    (cb_capacity (cb (w_shm w))) role b (cb_readIdx (cb (w_shm w))) (cb_writeIdx (cb (w_shm w))).

Lemma run_bind_queue fuel q w role :
  ctrl_ q = w_base w -> pid_ok (w_self w) ->
  let owner := get_a (cb (w_shm w)) (own_slot role) in
  exists res, run alone (bind_queue (S fuel) q role) w =
    Some ((bound_handle q w role (match res with inr _ => true | inl _ => bound_ q end), Some res),
          match res with
          | inr _ => upd_cb w (set_a (cb (w_shm w)) (own_slot role) (w_self w))
          | inl _ => w
          end) /\
    if (owner =? w_self w) || negb (pid_alive (w_kill w) owner) then res = inr tt
    else exists m, res = inl (runtime_error m).
Proof.
  intros Hc Hp owner. unfold bind_queue. rewrite !run_get, !run_aload by done.
  rewrite run_getpid, i32_pid by done. unfold claim_slot. rewrite bind_assoc, run_aload by done.
  fold owner. cbn [claim_loop].
  destruct (Z.eqb_spec owner (w_self w)) as [He|Hne]; cbn [orb].
  { exists (inr tt). split; [|done]. simpl. do 2 f_equal. unfold owner in He.
    destruct w as [[[] l] b kl sf ck ys]; destruct role; simpl in *; subst; reflexivity. }
  assert (run alone (if owner >? 0 then processAlive owner else Ret false) w =
    Some (pid_alive (w_kill w) owner, w)) as Ha.
  { rewrite Z.gtb_ltb. case_Z; [apply run_processAlive|].
    unfold pid_alive. by rewrite (proj2 (Z.ltb_ge _ _)) by lia. }
  rewrite bind_assoc, (run_bind_Some _ _ _ _ _ _ Ha).
  destruct (pid_alive (w_kill w) owner); cbn [negb].
  { eexists (inl _). split; [reflexivity|by eexists]. }
  rewrite bind_assoc, run_cas by done. fold owner. rewrite Z.eqb_refl. exists (inr tt). done.
Qed.

(** C22: who may claim a role.  [bind] on a segment decides by the slot's current
    value alone: a slot held by a live process other than the caller makes it
    throw, leaving the segment untouched; a slot that is free (0), was given up
    (-1), belongs to a process that no longer exists, or already holds the caller's
    own pid, is taken, and the handle mirrors the segment's geometry and indices. *)
Theorem bind_claims_free_slot fuel q w role :
  ctrl_ q = w_base w -> pid_ok (w_self w) ->
  let owner := get_a (cb (w_shm w)) (own_slot role) in
  if (owner =? w_self w) || negb (pid_alive (w_kill w) owner) then
    run alone (bind_queue (S fuel) q role) w =
      Some ((bound_handle q w role true, Some (inr tt)),
            upd_cb w (set_a (cb (w_shm w)) (own_slot role) (w_self w)))
  else exists m, run alone (bind_queue (S fuel) q role) w =
      Some ((bound_handle q w role (bound_ q), Some (inl (runtime_error m))), w).
Proof.
  intros Hc Hp owner. destruct (run_bind_queue fuel q w role Hc Hp) as (res & Hr & Hres). fold owner in Hres.
  destruct (_ || _); [by subst res|]. destruct Hres as [m ->]. by exists m.
Qed.

(** ** Validation *)

(** What [validate] demands of the geometry, with the size computed as the code
    does, in 64 bits. *)
Definition compatible (c : ControlBlock) (mapped_bytes : Z) : Prop :=
  cb_magic c = kMagic /\ cb_version c = kVersion /\ cb_cacheLineSize c = kCacheLine /\
  cb_elemSize c = sizeT T /\ cb_elemAlign c = alignT T /\
  u64 (cb_slotsOffset c + u64 (cb_capacity c * sizeT T)) <= cb_totalBytes c <= mapped_bytes.

#[export] Instance compatible_dec c b : Decision (compatible c b).
Proof. unfold compatible. apply _. Defined.

(** The two conditions that read a second field only if the first one passes. *)
Lemma run_differs q w A (k : bool -> prog (evE T) A) :
  ctrl_ q = w_base w ->
  run alone (bind (if negb (cb_elemSize (cb (w_shm w)) =? sizeT T) then Ret true else
     let* ea := get (ctrl_ q) elemAlign in Ret (negb (ea =? alignT T))) k) w =
  run alone (k (negb ((cb_elemSize (cb (w_shm w)) =? sizeT T) &&
                      (cb_elemAlign (cb (w_shm w)) =? alignT T)))) w.
Proof.
  intros Hc. destruct (_ =? sizeT T); cbn [negb andb]; [|done]. by rewrite bind_assoc, run_get.
Qed.

Lemma run_small q w needed b A (k : bool -> prog (evE T) A) :
  ctrl_ q = w_base w ->
  run alone (bind (if needed >? cb_totalBytes (cb (w_shm w)) then Ret true else
     let* tb := get (ctrl_ q) totalBytes in Ret (tb >? b)) k) w =
  run alone (k ((cb_totalBytes (cb (w_shm w)) <? needed) || (b <? cb_totalBytes (cb (w_shm w))))) w.
Proof.
  intros Hc. rewrite Z.gtb_ltb. destruct (_ <? needed); cbn [orb]; [done|].
  rewrite bind_assoc, run_get by done. cbn [get_h bind]. by rewrite Z.gtb_ltb.
Qed.

(** A branch that throws: the message's reads run, and the block is not compatible. *)
Ltac refuse Hc :=
  rewrite ?run_get by exact Hc; eexists; split; [reflexivity|];
  rewrite decide_False; [by eexists|unfold compatible; lia].

Lemma run_validate q w :
  ctrl_ q = w_base w ->
  exists r, run alone (validate (T := T) q) w = Some (r, w) /\
    if decide (compatible (cb (w_shm w)) (size_ (seg_ q))) then r = inr tt
    else exists m, r = inl (runtime_error m).
Proof.
  intros Hc. unfold validate, throw, ok, ShmSegment_size.
  set (c := cb (w_shm w)). set (b := size_ (seg_ q)).
  rewrite run_get by done. cbn [get_h]. fold c.
  destruct (Z.eqb_spec (cb_magic c) kMagic); cbn [negb]; [|refuse Hc].
  rewrite run_get by done. cbn [get_h]. fold c.
  destruct (Z.eqb_spec (cb_version c) kVersion); cbn [negb]; [|refuse Hc].
  rewrite run_get by done. cbn [get_h]. fold c.
  destruct (Z.eqb_spec (cb_cacheLineSize c) kCacheLine); cbn [negb]; [|refuse Hc].
  rewrite run_get by done. cbn [get_h]. fold c.
  rewrite (run_differs q w) by done. fold c.
  destruct (Z.eqb_spec (cb_elemSize c) (sizeT T)), (Z.eqb_spec (cb_elemAlign c) (alignT T));
    cbn [negb andb]; [|refuse Hc..].
  rewrite !run_get by done. cbn [get_h]. fold c.
  rewrite (run_small q w) by done. fold c.
  destruct (Z.ltb_spec (cb_totalBytes c) (u64 (cb_slotsOffset c + u64 (cb_capacity c * sizeT T)))),
    (Z.ltb_spec b (cb_totalBytes c)); cbn [orb]; [refuse Hc..|].
  eexists. split; [reflexivity|]. rewrite decide_True by (unfold compatible; split_and!; done || lia). done.
Qed.

(** C25: [validate] accepts exactly the compatible segments, changes nothing, and
    whenever the size computation does not wrap, every slot index below the
    accepted capacity lies inside the mapping. *)
Theorem validate_guards_mapping q w :
  ctrl_ q = w_base w -> 0 <= cb_slotsOffset (cb (w_shm w)) -> 0 <= cb_capacity (cb (w_shm w)) ->
  (run alone (validate (T := T) q) w = Some (inr tt, w) <-> compatible (cb (w_shm w)) (size_ (seg_ q))) /\
  (run alone (validate (T := T) q) w = Some (inr tt, w) ->
   cb_slotsOffset (cb (w_shm w)) + cb_capacity (cb (w_shm w)) * sizeT T < W64 ->
   forall i, 0 <= i < cb_capacity (cb (w_shm w)) ->
     cb_slotsOffset (cb (w_shm w)) + i * sizeT T + sizeT T <= size_ (seg_ q)).
Proof.
  intros Hc Ho Hcap. destruct (run_validate q w Hc) as (r & Hr & Hdec). rewrite Hr.
  pose proof (sizeT_pos (T := T)). case_decide as Hcmp.
  - subst r. split; [done|]. intros _ Hsmall i Hi. destruct Hcmp as (_ & _ & _ & _ & _ & Hn).
    rewrite (u64_small (_ * sizeT T)), u64_small in Hn by nia. nia.
  - destruct Hdec as [m ->]. done.
Qed.

(** ** Creating, then attaching *)

(** The control block a creator with pid [pid] publishes. *)
Definition published_block (n bytes pid : Z) (role : Role) : ControlBlock :=
  cb_of (fun f => match f with
                  | magic => kMagic | capacity => n | totalBytes => bytes | version => kVersion
                  | cacheLineSize => kCacheLine | elemSize => sizeT T | elemAlign => alignT T
                  | slotsOffset => sizeof_ControlBlock
                  end)
        (fun f => if decide (f = own_slot role) then pid else
                  if decide (f = ready) then 1 else 0).

Lemma kCacheLine_u32 : u32 kCacheLine = kCacheLine.
Proof. apply u32_small. pose proof kCacheLine_facts. rewrite W32_val. lia. Qed.

Lemma alignT_range : 0 < alignT T <= sizeT T.
Proof.
  destruct (alignT_pow (T := T)) as (k & Hk & He). pose proof (Z.pow_pos_nonneg 2 k ltac:(lia) Hk).
  split; [lia|]. apply Z.divide_pos_le; [apply sizeT_pos|apply alignT_size].
Qed.

Lemma run_publish fuel q w n role :
  ctrl_ q = w_base w -> pid_ok (w_self w) -> sizeT T < W32 ->
  run alone (publish (S fuel) q n role) w =
    Some (Some (inr (MkQueue (seg_ q) (ctrl_ q) (ctrl_ q + sizeof_ControlBlock) n role true 0 0)),
          upd_cb w (published_block n (size_ (seg_ q)) (w_self w) role)).
Proof.
  intros Hc Hp Hs. unfold publish.
  pose proof (sizeT_pos (T := T)). pose proof sizeof_ControlBlock_bounds.
  pose proof alignT_range. rewrite kCacheLine_u32, !u32_small by word_lia.
  assert (forall A (k : unit -> prog (evE T) A), run alone (bind (act (Mem (MemsetCtrl (ctrl_ q)))) k) w =
    run alone (k tt) (upd_cb w cb_zero)) as ->.
  { intros A k. simpl. by rewrite Hc, Z.eqb_refl. }
  do 8 rewrite run_set by done. do 2 rewrite run_astore by done.
  set (w1 := upd_cb _ _).
  destruct (run_bind_queue fuel q w1 role Hc Hp) as (res & Hr & Hres).
  rewrite (run_bind_Some _ _ _ _ _ _ Hr).
  replace (get_a (cb (w_shm w1)) (own_slot role)) with 0 in Hres by (by destruct role).
  replace (_ || _) with true in Hres. 2: { unfold pid_alive. by rewrite orb_true_r. }
  subst res. rewrite run_astore by done. cbn [run]. do 3 f_equal. by destruct role.
Qed.

(** What the next attacher finds: a compatible segment, a free slot for the other
    role, and the creator in its own. *)
Lemma published_compatible n bytes mapped_bytes pid role :
  0 <= n -> sizeof_ControlBlock + n * sizeT T = bytes -> bytes < W64 -> bytes <= mapped_bytes ->
  compatible (published_block n bytes pid role) mapped_bytes.
Proof.
  intros Hn Hb Hw Hm. pose proof (sizeT_pos (T := T)). pose proof sizeof_ControlBlock_bounds.
  unfold compatible, published_block. cbn. rewrite (u64_small (n * _)), u64_small by nia.
  split_and!; done || lia.
Qed.

End sessions.

(** ** Concrete sessions *)
Module SessionSample.
Import Sample BlockingSample.
#[local] Existing Instance x86_64.
#[local] Existing Instance elem_u64.
#[local] Existing Instance x86_64_ok.
#[local] Existing Instance elem_u64_ok.

Lemma detach_releases_own_slot_witness :
  exists q' w', run alone (detach handle5) world5 = Some (q', w') /\ inert q' /\
    detach (T := Z) q' = Ret q' /\ slots (w_shm w') = slots (w_shm world5) /\
    cb (w_shm w') = set_a wrapped producerPid (-1).
Proof.
  apply (detach_releases_own_slot handle5 world5); [split; vm_compute; congruence|done|reflexivity].
Defined.

(** Process 7 is registered as producer of [world5] and is alive: process 9 is
    refused; the consumer, process 8, is dead, so its slot may be taken. *)
Definition world9 : world Z := MkWorld (w_shm world5) 8192 kill78 9 0 0.
Definition handle9 : ShmSpscQueue := MkQueue ShmSegment_default 8192 0 0 Producer false 0 0.

Lemma bind_claims_free_slot_witness :
  (exists m, run alone (bind_queue (T := Z) 1 handle9 Producer) world9 =
     Some ((bound_handle handle9 world9 Producer false, Some (inl (runtime_error m))), world9)) /\
  run alone (bind_queue (T := Z) 1 handle9 Consumer) world9 =
    Some ((bound_handle handle9 world9 Consumer true, Some (inr tt)),
          upd_cb world9 (set_a wrapped consumerPid 9)).
Proof.
  split.
  - apply (bind_claims_free_slot 0 handle9 world9 Producer); [done|split; vm_compute; congruence].
  - apply (bind_claims_free_slot 0 handle9 world9 Consumer); [done|split; vm_compute; congruence].
Defined.

(** A published segment of 5 slots, mapped as one page by an attacher. *)
Definition page_handle : ShmSpscQueue :=
  MkQueue (MkSegment 8192 4096 false "/q") 8192 0 0 Producer false 0 0.
Definition page_world (c : ControlBlock) : world Z := MkWorld (MkShm c [0; 0; 0; 0; 0]) 8192 kill78 9 0 0.

Lemma validate_guards_mapping_witness :
  (run alone (validate (T := Z) page_handle) (page_world (published_block 5 296 7 Producer)) =
     Some (inr tt, page_world (published_block 5 296 7 Producer)) <->
   compatible (published_block 5 296 7 Producer) 4096) /\
  (run alone (validate (T := Z) page_handle) (page_world (published_block 5 296 7 Producer)) =
     Some (inr tt, page_world (published_block 5 296 7 Producer)) ->
   256 + 5 * 8 < W64 -> forall i, 0 <= i < 5 -> 256 + i * 8 + 8 <= 4096).
Proof.
  refine (validate_guards_mapping page_handle (page_world (published_block 5 296 7 Producer)) _ _ _);
    [done|vm_compute; congruence|vm_compute; congruence].
Defined.

(** C38: the size check of [validate] is computed modulo [2 ^ 64].  A segment that
    declares [2 ^ 61] slots of 8 bytes passes it on a one-page mapping, the handle
    is bound with that capacity, and a slot index below it lies far outside. *)
Theorem validate_size_check_wraps :
  let c := published_block (T := Z) (2 ^ 61) 4096 7 Producer in
  run alone (validate (T := Z) page_handle) (page_world c) = Some (inr tt, page_world c) /\
  (exists q w, run alone (bind_queue (T := Z) 1 page_handle Consumer) (page_world c) =
     Some ((q, Some (inr tt)), w) /\ capacity_ q = 2 ^ 61) /\
  size_ (seg_ page_handle) < cb_slotsOffset c + (2 ^ 61 - 1) * 8.
Proof. vm_compute. split; [done|]. split; [|done]. by do 2 eexists. Qed.
End SessionSample.
