(* ===== verification/RaMemory.v ===== *)
(** * Two processes on one segment, under release/acquire

    The memory of the C++ model restricted to what the code uses.  An atomic
    location is the list of the values stored to it, oldest first (its modification
    order); a load may return any of them that its process has not already seen
    overwritten.  A view says what a process knows: for each atomic location, the
    last entry it has seen, and for each process, how far it is synchronised with
    it (a vector clock).  A release store attaches its process's view to the entry,
    and an acquire load joins it; a relaxed access does neither.

    A slot is a plain location: it remembers when it was last written and read, and
    an access whose process is not synchronised with the conflicting one is a data
    race.  Such an access, one outside the mapping, or a failed assertion is not
    [safe]: the program has no defined behaviour. *)

From stdpp Require Import relations.
From S2P Require Import Prelude Prog Effects Machine Layout Segment Queue Shm.
#[local] Open Scope Z_scope.

Record view : Type := MkView { vt : afield -> nat; vc : Role -> nat }.

Definition view_bot : view := MkView (fun _ => O) (fun _ => O).
Definition view_join (v w : view) : view :=
  MkView (fun f => Nat.max (vt v f) (vt w f)) (fun r => Nat.max (vc v r) (vc w r)).

(** [v] knows no more than [w]. *)
Definition view_le (v w : view) : Prop :=
  (forall f, (vt v f <= vt w f)%nat) /\ (forall r, (vc v r <= vc w r)%nat).

#[export] Instance view_le_preorder : PreOrder view_le.
Proof.
  split; [split; lia|]. intros u v w [H1 H2] [H3 H4].
  split; intros x; [specialize (H1 x); specialize (H3 x)|specialize (H2 x); specialize (H4 x)]; lia.
Qed.

Lemma view_join_l v w : view_le v (view_join v w).
Proof. split; intros; simpl; lia. Qed.

Lemma view_join_r v w : view_le w (view_join v w).
Proof. split; intros; simpl; lia. Qed.

(** Having seen entry [i] of location [f]. *)
Definition see (f : afield) (i : nat) (v : view) : view :=
  MkView (fupd f (Nat.max i (vt v f)) (vt v)) (vc v).

(** The process's own clock advances when it releases, so that what it does next
    is not covered by what it has released. *)
Definition tick (t : Role) (v : view) : view :=
  MkView (vt v) (fupd t (S (vc v t)) (vc v)).

Lemma see_le f i v : view_le v (see f i v).
Proof. split; intros g; simpl; [|lia]. unfold fupd. case_decide; subst; lia. Qed.

Lemma see_at f i v : (i <= vt (see f i v) f)%nat.
Proof. simpl. rewrite fupd_eq. lia. Qed.

Lemma tick_le t v : view_le v (tick t v).
Proof. split; intros g; simpl; [lia|]. unfold fupd. case_decide; subst; lia. Qed.

#[export] Hint Resolve view_join_l view_join_r see_le tick_le see_at : word.

(** An entry of an atomic location: the value and the view it releases. *)
Record msg : Type := MkMsg { m_val : Z; m_view : view }.

Section machine.
Context {T : Type} `{Platform} `{Elem T}.

(** A slot: its value, the last write (process and clock) and the last read of
    each process (0 for none). *)
Record cell : Type := MkCell { c_val : T; c_wr : Role * nat; c_rd : Role -> nat }.

Record machine : Type := MkMachine {
  hist : afield -> list msg;
  hdr : hfield -> Z;
  cells : Z -> cell;
  nslots : Z;
  views : Role -> view;
  base : Role -> Z }.

Definition set_view (t : Role) (v : view) (m : machine) : machine :=
  MkMachine (hist m) (hdr m) (cells m) (nslots m) (fupd t v (views m)) (base m).
Definition set_cell (i : Z) (c : cell) (m : machine) : machine :=
  MkMachine (hist m) (hdr m) (fupd i c (cells m)) (nslots m) (views m) (base m).
Definition append (f : afield) (e : msg) (m : machine) : machine :=
  MkMachine (fupd f (hist m f ++ [e]) (hist m)) (hdr m) (cells m) (nslots m) (views m) (base m).

(** The view of a process that has read entry [i] of [f], which is [e]. *)
Definition after_load (o : memory_order) (f : afield) (i : nat) (e : msg) (v : view) : view :=
  if is_acquire o then view_join (see f i v) (m_view e) else see f i v.

(** The view a store at entry [i] of [f] attaches to its entry. *)
Definition released (o : memory_order) (f : afield) (i : nat) (v : view) : view :=
  if is_release o then see f i v else see f i view_bot.

Definition after_store (t : Role) (o : memory_order) (f : afield) (i : nat) (v : view) : view :=
  if is_release o then tick t (see f i v) else see f i v.

Definition do_store (t : Role) (f : afield) (x : Z) (o : memory_order) (m : machine) : machine :=
  let i := length (hist m f) in
  set_view t (after_store t o f i (views m t))
    (append f (MkMsg x (released o f i (views m t))) m).

(** A successful compare-exchange reads the last entry [e] and appends the next
    one, which also carries on what [e] released. *)
Definition do_cas (t : Role) (f : afield) (x : Z) (o : memory_order) (e : msg) (m : machine) :
    machine :=
  let i := length (hist m f) in
  let v := after_load o f (pred i) e (views m t) in
  set_view t (after_store t o f i v)
    (append f (MkMsg x (view_join (released o f i v) (m_view e))) m).

(** Is every earlier write, respectively read, of the slot known to the view? *)
Definition wr_known (c : cell) (v : view) : Prop := (snd (c_wr c) <= vc v (fst (c_wr c)))%nat.
Definition rd_known (c : cell) (v : view) : Prop := forall u, (c_rd c u <= vc v u)%nat.

Definition slot_ok (t : Role) (a : Z) (m : machine) (P : Z -> Prop) : Prop :=
  exists i, slot_at (T := T) (base m t) a = Some i /\ 0 <= i < nslots m /\ P i.

(** A plain store to a location other processes also store to would leave its
    place in the modification order open: [safe] asks that the process has seen
    every entry.  The geometry is read-only once the segment is published. *)
Definition safe_mem {X} (t : Role) (e : memE T X) (m : machine) : Prop :=
  match e with
  | ALoad c f _ => c = base m t /\ (vt (views m t) f < length (hist m f))%nat
  | AStore c f _ _ => c = base m t /\ S (vt (views m t) f) = length (hist m f)
  | ACas _ c f _ _ _ _ => c = base m t /\ (vt (views m t) f < length (hist m f))%nat
  | FLoad c _ => c = base m t
  | FStore _ _ _ => False
  | MemsetCtrl _ => False
  | SlotRead a => slot_ok t a m (fun i => wr_known (cells m i) (views m t))
  | SlotWrite a _ =>
      slot_ok t a m (fun i => wr_known (cells m i) (views m t) /\ rd_known (cells m i) (views m t))
  end.

Definition step_mem {X} (t : Role) (e : memE T X) (m : machine) : X -> machine -> Prop :=
  match e in memE _ X return X -> machine -> Prop with
  | ALoad _ f o => fun x m' =>
      exists i s, hist m f !! i = Some s /\ (vt (views m t) f <= i)%nat /\ x = m_val s /\
        m' = set_view t (after_load o f i s (views m t)) m
  | AStore _ f v o => fun _ m' => m' = do_store t f v o m
  | ACas weak _ f expected desired succ fail => fun x m' =>
      (exists s, last (hist m f) = Some s /\ m_val s = expected /\ x = (true, expected) /\
        m' = do_cas t f desired succ s m) \/
      (exists i s, hist m f !! i = Some s /\ (vt (views m t) f <= i)%nat /\
        (weak = true \/ m_val s <> expected) /\ x = (false, m_val s) /\
        m' = set_view t (after_load fail f i s (views m t)) m)
  | FLoad _ f => fun x m' => x = hdr m f /\ m' = m
  | FStore _ _ _ => fun _ _ => False
  | MemsetCtrl _ => fun _ _ => False
  | SlotRead a => fun x m' =>
      exists i, slot_at (T := T) (base m t) a = Some i /\ x = c_val (cells m i) /\
        m' = set_cell i (MkCell (c_val (cells m i)) (c_wr (cells m i))
                           (fupd t (vc (views m t) t) (c_rd (cells m i)))) m
  | SlotWrite a v => fun _ m' =>
      exists i, slot_at (T := T) (base m t) a = Some i /\
        m' = set_cell i (MkCell v (t, vc (views m t) t) (c_rd (cells m i))) m
  end.

(** The operating system may answer anything. *)
Definition safe_os {X} (e : osE X) : Prop := match e with AssertFail => False | _ => True end.

Definition safe {X} (t : Role) (e : evE T X) (m : machine) : Prop :=
  match e with Mem e => safe_mem t e m | Os e => safe_os e end.
Definition step {X} (t : Role) (e : evE T X) (m : machine) (x : X) (m' : machine) : Prop :=
  match e with Mem e => step_mem t e m x m' | Os e => m' = m end.

#[export] Instance ra_machine : Machine (evE T) machine := {
  m_safe := @safe; m_step := @step }.

(** ** Views stay within the history *)
Definition view_ok (m : machine) (v : view) : Prop :=
  forall f, (vt v f < length (hist m f))%nat.

Record mem_ok (m : machine) : Prop := {
  ok_threads : forall t, view_ok m (views m t);
  ok_msgs : forall f i s, hist m f !! i = Some s -> view_ok m (m_view s) }.

Lemma view_ok_le m v w : view_le v w -> view_ok m w -> view_ok m v.
Proof. intros [Hle _] Hw f. specialize (Hle f). specialize (Hw f). lia. Qed.

Lemma view_ok_join m v w : view_ok m v -> view_ok m w -> view_ok m (view_join v w).
Proof. intros Hv Hw f. specialize (Hv f). specialize (Hw f). simpl. lia. Qed.

Lemma view_ok_see m f i v : view_ok m v -> (i < length (hist m f))%nat -> view_ok m (see f i v).
Proof. intros Hv Hi g. specialize (Hv g). simpl. unfold fupd. case_decide; subst; lia. Qed.

Lemma after_load_le o f i e v : view_le v (after_load o f i e v).
Proof.
  unfold after_load. destruct (is_acquire o); [|apply see_le].
  etransitivity; [apply see_le|apply view_join_l].
Qed.

Lemma after_load_at o f i e v : (i <= vt (after_load o f i e v) f)%nat.
Proof.
  pose proof (see_at f i v). unfold after_load. destruct (is_acquire o); simpl in *; lia.
Qed.

Lemma after_load_acquire f i e v : view_le (m_view e) (after_load acquire f i e v).
Proof. apply view_join_r. Qed.

Lemma after_load_ok m t o f i e :
  mem_ok m -> hist m f !! i = Some e -> view_ok m (after_load o f i e (views m t)).
Proof.
  intros [Ht Hm] He. assert (i < length (hist m f))%nat by (by eapply lookup_lt_Some).
  unfold after_load. destruct (is_acquire o); eauto using view_ok_join, view_ok_see.
Qed.

Lemma mem_ok_set_view m t v : mem_ok m -> view_ok m v -> mem_ok (set_view t v m).
Proof.
  intros [Ht Hm] Hv. split; [|by eauto]. intros u f. simpl. unfold fupd. case_decide; [apply Hv|apply Ht].
Qed.

Lemma mem_ok_set_cell m i c : mem_ok m -> mem_ok (set_cell i c m).
Proof. intros [Ht Hm]. by split. Qed.

Lemma append_length m f e g :
  (length (hist m g) <= length (hist (append f e m) g))%nat.
Proof. simpl. unfold fupd. case_decide; subst; [|done]. rewrite length_app. simpl. lia. Qed.

Lemma view_ok_append m f e v : view_ok m v -> view_ok (append f e m) v.
Proof. intros Hv g. pose proof (append_length m f e g). specialize (Hv g). lia. Qed.

Lemma mem_ok_append m f e :
  mem_ok m -> view_ok (append f e m) (m_view e) -> mem_ok (append f e m).
Proof.
  intros [Ht Hm] He. split; [intros t; apply view_ok_append, Ht|].
  intros g i s. simpl. unfold fupd at 1. case_decide; [|intros; by eapply view_ok_append, Hm].
  subst. intros [?|[_ [Hi ->]%list_lookup_singleton_Some]]%lookup_app_Some; [by eapply view_ok_append, Hm|done].
Qed.

Lemma view_ok_see_new m f e v :
  mem_ok m -> view_ok m v -> view_ok (append f e m) (see f (length (hist m f)) v).
Proof.
  intros Hm Hv. apply view_ok_see; [by apply view_ok_append|].
  simpl. rewrite fupd_eq, length_app. simpl. lia.
Qed.

Lemma view_ok_bot m : mem_ok m -> view_ok m view_bot.
Proof. intros [Ht _] f. specialize (Ht Producer f). simpl. lia. Qed.

Lemma mem_ok_do_store m t f x o : mem_ok m -> mem_ok (do_store t f x o m).
Proof.
  intros Hm. pose proof (ok_threads m Hm t). pose proof (view_ok_bot m Hm).
  unfold do_store. apply mem_ok_set_view; [apply mem_ok_append; [done|]|]; simpl.
  - unfold released. destruct (is_release o); by apply view_ok_see_new.
  - unfold after_store. destruct (is_release o); intros g; by apply view_ok_see_new.
Qed.

(** ** Executing an access

    The scheduler says how many entries before the latest one an atomic access
    reads. *)
Definition pick (t : Role) (f : afield) (back : nat) (m : machine) : option (nat * msg) :=
  let i := (length (hist m f) - 1 - back)%nat in
  match hist m f !! i with
  | Some s => if (vt (views m t) f <=? i)%nat then Some (i, s) else None
  | None => None
  end.

Definition exec_mem {X} (t : Role) (back : nat) (e : memE T X) (m : machine) :
    option (X * machine) :=
  match e in memE _ X return option (X * machine) with
  | ALoad _ f o =>
      match pick t f back m with
      | Some (i, s) => Some (m_val s, set_view t (after_load o f i s (views m t)) m)
      | None => None
      end
  | AStore _ f v o => Some (tt, do_store t f v o m)
  | ACas _ _ f expected desired succ fail =>
      match last (hist m f) with
      | Some s =>
          if m_val s =? expected then Some ((true, expected), do_cas t f desired succ s m)
          else match pick t f back m with
               | Some (i, s) =>
                   if m_val s =? expected then None
                   else Some ((false, m_val s), set_view t (after_load fail f i s (views m t)) m)
               | None => None
               end
      | None => None
      end
  | FLoad _ f => Some (hdr m f, m)
  | FStore _ _ _ => None
  | MemsetCtrl _ => None
  | SlotRead a =>
      match slot_at (T := T) (base m t) a with
      | Some i => Some (c_val (cells m i),
          set_cell i (MkCell (c_val (cells m i)) (c_wr (cells m i))
                        (fupd t (vc (views m t) t) (c_rd (cells m i)))) m)
      | None => None
      end
  | SlotWrite a v =>
      match slot_at (T := T) (base m t) a with
      | Some i => Some (tt, set_cell i (MkCell v (t, vc (views m t) t) (c_rd (cells m i))) m)
      | None => None
      end
  end.

(** A system on which every process is alive and every other call fails. *)
Definition answer {X} (e : osE X) : X :=
  match e in osE X return X with
  | Kill _ _ => (0, 0)
  | GetPid => 1
  | SchedYield => tt
  | Usleep _ => tt
  | SteadyNow => 0
  | ShmOpen _ _ _ => (-1, 0)
  | ShmUnlink _ => -1
  | Ftruncate _ _ => (-1, 0)
  | Fstat _ => (-1, 0, 0)
  | Mmap _ _ => (-1, 0)
  | Munmap _ _ => -1
  | Close _ => -1
  | Signalled => false
  | Fork => 1
  | Waitpid _ => -1
  | AssertFail => tt
  end.

Definition exec_event {X} (t : Role) (back : nat) (e : evE T X) (m : machine) : option (X * machine) :=
  match e with
  | Mem e => exec_mem t back e m
  | Os e => Some (answer e, m)
  end.

Lemma pick_sound t f back m i s :
  pick t f back m = Some (i, s) -> hist m f !! i = Some s /\ (vt (views m t) f <= i)%nat.
Proof.
  unfold pick. destruct (hist m f !! _) eqn:E; [|done].
  destruct (Nat.leb_spec (vt (views m t) f) (length (hist m f) - 1 - back)); [|done].
  intros. by simplify_eq.
Qed.

Lemma exec_mem_sound {X} t back (e : memE T X) m x m' :
  exec_mem t back e m = Some (x, m') -> step_mem t e m x m'.
Proof.
  destruct e; simpl; intros Hx; repeat case_match; simplify_eq; try done.
  all: try match goal with Hp : pick _ _ _ _ = Some _ |- _ => apply pick_sound in Hp as [? ?] end.
  - eauto 7.
  - left. eexists. split_and!; [done|by apply Z.eqb_eq|done|done].
  - right. do 2 eexists. split_and!; [done|done|right; by apply Z.eqb_neq|done|done].
  - eauto.
  - eauto.
Qed.

#[export] Instance ra_executor : Executor (evE T) machine.
Proof.
  refine {| m_exec := @exec_event |}. intros X t back [e|e] m x m'; [apply exec_mem_sound|].
  simpl. intros. by simplify_eq.
Defined.
End machine.
Arguments cell T : clear implicits.
Arguments machine T : clear implicits.

(** Two processes on one segment. *)
Abbreviation ra_conf T A B := (conf (evE T) (machine T) A B).
