(* ===== verification/RelyGuarantee.v ===== *)
(** * Rely/guarantee reasoning for two processes

    A [Protocol] is what the two processes agree on: an invariant of the memory and
    a ghost state, and for each process, what its peer may do to them while it is
    not running.  [wp] is the weakest precondition of one process's program under
    a protocol; two programs each verified on its own are safe side by side, in
    every interleaving and with every value the memory may return. *)

From stdpp Require Import relations.
From S2P Require Import Prelude Prog Effects Machine.
#[local] Open Scope Z_scope.

Section rg.
Class Protocol (W G : Type) : Type := {
  p_inv : W -> G -> Prop;
  p_rely : Role -> W * G -> W * G -> Prop }.

Class ProtocolOk (W G : Type) `{Protocol W G} : Prop := {
  p_rely_refl t s : p_inv s.1 s.2 -> p_rely t s s;
  p_rely_trans t s1 s2 s3 : p_rely t s1 s2 -> p_rely t s2 s3 -> p_rely t s1 s3 }.

Context {E : Type -> Type} {W : Type} `{Machine E W} {G : Type} {PR : Protocol W G}.

(** From [s], after any interference: the next access is safe, and whatever it
    answers, the ghost state can be updated so that the invariant holds, the peer
    sees only what it tolerates, and the rest of the program is verified. *)
Fixpoint wp {A} (t : Role) (p : prog E A) (Q : A -> W * G -> Prop)
    (s : W * G) : Prop :=
  match p with
  | Ret a => forall s', p_rely t s s' -> p_inv s'.1 s'.2 -> Q a s'
  | Vis e k =>
      forall s', p_rely t s s' -> p_inv s'.1 s'.2 ->
        m_safe t e s'.1 /\
        forall x m, m_step t e s'.1 x m ->
          exists g, p_inv m g /\ p_rely (peer t) s' (m, g) /\ wp t (k x) Q (m, g)
  end.

Context `{!ProtocolOk W G}.

Lemma wp_rely {A} t (p : prog E A) Q s s' :
  p_rely t s s' -> wp t p Q s -> wp t p Q s'.
Proof.
  destruct p as [a|X e k]; intros Hr Hw s'' Hr' Hi; apply Hw; eauto using p_rely_trans.
Qed.

Lemma wp_mono {A} t (p : prog E A) (Q Q' : A -> W * G -> Prop) s :
  (forall a s', p_inv s'.1 s'.2 -> Q a s' -> Q' a s') -> wp t p Q s -> wp t p Q' s.
Proof.
  intros HQ. revert s. induction p as [a|X e k IH]; intros s Hw s' Hr Hi; [by auto|].
  destruct (Hw s' Hr Hi) as [Hs Hk]. split; [done|]. intros x m Hx.
  destruct (Hk x m Hx) as (g & ? & ? & ?). eauto 6.
Qed.

Lemma wp_bind {A B} t (p : prog E A) (f : A -> prog E B) Q s :
  wp t p (fun a s' => wp t (f a) Q s') s -> wp t (bind p f) Q s.
Proof.
  revert s. induction p as [a|X e k IH]; intros s Hw; simpl in *.
  - destruct (f a) as [b|X e k] eqn:Hf; intros s' Hr Hi;
      specialize (Hw s' Hr Hi); apply Hw; auto using p_rely_refl.
  - intros s' Hr Hi. destruct (Hw s' Hr Hi) as [Hs Hk]. split; [done|].
    intros x m Hx. destruct (Hk x m Hx) as (g & ? & ? & ?). eauto 6.
Qed.

(** ** Two verified programs side by side *)
Section parallel.
Context {A B : Type}.
Context (QA : A -> W * G -> Prop) (QB : B -> W * G -> Prop).

Definition verified (c : conf E W A B) : Prop :=
  exists g, p_inv (memory c) g /\ wp Producer (pthread c) QA (memory c, g) /\
            wp Consumer (cthread c) QB (memory c, g).

Lemma verified_step c c' : verified c -> cstep c c' -> verified c'.
Proof.
  intros Hv Hst. revert Hv.
  destruct Hst as [p p' pc m m' Hs|p pc c2 m m' Hs]; intros (g & Hi & Hp & Hc); simpl in *.
  - destruct p as [a|X e k]; [done|]. destruct Hs as (x & Hx & ->).
    destruct (Hp (m, g)) as [_ Hk]; [by apply p_rely_refl|done|].
    destruct (Hk x m' Hx) as (g' & ? & Hr & ?). exists g'. eauto using wp_rely.
  - destruct pc as [a|X e k]; [done|]. destruct Hs as (x & Hx & ->).
    destruct (Hc (m, g)) as [_ Hk]; [by apply p_rely_refl|done|].
    destruct (Hk x m' Hx) as (g' & ? & Hr & ?). exists g'. eauto using wp_rely.
Qed.

Lemma verified_safe c : verified c -> conf_safe c.
Proof.
  intros (g & Hi & Hp & Hc). destruct c as [p pc m]; simpl in *. split; simpl.
  - destruct p; simpl; [done|]. apply (Hp (m, g)); auto using p_rely_refl.
  - destruct pc; simpl; [done|]. apply (Hc (m, g)); auto using p_rely_refl.
Qed.

Lemma verified_steps c c' : rtc cstep c c' -> verified c -> verified c'.
Proof. induction 1; eauto using verified_step. Qed.

Lemma verified_done a b m :
  verified (MkConf (Ret a) (Ret b) m) ->
  exists g, p_inv m g /\ QA a (m, g) /\ QB b (m, g).
Proof.
  intros (g & Hi & Hp & Hc). exists g. simpl in *.
  split_and!; [done|apply Hp|apply Hc]; auto using p_rely_refl.
Qed.

(** ** Completion

    A machine that never refuses a defined access lets every program run to its
    end. *)
Section completion.
Context (live : forall X t (e : E X) w g,
  p_inv w g -> m_safe t e w -> exists x w', m_step t e w x w').

Lemma psafe_can_step {X} t (p : prog E X) w g :
  p_inv w g -> psafe t p w -> (exists a, p = Ret a) \/ exists p' w', pstep t p w p' w'.
Proof.
  intros Hi Hs. destruct p as [a|Y e k]; [left; by eexists|right].
  destruct (live Y t e w g Hi Hs) as (x & w' & Hx). exists (k x), w'. by exists x.
Qed.

Lemma runs_to_end c :
  verified c -> exists a b w, rtc cstep c (MkConf (Ret a) (Ret b) w) /\ verified (MkConf (Ret a) (Ret b) w).
Proof.
  destruct c as [p q w]. revert q w. induction p as [a|X e k IHp]; intros q w.
  - revert w. induction q as [b|X e k IHq]; intros w Hv; [by exists a, b, w|].
    pose proof (verified_safe _ Hv) as [_ Hsafe]. pose proof Hv as (g & Hi & _).
    destruct (psafe_can_step Consumer _ w g Hi Hsafe) as [[? ?]|(p' & w' & x & Hx & ->)]; [done|].
    assert (cstep (MkConf (Ret a) (Vis e k) w) (MkConf (Ret a) (k x) w')) as Hst by (constructor; by exists x).
    destruct (IHq x w') as (a' & b' & w2 & Hr & Hv'); [by eapply verified_step|].
    exists a', b', w2. split; [by eapply rtc_l|done].
  - intros Hv. pose proof (verified_safe _ Hv) as [Hsafe _]. pose proof Hv as (g & Hi & _).
    destruct (psafe_can_step Producer _ w g Hi Hsafe) as [[? ?]|(p' & w' & x & Hx & ->)]; [done|].
    assert (cstep (MkConf (Vis e k) q w) (MkConf (k x) q w')) as Hst by (constructor; by exists x).
    destruct (IHp x q w') as (a' & b' & w2 & Hr & Hv'); [by eapply verified_step|].
    exists a', b', w2. split; [by eapply rtc_l|done].
Qed.
End completion.
End parallel.

(** One process running on its own ends in its postcondition; [L] is what its steps
    only let grow. *)
Lemma wp_reaches_post {A} (L : relation G) `{!PreOrder L} t (p : prog E A) Q s :
  (forall X (e : E X) w g, p_inv w g -> m_safe t e w -> exists x w', m_step t e w x w') ->
  (forall s s', p_rely (peer t) s s' -> L s.2 s'.2) ->
  p_inv s.1 s.2 -> wp t p Q s -> exists a s', Q a s' /\ L s.2 s'.2.
Proof.
  intros Hlive HL. revert s. induction p as [a|X e k IH]; intros s Hi Hw.
  - exists a, s. split; [|done]. apply Hw; auto using p_rely_refl.
  - destruct (Hw s) as [Hsafe Hk]; [auto using p_rely_refl|done|].
    destruct (Hlive X e s.1 s.2 Hi Hsafe) as (x & w' & Hx). destruct (Hk x w' Hx) as (g & Hg & Hr & Hw').
    destruct (IH x (w', g)) as (a & s' & HQ & Hl); [done|done|]. exists a, s'. split; [done|].
    etransitivity; [apply (HL _ _ Hr)|done].
Qed.
End rg.
#[global] Arguments wp : simpl never.
