(* ===== verification/SpscProtocol.v ===== *)
(** * The protocol of the ring

    What the producer and the consumer of one queue agree on.  The ghost state
    counts what the indices only know modulo the ring size: the list of all
    elements published so far, the number consumed, and the count behind every
    value ever stored to [writeIdx] and [readIdx].  The four rules of each side
    (read its own index, read the peer's index, touch a slot, publish its index)
    are all the operations of the queue use. *)

From S2P Require Import Prelude Prog Effects Machine Layout Segment Queue Shm Ring RaMemory RelyGuarantee.
#[local] Open Scope Z_scope.

(** ** Histories of counts

    The entries [h] of an index hold the residues of the counts [cs], which never
    decrease and end with [cur]; [K e c] is what the entry's view knows. *)
Section history.
Context (n : Z).

Record history (h : list msg) (cs : list Z) (cur : Z) (K : msg -> Z -> Prop) : Prop := {
  h_len : length cs = length h;
  h_last : last cs = Some cur;
  h_mono : forall i j a b, (i <= j)%nat -> cs !! i = Some a -> cs !! j = Some b -> a <= b;
  h_entry : forall i e c, h !! i = Some e -> cs !! i = Some c -> m_val e = c mod n /\ K e c }.

Context (h : list msg) (cs : list Z) (cur : Z) (K : msg -> Z -> Prop).
Context (Hh : history h cs cur K).

Lemma history_count i e : h !! i = Some e -> exists c, cs !! i = Some c /\ m_val e = c mod n /\ K e c.
Proof.
  intros He. pose proof (h_len _ _ _ _ Hh). apply lookup_lt_Some in He as Hlt.
  destruct (lookup_lt_is_Some_2 cs i) as [c Hc]; [lia|]. exists c. split; [done|].
  by apply (h_entry _ _ _ _ Hh i).
Qed.

Lemma history_at i : (i < length h)%nat -> exists c, cs !! i = Some c.
Proof. rewrite <- (h_len _ _ _ _ Hh). apply lookup_lt_is_Some_2. Qed.

Lemma history_cur i : S i = length h -> cs !! i = Some cur.
Proof.
  intros Hi. pose proof (h_last _ _ _ _ Hh) as Hl. rewrite last_lookup in Hl.
  rewrite (h_len _ _ _ _ Hh), <- Hi in Hl. done.
Qed.

Lemma history_le i c : cs !! i = Some c -> c <= cur.
Proof.
  intros Hc. apply lookup_lt_Some in Hc as Hlt. pose proof (h_len _ _ _ _ Hh).
  eapply (h_mono _ _ _ _ Hh); [|done|apply (history_cur (pred (length h))); lia]. lia.
Qed.

Lemma history_append e cur' K' :
  cur <= cur' -> m_val e = cur' mod n -> K' e cur' ->
  (forall e c, c <= cur -> K e c -> K' e c) ->
  history (h ++ [e]) (cs ++ [cur']) cur' K'.
Proof.
  intros Hle Hv Hk HK. pose proof (h_len _ _ _ _ Hh) as Hlen. split.
  - rewrite !length_app, Hlen. done.
  - apply last_snoc.
  - intros i j a b Hij Ha Hb.
    apply lookup_app_Some in Ha as [Ha|[? [? <-]%list_lookup_singleton_Some]];
    apply lookup_app_Some in Hb as [Hb|[? [? <-]%list_lookup_singleton_Some]].
    + by eapply (h_mono _ _ _ _ Hh).
    + apply history_le in Ha. lia.
    + apply lookup_lt_Some in Hb. lia.
    + lia.
  - intros i e' c He Hc.
    apply lookup_app_Some in He as [He|[Hge [Hi <-]%list_lookup_singleton_Some]].
    + rewrite lookup_app_l in Hc by (apply lookup_lt_Some in He; lia).
      destruct (h_entry _ _ _ _ Hh i e' c He Hc). split; [done|].
      eapply HK; [|done]. by eapply history_le.
    + rewrite lookup_app_r in Hc by lia.
      apply list_lookup_singleton_Some in Hc as [_ <-]. done.
Qed.
End history.

Lemma history_weaken n h cs cur (K K' : msg -> Z -> Prop) :
  history n h cs cur K -> (forall e c, c <= cur -> K e c -> K' e c) -> history n h cs cur K'.
Proof.
  intros Hh HK. destruct Hh as [? ? ? He] eqn:E. split; try done.
  intros i e c H1 H2. destruct (He i e c H1 H2). split; [done|].
  eapply HK; [|done]. eapply history_le; eauto.
Qed.

Section protocol.
Context {T : Type} `{Platform} `{Elem T}.
Context (n : Z) (Hn : ring_size n) (B : Role -> Z).

Record ghost : Type := MkGhost {
  g_log : list T;
  g_cns : Z;
  g_pcs : list Z;
  g_ccs : list Z }.

Definition pubs (g : ghost) : Z := zlen (g_log g).

(** The write epoch of the slot of count [k], and its consumer read epoch. *)
Definition wr_ep (m : machine T) (k : Z) : nat := snd (c_wr (cells m (k mod n))).
Definition rd_ep (m : machine T) (k : Z) : nat := c_rd (cells m (k mod n)) Consumer.

(** An entry of [writeIdx] releases the writes of every element it publishes; an
    entry of [readIdx] releases the reads of every slot it gives back. *)
Definition K_write (m : machine T) (g : ghost) (e : msg) (pc : Z) : Prop :=
  forall k, g_cns g <= k < pc -> (wr_ep m k <= vc (m_view e) Producer)%nat.
Definition K_read (m : machine T) (g : ghost) (e : msg) (cc : Z) : Prop :=
  forall k, pubs g <= k < cc + n -> (rd_ep m k <= vc (m_view e) Consumer)%nat.

Record spsc_inv (m : machine T) (g : ghost) : Prop := {
  i_mem : mem_ok m;
  i_slots : nslots m = n;
  i_base : base m = B;
  i_count : 0 <= g_cns g <= pubs g /\ pubs g <= g_cns g + (n - 1);
  i_write : history n (hist m writeIdx) (g_pcs g) (pubs g) (K_write m g);
  i_read : history n (hist m readIdx) (g_ccs g) (g_cns g) (K_read m g);
  i_own_write : S (vt (views m Producer) writeIdx) = length (hist m writeIdx);
  i_own_read : S (vt (views m Consumer) readIdx) = length (hist m readIdx);
  i_wr k : fst (c_wr (cells m k)) = Producer /\
           (snd (c_wr (cells m k)) <= vc (views m Producer) Producer)%nat;
  i_rd k : c_rd (cells m k) Producer = O /\
           (c_rd (cells m k) Consumer <= vc (views m Consumer) Consumer)%nat;
  i_val k v : g_cns g <= k -> g_log g !! Z.to_nat k = Some v -> c_val (cells m (k mod n)) = v }.

(** What the producer tolerates: the consumer only consumes, and only reads slots
    of published elements. *)
Record rely_producer (m : machine T) (g : ghost) (m' : machine T) (g' : ghost) : Prop := {
  rp_log : g_log g' = g_log g;
  rp_view : views m' Producer = views m Producer;
  rp_cns : g_cns g <= g_cns g';
  rp_ccs : g_ccs g `prefix_of` g_ccs g';
  rp_val k : c_val (cells m' k) = c_val (cells m k);
  rp_rd k : pubs g <= k < g_cns g + n -> rd_ep m' k = rd_ep m k }.

(** What the consumer tolerates: the producer only publishes, and leaves the slots
    of published, unconsumed elements alone. *)
Record rely_consumer (m : machine T) (g : ghost) (m' : machine T) (g' : ghost) : Prop := {
  rc_cns : g_cns g' = g_cns g;
  rc_view : views m' Consumer = views m Consumer;
  rc_log : g_log g `prefix_of` g_log g';
  rc_pcs : g_pcs g `prefix_of` g_pcs g';
  rc_cell k : g_cns g <= k < pubs g -> cells m' (k mod n) = cells m (k mod n) }.

Definition spsc_rely (t : Role) (s s' : machine T * ghost) : Prop :=
  match t with
  | Producer => rely_producer s.1 s.2 s'.1 s'.2
  | Consumer => rely_consumer s.1 s.2 s'.1 s'.2
  end.

#[local] Instance spsc_protocol : Protocol (machine T) ghost := {
  p_inv := spsc_inv; p_rely := spsc_rely }.

#[local] Instance spsc_protocol_ok : ProtocolOk (machine T) ghost.
Proof.
  split.
  - intros [] s _; split; done.
  - intros [] [m1 g1] [m2 g2] [m3 g3]; simpl.
    + intros [H1 H2 H3 H4 H5 H6] [L1 L2 L3 L4 L5 L6]. split; try congruence; [lia|by etrans|].
      intros k Hk. unfold pubs in *. rewrite <- H6 by done. apply L6. rewrite H1. lia.
    + intros [H1 H2 H3 H4 H5] [L1 L2 L3 L4 L5]. split; try congruence; [by etrans|by etrans|].
      intros k Hk. rewrite <- H5 by done. apply L5.
      apply prefix_length in H3. unfold pubs, zlen in *. lia.
Qed.

(** ** What a process knows between its accesses

    The producer: the published list, a consumed count [rc] it may rely on, and the
    elements [pend] it has copied into slots but not yet published. *)
Record prod_knows (s : machine T * ghost) (log : list T) (rc : Z) (pend : list T) : Prop := {
  pk_log : g_log s.2 = log;
  pk_rc : 0 <= rc <= g_cns s.2;
  pk_le : rc <= zlen log;
  pk_room : zlen log + zlen pend <= rc + (n - 1);
  pk_seen : exists cc, g_ccs s.2 !! vt (views s.1 Producer) readIdx = Some cc /\ rc <= cc;
  pk_free k : zlen log <= k < rc + n -> (rd_ep s.1 k <= vc (views s.1 Producer) Consumer)%nat;
  pk_pend j v : pend !! j = Some v ->
    c_val (cells s.1 ((zlen log + Z.of_nat j) mod n)) = v }.

(** The consumer: the consumed count [c] and a prefix [known] of the published
    list, whose unconsumed elements it may read. *)
Record cons_knows (s : machine T * ghost) (c : Z) (known : list T) : Prop := {
  ck_cns : g_cns s.2 = c;
  ck_known : known `prefix_of` g_log s.2;
  ck_room : 0 <= c <= zlen known;
  ck_le : zlen known <= c + (n - 1);
  ck_seen : exists pc, g_pcs s.2 !! vt (views s.1 Consumer) writeIdx = Some pc /\ zlen known <= pc;
  ck_avail k : c <= k < zlen known -> (wr_ep s.1 k <= vc (views s.1 Consumer) Producer)%nat }.

Lemma prod_knows_rely s s' log rc pend :
  spsc_rely Producer s s' -> prod_knows s log rc pend -> prod_knows s' log rc pend.
Proof.
  intros [H1 H2 H3 H4 H5 H6] [K1 K2 K2' K3 (cc & K4 & K4') K5 K6]. split; [congruence|lia|done|done| | |].
  - exists cc. rewrite H2. split; [by eapply prefix_lookup_Some|done].
  - intros k Hk. rewrite H2, H6; [by apply K5|]. unfold pubs. rewrite K1. lia.
  - intros j v Hj. rewrite H5. by apply K6.
Qed.

Lemma cons_knows_rely s s' c known :
  spsc_rely Consumer s s' -> cons_knows s c known -> cons_knows s' c known.
Proof.
  intros [H1 H2 H3 H4 H5] [K1 K2 K3 K3' (pc & K4 & K4') K5]. split; [congruence|by etrans|done|done| |].
  - exists pc. rewrite H2. split; [by eapply prefix_lookup_Some|done].
  - intros k Hk. unfold wr_ep. rewrite H2, H5; [by apply K5|].
    apply prefix_length in K2. unfold pubs, zlen in *. lia.
Qed.

(** ** Learning more *)
Lemma raise_inv t v m g :
  spsc_inv m g -> view_le (views m t) v -> view_ok m v -> spsc_inv (set_view t v m) g.
Proof.
  intros Hi [Ht Hc] Hok. pose proof (ok_threads m (i_mem m g Hi)) as Hth.
  destruct Hi as [Hm Hs Hb Hcnt Hw Hr Ow Or Wr Rd Val].
  split; try done; simpl.
  - by apply mem_ok_set_view.
  - destruct t; autorewrite with fupd; [|done].
    specialize (Ht writeIdx). specialize (Hok writeIdx). lia.
  - destruct t; autorewrite with fupd; [done|].
    specialize (Ht readIdx). specialize (Hok readIdx). lia.
  - intros k. destruct (Wr k). split; [done|].
    destruct t; autorewrite with fupd; [|done]. specialize (Hc Producer). lia.
  - intros k. destruct (Rd k). split; [done|].
    destruct t; autorewrite with fupd; [done|]. specialize (Hc Consumer). lia.
Qed.

Lemma raise_rely t v m g : spsc_rely (peer t) (m, g) (set_view t v m, g).
Proof. destruct t; split; simpl; autorewrite with fupd; done. Qed.

Lemma raise_prod v m g log rc pend :
  spsc_inv m g -> view_le (views m Producer) v -> view_ok m v ->
  prod_knows (m, g) log rc pend -> prod_knows (set_view Producer v m, g) log rc pend.
Proof.
  intros Hi [Ht Hc] Hok [K1 K2 K2' K3 (cc & K4 & K4') K5 K6]. split; try done; simpl in *.
  - autorewrite with fupd.
    destruct (history_at _ _ _ _ _ (i_read m g Hi) (vt v readIdx) (Hok readIdx)) as [cc' Hcc'].
    exists cc'. split; [done|].
    pose proof (h_mono _ _ _ _ _ (i_read m g Hi) _ _ _ _ (Ht readIdx) K4 Hcc'). lia.
  - intros k Hk. autorewrite with fupd. specialize (K5 k Hk). specialize (Hc Consumer).
    unfold rd_ep in *. simpl. lia.
Qed.

Lemma raise_cons v m g c known :
  spsc_inv m g -> view_le (views m Consumer) v -> view_ok m v ->
  cons_knows (m, g) c known -> cons_knows (set_view Consumer v m, g) c known.
Proof.
  intros Hi [Ht Hc] Hok [K1 K2 K3 K3' (pc & K4 & K4') K5]. split; try done; simpl in *.
  - autorewrite with fupd.
    destruct (history_at _ _ _ _ _ (i_write m g Hi) (vt v writeIdx) (Hok writeIdx)) as [pc' Hpc'].
    exists pc'. split; [done|].
    pose proof (h_mono _ _ _ _ _ (i_write m g Hi) _ _ _ _ (Ht writeIdx) K4 Hpc'). lia.
  - intros k Hk. autorewrite with fupd. specialize (K5 k Hk). specialize (Hc Producer).
    unfold wr_ep in *. simpl. lia.
Qed.

(** An atomic load by either process: it returns the value of some entry the
    process has not seen overwritten, and the process learns what the order lets
    it learn. *)
Lemma wp_load {A} t f o (k : Z -> prog (evE T) A) Q s :
  (forall m g i e,
     spsc_rely t s (m, g) -> spsc_inv m g -> hist m f !! i = Some e ->
     (vt (views m t) f <= i)%nat ->
     view_le (views m t) (after_load o f i e (views m t)) ->
     view_ok m (after_load o f i e (views m t)) ->
     wp t (k (m_val e)) Q (set_view t (after_load o f i e (views m t)) m, g)) ->
  wp t (Vis (Mem (ALoad (B t) f o)) k) Q s.
Proof.
  intros Hk [m g] Hr Hi. simpl in Hi. split.
  - simpl. rewrite (i_base m g Hi). split; [done|]. apply (ok_threads m (i_mem m g Hi)).
  - intros x m' (i & e & He & Hle & -> & ->).
    pose proof (after_load_le o f i e (views m t)).
    pose proof (after_load_ok m t o f i e (i_mem m g Hi) He).
    exists g. split_and!; [by apply raise_inv|apply raise_rely|by apply Hk].
Qed.

(** ** Effects of the plain accesses and of the index stores *)
Lemma slot_ne i j : i <> j -> Z.abs (i - j) < n -> i mod n <> j mod n.
Proof. intros Hne Hd He. apply mod_inj in He; [lia|apply ring_pos, Hn|done]. Qed.

(** The memory after the producer has written [v] to the slot of count [j]. *)
Definition slot_written (j : Z) (v : T) (m : machine T) : machine T :=
  set_cell (j mod n) (MkCell v (Producer, vc (views m Producer) Producer)
    (c_rd (cells m (j mod n)))) m.

(** The memory after the consumer has read the slot of count [j]. *)
Definition slot_taken (j : Z) (m : machine T) : machine T :=
  set_cell (j mod n) (MkCell (c_val (cells m (j mod n))) (c_wr (cells m (j mod n)))
    (fupd Consumer (vc (views m Consumer) Consumer) (c_rd (cells m (j mod n))))) m.

Lemma slot_written_ne i j v m :
  i <> j -> Z.abs (i - j) < n -> cells (slot_written j v m) (i mod n) = cells m (i mod n).
Proof. intros. simpl. apply fupd_ne. by apply slot_ne. Qed.

Lemma slot_written_rd i j v m : c_rd (cells (slot_written j v m) i) = c_rd (cells m i).
Proof. simpl. unfold fupd. case_decide; by subst. Qed.

Lemma slot_taken_ne i j m :
  i <> j -> Z.abs (i - j) < n -> cells (slot_taken j m) (i mod n) = cells m (i mod n).
Proof. intros. simpl. apply fupd_ne. by apply slot_ne. Qed.

Lemma slot_taken_val i j m : c_val (cells (slot_taken j m) i) = c_val (cells m i).
Proof. simpl. unfold fupd. case_decide; by subst. Qed.

Lemma slot_taken_wr i j m : c_wr (cells (slot_taken j m) i) = c_wr (cells m i).
Proof. simpl. unfold fupd. case_decide; by subst. Qed.

(** Writing a slot that holds no unconsumed element. *)
Lemma slot_written_ok j v m g :
  spsc_inv m g -> pubs g <= j < g_cns g + n ->
  spsc_inv (slot_written j v m) g /\ rely_consumer m g (slot_written j v m) g.
Proof.
  intros Hi Hj. destruct (i_count m g Hi) as [Hc1 Hc2].
  destruct Hi as [Im Is Ib Ic Iw Ir Iow Ior Iwr Ird Iv]. split; split; try done.
  - by apply mem_ok_set_cell.
  - eapply history_weaken; [exact Iw|]. intros e c Hc HK i Hik.
    unfold wr_ep. rewrite slot_written_ne by lia. by apply HK.
  - eapply history_weaken; [exact Ir|]. intros e c Hc HK i Hik.
    unfold rd_ep. rewrite slot_written_rd. by apply HK.
  - intros i. simpl. unfold fupd. case_decide; [done|apply Iwr].
  - intros i. rewrite slot_written_rd. apply Ird.
  - intros i x Hik Hx. assert (i < pubs g).
    { apply lookup_lt_Some in Hx. unfold pubs, zlen. lia. }
    rewrite slot_written_ne by lia. by apply Iv.
  - intros i Hik. apply slot_written_ne; lia.
Qed.

(** Reading a slot that holds an unconsumed element. *)
Lemma slot_taken_ok j m g :
  spsc_inv m g -> g_cns g <= j < pubs g ->
  spsc_inv (slot_taken j m) g /\ rely_producer m g (slot_taken j m) g.
Proof.
  intros Hi Hj. destruct (i_count m g Hi) as [Hc1 Hc2].
  destruct Hi as [Im Is Ib Ic Iw Ir Iow Ior Iwr Ird Iv].
  assert (Hrd : forall i, pubs g <= i < g_cns g + n -> rd_ep (slot_taken j m) i = rd_ep m i).
  { intros i Hik. unfold rd_ep. rewrite slot_taken_ne by lia. done. }
  split; split; try done.
  - by apply mem_ok_set_cell.
  - eapply history_weaken; [exact Iw|]. intros e c Hc HK i Hik.
    unfold wr_ep. rewrite slot_taken_wr. by apply HK.
  - eapply history_weaken; [exact Ir|]. intros e c Hc HK i Hik.
    rewrite Hrd by lia. by apply HK.
  - intros i. rewrite slot_taken_wr. apply Iwr.
  - intros i. specialize (Ird i). simpl. unfold fupd. case_decide; subst; simpl; [|done].
    destruct Ird. by autorewrite with fupd.
  - intros i x Hik Hx. rewrite slot_taken_val. by apply Iv.
  - intros i. apply slot_taken_val.
Qed.

Lemma do_store_hist t f x o (m : machine T) g :
  hist (do_store t f x o m) g =
  if decide (g = f) then hist m f ++ [MkMsg x (released o f (length (hist m f)) (views m t))]
  else hist m g.
Proof. simpl. unfold fupd. case_decide; by subst. Qed.

(** The store of [writeIdx] that publishes [pend]. *)
Definition publish (pend : list T) (g : ghost) : ghost :=
  MkGhost (g_log g ++ pend) (g_cns g) (g_pcs g ++ [pubs g + zlen pend]) (g_ccs g).

Lemma publish_ok pend m g :
  spsc_inv m g ->
  pubs g + zlen pend <= g_cns g + (n - 1) ->
  (forall j v, pend !! j = Some v -> c_val (cells m ((pubs g + Z.of_nat j) mod n)) = v) ->
  let m' := do_store Producer writeIdx ((pubs g + zlen pend) mod n) release m in
  spsc_inv m' (publish pend g) /\ rely_consumer m g m' (publish pend g).
Proof.
  intros Hi Hroom Hval m'. pose proof (zlen_nonneg pend).
  destruct Hi as [Im Is Ib Ic Iw Ir Iow Ior Iwr Ird Iv].
  assert (Hp : pubs (publish pend g) = pubs g + zlen pend) by apply zlen_app.
  split; split; try done; try rewrite Hp; try (subst m'; rewrite do_store_hist; simpl).
  - by apply mem_ok_do_store.
  - simpl. lia.
  - eapply history_append; [exact Iw|lia|done| |done].
    intros k Hk. simpl. apply Iwr.
  - eapply history_weaken; [exact Ir|]. intros e c Hc HK k Hk. rewrite Hp in Hk. apply HK. lia.
  - rewrite length_app. autorewrite with fupd. simpl. autorewrite with fupd. lia.
  - intros k. destruct (Iwr k). subst m'. simpl. autorewrite with fupd. simpl. autorewrite with fupd. split; [done|lia].
  - intros k v Hk Hv. simpl in Hv. apply lookup_app_Some in Hv as [Hv|[Hge Hv]]; [by apply Iv|].
    unfold pubs, zlen in *. simpl in *. rewrite <- (Hval _ _ Hv). do 3 f_equal. lia.
  - simpl. by apply prefix_app_r.
  - simpl. by apply prefix_app_r.
Qed.

(** The store of [readIdx] that consumes up to count [c']. *)
Definition consume (c' : Z) (g : ghost) : ghost :=
  MkGhost (g_log g) c' (g_pcs g) (g_ccs g ++ [c']).

Lemma consume_ok c' m g :
  spsc_inv m g -> g_cns g <= c' <= pubs g ->
  let m' := do_store Consumer readIdx (c' mod n) release m in
  spsc_inv m' (consume c' g) /\ rely_producer m g m' (consume c' g).
Proof.
  intros Hi Hc' m'.
  destruct Hi as [Im Is Ib Ic Iw Ir Iow Ior Iwr Ird Iv].
  assert (Hp : pubs (consume c' g) = pubs g) by done.
  split; split; try done; try rewrite Hp; try (subst m'; rewrite do_store_hist; simpl).
  - by apply mem_ok_do_store.
  - simpl. lia.
  - eapply history_weaken; [exact Iw|]. intros e c Hc HK k Hk. apply HK. simpl in Hk. lia.
  - eapply history_append; [exact Ir|lia|done| |done].
    intros k Hk. simpl. apply Ird.
  - rewrite length_app. autorewrite with fupd. simpl. autorewrite with fupd. lia.
  - intros k. destruct (Ird k). subst m'. simpl. autorewrite with fupd. simpl. autorewrite with fupd. split; [done|lia].
  - intros k v Hk Hv. apply Iv; [simpl in Hk; lia|done].
  - simpl. lia.
  - simpl. by apply prefix_app_r.
Qed.

(** ** The producer's rules *)
Section producer_rules.
Context {A : Type} (Q : A -> machine T * ghost -> Prop).
Context (s : machine T * ghost) (log : list T) (rc : Z) (pend : list T).
Context (Hs : prod_knows s log rc pend).

Lemma wp_prod_load_any f o (k : Z -> prog (evE T) A) :
  (forall s' x, prod_knows s' log rc pend -> wp Producer (k x) Q s') ->
  wp Producer (Vis (Mem (ALoad (B Producer) f o)) k) Q s.
Proof.
  intros Hk. apply wp_load. intros m g i e Hr Hi He Hle Hv Hok.
  apply Hk. apply raise_prod; try done. by eapply prod_knows_rely.
Qed.

Lemma wp_prod_load_own o (k : Z -> prog (evE T) A) :
  (forall s', prod_knows s' log rc pend -> wp Producer (k (zlen log mod n)) Q s') ->
  wp Producer (Vis (Mem (ALoad (B Producer) writeIdx o)) k) Q s.
Proof.
  intros Hk. apply wp_load. intros m g i e Hr Hi He Hle Hv Hok.
  pose proof (prod_knows_rely _ _ _ _ _ Hr Hs) as Hs'.
  pose proof (i_own_write m g Hi) as Hown. apply lookup_lt_Some in He as Hlt.
  destruct (history_count _ _ _ _ _ (i_write m g Hi) i e He) as (c & Hc & -> & _).
  rewrite (history_cur _ _ _ _ _ (i_write m g Hi) i) in Hc by lia. simplify_eq.
  pose proof (pk_log _ _ _ _ Hs') as Hl. simpl in Hl. unfold pubs. rewrite Hl.
  apply Hk. by apply raise_prod.
Qed.

Lemma wp_prod_load_peer (k : Z -> prog (evE T) A) :
  (forall s' rc', rc <= rc' -> prod_knows s' log rc' pend -> wp Producer (k (rc' mod n)) Q s') ->
  wp Producer (Vis (Mem (ALoad (B Producer) readIdx acquire)) k) Q s.
Proof.
  intros Hk. apply wp_load. intros m g i e Hr Hi He Hle Hv Hok.
  pose proof (prod_knows_rely _ _ _ _ _ Hr Hs) as [K1 K2 K2' K3 (cc & K4 & K4') K5 K6]. simpl in *.
  pose proof (i_read m g Hi) as Hh.
  destruct (history_count _ _ _ _ _ Hh i e He) as (c & Hc & -> & Hkr).
  pose proof (h_mono _ _ _ _ _ Hh _ _ _ _ Hle K4 Hc).
  pose proof (history_le _ _ _ _ _ Hh i c Hc).
  destruct (i_count m g Hi) as [Hcnt _]. unfold pubs in Hcnt. rewrite K1 in Hcnt.
  apply Hk; [lia|]. split; simpl; try done; try lia.
  - autorewrite with fupd.
    destruct (history_at _ _ _ _ _ Hh _ (Hok readIdx)) as [c' Hc'].
    exists c'. split; [done|].
    eapply (h_mono _ _ _ _ _ Hh); [|exact Hc|exact Hc']. apply after_load_at.
  - intros j Hj. autorewrite with fupd.
    pose proof (after_load_acquire readIdx i e (views m Producer)) as [_ Hvc].
    specialize (Hvc Consumer). specialize (Hkr j). unfold pubs in Hkr. rewrite K1 in Hkr.
    unfold rd_ep in *. simpl in *. specialize (Hkr ltac:(lia)). lia.
Qed.

Lemma wp_prod_os {X} (e : osE X) (k : X -> prog (evE T) A) :
  safe_os e ->
  (forall s' x, prod_knows s' log rc pend -> wp Producer (k x) Q s') ->
  wp Producer (Vis (Os e) k) Q s.
Proof.
  intros He Hk [m g] Hr Hi. split; [done|]. intros x m' ->. exists g.
  split_and!; [done|by apply (p_rely_refl Consumer)|].
  apply Hk. by eapply prod_knows_rely.
Qed.

Context `{!PlatformOk _} `{!ElemOk T}.

(** Copying the next element into the first slot after the pending ones. *)
Lemma wp_prod_write v (k : unit -> prog (evE T) A) :
  zlen log + zlen pend + 1 <= rc + (n - 1) ->
  (forall s', prod_knows s' log rc (pend ++ [v]) -> wp Producer (k tt) Q s') ->
  wp Producer (Vis (Mem (SlotWrite
    (B Producer + sizeof_ControlBlock + (zlen log + zlen pend) mod n * sizeT T) v)) k) Q s.
Proof.
  intros Hroom Hk [m g] Hr Hi. simpl in Hi.
  pose proof (prod_knows_rely _ _ _ _ _ Hr Hs) as [K1 K2 K2' K3 K4 K5 K6]. simpl in *.
  pose proof (ring_pos n Hn) as Hpos. pose proof (zlen_nonneg log). pose proof (zlen_nonneg pend).
  destruct (i_count m g Hi) as [Hc1 _]. unfold pubs in Hc1. rewrite K1 in Hc1.
  set (j := zlen log + zlen pend) in *.
  pose proof (mod_range n Hpos j) as Hj.
  assert (Hat : slot_at (T := T) (base m Producer)
            (B Producer + sizeof_ControlBlock + j mod n * sizeT T) = Some (j mod n)).
  { rewrite (i_base m g Hi). apply slot_at_addr. lia. }
  pose proof (i_wr m g Hi (j mod n)) as [Hw1 Hw2]. pose proof (i_rd m g Hi (j mod n)) as [Hr1 Hr2].
  split.
  { exists (j mod n). split_and!; [done|lia|rewrite (i_slots m g Hi); lia| |].
    - unfold wr_known. rewrite Hw1. done.
    - intros []; [rewrite Hr1; lia|]. apply (K5 j). lia. }
  intros [] m' (i & Hi' & ->). rewrite Hat in Hi'. injection Hi' as <-. exists g.
  fold (slot_written j v m).
  destruct (slot_written_ok j v m g Hi) as [Hinv Hrely]; [unfold pubs; rewrite K1; lia|].
  split_and!; [done|done|]. apply Hk. split; try done.
  - zl. lia.
  - intros i Hik. unfold rd_ep. simpl fst. rewrite slot_written_rd. by apply K5.
  - intros i x Hx. simpl fst.
    apply lookup_app_Some in Hx as [Hx|[Hge [Hi0 <-]%list_lookup_singleton_Some]].
    + apply lookup_lt_Some in Hx as Hlt.
      rewrite slot_written_ne by (unfold j, zlen in *; lia). by apply K6.
    + replace (zlen log + Z.of_nat i) with j by (unfold j, zlen in *; lia).
      simpl. by rewrite fupd_eq.
Qed.

(** The release store of [writeIdx]: the pending elements become published. *)
Lemma wp_prod_publish (k : unit -> prog (evE T) A) :
  (forall s', prod_knows s' (log ++ pend) rc [] -> wp Producer (k tt) Q s') ->
  wp Producer (Vis (Mem (AStore (B Producer) writeIdx ((zlen log + zlen pend) mod n) release)) k)
    Q s.
Proof.
  intros Hk [m g] Hr Hi. simpl in Hi.
  pose proof (prod_knows_rely _ _ _ _ _ Hr Hs) as [K1 K2 K2' K3 (cc & K4 & K4') K5 K6]. simpl in *.
  pose proof (zlen_nonneg pend).
  split; [by rewrite (i_base m g Hi), (i_own_write m g Hi)|].
  intros [] m' ->. exists (publish pend g).
  destruct (publish_ok pend m g Hi) as [Hinv Hrely]; unfold pubs in *; rewrite K1 in *; [lia|done|].
  split_and!; [done|done|]. apply Hk. split; simpl; autorewrite with fupd zlist; try done; try lia.
  - by rewrite K1.
  - simpl. exists cc. autorewrite with fupd. done.
  - intros i Hik. simpl. autorewrite with fupd. apply K5. lia.
Qed.
End producer_rules.

(** ** The consumer's rules *)
Section consumer_rules.
Context {A : Type} (Q : A -> machine T * ghost -> Prop).
Context (s : machine T * ghost) (c : Z) (known : list T).
Context (Hs : cons_knows s c known).

Lemma wp_cons_load_any f o (k : Z -> prog (evE T) A) :
  (forall s' x, cons_knows s' c known -> wp Consumer (k x) Q s') ->
  wp Consumer (Vis (Mem (ALoad (B Consumer) f o)) k) Q s.
Proof.
  intros Hk. apply wp_load. intros m g i e Hr Hi He Hle Hv Hok.
  apply Hk. apply raise_cons; try done. by eapply cons_knows_rely.
Qed.

Lemma wp_cons_load_own o (k : Z -> prog (evE T) A) :
  (forall s', cons_knows s' c known -> wp Consumer (k (c mod n)) Q s') ->
  wp Consumer (Vis (Mem (ALoad (B Consumer) readIdx o)) k) Q s.
Proof.
  intros Hk. apply wp_load. intros m g i e Hr Hi He Hle Hv Hok.
  pose proof (cons_knows_rely _ _ _ _ Hr Hs) as Hs'.
  pose proof (i_own_read m g Hi) as Hown. apply lookup_lt_Some in He as Hlt.
  destruct (history_count _ _ _ _ _ (i_read m g Hi) i e He) as (c' & Hc & -> & _).
  rewrite (history_cur _ _ _ _ _ (i_read m g Hi) i) in Hc by lia.
  pose proof (ck_cns _ _ _ Hs') as Hl. simpl in Hl. rewrite Hl in Hc. injection Hc as <-.
  apply Hk. by apply raise_cons.
Qed.

(** The consumer reads [writeIdx]: everything published by the entry it reads
    becomes known, and at least what was known before. *)
Lemma wp_cons_load_peer (k : Z -> prog (evE T) A) :
  (forall s' known', known `prefix_of` known' -> cons_knows s' c known' ->
     wp Consumer (k (zlen known' mod n)) Q s') ->
  wp Consumer (Vis (Mem (ALoad (B Consumer) writeIdx acquire)) k) Q s.
Proof.
  intros Hk. apply wp_load. intros m g i e Hr Hi He Hle Hv Hok.
  pose proof (cons_knows_rely _ _ _ _ Hr Hs) as [K1 K2 K3 K3' (pc & K4 & K4') K5]. simpl in *.
  pose proof (i_write m g Hi) as Hh.
  destruct (history_count _ _ _ _ _ Hh i e He) as (p & Hp & -> & Hkw).
  pose proof (h_mono _ _ _ _ _ Hh _ _ _ _ Hle K4 Hp).
  pose proof (history_le _ _ _ _ _ Hh i p Hp) as Hple. unfold pubs in Hple.
  destruct (i_count m g Hi) as [_ Hcnt]. unfold pubs in Hcnt. rewrite K1 in Hcnt.
  assert (Hlen : zlen (ztake p (g_log g)) = p) by (apply zlen_ztake; lia).
  rewrite <- Hlen. apply Hk.
  - apply prefix_ztake; [done|lia].
  - split; simpl; rewrite ?Hlen; autorewrite with fupd; try done; try lia.
    + apply prefix_take.
    + destruct (history_at _ _ _ _ _ Hh _ (Hok writeIdx)) as [p' Hp'].
      exists p'. split; [done|].
      eapply (h_mono _ _ _ _ _ Hh); [|exact Hp|exact Hp']. apply after_load_at.
    + intros j Hj. pose proof (after_load_acquire writeIdx i e (views m Consumer)) as [_ Hvc].
      specialize (Hvc Producer). specialize (Hkw j). rewrite K1 in Hkw. specialize (Hkw Hj).
      unfold wr_ep in *. simpl in *. lia.
Qed.

Lemma wp_cons_os {X} (e : osE X) (k : X -> prog (evE T) A) :
  safe_os e ->
  (forall s' x, cons_knows s' c known -> wp Consumer (k x) Q s') ->
  wp Consumer (Vis (Os e) k) Q s.
Proof.
  intros He Hk [m g] Hr Hi. split; [done|]. intros x m' ->. exists g.
  split_and!; [done|by apply (p_rely_refl Producer)|].
  apply Hk. by eapply cons_knows_rely.
Qed.

Context `{!PlatformOk _} `{!ElemOk T}.

(** Copying a known element out of its slot. *)
Lemma wp_cons_read j v (k : T -> prog (evE T) A) :
  c <= j -> known !! Z.to_nat j = Some v ->
  (forall s', cons_knows s' c known -> wp Consumer (k v) Q s') ->
  wp Consumer (Vis (Mem (SlotRead
    (B Consumer + sizeof_ControlBlock + j mod n * sizeT T))) k) Q s.
Proof.
  intros Hcj Hj Hk [m g] Hr Hi. simpl in Hi.
  pose proof (cons_knows_rely _ _ _ _ Hr Hs) as [K1 K2 K3 K3' K4 K5]. simpl in *.
  pose proof (ring_pos n Hn) as Hpos. pose proof (mod_range n Hpos j) as Hjn.
  assert (Hlt : j < zlen known) by (apply lookup_lt_Some in Hj; unfold zlen; lia).
  assert (Hat : slot_at (T := T) (base m Consumer)
            (B Consumer + sizeof_ControlBlock + j mod n * sizeT T) = Some (j mod n)).
  { rewrite (i_base m g Hi). apply slot_at_addr. lia. }
  split.
  { exists (j mod n). split_and!; [done|lia|rewrite (i_slots m g Hi); lia|].
    unfold wr_known. destruct (i_wr m g Hi (j mod n)) as [-> _]. by apply K5. }
  intros x m' (i & Hi' & -> & ->). rewrite Hat in Hi'. injection Hi' as <-. exists g.
  fold (slot_taken j m).
  assert (zlen known <= pubs g) by (apply prefix_length in K2; unfold pubs, zlen in *; lia).
  destruct (slot_taken_ok j m g Hi) as [Hinv Hrely]; [lia|].
  rewrite (i_val m g Hi j v); [|lia|by rewrite (prefix_lookup_zlt known) by (done || lia)].
  split_and!; [done|done|]. apply Hk. split; try done.
  intros i Hik. simpl fst. unfold wr_ep. rewrite slot_taken_wr. by apply K5.
Qed.

(** The release store of [readIdx]: the elements before [c'] are consumed. *)
Lemma wp_cons_publish c' (k : unit -> prog (evE T) A) :
  c <= c' <= zlen known ->
  (forall s', cons_knows s' c' known -> wp Consumer (k tt) Q s') ->
  wp Consumer (Vis (Mem (AStore (B Consumer) readIdx (c' mod n) release)) k) Q s.
Proof.
  intros Hc' Hk [m g] Hr Hi. simpl in Hi.
  pose proof (cons_knows_rely _ _ _ _ Hr Hs) as [K1 K2 K3 K3' (pc & K4 & K4') K5]. simpl in *.
  assert (zlen known <= pubs g) by (apply prefix_length in K2; unfold pubs, zlen in *; lia).
  split; [by rewrite (i_base m g Hi), (i_own_read m g Hi)|].
  intros [] m' ->. exists (consume c' g).
  destruct (consume_ok c' m g Hi) as [Hinv Hrely]; [lia|].
  split_and!; [done|done|]. apply Hk. split; simpl; autorewrite with fupd; try done; try lia.
  - simpl. exists pc. autorewrite with fupd. done.
  - intros i Hik. simpl. autorewrite with fupd. apply K5. lia.
Qed.
End consumer_rules.
End protocol.
Arguments ghost T : clear implicits.
