(* ===== verification/Concurrent.v ===== *)
(** * The queue between two processes

    Each operation is verified against the protocol; any producer program and any
    consumer program built from them then run side by side without undefined
    behaviour, and the consumer receives a prefix of what the producer sent. *)

From stdpp Require Import relations.
From S2P Require Import Prelude Prog Effects Machine Layout Segment Queue Shm Ring RaMemory RelyGuarantee SpscProtocol.
#[local] Open Scope Z_scope.
#[local] Open Scope prog_scope.

Section operations.
Context {T : Type} `{Platform} `{Elem T} `{!PlatformOk _} `{!ElemOk T}.
Context (ndebug : bool).
Context (n : Z) (Hn : ring_size n) (B : Role -> Z) (HB : forall t, 0 < B t).

(** A handle attached to the segment as process [t] has it mapped. *)
Definition attached (t : Role) (q : ShmSpscQueue) : Prop :=
  ctrl_ q = B t /\ slots_ q = B t + sizeof_ControlBlock /\ capacity_ q = n.

#[local] Instance queue_protocol : Protocol (machine T) (ghost T) := spsc_protocol n B.
#[local] Instance queue_protocol_ok : ProtocolOk (machine T) (ghost T) := spsc_protocol_ok n B.

(** The producer's handle between two operations, after sending [sent]. *)
Definition prod_state (s : machine T * ghost T) (q : ShmSpscQueue) (sent : list T) : Prop :=
  exists rc, attached Producer q /\ readIdxCache_ q = rc mod n /\ prod_knows n s sent rc [].

(** The consumer's handle between two operations, after receiving [got]. *)
Definition cons_state (s : machine T * ghost T) (q : ShmSpscQueue) (got : list T) : Prop :=
  exists known, attached Consumer q /\ writeIdxCache_ q = zlen known mod n /\
    cons_knows n s (zlen got) known /\ got `prefix_of` known.

Lemma wp_prod_ret {A} (a : A) (Q : A -> machine T * ghost T -> Prop) s log rc pend :
  prod_knows n s log rc pend ->
  (forall s', prod_knows n s' log rc pend -> Q a s') -> wp Producer (Ret a) Q s.
Proof. intros Hs HQ s' Hr Hi. apply HQ. eapply prod_knows_rely; [exact Hr|exact Hs]. Qed.

Lemma wp_cons_ret {A} (a : A) (Q : A -> machine T * ghost T -> Prop) s c known :
  cons_knows n s c known ->
  (forall s', cons_knows n s' c known -> Q a s') -> wp Consumer (Ret a) Q s.
Proof. intros Hs HQ s' Hr Hi. apply HQ. eapply cons_knows_rely; [exact Hr|exact Hs]. Qed.

(** ** The producer's operations *)
Section producer.
Context {A : Type} (Q : A -> machine T * ghost T -> Prop).

(** The copy and the publication that end [try_push]. *)
Lemma wp_write_one (a : A) s log rc v :
  prod_knows n s log rc [] -> zlen log + 1 <= rc + (n - 1) ->
  (forall s', prod_knows n s' (log ++ [v]) rc [] -> Q a s') ->
  wp Producer
    (slot_write (B Producer + sizeof_ControlBlock + zlen log mod n * sizeT T) v;;
     store (B Producer) writeIdx ((zlen log + 1) mod n) release;;
     Ret a) Q s.
Proof.
  intros Hs Hroom HQ. simpl.
  replace (zlen log mod n) with ((zlen log + zlen (@nil T)) mod n) by (zl; f_equal; lia).
  eapply (wp_prod_write n Hn B _ _ _ _ _ Hs); [zl; lia|]. intros s1 Hs1. simpl in *.
  replace (zlen log + 1) with (zlen log + zlen [v]) by done.
  eapply (wp_prod_publish n B _ _ _ _ _ Hs1). intros s2 Hs2.
  by eapply wp_prod_ret.
Qed.
End producer.

Lemma wp_try_push q v s sent (Q : ShmSpscQueue * bool -> machine T * ghost T -> Prop) :
  prod_state s q sent ->
  (forall s' q' b, prod_state s' q' (sent ++ if (b : bool) then [v] else []) -> Q (q', b) s') ->
  wp Producer (try_push q v) Q s.
Proof.
  intros (rc & (Hc & Hsl & Hcap) & Hrc & Hs) HQ. unfold try_push, slot_addr. simpl. rewrite Hc.
  eapply (wp_prod_load_own n B _ _ _ _ _ Hs). intros s1 Hs1.
  rewrite (next_count n Hn q Hcap), Hrc.
  pose proof (pk_le _ _ _ _ _ Hs1). pose proof (pk_room _ _ _ _ _ Hs1) as Hroom. zl.
  case_Z; [|].
  - eapply (wp_prod_load_peer n B _ _ _ _ _ Hs1). intros s2 rc' Hle Hs2. case_Z.
    + eapply wp_prod_ret; [exact Hs2|]. intros s3 Hs3. apply HQ. rewrite app_nil_r.
      exists rc'. done.
    + pose proof (next_full n Hn (zlen sent) rc'). pose proof (pk_le _ _ _ _ _ Hs2).
      pose proof (pk_room _ _ _ _ _ Hs2). zl. rewrite Hsl.
      eapply wp_write_one; [exact Hs2|lia|]. intros s3 Hs3. apply HQ. exists rc'. done.
  - pose proof (next_full n Hn (zlen sent) rc). rewrite Hsl.
    eapply wp_write_one; [exact Hs1|lia|]. intros s3 Hs3. apply HQ. exists rc. done.
Qed.

(** The copy of a run that does not reach past the end of the array. *)
Lemma wp_memcpy_in vs i s log rc pend (Q : unit -> machine T * ghost T -> Prop) :
  prod_knows n s log rc pend ->
  (vs <> [] -> i = (zlen log + zlen pend) mod n) -> i + zlen vs <= n ->
  zlen log + zlen pend + zlen vs <= rc + (n - 1) ->
  (forall s', prod_knows n s' log rc (pend ++ vs) -> Q tt s') ->
  wp Producer (memcpy_in (B Producer + sizeof_ControlBlock + i * sizeT T) vs) Q s.
Proof.
  revert i s pend. induction vs as [|v vs IH]; intros i s pend Hs Hi Hfit Hroom HQ; simpl.
  - rewrite app_nil_r in HQ. by eapply wp_prod_ret.
  - pose proof (zlen_nonneg vs). zl. rewrite Hi by done.
    eapply (wp_prod_write n Hn B _ _ _ _ _ Hs); [lia|]. intros s1 Hs1.
    replace (B Producer + sizeof_ControlBlock + _ * sizeT T + sizeT T)
      with (B Producer + sizeof_ControlBlock + (i + 1) * sizeT T) by (rewrite Hi by done; lia).
    eapply IH; [exact Hs1| |lia|zl; lia|].
    + intros Hne. destruct vs as [|v' vs]; [done|]. zl. pose proof (zlen_nonneg vs).
      rewrite (Hi ltac:(done)) in *. rewrite Z.add_assoc.
      pose proof (ring_pos n Hn). symmetry. apply mod_shift; [done| |lia].
      pose proof (mod_range n ltac:(done) (zlen log + zlen pend)). lia.
    + intros s2 Hs2. apply HQ. by rewrite <- app_assoc in Hs2.
Qed.

(** The two copies and the publication that end [push_n]. *)
Lemma wp_copy_in q src count s log rc (Q : ShmSpscQueue * Z -> machine T * ghost T -> Prop) :
  attached Producer q -> prod_knows n s log rc [] ->
  0 <= count <= zlen src -> zlen log + count <= rc + (n - 1) ->
  (forall s', prod_knows n s' (log ++ ztake count src) rc [] -> Q (q, count) s') ->
  let w := zlen log mod n in
  let first := Z.min count (u64 (capacity_ q - w)) in
  wp Producer
    (memcpy_in (slot_addr q w) (ztake first src);;
     (if count >? first then
        memcpy_in (slot_addr q 0) (ztake (count - first) (zdrop first src))
      else Ret tt);;
     let next := u64 (w + count) in
     let next := if next >=? capacity_ q then u64 (next - capacity_ q) else next in
     store (ctrl_ q) writeIdx next release;;
     Ret (q, count)) Q s.
Proof.
  intros (Hc & Hsl & Hcap) Hs Hcount Hroom HQ w first.
  pose proof (ring_pos n Hn) as Hpos. pose proof (mod_range n Hpos (zlen log)) as Hw.
  pose proof (pk_le _ _ _ _ _ Hs).
  assert (Hfirst : first = Z.min count (n - w)) by (unfold first, w; by rewrite (room_count n Hn q Hcap)).
  unfold slot_addr. rewrite Hsl. apply wp_bind.
  eapply wp_memcpy_in; [exact Hs|intros _; zl; unfold w; f_equal; lia|zl; lia|zl; lia|].
  simpl. intros s1 Hs1. apply wp_bind.
  assert (Hnext : (if u64 (w + count) >=? capacity_ q then u64 (u64 (w + count) - capacity_ q)
                   else u64 (w + count)) = (zlen log + zlen (ztake count src)) mod n).
  { unfold w. rewrite (advance_count n Hn q Hcap) by lia. by zl. }
  assert (Hend : forall s2, prod_knows n s2 log rc (ztake count src) ->
    wp Producer (store (ctrl_ q) writeIdx (if u64 (w + count) >=? capacity_ q
      then u64 (u64 (w + count) - capacity_ q) else u64 (w + count)) release;; Ret (q, count)) Q s2).
  { intros s2 Hs2. rewrite Hnext, Hc. simpl. eapply (wp_prod_publish n B _ _ _ _ _ Hs2).
    intros s3 Hs3. eapply wp_prod_ret; [exact Hs3|exact HQ]. }
  rewrite Z.gtb_ltb. case_Z.
  - assert (zlen (ztake (count - first) (zdrop first src)) = count - first) as Hlen
      by (apply zlen_ztake; rewrite zlen_zdrop; lia).
    eapply (wp_memcpy_in _ 0); [exact Hs1| |lia|zl; lia|].
    + intros _. zl. rewrite mod_shift_wrap; lia.
    + intros s2 Hs2. apply Hend. by rewrite ztake_split in Hs2 by lia.
  - eapply wp_prod_ret; [exact Hs1|]. intros s2 Hs2. apply Hend.
    by replace count with first by lia.
Qed.

Lemma wp_push_n q src k s sent (Q : ShmSpscQueue * Z -> machine T * ghost T -> Prop) :
  prod_state s q sent -> 0 <= k <= zlen src ->
  (forall s' q' c, 0 <= c <= k -> prod_state s' q' (sent ++ ztake c src) -> Q (q', c) s') ->
  wp Producer (push_n q src k) Q s.
Proof.
  intros (rc & Hat & Hrc & Hs) Hk HQ. pose proof Hat as (Hc & Hsl & Hcap).
  unfold push_n. case_Z.
  { eapply wp_prod_ret; [exact Hs|]. intros s1 Hs1. apply HQ; [lia|].
    unfold ztake. rewrite take_0, app_nil_r. exists rc. done. }
  apply wp_bind. rewrite Hc. eapply (wp_prod_load_own n B _ _ _ _ _ Hs). intros s1 Hs1.
  eapply wp_prod_ret; [exact Hs1|]. clear s1 Hs1. intros s1 Hs1. cbv zeta.
  pose proof (pk_le _ _ _ _ _ Hs1). pose proof (pk_room _ _ _ _ _ Hs1). zl.
  rewrite Hrc, (freeSlots_count n Hn q Hcap) by lia. case_Z.
  - apply wp_bind. eapply (wp_prod_load_peer n B _ _ _ _ _ Hs1). intros s2 rc' Hle Hs2.
    eapply wp_prod_ret; [exact Hs2|]. clear s2 Hs2. intros s2 Hs2. simpl readIdxCache_.
    pose proof (pk_le _ _ _ _ _ Hs2). pose proof (pk_room _ _ _ _ _ Hs2). zl.
    rewrite (freeSlots_count n Hn (set_readIdxCache q _) Hcap) by lia. case_Z.
    + eapply wp_prod_ret; [exact Hs2|]. intros s3 Hs3. apply HQ; [lia|].
      unfold ztake. rewrite take_0, app_nil_r. exists rc'. done.
    + eapply wp_copy_in; [done|exact Hs2|lia|lia|].
      intros s3 Hs3. apply HQ; [lia|]. exists rc'. done.
  - rewrite <- Hc. eapply wp_copy_in; [done|exact Hs1|lia|lia|].
    intros s3 Hs3. apply HQ; [lia|]. exists rc. done.
Qed.

(** [peerAlive] only looks at the pid slot and asks the system. *)
(** An older, still valid, knowledge of the consumer's progress. *)
Lemma prod_knows_older (s s' : machine T * ghost T) log rc rc' :
  prod_knows n s log rc [] -> rc <= rc' -> prod_knows n s' log rc' [] -> prod_knows n s' log rc [].
Proof.
  intros Hold Hle Hs'. pose proof (pk_rc _ _ _ _ _ Hold) as Hr. pose proof (pk_room _ _ _ _ _ Hold) as Hm.
  pose proof (pk_le _ _ _ _ _ Hold) as Hl.
  destruct Hs' as [K1 K2 K2' K3 (cc & K4 & K4') K5 K6]. split; [done|lia|done|done| | |done].
  - exists cc. split; [done|lia].
  - intros k Hk. apply K5. lia.
Qed.

Lemma wp_prod_peerAlive q s sent (Q : bool -> machine T * ghost T -> Prop) :
  prod_state s q sent ->
  (forall s' b, prod_state s' q sent -> Q b s') -> wp Producer (peerAlive q) Q s.
Proof.
  intros (rc & Hat & Hrc & Hs) HQ. pose proof Hat as (Hc & _ & _). unfold peerAlive. simpl. rewrite Hc.
  eapply (wp_prod_load_any n B _ _ _ _ _ Hs). intros s1 pid Hs1.
  assert (Hret : forall s' b, prod_knows n s' sent rc [] -> wp Producer (Ret b) Q s').
  { intros s' b Hs'. eapply wp_prod_ret; [exact Hs'|]. intros s2 Hs2. apply HQ. exists rc. done. }
  case_Z; [by apply Hret|]. unfold processAlive. case_Z; [by apply Hret|]. simpl.
  eapply (wp_prod_os n B _ _ _ _ _ Hs1); [done|]. intros s2 [rv errno] Hs2.
  case_Z; by apply Hret.
Qed.

(** The producer's [size()]: at most what it has published and not seen consumed. *)
Lemma wp_prod_size q s sent (Q : Z -> machine T * ghost T -> Prop) :
  prod_state s q sent ->
  (forall s' k, prod_state s' q sent -> 0 <= k <= n - 1 -> zlen sent - g_cns s'.2 <= k -> Q k s') ->
  wp Producer (size q) Q s.
Proof.
  intros (rc & Hat & Hrc & Hs) HQ. pose proof Hat as (Hc & _ & Hcap). unfold size. simpl. rewrite Hc.
  eapply (wp_prod_load_own n B _ _ _ _ _ Hs). intros s1 Hs1.
  eapply (wp_prod_load_peer n B _ _ _ _ _ Hs1). intros s2 rc' Hle Hs2.
  pose proof (pk_le _ _ _ _ _ Hs2). pose proof (pk_room _ _ _ _ _ Hs2). zl.
  rewrite (usedSlots_count n Hn q Hcap) by lia.
  eapply wp_prod_ret; [exact Hs2|]. intros s3 Hs3. pose proof (pk_rc _ _ _ _ _ Hs3).
  apply HQ; [|lia|lia]. exists rc. split_and!; [done..|]. by eapply prod_knows_older.
Qed.

Lemma wp_push_loop fuel q v lim spins s sent
    (Q : ShmSpscQueue * option bool -> machine T * ghost T -> Prop) :
  prod_state s q sent ->
  (forall s' q' r, prod_state s' q' (sent ++ match r with Some true => [v] | _ => [] end) ->
     Q (q', r) s') ->
  wp Producer (push_loop fuel q v lim spins) Q s.
Proof.
  revert q spins s. induction fuel as [|fuel IH]; intros q spins s Hs HQ; cbn [push_loop].
  - destruct Hs as (rc & ? & ? & Hs). eapply wp_prod_ret; [exact Hs|]. intros s1 Hs1.
    apply HQ. rewrite app_nil_r. exists rc. done.
  - apply wp_bind. eapply wp_try_push; [exact Hs|]. intros s1 q1 [|] Hs1.
    + destruct Hs1 as (rc & ? & ? & Hs1). eapply wp_prod_ret; [exact Hs1|]. intros s2 Hs2.
      apply HQ. exists rc. done.
    + rewrite app_nil_r in Hs1. rewrite Z.geb_leb. case_Z; [|by apply IH].
      apply wp_bind. eapply wp_prod_peerAlive; [exact Hs1|]. intros s2 [|] Hs2; cbn [negb].
      * destruct Hs2 as (rc & ? & ? & Hs2).
        eapply (wp_prod_os n B _ _ _ _ _ Hs2); [done|]. intros s3 _ Hs3.
        apply IH; [exists rc; done|done].
      * destruct Hs2 as (rc & ? & ? & Hs2). eapply wp_prod_ret; [exact Hs2|]. intros s3 Hs3.
        apply HQ. rewrite app_nil_r. exists rc. done.
Qed.

(** ** The consumer's operations *)
Lemma cons_knows_shrink (s : machine T * ghost T) c known known' :
  known `prefix_of` known' -> c <= zlen known ->
  cons_knows n s c known' -> cons_knows n s c known.
Proof.
  intros Hp Hc [K1 K2 K3 K3' (pc & K4 & K4') K5].
  apply prefix_length in Hp as Hl. unfold zlen in *.
  split; [done|by etrans|unfold zlen; lia|unfold zlen; lia| |].
  - exists pc. split; [done|unfold zlen; lia].
  - intros k Hk. apply K5. unfold zlen in Hk. lia.
Qed.

Lemma wp_front q s got (Q : ShmSpscQueue * Z -> machine T * ghost T -> Prop) :
  cons_state s q got ->
  (forall s' q', cons_state s' q' got -> Q (q', 0) s') ->
  (forall s' q' known, attached Consumer q' -> writeIdxCache_ q' = zlen known mod n ->
     cons_knows n s' (zlen got) known -> got `prefix_of` known -> zlen got < zlen known ->
     Q (q', slot_addr q' (zlen got mod n)) s') ->
  wp Consumer (front q) Q s.
Proof.
  intros (known & Hat & Hw & Hs & Hg) Hnull Hsome. pose proof Hat as (Hc & Hsl & Hcap).
  unfold front. simpl. rewrite Hc. eapply (wp_cons_load_own n B _ _ _ _ Hs). intros s1 Hs1.
  pose proof (ck_room _ _ _ _ Hs1). pose proof (ck_le _ _ _ _ Hs1). rewrite Hw. case_Z.
  - eapply (wp_cons_load_peer n B _ _ _ _ Hs1). intros s2 known' Hle Hs2. case_Z.
    + eapply wp_cons_ret; [exact Hs2|]. intros s3 Hs3. apply Hnull. exists known'.
      split_and!; [done..|by etrans].
    + pose proof (count_empty n Hn (zlen known') (zlen got)).
      pose proof (ck_room _ _ _ _ Hs2). pose proof (ck_le _ _ _ _ Hs2).
      eapply wp_cons_ret; [exact Hs2|]. intros s3 Hs3. eapply Hsome; [done..|by etrans|lia].
  - pose proof (count_empty n Hn (zlen known) (zlen got)).
    eapply wp_cons_ret; [exact Hs1|]. intros s3 Hs3. eapply Hsome; [done..|lia].
Qed.

Lemma wp_pop_front q s c known (Q : unit -> machine T * ghost T -> Prop) :
  attached Consumer q -> cons_knows n s c known -> c < zlen known ->
  (forall s', cons_knows n s' (c + 1) known -> Q tt s') ->
  wp Consumer (pop_front ndebug q) Q s.
Proof.
  intros (Hc & Hsl & Hcap) Hs Hlt HQ. unfold pop_front. apply wp_bind. rewrite Hc.
  eapply (wp_cons_load_own n B _ _ _ _ Hs). intros s1 Hs1.
  eapply wp_cons_ret; [exact Hs1|]. clear s1 Hs1. intros s1 Hs1. apply wp_bind.
  assert (Hend : forall s2, cons_knows n s2 c known -> wp Consumer
    (let next := u64 (c mod n + 1) in let next := if next =? capacity_ q then 0 else next in
     store (B Consumer) readIdx next release) Q s2).
  { intros s2 Hs2. cbv zeta. rewrite (next_count n Hn q Hcap).
    eapply (wp_cons_publish n B _ _ _ _ Hs2); [lia|]. intros s3 Hs3.
    eapply wp_cons_ret; [exact Hs3|exact HQ]. }
  destruct ndebug; [eapply wp_cons_ret; [exact Hs1|exact Hend]|].
  simpl. eapply (wp_cons_load_peer n B _ _ _ _ Hs1). intros s2 known' Hp Hs2.
  pose proof (ck_room _ _ _ _ Hs2). pose proof (ck_le _ _ _ _ Hs2).
  apply prefix_length in Hp as Hl. unfold zlen in Hlt. case_Z.
  - symmetry in e. apply (count_empty n Hn (zlen known') c) in e; [|lia]. unfold zlen in *. lia.
  - eapply wp_cons_ret; [exact Hs2|]. intros s3 Hs3. apply Hend.
    eapply cons_knows_shrink; [exact Hp|unfold zlen; lia|exact Hs3].
Qed.

Lemma wp_try_pop q s got (Q : ShmSpscQueue * option T -> machine T * ghost T -> Prop) :
  cons_state s q got ->
  (forall s' q' o, cons_state s' q' (got ++ match o with Some v => [v] | None => [] end) ->
     Q (q', o) s') ->
  wp Consumer (try_pop ndebug q) Q s.
Proof.
  intros Hs HQ. unfold try_pop. apply wp_bind. eapply wp_front; [exact Hs| |].
  - intros s1 q1 Hs1. destruct Hs1 as (known & ? & ? & Hs1 & ?). simpl.
    eapply wp_cons_ret; [exact Hs1|]. intros s2 Hs2. apply HQ. rewrite app_nil_r. exists known. done.
  - intros s1 q1 known Hat Hw Hs1 Hg Hlt. pose proof Hat as (Hc & Hsl & Hcap).
    pose proof (mod_range n (ring_pos n Hn) (zlen got)). pose proof (sizeT_pos (T := T)).
    pose proof sizeof_ControlBlock_bounds. specialize (HB Consumer).
    destruct (lookup_lt_is_Some_2 known (length got)) as [v Hv]; [unfold zlen in Hlt; lia|].
    unfold slot_addr. rewrite Hsl. case_Z; [nia|]. apply wp_bind.
    eapply (wp_cons_read n Hn B _ _ _ _ Hs1 (zlen got) v);
      [lia|unfold zlen; by rewrite Nat2Z.id|]. intros s2 Hs2.
    eapply wp_cons_ret; [exact Hs2|]. clear s2 Hs2. intros s2 Hs2. apply wp_bind. eapply wp_pop_front; [done|exact Hs2|done|]. intros s3 Hs3.
    eapply wp_cons_ret; [exact Hs3|]. intros s4 Hs4. apply HQ. exists known.
    split_and!; [done..|by zl|by apply prefix_snoc].
Qed.

(** The copy of a run that does not reach past the end of the array. *)
Lemma wp_memcpy_out len i j s c known (Q : list T -> machine T * ghost T -> Prop) :
  cons_knows n s c known ->
  (len <> O -> i = j mod n) -> i + Z.of_nat len <= n ->
  0 <= c <= j -> j + Z.of_nat len <= zlen known ->
  (forall s', cons_knows n s' c known -> Q (ztake (Z.of_nat len) (zdrop j known)) s') ->
  wp Consumer (memcpy_out (B Consumer + sizeof_ControlBlock + i * sizeT T) len) Q s.
Proof.
  revert i j s Q. induction len as [|len IH]; intros i j s Q Hs Hi Hfit Hcj Hroom HQ; cbn [memcpy_out].
  { eapply wp_cons_ret; [exact Hs|]. intros s1 Hs1. by apply HQ. }
  rewrite Hi by done. unfold zlen in Hroom.
  destruct (lookup_lt_is_Some_2 known (Z.to_nat j)) as [v Hv]; [lia|].
  apply wp_bind. eapply (wp_cons_read n Hn B _ _ _ _ Hs j v); [lia|done|]. intros s1 Hs1.
  eapply wp_cons_ret; [exact Hs1|]. clear s1 Hs1. intros s1 Hs1. apply wp_bind.
  replace (B Consumer + sizeof_ControlBlock + j mod n * sizeT T + sizeT T)
    with (B Consumer + sizeof_ControlBlock + (i + 1) * sizeT T) by (rewrite Hi by done; lia).
  apply (IH (i + 1) (j + 1)); [exact Hs1| |lia|lia|unfold zlen; lia|].
  - intros Hne. rewrite Hi by done. pose proof (ring_pos n Hn).
    pose proof (mod_range n ltac:(done) j). symmetry. apply mod_shift; [done|lia|].
    rewrite Hi in Hfit by done. lia.
  - intros s2 Hs2. eapply wp_cons_ret; [exact Hs2|]. intros s3 Hs3. specialize (HQ s3 Hs3).
    unfold ztake, zdrop in *. rewrite (drop_S _ _ _ Hv) in HQ.
    replace (Z.to_nat (j + 1)) with (S (Z.to_nat j)) by lia.
    rewrite Nat2Z.id in *. done.
Qed.

(** The two copies and the store that end [pop_n]. *)
Lemma wp_copy_out q count s c known (Q : ShmSpscQueue * Z * list T -> machine T * ghost T -> Prop) :
  attached Consumer q -> cons_knows n s c known -> 0 <= count -> c + count <= zlen known ->
  (forall s', cons_knows n s' (c + count) known ->
     Q (q, count, ztake count (zdrop c known)) s') ->
  let r := c mod n in
  let first := Z.min count (u64 (capacity_ q - r)) in
  wp Consumer
    (let* d1 := memcpy_out (slot_addr q r) (Z.to_nat first) in
     let* d2 := (if count >? first then memcpy_out (slot_addr q 0) (Z.to_nat (count - first))
                 else Ret []) in
     let next := u64 (r + count) in
     let next := if next >=? capacity_ q then u64 (next - capacity_ q) else next in
     store (ctrl_ q) readIdx next release;;
     Ret (q, count, d1 ++ d2)) Q s.
Proof.
  intros (Hc & Hsl & Hcap) Hs Hcount Hroom HQ r first.
  pose proof (ring_pos n Hn) as Hpos. pose proof (mod_range n Hpos c) as Hr.
  pose proof (ck_room _ _ _ _ Hs). pose proof (ck_le _ _ _ _ Hs).
  assert (Hfirst : first = Z.min count (n - r)) by (unfold first, r; by rewrite (room_count n Hn q Hcap)).
  unfold slot_addr. rewrite Hsl. apply wp_bind.
  eapply wp_memcpy_out; [exact Hs|done|lia|lia|lia|]. intros s1 Hs1. rewrite Z2Nat.id by lia.
  apply wp_bind.
  assert (Hend : forall s2 d2, cons_knows n s2 c known ->
    ztake first (zdrop c known) ++ d2 = ztake count (zdrop c known) ->
    wp Consumer (store (ctrl_ q) readIdx (if u64 (r + count) >=? capacity_ q
      then u64 (u64 (r + count) - capacity_ q) else u64 (r + count)) release;;
      Ret (q, count, ztake first (zdrop c known) ++ d2)) Q s2).
  { intros s2 d2 Hs2 ->. unfold r. rewrite (advance_count n Hn q Hcap), Hc by lia. apply wp_bind.
    eapply (wp_cons_publish n B _ _ _ _ Hs2); [lia|]. intros s3 Hs3.
    eapply wp_cons_ret; [exact Hs3|]. clear s3 Hs3. intros s3 Hs3.
    eapply wp_cons_ret; [exact Hs3|exact HQ]. }
  rewrite Z.gtb_ltb. case_Z.
  - apply (wp_memcpy_out _ 0 (c + first) _ _ _ _ Hs1); [|lia|lia|lia|].
    + intros _. rewrite mod_shift_wrap; lia.
    + intros s2 Hs2. apply Hend; [done|]. rewrite Z2Nat.id by lia.
      rewrite <- (ztake_split first count) by lia. f_equal. f_equal.
      unfold zdrop. rewrite drop_drop. f_equal. lia.
  - eapply wp_cons_ret; [exact Hs1|]. intros s2 Hs2. apply Hend; [done|].
    rewrite app_nil_r. by replace count with first by lia.
Qed.

Lemma take_got (got known : list T) k :
  got `prefix_of` known -> 0 <= k -> got ++ ztake k (zdrop (zlen got) known) `prefix_of` known.
Proof.
  intros [r ->] Hk. unfold zdrop, zlen. rewrite Nat2Z.id, drop_app_length.
  apply prefix_app, prefix_take.
Qed.

Lemma wp_pop_n q k s got (Q : ShmSpscQueue * Z * list T -> machine T * ghost T -> Prop) :
  cons_state s q got -> 0 <= k ->
  (forall s' q' out, zlen out <= k -> cons_state s' q' (got ++ out) -> Q (q', zlen out, out) s') ->
  wp Consumer (pop_n q k) Q s.
Proof.
  intros (known & Hat & Hw & Hs & Hg) Hk HQ. pose proof Hat as (Hc & Hsl & Hcap).
  assert (Hret : forall s' q' known', attached Consumer q' -> writeIdxCache_ q' = zlen known' mod n ->
    got `prefix_of` known' -> cons_knows n s' (zlen got) known' -> wp Consumer (Ret (q', 0, [])) Q s').
  { intros s' q' known' ? ? ? Hs'. eapply wp_cons_ret; [exact Hs'|]. intros s2 Hs2.
    apply (HQ s2 q' []); [done|]. rewrite app_nil_r. exists known'. done. }
  assert (Hcopy : forall s' q' known' count, attached Consumer q' ->
    writeIdxCache_ q' = zlen known' mod n -> got `prefix_of` known' -> 0 <= count <= k ->
    zlen got + count <= zlen known' -> cons_knows n s' (zlen got + count) known' ->
    Q (q', count, ztake count (zdrop (zlen got) known')) s').
  { intros s' q' known' count ? ? ? ? ? Hs'. pose proof (zlen_nonneg got).
    assert (zlen (ztake count (zdrop (zlen got) known')) = count) as Hl
      by (apply zlen_ztake; rewrite zlen_zdrop; lia).
    rewrite <- Hl at 1. apply HQ; [lia|]. exists known'. split_and!; [done..|by rewrite zlen_app, Hl|].
    apply take_got; [done|lia]. }
  unfold pop_n. case_Z; [by eapply Hret|].
  apply wp_bind. rewrite Hc. eapply (wp_cons_load_own n B _ _ _ _ Hs). intros s1 Hs1.
  eapply wp_cons_ret; [exact Hs1|]. clear s1 Hs1. intros s1 Hs1. cbv zeta.
  pose proof (ck_room _ _ _ _ Hs1). pose proof (ck_le _ _ _ _ Hs1).
  rewrite Hw, (usedSlots_count n Hn q Hcap) by lia. case_Z.
  - apply wp_bind. eapply (wp_cons_load_peer n B _ _ _ _ Hs1). intros s2 known' Hp Hs2.
    eapply wp_cons_ret; [exact Hs2|]. clear s2 Hs2. intros s2 Hs2. simpl writeIdxCache_.
    pose proof (ck_room _ _ _ _ Hs2). pose proof (ck_le _ _ _ _ Hs2).
    rewrite (usedSlots_count n Hn (set_writeIdxCache q _) Hcap) by lia. case_Z.
    + eapply Hret; [..|exact Hs2]; [done..|by etrans].
    + eapply wp_copy_out; [done|exact Hs2|lia|lia|]. intros s3 Hs3.
      apply Hcopy; [done|done|by etrans|lia|lia|done].
  - rewrite <- Hc. eapply wp_copy_out; [done|exact Hs1|lia|lia|]. intros s3 Hs3.
    apply Hcopy; [done|done|done|lia|lia|done].
Qed.

Lemma wp_cons_peerAlive q s got (Q : bool -> machine T * ghost T -> Prop) :
  cons_state s q got ->
  (forall s' b, cons_state s' q got -> Q b s') -> wp Consumer (peerAlive q) Q s.
Proof.
  intros (known & Hat & Hw & Hs & Hg) HQ. pose proof Hat as (Hc & _ & _).
  unfold peerAlive. simpl. rewrite Hc.
  eapply (wp_cons_load_any n B _ _ _ _ Hs). intros s1 pid Hs1.
  assert (Hret : forall s' b, cons_knows n s' (zlen got) known -> wp Consumer (Ret b) Q s').
  { intros s' b Hs'. eapply wp_cons_ret; [exact Hs'|]. intros s2 Hs2. apply HQ. exists known. done. }
  case_Z; [by apply Hret|]. unfold processAlive. case_Z; [by apply Hret|]. simpl.
  eapply (wp_cons_os n B _ _ _ _ Hs1); [done|]. intros s2 [rv errno] Hs2.
  case_Z; by apply Hret.
Qed.

(** The consumer's [size()]: elements that are there to be popped. *)
Lemma wp_cons_size q s got (Q : Z -> machine T * ghost T -> Prop) :
  cons_state s q got ->
  (forall s' k, cons_state s' q got -> 0 <= k <= n - 1 -> zlen got + k <= zlen (g_log s'.2) -> Q k s') ->
  wp Consumer (size q) Q s.
Proof.
  intros (known & Hat & Hw & Hs & Hg) HQ. pose proof Hat as (Hc & _ & Hcap). unfold size. simpl. rewrite Hc.
  eapply (wp_cons_load_peer n B _ _ _ _ Hs). intros s1 known' Hp Hs1.
  eapply (wp_cons_load_own n B _ _ _ _ Hs1). intros s2 Hs2.
  pose proof (ck_room _ _ _ _ Hs2). pose proof (ck_le _ _ _ _ Hs2).
  rewrite (usedSlots_count n Hn q Hcap) by lia.
  eapply wp_cons_ret; [exact Hs2|]. intros s3 Hs3. pose proof (ck_known _ _ _ _ Hs3) as Hl%prefix_length.
  apply HQ; [|lia|unfold zlen in *; lia]. exists known. split_and!; [done..| |done].
  eapply cons_knows_shrink; [exact Hp| |exact Hs3]. apply (ck_room _ _ _ _ Hs).
Qed.

Lemma wp_cons_empty q s got (Q : bool -> machine T * ghost T -> Prop) :
  cons_state s q got ->
  (forall s' b, cons_state s' q got -> Q b s') -> wp Consumer (empty q) Q s.
Proof.
  intros (known & Hat & Hw & Hs & Hg) HQ. pose proof Hat as (Hc & _ & _). unfold empty. simpl. rewrite Hc.
  eapply (wp_cons_load_any n B _ _ _ _ Hs). intros s1 w Hs1.
  eapply (wp_cons_load_any n B _ _ _ _ Hs1). intros s2 r Hs2.
  eapply wp_cons_ret; [exact Hs2|]. intros s3 Hs3. apply HQ. exists known. done.
Qed.

Lemma wp_pop_loop fuel q lim spins s got
    (Q : ShmSpscQueue * option (option T) -> machine T * ghost T -> Prop) :
  cons_state s q got ->
  (forall s' q' r, cons_state s' q' (got ++ match r with Some (Some v) => [v] | _ => [] end) ->
     Q (q', r) s') ->
  wp Consumer (pop_loop ndebug fuel q lim spins) Q s.
Proof.
  revert q spins s. induction fuel as [|fuel IH]; intros q spins s Hs HQ; cbn [pop_loop].
  - destruct Hs as (known & ? & ? & Hs & ?). eapply wp_cons_ret; [exact Hs|]. intros s1 Hs1.
    apply HQ. rewrite app_nil_r. exists known. done.
  - apply wp_bind. eapply wp_try_pop; [exact Hs|]. intros s1 q1 [v|] Hs1.
    + destruct Hs1 as (known & ? & ? & Hs1 & ?). eapply wp_cons_ret; [exact Hs1|].
      intros s2 Hs2. apply HQ. exists known. done.
    + rewrite app_nil_r in Hs1. rewrite Z.geb_leb. case_Z; [|by apply IH].
      assert (Hyield : forall s', cons_state s' q1 got -> wp Consumer
        (sys SchedYield;; pop_loop ndebug fuel q1 lim (u32 (0 + 1))) Q s').
      { intros s' (known & ? & ? & Hs' & ?). eapply (wp_cons_os n B _ _ _ _ Hs'); [done|].
        intros s3 _ Hs3. apply IH; [exists known; done|done]. }
      apply wp_bind. eapply wp_cons_peerAlive; [exact Hs1|]. intros s2 [|] Hs2; cbn [negb].
      * by apply Hyield.
      * apply wp_bind. eapply wp_cons_empty; [exact Hs2|]. intros s3 [|] Hs3; [|by apply Hyield].
        destruct Hs3 as (known & ? & ? & Hs3 & ?). eapply wp_cons_ret; [exact Hs3|]. intros s4 Hs4.
        apply HQ. rewrite app_nil_r. exists known. done.
Qed.
End operations.
