(* ===== verification/Delivery.v ===== *)
(** * Delivery between two processes

    The end-to-end guarantees of an attached queue: whatever the two processes do
    with it, in whatever order their accesses interleave and whatever the memory
    model lets their loads return, nothing is undefined, the consumer receives a
    prefix of what the producer sent, and at most [capacity()] elements are in
    flight. *)

From stdpp Require Import relations.
From S2P Require Import Prelude Prog Effects Machine Layout Segment Queue Shm Ring RaMemory RelyGuarantee SpscProtocol Concurrent.
#[local] Open Scope Z_scope.
#[local] Open Scope prog_scope.

(** ** Client programs

    A process is any program over the calls of its side of the queue; the next
    call may depend on what earlier calls returned. *)
Section clients.
Context {T : Type} `{Platform} `{Elem T}.
Context (ndebug : bool).

Inductive pcall : Type -> Type :=
| CallTryPush (v : T) : pcall bool
| CallPushN (src : list T) : pcall Z
| CallPush (fuel : nat) (v : T) (peerCheckSpins : Z) : pcall (option bool)
| CallPeerAlive : pcall bool
| CallSize : pcall Z.

Inductive ccall : Type -> Type :=
| CallTryPop : ccall (option T)
| CallPopN (k : nat) : ccall (list T)
| CallPop (fuel : nat) (peerCheckSpins : Z) : ccall (option (option T))
| CallConsumerPeerAlive : ccall bool
| CallEmpty : ccall bool
| CallConsumerSize : ccall Z
| CallPeek (take : T -> bool) : ccall (option (T * bool)).

Definition do_pcall {X} (c : pcall X) (q : ShmSpscQueue) : prog (evE T) (ShmSpscQueue * X) :=
  match c in pcall X return prog (evE T) (ShmSpscQueue * X) with
  | CallTryPush v => try_push q v
  | CallPushN src => push_n q src (zlen src)
  | CallPush fuel v k => push fuel q v k
  | CallPeerAlive => let* b := peerAlive q in Ret (q, b)
  | CallSize => let* k := size q in Ret (q, k)
  end.

(** The zero-copy use of the queue: look at the front element in place, and pop it
    if it is wanted. *)
Definition peek (q : ShmSpscQueue) (take : T -> bool) :
    prog (evE T) (ShmSpscQueue * option (T * bool)) :=
  let* (q', p) := front q in
  if p =? 0 then Ret (q', None) else
  let* v := slot_read p in
  if take v then pop_front ndebug q';; Ret (q', Some (v, true)) else Ret (q', Some (v, false)).

Definition do_ccall {X} (c : ccall X) (q : ShmSpscQueue) : prog (evE T) (ShmSpscQueue * X) :=
  match c in ccall X return prog (evE T) (ShmSpscQueue * X) with
  | CallTryPop => try_pop ndebug q
  | CallPopN k => let* (q', _, out) := pop_n q (Z.of_nat k) in Ret (q', out)
  | CallPop fuel k => pop ndebug fuel q k
  | CallConsumerPeerAlive => let* b := peerAlive q in Ret (q, b)
  | CallEmpty => let* b := empty q in Ret (q, b)
  | CallConsumerSize => let* k := size q in Ret (q, k)
  | CallPeek take => peek q take
  end.

(** What a call that returned [x] has sent, respectively received. *)
Definition sent_by {X} (c : pcall X) : X -> list T :=
  match c in pcall X return X -> list T with
  | CallTryPush v => fun b => if b then [v] else []
  | CallPushN src => fun k => ztake k src
  | CallPush _ v _ => fun r => match r with Some true => [v] | _ => [] end
  | CallPeerAlive => fun _ => []
  | CallSize => fun _ => []
  end.

Definition got_by {X} (c : ccall X) : X -> list T :=
  match c in ccall X return X -> list T with
  | CallTryPop => fun o => match o with Some v => [v] | None => [] end
  | CallPopN _ => fun out => out
  | CallPop _ _ => fun r => match r with Some (Some v) => [v] | _ => [] end
  | CallConsumerPeerAlive => fun _ => []
  | CallEmpty => fun _ => []
  | CallConsumerSize => fun _ => []
  | CallPeek _ => fun r => match r with Some (v, true) => [v] | _ => [] end
  end.

(** Running a client on a handle, collecting what it has sent or received, and
    going on with [final]. *)
Fixpoint producer_then {A R} (c : prog pcall A) (q : ShmSpscQueue) (sent : list T)
    (final : A -> ShmSpscQueue -> list T -> prog (evE T) R) : prog (evE T) R :=
  match c with
  | Ret a => final a q sent
  | Vis call k =>
      let* (q', x) := do_pcall call q in producer_then (k x) q' (sent ++ sent_by call x) final
  end.

Fixpoint consumer_then {A R} (c : prog ccall A) (q : ShmSpscQueue) (got : list T)
    (final : A -> ShmSpscQueue -> list T -> prog (evE T) R) : prog (evE T) R :=
  match c with
  | Ret a => final a q got
  | Vis call k =>
      let* (q', x) := do_ccall call q in consumer_then (k x) q' (got ++ got_by call x) final
  end.

Definition producer {A} (c : prog pcall A) (q : ShmSpscQueue) (sent : list T) :
    prog (evE T) (A * list T) := producer_then c q sent (fun a _ sent => Ret (a, sent)).
Definition consumer {A} (c : prog ccall A) (q : ShmSpscQueue) (got : list T) :
    prog (evE T) (A * list T) := consumer_then c q got (fun a _ got => Ret (a, got)).

(** ** The initial configuration: both sides attached to a fresh segment. *)
Definition init_value (f : afield) (pp pc : Z) : Z :=
  match f with producerPid => pp | consumerPid => pc | ready => 1 | writeIdx => 0 | readIdx => 0 end.

Definition fresh_machine (n : Z) (B : Role -> Z) (h : hfield -> Z) (pp pc : Z) : machine T :=
  MkMachine (fun f => [MkMsg (init_value f pp pc) view_bot]) h
    (fun _ => MkCell (zeroT T) (Producer, O) (fun _ => O)) n
    (fun t => MkView (fun _ => O) (fun u => if decide (u = t) then 1%nat else O)) B.

Definition fresh_handle (n : Z) (B : Role -> Z) (s : ShmSegment) (t : Role) : ShmSpscQueue :=
  MkQueue s (B t) (B t + sizeof_ControlBlock) n t true 0 0.

Section theorems.
Context `{!PlatformOk _} `{!ElemOk T}.
Context (n : Z) (Hn : ring_size n) (B : Role -> Z) (HB : forall t, 0 < B t).
#[local] Instance delivery_protocol : Protocol (machine T) (ghost T) := spsc_protocol n B.
#[local] Instance delivery_protocol_ok : ProtocolOk (machine T) (ghost T) := spsc_protocol_ok n B.

Lemma wp_do_pcall {X} (c : pcall X) q s sent (Q : ShmSpscQueue * X -> machine T * ghost T -> Prop) :
  prod_state n B s q sent ->
  (forall s' q' x, prod_state n B s' q' (sent ++ sent_by c x) -> Q (q', x) s') ->
  wp Producer (do_pcall c q) Q s.
Proof.
  intros Hs HQ. pose proof (zlen_nonneg (A := T)).
  destruct c as [v|src|fuel v k| |]; cbn [do_pcall sent_by] in *.
  - by eapply wp_try_push.
  - eapply wp_push_n; [done|exact Hs|split; [done|lia]|]. intros s' q' k _ Hs'. by apply HQ.
  - by eapply wp_push_loop.
  - apply wp_bind. eapply wp_prod_peerAlive; [exact Hs|]. intros s1 b (rc & ? & ? & Hs1).
    eapply wp_prod_ret; [exact Hs1|]. intros s2 Hs2. apply HQ. rewrite app_nil_r. exists rc. done.
  - apply wp_bind. eapply wp_prod_size; [done|exact Hs|]. intros s1 k (rc & ? & ? & Hs1) _ _.
    eapply wp_prod_ret; [exact Hs1|]. intros s2 Hs2. apply HQ. rewrite app_nil_r. exists rc. done.
Qed.

Lemma wp_peek q take s got (Q : ShmSpscQueue * option (T * bool) -> machine T * ghost T -> Prop) :
  cons_state n B s q got ->
  (forall s' q' r, cons_state n B s' q' (got ++ match r with Some (v, true) => [v] | _ => [] end) ->
     Q (q', r) s') ->
  wp Consumer (peek q take) Q s.
Proof.
  intros Hs HQ. unfold peek. apply wp_bind. eapply wp_front; [done|exact Hs| |].
  - intros s1 q1 (known & ? & ? & Hs1 & ?). simpl.
    eapply wp_cons_ret; [exact Hs1|]. intros s2 Hs2. apply HQ. rewrite app_nil_r. exists known. done.
  - intros s1 q1 known Hat Hw Hs1 Hg Hlt. pose proof Hat as (Hc & Hsl & Hcap).
    pose proof (mod_range n (ring_pos n Hn) (zlen got)). pose proof (sizeT_pos (T := T)).
    pose proof sizeof_ControlBlock_bounds. specialize (HB Consumer).
    destruct (lookup_lt_is_Some_2 known (length got)) as [v Hv]; [unfold zlen in Hlt; lia|].
    unfold slot_addr. rewrite Hsl. case_Z; [nia|]. apply wp_bind.
    eapply (wp_cons_read n Hn B _ _ _ _ Hs1 (zlen got) v);
      [lia|unfold zlen; by rewrite Nat2Z.id|]. intros s2 Hs2.
    eapply wp_cons_ret; [exact Hs2|]. clear s2 Hs2. intros s2 Hs2. destruct (take v).
    + apply wp_bind. eapply wp_pop_front; [done|done|exact Hs2|done|]. intros s3 Hs3.
      eapply wp_cons_ret; [exact Hs3|]. intros s4 Hs4. apply HQ. exists known.
      split_and!; [done..|by zl|by apply prefix_snoc].
    + eapply wp_cons_ret; [exact Hs2|]. intros s4 Hs4. apply HQ. rewrite app_nil_r. exists known. done.
Qed.

Lemma wp_do_ccall {X} (c : ccall X) q s got (Q : ShmSpscQueue * X -> machine T * ghost T -> Prop) :
  cons_state n B s q got ->
  (forall s' q' x, cons_state n B s' q' (got ++ got_by c x) -> Q (q', x) s') ->
  wp Consumer (do_ccall c q) Q s.
Proof.
  intros Hs HQ. destruct c as [|k|fuel k| | | |take]; cbn [do_ccall got_by] in *.
  - by eapply wp_try_pop.
  - apply wp_bind. eapply wp_pop_n; [done|exact Hs|lia|]. intros s1 q1 out _ (known & ? & ? & Hs1 & ?).
    eapply wp_cons_ret; [exact Hs1|]. intros s2 Hs2. apply HQ. exists known. done.
  - by eapply wp_pop_loop.
  - apply wp_bind. eapply wp_cons_peerAlive; [exact Hs|]. intros s1 b (known & ? & ? & Hs1 & ?).
    eapply wp_cons_ret; [exact Hs1|]. intros s2 Hs2. apply HQ. rewrite app_nil_r. exists known. done.
  - apply wp_bind. eapply wp_cons_empty; [exact Hs|]. intros s1 b (known & ? & ? & Hs1 & ?).
    eapply wp_cons_ret; [exact Hs1|]. intros s2 Hs2. apply HQ. rewrite app_nil_r. exists known. done.
  - apply wp_bind. eapply wp_cons_size; [done|exact Hs|]. intros s1 k (known & ? & ? & Hs1 & ?) _ _.
    eapply wp_cons_ret; [exact Hs1|]. intros s2 Hs2. apply HQ. rewrite app_nil_r. exists known. done.
  - by eapply wp_peek.
Qed.

(** What the two clients have established when they return. *)
Definition prod_post {A} (r : A * list T) (s : machine T * ghost T) : Prop := g_log s.2 = r.2.
Definition cons_post {A} (r : A * list T) (s : machine T * ghost T) : Prop :=
  r.2 `prefix_of` g_log s.2 /\ g_cns s.2 = zlen r.2.

Lemma wp_producer_then {A R} (c : prog pcall A) q s sent (final : A -> _ -> _ -> prog (evE T) R) Q :
  prod_state n B s q sent ->
  (forall s' a q' sent', prod_state n B s' q' sent' -> wp Producer (final a q' sent') Q s') ->
  wp Producer (producer_then c q sent final) Q s.
Proof.
  intros Hs Hf. revert q s sent Hs.
  induction c as [a|X call k IH]; intros q s sent Hs; cbn [producer_then]; [by apply Hf|].
  apply wp_bind. eapply wp_do_pcall; [exact Hs|]. intros s1 q1 x Hs1. by apply IH.
Qed.

Lemma wp_consumer_then {A R} (c : prog ccall A) q s got (final : A -> _ -> _ -> prog (evE T) R) Q :
  cons_state n B s q got ->
  (forall s' a q' got', cons_state n B s' q' got' -> wp Consumer (final a q' got') Q s') ->
  wp Consumer (consumer_then c q got final) Q s.
Proof.
  intros Hs Hf. revert q s got Hs.
  induction c as [a|X call k IH]; intros q s got Hs; cbn [consumer_then]; [by apply Hf|].
  apply wp_bind. eapply wp_do_ccall; [exact Hs|]. intros s1 q1 x Hs1. by apply IH.
Qed.

Lemma cons_state_post s q (got : list T) : cons_state n B s q got -> got `prefix_of` g_log s.2 /\ g_cns s.2 = zlen got.
Proof.
  intros (known & ? & ? & Hs & Hg). split; [|apply (ck_cns _ _ _ _ Hs)].
  etrans; [exact Hg|apply (ck_known _ _ _ _ Hs)].
Qed.

Lemma wp_producer {A} (c : prog pcall A) q s sent :
  prod_state n B s q sent -> wp Producer (producer c q sent) prod_post s.
Proof.
  intros Hs. eapply wp_producer_then; [exact Hs|]. intros s1 a q1 sent1 (rc & ? & ? & Hs1).
  eapply wp_prod_ret; [exact Hs1|]. intros s2 Hs2. apply (pk_log _ _ _ _ _ Hs2).
Qed.

Lemma wp_consumer {A} (c : prog ccall A) q s got :
  cons_state n B s q got -> wp Consumer (consumer c q got) cons_post s.
Proof.
  intros Hs. eapply wp_consumer_then; [exact Hs|]. intros s1 a q1 got1 (known & ? & ? & Hs1 & ?).
  eapply wp_cons_ret; [exact Hs1|]. intros s2 Hs2. apply (cons_state_post s2 q1). exists known. done.
Qed.

(** ** The fresh configuration is verified *)
Context (h : hfield -> Z) (pp pc : Z).

Lemma fresh_history cur K : cur = 0 -> (forall e, K e 0) -> 
  history n [MkMsg 0 view_bot] [0] cur K.
Proof.
  intros -> HK. split; [done|done| |].
  - intros i j a b _ Ha Hb.
    apply list_lookup_singleton_Some in Ha as [_ <-]. apply list_lookup_singleton_Some in Hb as [_ <-]. lia.
  - intros i e c He Hc. apply list_lookup_singleton_Some in He as [_ <-].
    apply list_lookup_singleton_Some in Hc as [_ <-]. done.
Qed.

Definition fresh_ghost : ghost T := MkGhost [] 0 [0] [0].

Lemma fresh_inv : spsc_inv n B (fresh_machine n B h pp pc) fresh_ghost.
Proof.
  pose proof Hn as [H2 _]. unfold fresh_ghost, fresh_machine. split; try done; simpl.
  - split; simpl; [intros t f; simpl; lia|]. intros f i s Hs.
    apply list_lookup_singleton_Some in Hs as [_ <-]. intros g. simpl. lia.
  - unfold pubs, zlen. simpl. lia.
  - apply fresh_history; [done|]. intros e k Hk. simpl in Hk. lia.
  - apply fresh_history; [done|]. intros e k Hk. unfold rd_ep. simpl. lia.
  - intros k. split; [done|]. simpl. lia.
  - intros k. split; [done|]. simpl. lia.
Qed.

Lemma fresh_prod_state s0 :
  prod_state n B (fresh_machine n B h pp pc, fresh_ghost) (fresh_handle n B s0 Producer) [].
Proof.
  pose proof Hn as [H2 _]. exists 0. split_and!; [done|by rewrite Z.mod_0_l by lia|].
  split; simpl; try done; try lia.
  - unfold zlen. simpl. lia.
  - exists 0. done.
Qed.

Lemma fresh_cons_state s0 :
  cons_state n B (fresh_machine n B h pp pc, fresh_ghost) (fresh_handle n B s0 Consumer) [].
Proof.
  pose proof Hn as [H2 _]. exists []. split_and!; [done|by rewrite Z.mod_0_l by lia| |done].
  split; simpl; unfold zlen; simpl; try done; try lia. exists 0. done.
Qed.

(** A producer client and a consumer client on a fresh segment, each with the
    segment mapped at its own address. *)
Definition fresh_conf {A1 A2} (cp : prog pcall A1) (cc : prog ccall A2) (s1 s2 : ShmSegment) :
    ra_conf T (A1 * list T) (A2 * list T) :=
  MkConf (producer cp (fresh_handle n B s1 Producer) [])
         (consumer cc (fresh_handle n B s2 Consumer) [])
         (fresh_machine n B h pp pc).

Lemma fresh_verified {A1 A2} (cp : prog pcall A1) (cc : prog ccall A2) s1 s2 c :
  rtc cstep (fresh_conf cp cc s1 s2) c -> verified prod_post cons_post c.
Proof.
  intros Hs. eapply verified_steps; [exact Hs|]. exists fresh_ghost.
  split_and!; [apply fresh_inv|apply wp_producer, fresh_prod_state|apply wp_consumer, fresh_cons_state].
Qed.

(** The memory never refuses a defined access: no process waits for the other inside
    one. *)
Lemma mem_live {X} t (e : memE T X) m : mem_ok m -> safe_mem t e m -> exists x m', step_mem t e m x m'.
Proof.
  intros Hm Hs. destruct e; simpl in *.
  - destruct Hs as [_ Hlt]. destruct (lookup_lt_is_Some_2 _ _ Hlt) as [s Hs].
    do 2 eexists. do 2 eexists. split_and!; [exact Hs|done|done|done].
  - by exists tt, (do_store t f v o m).
  - destruct Hs as [_ Hlt]. destruct (lookup_lt_is_Some_2 _ _ Hlt) as [s Hs].
    destruct (last (hist m f)) as [e|] eqn:Hl; [|apply last_None in Hl; rewrite Hl in Hlt; simpl in Hlt; lia].
    destruct (Z.eq_dec (m_val e) expected) as [He|He].
    + exists (true, expected). eexists. left. eauto.
    + exists (false, m_val e). eexists. right.
      rewrite last_lookup in Hl. do 2 eexists. split_and!; [exact Hl|lia|by right|done|done].
  - do 2 eexists. done.
  - done.
  - done.
  - destruct Hs as (i & Hi & _). do 2 eexists. eauto.
  - destruct Hs as (i & Hi & _). exists tt. eexists. eauto.
Qed.

Lemma ra_live X t (e : evE T X) m (g : ghost T) :
  p_inv m g -> m_safe t e m -> exists x m', m_step t e m x m'.
Proof.
  intros Hi Hs. destruct e as [e|e]; [|by exists (answer e), m].
  apply mem_live; [apply (i_mem _ _ _ _ Hi)|exact Hs].
Qed.

(** C1:  Two attached processes never do anything undefined: in every reachable
    configuration the next access of each side is inside the mapping and in the
    slot array, is not a data race, is not a store racing for the modification
    order of an index, and is not a failed assertion. *)
Theorem two_process_safety {A1 A2} (cp : prog pcall A1) (cc : prog ccall A2) s1 s2 c :
  rtc cstep (fresh_conf cp cc s1 s2) c -> conf_safe c.
Proof. intros Hs. eapply verified_safe, fresh_verified, Hs. Qed.

(** C2:  First in, first out, nothing lost, duplicated, reordered or torn: when
    both clients have returned, what the consumer received is a prefix of what the
    producer's calls reported as sent, and the rest, at most [capacity()]
    elements, is what is still in the ring. *)
Theorem two_process_fifo {A1 A2} (cp : prog pcall A1) (cc : prog ccall A2) s1 s2 c a sent b got :
  rtc cstep (fresh_conf cp cc s1 s2) c ->
  pthread c = Ret (a, sent) -> cthread c = Ret (b, got) ->
  got `prefix_of` sent /\ zlen sent - zlen got <= n - 1.
Proof.
  intros Hs Hp Hc. apply fresh_verified in Hs as Hv. destruct c as [p q m]. simpl in *. subst.
  apply verified_done in Hv as (g & Hi & HP & HC & Hcns). unfold prod_post in HP. simpl in *. subst.
  split; [done|]. pose proof (i_count _ _ _ _ Hi). unfold pubs in *. lia.
Qed.

(** ** [size()] while the other side runs *)
Definition ends_with_size {A} (a : A) (q : ShmSpscQueue) (l : list T) : prog (evE T) (A * list T * Z) :=
  let* k := size q in Ret (a, l, k).

Definition sized_conf {A1 A2} (cp : prog pcall A1) (cc : prog ccall A2) (s1 s2 : ShmSegment) :
    ra_conf T (A1 * list T * Z) (A2 * list T * Z) :=
  MkConf (producer_then cp (fresh_handle n B s1 Producer) [] ends_with_size)
         (consumer_then cc (fresh_handle n B s2 Consumer) [] ends_with_size)
         (fresh_machine n B h pp pc).

Definition prod_size_post {A} (r : A * list T * Z) (s : machine T * ghost T) : Prop :=
  g_log s.2 = r.1.2 /\ 0 <= r.2 <= n - 1 /\ zlen r.1.2 - g_cns s.2 <= r.2.
Definition cons_size_post {A} (r : A * list T * Z) (s : machine T * ghost T) : Prop :=
  g_cns s.2 = zlen r.1.2 /\ 0 <= r.2 <= n - 1 /\ zlen r.1.2 + r.2 <= zlen (g_log s.2).

Lemma sized_verified {A1 A2} (cp : prog pcall A1) (cc : prog ccall A2) s1 s2 c :
  rtc cstep (sized_conf cp cc s1 s2) c -> verified prod_size_post cons_size_post c.
Proof.
  intros Hs. eapply verified_steps; [exact Hs|]. exists fresh_ghost. split_and!; [apply fresh_inv|..].
  - eapply wp_producer_then; [apply fresh_prod_state|]. intros s a q sent Hp.
    apply wp_bind. eapply wp_prod_size; [done|exact Hp|]. intros s3 k (rc & ? & ? & Hp3) Hk Hlo.
    intros s4 Hr Hi. pose proof (prod_knows_rely _ _ _ _ _ _ Hr Hp3) as Hp4.
    split; [apply (pk_log _ _ _ _ _ Hp4)|]. simpl. split; [done|].
    pose proof (rp_cns _ _ _ _ _ Hr). lia.
  - eapply wp_consumer_then; [apply fresh_cons_state|]. intros s a q got Hc.
    apply wp_bind. eapply wp_cons_size; [done|exact Hc|]. intros s3 k Hc3 Hk Hlo.
    pose proof (cons_state_post _ _ _ Hc3) as [_ Hcns].
    intros s4 Hr Hi. split; [by rewrite (rc_cns _ _ _ _ _ Hr)|]. simpl. split; [done|].
    pose proof (rc_log _ _ _ _ _ Hr) as Hl%prefix_length. unfold zlen in *. lia.
Qed.

(** C14:  [size()] called by the producer or the consumer is always between 0 and
    [capacity()], also while the other side runs: the consumer never counts an
    element that is not there for it to pop, and the producer never counts fewer
    than are in the ring. *)
Theorem two_process_size {A1 A2} (cp : prog pcall A1) (cc : prog ccall A2) s1 s2 c
    a sent kp b got kc :
  rtc cstep (sized_conf cp cc s1 s2) c ->
  pthread c = Ret (a, sent, kp) -> cthread c = Ret (b, got, kc) ->
  0 <= kc <= n - 1 /\ kc <= zlen sent - zlen got /\
  0 <= kp <= n - 1 /\ zlen sent - zlen got <= kp.
Proof.
  intros Hs Hp Hc. apply sized_verified in Hs as Hv. destruct c as [p q m]. simpl in *. subst.
  apply verified_done in Hv as (g & Hi & (HP & ? & ?) & (HC & ? & ?)). simpl in *. subst sent. lia.
Qed.
End theorems.
End clients.

(** ** Concrete runs *)
Module Runs.
#[local] Existing Instance x86_64.
#[local] Existing Instance elem_u64.
#[local] Existing Instance x86_64_ok.
#[local] Existing Instance elem_u64_ok.

(** The two processes map the segment at different addresses. *)
Definition bases (t : Role) : Z := match t with Producer => 4096 | Consumer => 1048576 end.

Lemma bases_pos t : 0 < bases t.
Proof. destruct t; reflexivity. Defined.

Lemma size4 : ring_size 4.
Proof. split; lia. Defined.

(** Sends 7 alone, then 8 and 9 as a batch. *)
Definition sends : prog (pcall (T := Z)) unit :=
  act (CallTryPush 7);; act (CallPushN [8; 9]);; Ret tt.
(** Receives one element, then up to one more. *)
Definition receives : prog (ccall (T := Z)) unit :=
  act CallTryPop;; act (CallPopN 1);; Ret tt.

Definition start : ra_conf Z (unit * list Z) (unit * list Z) :=
  fresh_conf false 4 bases (fun _ => 0) 10 11 sends receives ShmSegment_default ShmSegment_default.

(** The consumer takes the first element while the producer is between the two
    copies of its batch. *)
Definition interleaving : list (Role * nat) :=
  replicate 3 (Producer, O) ++ replicate 1 (Consumer, O) ++ replicate 2 (Producer, O) ++
  replicate 5 (Consumer, O) ++ replicate 2 (Producer, O) ++ replicate 20 (Consumer, O).
Definition finish : ra_conf Z (unit * list Z) (unit * list Z) := sched interleaving start.

Lemma finish_reached : rtc cstep start finish.
Proof. apply sched_sound. Defined.

Example finish_producer : pthread finish = Ret (tt, [7; 8; 9]).
Proof. vm_compute. reflexivity. Qed.

Example finish_consumer : cthread finish = Ret (tt, [7; 8]).
Proof. vm_compute. reflexivity. Qed.

Lemma two_process_safety_witness : conf_safe finish.
Proof. exact (two_process_safety false 4 size4 bases bases_pos _ _ _ _ _ _ _ _ finish_reached). Defined.

Lemma two_process_fifo_witness : [7; 8] `prefix_of` [7; 8; 9] /\ 3 - 2 <= 4 - 1.
Proof.
  exact (two_process_fifo false 4 size4 bases bases_pos _ _ _ _ _ _ _ finish tt [7; 8; 9] tt [7; 8]
           finish_reached finish_producer finish_consumer).
Defined.

(** Both sides finish with a call of [size()], the producer's before the consumer
    has popped anything. *)
Definition sized_start : ra_conf Z (unit * list Z * Z) (unit * list Z * Z) :=
  sized_conf false 4 bases (fun _ => 0) 10 11 sends receives ShmSegment_default ShmSegment_default.
Definition sized_finish : ra_conf Z (unit * list Z * Z) (unit * list Z * Z) :=
  sched (replicate 20 (Producer, O) ++ replicate 20 (Consumer, O)) sized_start.

Example sized_producer : pthread sized_finish = Ret (tt, [7; 8; 9], 3).
Proof. vm_compute. reflexivity. Qed.

Example sized_consumer : cthread sized_finish = Ret (tt, [7; 8], 1).
Proof. vm_compute. reflexivity. Qed.

Lemma two_process_size_witness :
  0 <= 1 <= 4 - 1 /\ 1 <= zlen [7; 8; 9] - zlen [7; 8] /\
  0 <= 3 <= 4 - 1 /\ zlen [7; 8; 9] - zlen [7; 8] <= 3.
Proof.
  apply (two_process_size false 4 size4 bases bases_pos (fun _ => 0) 10 11 sends receives
           ShmSegment_default ShmSegment_default sized_finish tt [7; 8; 9] 3 tt [7; 8] 1);
    [apply sched_sound|exact sized_producer|exact sized_consumer].
Defined.
End Runs.
