(* ===== verification/Quiescent.v ===== *)
(** * A queue at rest

    Two arbitrary clients have used a queue concurrently and have both returned.  From
    here on one process calls an operation while the other does nothing, and its loads
    return the newest values: [newest] runs it on the memory the clients have left.
    That memory, flattened to the last entry of every location, is a segment on which
    the operation run alone (Sequential.v) does the same; so the exact answers proved
    there hold after every concurrent history. *)

From stdpp Require Import relations.
From S2P Require Import Prelude Prog Effects Machine Layout Segment Queue Shm Ring Sequential Refinement RaMemory RelyGuarantee SpscProtocol Concurrent Delivery.
#[local] Open Scope Z_scope.
#[local] Open Scope prog_scope.

(** ** Accesses of the data path *)
Section quiet.
Context {T : Type} `{Platform} `{Elem T}.

Definition quiet_access {X} (e : evE T X) : Prop :=
  match e with
  | Mem (ALoad _ _ _) | Mem (AStore _ _ _ _) | Mem (SlotRead _) | Mem (SlotWrite _ _) => True
  | Os AssertFail => True
  | _ => False
  end.

(** Atomic loads and stores, slot accesses and the assertion, nothing else. *)
Fixpoint quiet {A} (p : prog (evE T) A) : Prop :=
  match p with
  | Ret _ => True
  | Vis e k => quiet_access e /\ forall x, quiet (k x)
  end.

Lemma quiet_bind {A B} (p : prog (evE T) A) (f : A -> prog (evE T) B) :
  quiet p -> (forall a, quiet (f a)) -> quiet (bind p f).
Proof. induction p as [a|X e k IH]; simpl; [auto|]. intros [? ?] ?. auto. Qed.

Lemma quiet_memcpy_in a (src : list T) : quiet (memcpy_in a src).
Proof. revert a. induction src as [|v src IH]; intros a; simpl; auto. Qed.

Lemma quiet_memcpy_out a k : quiet (memcpy_out (T := T) a k).
Proof.
  revert a. induction k as [|k IH]; intros a; simpl; [done|]. split; [done|]. intros x.
  by apply quiet_bind.
Qed.
End quiet.

(** Follows the structure of an operation. *)
Ltac quiet_steps :=
  repeat first
    [ exact I
    | apply quiet_memcpy_in
    | apply quiet_memcpy_out
    | progress cbv zeta
    | progress unfold load, store, slot_read, slot_write, sys, act
    | match goal with
      | |- quiet (Ret _) => exact I
      | |- quiet (Vis _ _) => split
      | |- quiet (bind _ _) => apply quiet_bind
      | |- quiet_access _ => exact I
      | |- quiet (if ?b then _ else _) => destruct b
      | |- quiet (match ?o with Some _ => _ | None => _ end) => destruct o
      | |- forall x : _ * _, _ => intros [? ?]
      | |- forall _, _ => intros ?
      end ].

Section quiet_operations.
Context {T : Type} `{Platform} `{Elem T} (ndebug : bool).

Lemma quiet_try_push q (v : T) : quiet (try_push q v).
Proof. unfold try_push. quiet_steps. Qed.

Lemma quiet_push_n q (src : list T) k : quiet (push_n q src k).
Proof. unfold push_n. quiet_steps. Qed.

Lemma quiet_try_pop q : quiet (T := T) (try_pop ndebug q).
Proof. unfold try_pop, front, pop_front. quiet_steps. Qed.

Lemma quiet_pop_n q k : quiet (T := T) (pop_n q k).
Proof. unfold pop_n. quiet_steps. Qed.

Lemma quiet_size q : quiet (T := T) (size q).
Proof. unfold size. quiet_steps. Qed.

Lemma quiet_empty q : quiet (T := T) (empty q).
Proof. unfold empty. quiet_steps. Qed.

Lemma quiet_pop_singles q k : quiet (T := T) (pop_singles ndebug q k).
Proof.
  revert q. induction k as [|k IH]; intros q; cbn [pop_singles]; [done|].
  apply quiet_bind; [apply quiet_try_pop|]. intros [q' [v|]]; [|done].
  apply quiet_bind; [apply IH|]. by intros [q2 xs].
Qed.
End quiet_operations.

(** ** Reading the newest values *)
Section flatten.
Context {T : Type} `{Platform} `{Elem T} `{!PlatformOk _} `{!ElemOk T}.

(** An operation of process [t] on the two processes' memory, every load returning the
    last entry.  No system call is served: a failed assertion is undefined. *)
Definition newest (t : Role) : handler (evE T) (machine T) :=
  fun X e m => match e with Mem e => exec_mem t O e m | Os _ => None end.

(** The world [w] of one process is what the memory [m] holds last. *)
Record flat (t : Role) (m : machine T) (w : world T) : Prop := {
  fl_ok : mem_ok m;
  fl_base : w_base w = base m t;
  fl_last f : option_map m_val (last (hist m f)) = Some (get_a (cb (w_shm w)) f);
  fl_cell i v : slots (w_shm w) !! i = Some v -> c_val (cells m (Z.of_nat i)) = v }.

Lemma flat_pick t m w f :
  flat t m w -> exists i s, pick t f O m = Some (i, s) /\ hist m f !! i = Some s /\
    m_val s = get_a (cb (w_shm w)) f.
Proof.
  intros Hf. pose proof (fl_last _ _ _ Hf f) as Hl. rewrite last_lookup in Hl.
  pose proof (ok_threads _ (fl_ok _ _ _ Hf) t f) as Hv.
  replace (pred (length (hist m f))) with (length (hist m f) - 1 - 0)%nat in Hl by lia.
  unfold pick. destruct (hist m f !! (length (hist m f) - 1 - 0)%nat) as [s|] eqn:Hs; [|done].
  injection Hl as Hl. rewrite (proj2 (Nat.leb_le _ _)) by lia. eauto.
Qed.

Lemma flat_access {X} t (e : evE T X) m w x w' :
  quiet_access e -> flat t m w -> alone X e w = Some (x, w') ->
  exists m', newest t X e m = Some (x, m') /\ flat t m' w' /\ base m' = base m.
Proof.
  intros Hq Hf. pose proof Hf as [Hok Hbase Hlast Hcell]. destruct e as [e|e].
  2: by destruct e.
  destruct e as [c f o|c f v o|? ? ? ? ? ? ?|?|? ? ?|?|a|a v]; try done; cbn.
  - destruct (c =? w_base w); [|done]. intros. simplify_eq.
    destruct (flat_pick t m w' f Hf) as (i & s & -> & Hs & <-). eexists. split; [done|].
    split; [|done]. split; try done. apply mem_ok_set_view; [done|by apply after_load_ok].
  - destruct (c =? w_base w); [|done]. intros. simplify_eq. eexists. split; [done|].
    split; [|done]. split; try done; [by apply mem_ok_do_store|]. intros g. cbn. rewrite get_set_a. unfold fupd.
    case_decide; [by subst; rewrite last_snoc|apply Hlast].
  - rewrite Hbase. destruct (slot_at (base m t) a) as [i|] eqn:Hi; [|done].
    assert (0 <= i) as Hp.
    { unfold slot_at in Hi. repeat case_match; simplify_eq. apply Z.div_pos; [lia|apply sizeT_pos]. }
    destruct (slots (w_shm w) !! Z.to_nat i) as [v|] eqn:Hv; [|done]. intros. simplify_eq.
    apply Hcell in Hv. rewrite Z2Nat.id in Hv by done. rewrite <- Hv. eexists. split; [done|].
    split; [|done]. split; [by apply mem_ok_set_cell|done|done|]. intros j y Hy. apply Hcell in Hy. cbn. unfold fupd.
    case_decide as Hd; [by rewrite <- Hy, Hd|done].
  - rewrite Hbase. destruct (slot_at (base m t) a) as [i|] eqn:Hi; [|done].
    assert (0 <= i) as Hp.
    { unfold slot_at in Hi. repeat case_match; simplify_eq. apply Z.div_pos; [lia|apply sizeT_pos]. }
    destruct (Z.ltb_spec i (zlen (slots (w_shm w)))); [|done]. intros. simplify_eq.
    eexists. split; [done|]. split; [|done]. split; [by apply mem_ok_set_cell|done|done|]. intros j y. cbn.
    unfold fupd. case_decide as Hd.
    + subst i. rewrite Nat2Z.id, list_lookup_insert_eq by (unfold zlen in *; lia). by intros [= ->].
    + rewrite list_lookup_insert_ne by lia. apply Hcell.
Qed.

(** What an operation does alone on the flattened memory it does on the memory. *)
Lemma flat_run {A} t (p : prog (evE T) A) m w a w' :
  quiet p -> flat t m w -> run alone p w = Some (a, w') ->
  exists m', run (newest t) p m = Some (a, m') /\ flat t m' w' /\ base m' = base m.
Proof.
  revert m w. induction p as [b|X e k IH]; intros m w Hq Hf; cbn [run].
  { intros [= -> ->]. eauto. }
  destruct Hq as [He Hk]. destruct (alone X e w) as [[x w1]|] eqn:Hx; [|done]. intros Hr.
  destruct (flat_access t e m w x w1 He Hf Hx) as (m1 & -> & Hf1 & <-). by eapply IH.
Qed.

(** The other process has the same contents mapped at its own address. *)
Lemma flat_rebase t t' m w w' :
  flat t m w -> w_shm w' = w_shm w -> w_base w' = base m t' -> flat t' m w'.
Proof. intros [] Hs Hb. split; [done|done|by rewrite Hs..]. Qed.

(** The memory flattened, as process [t] has it mapped. *)
Definition flatten (t : Role) (m : machine T) : world T :=
  MkWorld (MkShm (cb_of (hdr m) (fun f => match last (hist m f) with Some s => m_val s | None => 0 end))
             ((fun i => c_val (cells m i)) <$> seqZ 0 (nslots m)))
    (base m t) (fun _ _ => (0, 0)) 0 0 0.

Lemma flatten_flat t m : mem_ok m -> flat t m (flatten t m).
Proof.
  intros Hm. split; [done|done| |].
  - intros f. cbn [flatten w_shm cb]. rewrite get_a_of. pose proof (ok_threads _ Hm t f) as Hv.
    destruct (last (hist m f)) as [s|] eqn:Hl; [done|]. apply last_None in Hl. rewrite Hl in Hv. simpl in Hv. lia.
  - intros i v. cbn [flatten w_shm slots]. rewrite list_lookup_fmap.
    destruct (seqZ 0 (nslots m) !! i) as [j|] eqn:Hj; [|done]. apply lookup_seqZ in Hj as [-> _]. cbn.
    rewrite Z.add_0_l. by intros [= ->].
Qed.

Lemma zlen_flatten t m : 0 <= nslots m -> zlen (slots (w_shm (flatten t m))) = nslots m.
Proof. intros Hn. cbn. unfold zlen. rewrite length_fmap, length_seqZ. lia. Qed.
End flatten.

(** The elements of a run of slots, one by one. *)
Lemma ring_get_lookup {T} (l : list T) c vs :
  (forall j v, vs !! j = Some v -> l !! Z.to_nat ((c + Z.of_nat j) mod zlen l) = Some v) ->
  ring_get l c (length vs) = vs.
Proof.
  revert c. induction vs as [|v vs IH]; intros c Hl; cbn [length ring_get]; [done|].
  pose proof (Hl O v eq_refl) as H0. rewrite Z.add_0_r in H0. rewrite H0. f_equal. apply IH.
  intros j x Hj. specialize (Hl (S j) x Hj). replace (c + 1 + Z.of_nat j) with (c + Z.of_nat (S j)) by lia. done.
Qed.

(** ** After two clients *)
Section at_rest.
Context {T : Type} `{Platform} `{Elem T} `{!PlatformOk _} `{!ElemOk T}.
Context (ndebug : bool) (n : Z) (Hn : ring_size n) (B : Role -> Z) (HB : forall t, 0 < B t).
Context (h : hfield -> Z) (pp pc : Z).
#[local] Instance rest_protocol : Protocol (machine T) (ghost T) := spsc_protocol n B.
#[local] Instance rest_protocol_ok : ProtocolOk (machine T) (ghost T) := spsc_protocol_ok n B.

(** The clients return their handles. *)
Definition ends_with_handle {A} (a : A) (q : ShmSpscQueue) (l : list T) :
    prog (evE T) (A * ShmSpscQueue * list T) := Ret (a, q, l).

Definition ended_conf {A1 A2} (cp : prog pcall A1) (cc : prog ccall A2) (s1 s2 : ShmSegment) :
    ra_conf T (A1 * ShmSpscQueue * list T) (A2 * ShmSpscQueue * list T) :=
  MkConf (producer_then cp (fresh_handle n B s1 Producer) [] ends_with_handle)
         (consumer_then ndebug cc (fresh_handle n B s2 Consumer) [] ends_with_handle)
         (fresh_machine n B h pp pc).

Definition prod_end {A} (r : A * ShmSpscQueue * list T) (s : machine T * ghost T) : Prop :=
  prod_state n B s r.1.2 r.2.
Definition cons_end {A} (r : A * ShmSpscQueue * list T) (s : machine T * ghost T) : Prop :=
  cons_state n B s r.1.2 r.2.

Lemma ended_verified {A1 A2} (cp : prog pcall A1) (cc : prog ccall A2) s1 s2 c :
  rtc cstep (ended_conf cp cc s1 s2) c -> verified prod_end cons_end c.
Proof.
  intros Hs. eapply verified_steps; [exact Hs|]. exists fresh_ghost. split_and!; [by apply fresh_inv|..].
  - eapply (wp_producer_then n Hn B); [by apply fresh_prod_state|]. intros s a q sent (rc & ? & ? & Hk).
    eapply wp_prod_ret; [exact Hk|]. intros s' Hs'. exists rc. done.
  - eapply (wp_consumer_then ndebug n Hn B HB); [by apply fresh_cons_state|]. intros s a q got (known & ? & ? & Hk & ?).
    eapply wp_cons_ret; [exact Hk|]. intros s' Hs'. exists known. done.
Qed.

(** *** The flattened memory is a ring that holds what is in flight *)
Lemma flatten_index t (m : machine T) f cs cur K :
  history n (hist m f) cs cur K -> get_a (cb (w_shm (flatten t m))) f = cur mod n.
Proof.
  intros Hh. pose proof (h_last _ _ _ _ _ Hh) as Hl. pose proof (h_len _ _ _ _ _ Hh) as Hlen.
  cbn [flatten w_shm cb]. rewrite get_a_of, last_lookup. rewrite last_lookup in Hl.
  destruct (hist m f !! pred (length (hist m f))) as [s|] eqn:Hs.
  - rewrite Hlen in Hl. by destruct (h_entry _ _ _ _ _ Hh _ _ _ Hs Hl).
  - apply lookup_ge_None in Hs. apply lookup_lt_Some in Hl. lia.
Qed.

Lemma flatten_ring t (m : machine T) (g : ghost T) :
  spsc_inv n B m g -> ring (flatten t m) (pubs g) (g_cns g).
Proof.
  intros Hi. pose proof (ring_pos n Hn) as Hp. pose proof (i_slots _ _ _ _ Hi) as Hs.
  assert (zlen (slots (w_shm (flatten t m))) = n) as Hz by (rewrite zlen_flatten; lia).
  pose proof (i_count _ _ _ _ Hi) as [Hc1 Hc2]. constructor; rewrite ?Hz; try done.
  - cbn. rewrite (i_base _ _ _ _ Hi). apply HB.
  - apply (flatten_index t m writeIdx _ _ _ (i_write _ _ _ _ Hi)).
  - apply (flatten_index t m readIdx _ _ _ (i_read _ _ _ _ Hi)).
  - lia.
Qed.

Lemma flatten_contents t (m : machine T) (g : ghost T) :
  spsc_inv n B m g -> contents (w_shm (flatten t m)) = zdrop (g_cns g) (g_log g).
Proof.
  intros Hi. pose proof (flatten_ring t m g Hi) as Hr. pose proof (ring_pos n Hn) as Hp.
  pose proof (i_slots _ _ _ _ Hi) as Hs. pose proof (i_count _ _ _ _ Hi) as [Hc1 Hc2].
  assert (zlen (slots (w_shm (flatten t m))) = n) as Hz by (rewrite zlen_flatten; lia).
  rewrite (contents_counts _ _ _ Hr).
  replace (Z.to_nat (pubs g - g_cns g)) with (length (zdrop (g_cns g) (g_log g)))
    by (unfold zdrop, pubs, zlen in *; rewrite length_drop; lia).
  apply ring_get_lookup. intros j v Hj. unfold zdrop in Hj. rewrite lookup_drop in Hj. rewrite Hz.
  pose proof (i_val _ _ _ _ Hi (g_cns g + Z.of_nat j) v ltac:(lia)) as Hv.
  rewrite Z2Nat.inj_add, Nat2Z.id in Hv by lia. specialize (Hv Hj).
  pose proof (mod_range n Hp (g_cns g + Z.of_nat j)).
  cbn [flatten w_shm slots]. rewrite list_lookup_fmap, lookup_seqZ_lt by lia. cbn.
  rewrite Z2Nat.id, Z.add_0_l, Hv by lia. done.
Qed.

Lemma attached_mapped t q (m : machine T) (g : ghost T) : spsc_inv n B m g -> attached n B t q -> mapped q (flatten t m).
Proof.
  intros Hi (Hc & Hs & Hcap). pose proof (ring_pos n Hn). pose proof (i_slots _ _ _ _ Hi).
  constructor; [by cbn; rewrite (i_base _ _ _ _ Hi)|by cbn; rewrite (i_base _ _ _ _ Hi)|].
  rewrite zlen_flatten; lia.
Qed.

Lemma flatten_prod_ok (m : machine T) (g : ghost T) q sent :
  spsc_inv n B m g -> prod_state n B (m, g) q sent ->
  g_log g = sent /\ prod_ok q (flatten Producer m) (pubs g) (g_cns g).
Proof.
  intros Hi (rc & Ha & Hrc & Hk). pose proof (pk_log _ _ _ _ _ Hk) as Hl. pose proof (pk_rc _ _ _ _ _ Hk).
  pose proof (pk_room _ _ _ _ _ Hk) as Hroom. cbn [snd] in *. rewrite zlen_nil in Hroom.
  pose proof (ring_pos n Hn). pose proof (i_slots _ _ _ _ Hi). split; [done|].
  split; [by apply (attached_mapped _ _ _ g)|]. exists rc. rewrite zlen_flatten by lia.
  unfold pubs. rewrite Hl. split_and!; [congruence|lia|lia].
Qed.

Lemma flatten_cons_ok (m : machine T) (g : ghost T) q got :
  spsc_inv n B m g -> cons_state n B (m, g) q got ->
  g_cns g = zlen got /\ got `prefix_of` g_log g /\ cons_ok q (flatten Consumer m) (pubs g) (g_cns g).
Proof.
  intros Hi Hs. pose proof (cons_state_post n B (m, g) q got Hs) as [Hpre Hc]. cbn [snd] in *.
  destruct Hs as (known & Ha & Hw & Hk & Hg). pose proof (ck_room _ _ _ _ Hk).
  pose proof (ck_known _ _ _ _ Hk) as Hkn%prefix_length.
  pose proof (ring_pos n Hn). pose proof (i_slots _ _ _ _ Hi). split_and!; [done|done|].
  split; [by apply (attached_mapped _ _ _ g)|]. exists (zlen known). rewrite zlen_flatten by lia.
  unfold pubs, zlen in *. cbn [snd] in *. split_and!; [congruence|lia|lia].
Qed.
(** What an operation of the consumer, or of the producer, does at rest. *)
Lemma consumer_at_rest {A} (p : prog (evE T) A) m w' a :
  mem_ok m -> quiet p -> run alone p (flatten Consumer m) = Some (a, w') ->
  exists m', run (newest Consumer) p m = Some (a, m') /\ flat Consumer m' w' /\ base m' = base m.
Proof. intros Hm Hq. apply flat_run; [done|by apply flatten_flat]. Qed.

Lemma producer_at_rest {A} (p : prog (evE T) A) m w' a :
  mem_ok m -> quiet p -> run alone p (flatten Producer m) = Some (a, w') ->
  exists m', run (newest Producer) p m = Some (a, m').
Proof.
  intros Hm Hq Hr. destruct (flat_run Producer p m _ a w' Hq (flatten_flat _ _ Hm) Hr) as (m' & ? & _). eauto.
Qed.

(** The clients have ended: the ring as each of them has it mapped. *)
Lemma ended {A1 A2} (cp : prog pcall A1) (cc : prog ccall A2) s1 s2 c a qp sent b qc got :
  rtc cstep (ended_conf cp cc s1 s2) c ->
  pthread c = Ret (a, qp, sent) -> cthread c = Ret (b, qc, got) ->
  mem_ok (memory c) /\ got `prefix_of` sent /\ base (memory c) = B /\
  (forall t, ring (flatten t (memory c)) (zlen sent) (zlen got) /\
     zlen (slots (w_shm (flatten t (memory c)))) = n /\
     contents (w_shm (flatten t (memory c))) = zdrop (zlen got) sent) /\
  prod_ok qp (flatten Producer (memory c)) (zlen sent) (zlen got) /\
  cons_ok qc (flatten Consumer (memory c)) (zlen sent) (zlen got).
Proof.
  intros Hs Hp Hc. apply ended_verified in Hs as Hv. destruct c as [p q m]. simpl in Hp, Hc. subst p q.
  apply verified_done in Hv as (g & Hi & HP & HC). cbn [memory].
  destruct (flatten_prod_ok m g qp sent Hi HP) as [Hl Hpok].
  destruct (flatten_cons_ok m g qc got Hi HC) as (Hcns & Hpre & Hcok).
  pose proof (fun t => flatten_ring t m g Hi) as Hr. pose proof (fun t => flatten_contents t m g Hi) as Hct.
  pose proof (ring_pos n Hn). pose proof (i_slots _ _ _ _ Hi) as Hns. unfold pubs in *.
  rewrite Hl, Hcns in *. split_and!; [apply (i_mem _ _ _ _ Hi)|done|apply (i_base _ _ _ _ Hi)| |done|done].
  intros t. split_and!; [done|rewrite zlen_flatten; lia|done].
Qed.

(** C7: nothing is lost, and the space comes back.  After any concurrent use of the
    queue by any two clients, what was sent and not received can be received: enough
    calls of [try_pop], or one [pop_n], made while the producer is quiet and reading
    the newest values, return exactly the rest of the stream, in order; and after that
    the producer can fill the whole capacity again. *)
Theorem drains_completely {A1 A2} (cp : prog pcall A1) (cc : prog ccall A2) s1 s2 c a qp sent b qc got k src :
  rtc cstep (ended_conf cp cc s1 s2) c ->
  pthread c = Ret (a, qp, sent) -> cthread c = Ret (b, qc, got) -> zlen sent - zlen got <= Z.of_nat k ->
  exists rest, got ++ rest = sent /\
    (exists q1 m1, run (newest Consumer) (pop_n qc (Z.of_nat k)) (memory c) = Some ((q1, zlen rest, rest), m1)) /\
    exists q2 m2, run (newest Consumer) (pop_singles ndebug qc k) (memory c) = Some ((q2, rest), m2) /\
    exists q3 m3, run (newest Producer) (push_n qp src (zlen src)) m2 =
      Some ((q3, Z.min (zlen src) (n - 1)), m3).
Proof.
  intros Hs Hp Hc Hk. destruct (ended _ _ _ _ _ _ _ _ _ _ _ Hs Hp Hc) as (Hm & [rest ->] & Hb & Hr & Hpok & Hcok).
  exists rest. split; [done|]. rewrite zlen_app in *.
  destruct (Hr Consumer) as (HrC & HzC & Hct). destruct (Hr Producer) as (HrP & HzP & _).
  pose proof (zlen_nonneg rest).
  assert (zdrop (zlen got) (got ++ rest) = rest) as Hrest
    by (unfold zdrop, zlen; rewrite Nat2Z.id; by rewrite drop_app_length).
  assert (ztake (Z.of_nat k) rest = rest) as Htake by (unfold ztake, zlen in *; rewrite take_ge; [done|lia]).
  rewrite Hrest in Hct. split.
  - destruct (run_pop_n qc _ _ _ (Z.of_nat k) HrC Hcok ltac:(lia)) as (q1 & Hrun & _).
    rewrite Hct in Hrun. replace (Z.min _ _) with (zlen rest) in Hrun by lia.
    replace (ztake (zlen rest) rest) with rest in Hrun by (unfold ztake, zlen; by rewrite Nat2Z.id, firstn_all).
    destruct (consumer_at_rest _ _ _ _ Hm (quiet_pop_n _ _) Hrun) as (m1 & ? & _). eauto.
  - destruct (run_pop_singles ndebug qc _ _ _ k HrC Hcok) as (q2 & Hrun).
    rewrite Hct, Htake in Hrun. replace (Z.min _ _) with (zlen rest) in Hrun by lia.
    destruct (consumer_at_rest _ _ _ _ Hm (quiet_pop_singles _ _ _) Hrun) as (m2 & Hm2 & Hf & Hbm).
    exists q2, m2. split; [done|].
    set (w := popped (flatten Producer (memory c)) (zlen got) (zlen rest)).
    assert (flat Producer m2 w) as Hf2 by (eapply flat_rebase; [exact Hf|done|by cbn; rewrite Hbm]).
    pose proof (ring_popped _ _ _ (zlen rest) HrP ltac:(lia)) as HrP'.
    pose proof (prod_ok_popped _ _ _ _ (zlen rest) ltac:(lia) Hpok) as Hpok'. fold w in HrP', Hpok'.
    destruct (run_push_n qp w _ _ src (zlen src) HrP' Hpok' ltac:(pose proof (zlen_nonneg src); lia)) as (q3 & Hrun3 & _).
    assert (zlen (slots (w_shm w)) = n) as Hz by exact HzP. rewrite Hz in Hrun3.
    replace (n - 1 - _) with (n - 1) in Hrun3 by lia.
    destruct (flat_run Producer _ _ _ _ _ (quiet_push_n _ _ _) Hf2 Hrun3) as (m3 & ? & _). eauto.
Qed.

(** C8: no spurious failure.  After any concurrent use of the queue by any two clients, a
    call made while the other side is quiet, reading the newest values, is exact:
    [try_push] succeeds if and only if fewer than [capacity()] elements are in flight,
    [push_n] takes as many as there is room for, [try_pop] returns the next element of
    the stream, or nothing exactly when everything sent was received, and [size] and
    [empty] tell the exact state to both sides. *)
Theorem exact_at_rest {A1 A2} (cp : prog pcall A1) (cc : prog ccall A2) s1 s2 c a qp sent b qc got v src :
  rtc cstep (ended_conf cp cc s1 s2) c ->
  pthread c = Ret (a, qp, sent) -> cthread c = Ret (b, qc, got) ->
  let flying := zlen sent - zlen got in
  (exists q m, run (newest Producer) (try_push qp v) (memory c) = Some ((q, flying <? n - 1), m)) /\
  (exists q m, run (newest Producer) (push_n qp src (zlen src)) (memory c) =
     Some ((q, Z.min (zlen src) (n - 1 - flying)), m)) /\
  (exists q m, run (newest Consumer) (try_pop ndebug qc) (memory c) = Some ((q, sent !! length got), m)) /\
  (exists m, run (newest Producer) (size qp) (memory c) = Some (flying, m)) /\
  (exists m, run (newest Consumer) (size qc) (memory c) = Some (flying, m)) /\
  (exists m, run (newest Consumer) (empty qc) (memory c) = Some (flying =? 0, m)).
Proof.
  intros Hs Hp Hc flying. destruct (ended _ _ _ _ _ _ _ _ _ _ _ Hs Hp Hc) as (Hm & _ & _ & Hr & Hpok & Hcok).
  destruct (Hr Consumer) as (HrC & HzC & Hct). destruct (Hr Producer) as (HrP & HzP & _). split_and!.
  - destruct (run_try_push qp _ _ _ v HrP Hpok) as (q & Hrun & _). rewrite HzP in Hrun.
    destruct (producer_at_rest _ _ _ _ Hm (quiet_try_push _ _) Hrun). eauto.
  - destruct (run_push_n qp _ _ _ src (zlen src) HrP Hpok ltac:(pose proof (zlen_nonneg src); lia)) as (q & Hrun & _).
    rewrite HzP in Hrun. destruct (producer_at_rest _ _ _ _ Hm (quiet_push_n _ _ _) Hrun). eauto.
  - destruct (run_try_pop ndebug qc _ _ _ HrC Hcok) as (q & k & Hrun & _). rewrite Hct in Hrun.
    unfold zdrop, zlen in Hrun. rewrite Nat2Z.id in Hrun.
    rewrite head_lookup, lookup_drop, Nat.add_0_r in Hrun.
    destruct (consumer_at_rest _ _ _ _ Hm (quiet_try_pop _ _) Hrun) as (m & ? & _). eauto.
  - destruct (producer_at_rest _ _ _ _ Hm (quiet_size _) (run_size qp _ _ _ HrP (proj1 Hpok))). eauto.
  - destruct (consumer_at_rest _ _ _ _ Hm (quiet_size _) (run_size qc _ _ _ HrC (proj1 Hcok))) as (m & ? & _). eauto.
  - destruct (consumer_at_rest _ _ _ _ Hm (quiet_empty _) (run_empty qc _ _ _ HrC (proj1 Hcok))) as (m & Hrun & _).
    exists m. rewrite Hrun. do 2 f_equal. unfold flying. lia.
Qed.
End at_rest.

(** ** After a concrete run *)
Module RestSample.
Import Runs.
#[local] Existing Instance x86_64.
#[local] Existing Instance elem_u64.
#[local] Existing Instance x86_64_ok.
#[local] Existing Instance elem_u64_ok.

Definition rest_start : ra_conf Z (unit * ShmSpscQueue * list Z) (unit * ShmSpscQueue * list Z) :=
  ended_conf false 4 bases (fun _ => 0) 10 11 sends receives ShmSegment_default ShmSegment_default.
Definition at_rest : ra_conf Z (unit * ShmSpscQueue * list Z) (unit * ShmSpscQueue * list Z) :=
  sched interleaving rest_start.

(** The handle of a process that has returned. *)
Definition handle_of (p : prog (evE Z) (unit * ShmSpscQueue * list Z)) : ShmSpscQueue :=
  match p with Ret (_, q, _) => q | Vis _ _ => ShmSpscQueue_default end.

Example rest_producer : pthread at_rest = Ret (tt, handle_of (pthread at_rest), [7; 8; 9]).
Proof. vm_compute. reflexivity. Qed.

Example rest_consumer : cthread at_rest = Ret (tt, handle_of (cthread at_rest), [7; 8]).
Proof. vm_compute. reflexivity. Qed.

Lemma drains_completely_witness :
  exists rest, [7; 8] ++ rest = [7; 8; 9] /\
    (exists q1 m1, run (newest Consumer) (pop_n (handle_of (cthread at_rest)) 5) (memory at_rest) =
       Some ((q1, zlen rest, rest), m1)) /\
    exists q2 m2, run (newest Consumer) (pop_singles false (handle_of (cthread at_rest)) 5) (memory at_rest) =
      Some ((q2, rest), m2) /\
    exists q3 m3, run (newest Producer) (push_n (handle_of (pthread at_rest)) [1; 2; 3; 4] 4) m2 =
      Some ((q3, Z.min 4 (4 - 1)), m3).
Proof.
  apply (drains_completely false 4 size4 bases bases_pos (fun _ => 0) 10 11 sends receives
           ShmSegment_default ShmSegment_default at_rest tt (handle_of (pthread at_rest)) [7; 8; 9]
           tt (handle_of (cthread at_rest)) [7; 8] 5 [1; 2; 3; 4]);
    [apply sched_sound|exact rest_producer|exact rest_consumer|vm_compute; discriminate].
Defined.

Lemma exact_at_rest_witness :
  (exists q m, run (newest Producer) (try_push (handle_of (pthread at_rest)) 5) (memory at_rest) =
     Some ((q, 1 <? 4 - 1), m)) /\
  (exists q m, run (newest Producer) (push_n (handle_of (pthread at_rest)) [1; 2; 3] 3) (memory at_rest) =
     Some ((q, Z.min 3 (4 - 1 - 1)), m)) /\
  (exists q m, run (newest Consumer) (try_pop false (handle_of (cthread at_rest))) (memory at_rest) =
     Some ((q, Some 9), m)) /\
  (exists m, run (newest Producer) (size (handle_of (pthread at_rest))) (memory at_rest) = Some (1, m)) /\
  (exists m, run (newest Consumer) (size (handle_of (cthread at_rest))) (memory at_rest) = Some (1, m)) /\
  (exists m, run (newest Consumer) (empty (handle_of (cthread at_rest))) (memory at_rest) = Some (1 =? 0, m)).
Proof.
  apply (exact_at_rest false 4 size4 bases bases_pos (fun _ => 0) 10 11 sends receives
           ShmSegment_default ShmSegment_default at_rest tt (handle_of (pthread at_rest)) [7; 8; 9]
           tt (handle_of (cthread at_rest)) [7; 8] 5 [1; 2; 3]);
    [apply sched_sound|exact rest_producer|exact rest_consumer].
Defined.
End RestSample.
