(* ===== verification/Fleet.v ===== *)
(** * Several segments and a clock

    Two processes that share any number of queues and read the same steady clock:
    what the demo and the latency benchmark are.  The segments are indexed by [C]; a
    queue is [fwd] when the first process is its producer.  Each segment is a memory
    of its own (RaMemory.v): that a synchronisation through one of them is also one
    for the others is not used, which only allows more behaviours.  The clock is
    common to both processes and does not run backwards.

    The logic is that of one queue for each segment, with a predicate [Phi] on the
    elements published so far, which the processes can rely on to learn about the
    messages they receive: it may mention the present time, and holds of every
    shorter log and at every later time. *)

From stdpp Require Import relations.
From S2P Require Import Prelude Prog Effects Machine Layout Segment Queue Shm Ring RaMemory RelyGuarantee SpscProtocol Concurrent Delivery.
#[local] Open Scope Z_scope.
#[local] Open Scope prog_scope.

(** What a program asks of the system besides its queues: [nowNs()], and the flag set
    by its signal handler. *)
Inductive ask : Type -> Type :=
| NowNs : ask Z
| Stopped : ask bool.

Definition ask_os {X} (e : ask X) : osE X :=
  match e in ask X return osE X with NowNs => SteadyNow | Stopped => Signalled end.

(** A predicate on the log of a queue at a point in time. *)
Class LogPred {C T : Type} (Phi : C -> Z -> list T -> Prop) : Prop := {
  Phi_later c x y l : x <= y -> Phi c x l -> Phi c y l;
  Phi_prefix c x l l' : l `prefix_of` l' -> Phi c x l' -> Phi c x l;
  Phi_nil c x : Phi c x [] }.

(** The sizes of the rings, and where each side has the segments mapped. *)
Class FleetOk {C : Type} (n : C -> Z) (B : C -> Role -> Z) : Prop := {
  fl_size c : ring_size (n c);
  fl_base c t : 0 < B c t }.

(** Applies a rule for a client program and discharges what the context says of the
    fleet and of the handles. *)
Tactic Notation "client_rule" uconstr(lem) :=
  eapply lem;
  try solve [lazymatch goal with
             | |- FleetOk _ _ => apply _
             | |- LogPred _ => apply _
             | |- PlatformOk _ => apply _
             | |- ElemOk _ => apply _
             | |- _ -> _ => fail
             | |- _ => eassumption
             end].

Section fleet.
Context {C : Type} `{EqDecision C} {T : Type} `{Platform} `{Elem T}.
Context (fwd : C -> bool).

(** The role of process [t] on segment [c]. *)
Definition on (c : C) (t : Role) : Role := if fwd c then t else peer t.

Inductive flE (X : Type) : Type :=
| OnSeg (c : C) (e : memE T X)
| Sys (e : osE X).
#[local] Arguments OnSeg {X} c e.
#[local] Arguments Sys {X} e.

Record fleet : Type := MkFleet { segs : C -> machine T; now : Z }.

Definition fl_safe {X} (t : Role) (e : flE X) (w : fleet) : Prop :=
  match e with
  | OnSeg c e => safe_mem (on c t) e (segs w c)
  | Sys e => safe_os e
  end.

(** The nanoseconds of the clock fit in 64 bits; the other calls may answer
    anything. *)
Definition sys_step {X} (e : osE X) (w : fleet) : X -> fleet -> Prop :=
  match e in osE X return X -> fleet -> Prop with
  | SteadyNow => fun x w' => now w <= x < W64 /\ w' = MkFleet (segs w) x
  | _ => fun _ w' => w' = w
  end.

Definition fl_step {X} (t : Role) (e : flE X) (w : fleet) (x : X) (w' : fleet) : Prop :=
  match e with
  | OnSeg c e => exists m, step_mem (on c t) e (segs w c) x m /\ w' = MkFleet (fupd c m (segs w)) (now w)
  | Sys e => sys_step e w x w'
  end.

#[local] Instance fl_machine : Machine flE fleet := { m_safe := @fl_safe; m_step := @fl_step }.

(** Executing: the clock advances by the scheduler's number. *)
Definition sys_exec {X} (back : nat) (e : osE X) (w : fleet) : option (X * fleet) :=
  match e in osE X return option (X * fleet) with
  | SteadyNow =>
      let x := now w + Z.of_nat back in
      if x <? W64 then Some (x, MkFleet (segs w) x) else None
  | e => Some (answer e, w)
  end.

Definition fl_exec {X} (t : Role) (back : nat) (e : flE X) (w : fleet) : option (X * fleet) :=
  match e with
  | OnSeg c e =>
      match exec_mem (on c t) back e (segs w c) with
      | Some (x, m) => Some (x, MkFleet (fupd c m (segs w)) (now w))
      | None => None
      end
  | Sys e => sys_exec back e w
  end.

#[local] Instance fl_executor : Executor flE fleet.
Proof.
  refine {| m_exec := @fl_exec |}. intros X t back [c e|e] w x w'; simpl.
  - destruct (exec_mem (on c t) back e (segs w c)) as [[y m]|] eqn:Hx; [|done].
    intros. simplify_eq. exists m. split; [by apply exec_mem_sound in Hx|done].
  - destruct e; simpl; intros Hx; try (by simplify_eq).
    destruct (Z.ltb_spec (now w + Z.of_nat back) W64); simplify_eq. split; [lia|done].
Defined.

(** A program of one queue, run on segment [c]. *)
Fixpoint lift {A} (c : C) (p : prog (evE T) A) : prog flE A :=
  match p with
  | Ret a => Ret a
  | Vis (Mem e) k => Vis (OnSeg c e) (fun x => lift c (k x))
  | Vis (Os e) k => Vis (Sys e) (fun x => lift c (k x))
  end.

(** ** Client programs

    The calls of a process: those of its role on each queue, and to the system. *)
Context (ndebug : bool).

Definition call (r : Role) : Type -> Type :=
  match r with Producer => pcall (T := T) | Consumer => ccall (T := T) end.
Definition do_call {X} (r : Role) : call r X -> ShmSpscQueue -> prog (evE T) (ShmSpscQueue * X) :=
  match r with Producer => fun e => do_pcall e | Consumer => fun e => do_ccall ndebug e end.
(** What the call has sent, or received. *)
Definition moved {X} (r : Role) : call r X -> X -> list T :=
  match r with Producer => fun e => sent_by e | Consumer => fun e => got_by e end.

Inductive fcall (t : Role) (X : Type) : Type :=
| OnQueue (c : C) (e : call (on c t) X)
| Ask (e : ask X).
#[local] Arguments OnQueue {t X} c e.
#[local] Arguments Ask {t X} e.

(** Running a client on its handles, collecting what it has sent and received on
    each queue. *)
Fixpoint fclient {A} (t : Role) (p : prog (fcall t) A) (q : C -> ShmSpscQueue) (l : C -> list T) :
    prog flE (A * (C -> list T)) :=
  match p with
  | Ret a => Ret (a, l)
  | Vis e k =>
      match e with
      | OnQueue c e =>
          let* (q', x) := lift c (do_call (on c t) e (q c)) in
          fclient t (k x) (fupd c q' q) (fupd c (l c ++ moved (on c t) e x) l)
      | Ask e => Vis (Sys (ask_os e)) (fun x => fclient t (k x) q l)
      end
  end.

(** ** What a client has seen

    The elements its calls have moved and the times it has read, in program order. *)
Inductive seen : Type :=
| Moved (c : C) (l : list T)
| Clock (x : Z).

Definition observe (t : Role) (X : Type) (e : fcall t X) : X -> list seen :=
  match e with
  | OnQueue c e => fun x => [Moved c (moved (on c t) e x)]
  | Ask e => match e in ask X return X -> list seen with
             | NowNs => fun x => [Clock x]
             | Stopped => fun _ => []
             end
  end.

(** Every element with the first time that was read after it was moved; the first
    component are the elements no reading has followed yet. *)
Definition next_reading (a : list T * list (Z * T)) (o : seen) : list T * list (Z * T) :=
  match o with
  | Moved _ l => (a.1 ++ l, a.2)
  | Clock x => ([], a.2 ++ map (pair x) a.1)
  end.
Definition readings (tr : list seen) : list T * list (Z * T) := foldl next_reading ([], []) tr.

Lemma readings_snoc tr o : readings (tr ++ [o]) = next_reading (readings tr) o.
Proof. unfold readings. by rewrite foldl_app. Qed.

(** ** The protocol *)
Section protocol.
Context `{!PlatformOk _} `{!ElemOk T}.
Context (n : C -> Z) (B : C -> Role -> Z) `{!FleetOk n B}.
Context (Phi : C -> Z -> list T -> Prop) `{!LogPred Phi}.

#[local] Abbreviation ghosts := (C -> ghost T).

(** The part of the state that belongs to segment [c]. *)
Definition at_seg (c : C) (s : fleet * ghosts) : machine T * ghost T := (segs s.1 c, s.2 c).

Record fl_inv (w : fleet) (g : ghosts) : Prop := {
  fi_seg c : spsc_inv (n c) (B c) (segs w c) (g c);
  fi_log c : Phi c (now w) (g_log (g c));
  fi_clock : now w < W64 }.

Record fl_rely (t : Role) (s s' : fleet * ghosts) : Prop := {
  fr_seg c : spsc_rely (n c) (on c t) (at_seg c s) (at_seg c s');
  fr_clock : now s.1 <= now s'.1 }.

#[local] Instance fl_protocol : Protocol fleet ghosts := { p_inv := fl_inv; p_rely := fl_rely }.

Lemma seg_rely_refl c t s : spsc_rely (n c) t (at_seg c s) (at_seg c s).
Proof. destruct t; by split. Qed.

#[local] Instance fl_protocol_ok : ProtocolOk fleet ghosts.
Proof.
  split.
  - intros t s _. split; [intros c; apply seg_rely_refl|lia].
  - intros t s1 s2 s3 [H1 H2] [H3 H4]. split; [|lia]. intros c.
    exact (p_rely_trans (ProtocolOk := spsc_protocol_ok (n c) (B c)) _ _ _ _ (H1 c) (H3 c)).
Qed.

Lemma on_peer c t : on c (peer t) = peer (on c t).
Proof. unfold on. by destruct (fwd c), t. Qed.

Lemma sys_step_segs {X} (e : osE X) w x w' :
  now w < W64 -> sys_step e w x w' -> segs w' = segs w /\ now w <= now w' < W64.
Proof. intros Hw. destruct e; simpl; intros Hs; try (subst; split; [done|lia]). destruct Hs as [? ->]. done. Qed.

(** ** Steps of one segment *)
Section step.
Context (c : C) (t : Role).
#[local] Instance one_protocol : Protocol (machine T) (ghost T) := spsc_protocol (n c) (B c).
#[local] Instance one_protocol_ok : ProtocolOk (machine T) (ghost T) := spsc_protocol_ok (n c) (B c).

Definition log_le (g g' : ghost T) : Prop := g_log g `prefix_of` g_log g'.
#[local] Instance log_le_preorder : PreOrder log_le.
Proof. split; [intros g; unfold log_le; done|intros g1 g2 g3; unfold log_le; intros; by etrans]. Qed.

(** The rest of the program, run alone, ends with a log that extends the present
    one: the predicate of the final log holds already. *)
Lemma log_bounded {A} (p : prog (evE T) A) Q s x :
  spsc_inv (n c) (B c) s.1 s.2 -> wp Producer p Q s ->
  (forall a s', Q a s' -> Phi c x (g_log s'.2)) -> Phi c x (g_log s.2).
Proof.
  intros Hi Hw HQ.
  destruct (wp_reaches_post log_le Producer p Q s) as (a & s' & Ha & Hp); [..|done|done|].
  - intros X e w g. apply ra_live.
  - intros s1 s2 Hr. exact (rc_log _ _ _ _ _ Hr).
  - eapply Phi_prefix; [exact Hp|]. by eapply HQ.
Qed.

(** One access of process [t] on segment [c], with the ghost state [g'] the logic of
    the queue asks for. *)
Lemma seg_step {A} (p : prog (evE T) A) Q s w g' x :
  fl_inv s.1 s.2 -> (forall c', c' <> c -> segs w c' = segs s.1 c') -> now s.1 <= now w < W64 ->
  spsc_inv (n c) (B c) (segs w c) g' ->
  spsc_rely (n c) (peer (on c t)) (at_seg c s) (segs w c, g') ->
  wp (on c t) p Q (segs w c, g') -> x <= now s.1 ->
  (on c t = Producer -> forall a s', Q a s' -> Phi c x (g_log s'.2)) ->
  fl_inv w (fupd c g' s.2) /\ fl_rely (peer t) s (w, fupd c g' s.2).
Proof.
  intros [Hseg Hlog _] Hothers Hclock Hi Hr Hw Hx HQ.
  assert (Phi c (now w) (g_log g')) as Hphi.
  { destruct (on c t) eqn:Hon.
    - apply (Phi_later c x); [lia|]. apply (log_bounded p Q (segs w c, g') x); [done|done|]. by apply HQ.
    - pose proof (rp_log _ _ _ _ _ Hr) as Hl. simpl in Hl. rewrite Hl. apply (Phi_later c (now s.1)); [lia|done]. }
  split; split.
  - intros c'. destruct (decide (c' = c)) as [->|Hne]; autorewrite with fupd; [done|].
    rewrite Hothers by done. apply Hseg.
  - intros c'. destruct (decide (c' = c)) as [->|Hne]; autorewrite with fupd; [done|].
    apply (Phi_later c' (now s.1)); [lia|done].
  - lia.
  - intros c'. rewrite on_peer. unfold at_seg. cbn [fst snd].
    destruct (decide (c' = c)) as [->|Hne]; autorewrite with fupd; [done|].
    rewrite Hothers by done. destruct (on c' t); by split.
  - simpl. lia.
Qed.

(** A program verified on one queue is verified among the others. *)
Lemma wp_lift {A} (p : prog (evE T) A) Q (Q' : A -> fleet * ghosts -> Prop) s :
  wp (on c t) p Q (at_seg c s) ->
  (on c t = Producer -> forall a s', Q a s' -> Phi c (now s.1) (g_log s'.2)) ->
  (forall a s', Q a (at_seg c s') ->
     (forall c', c' <> c -> spsc_rely (n c') (on c' t) (at_seg c' s) (at_seg c' s')) ->
     now s.1 <= now s'.1 -> fl_inv s'.1 s'.2 -> Q' a s') ->
  wp t (lift c p) Q' s.
Proof.
  revert s. induction p as [a|X e k IH]; intros s Hw HPhi HQ'.
  { intros s' Hr Hi. destruct (Hi) as [Hseg _ _]. apply HQ'; [|intros c' _; apply Hr|apply Hr|done].
    apply Hw; [apply Hr|apply Hseg]. }
  assert (forall s' w x g', fl_rely t s s' -> fl_inv s'.1 s'.2 ->
    (forall c', c' <> c -> segs w c' = segs s'.1 c') -> now s'.1 <= now w < W64 ->
    spsc_inv (n c) (B c) (segs w c) g' ->
    spsc_rely (n c) (peer (on c t)) (at_seg c s') (segs w c, g') ->
    wp (on c t) (k x) Q (segs w c, g') ->
    exists g, fl_inv w g /\ fl_rely (peer t) s' (w, g) /\ wp t (lift c (k x)) Q' (w, g)) as Hnext.
  { intros s' w x g' Hr Hi Ho Hclock Hi' Hr' Hw'. exists (fupd c g' s'.2).
    pose proof (fr_clock _ _ _ Hr) as Hc.
    destruct (seg_step (k x) Q s' w g' (now s.1)) as [Hi2 Hr2]; try done.
    split_and!; [done|done|]. apply IH.
    - unfold at_seg. cbn [fst snd]. by autorewrite with fupd.
    - intros Hp a s2 HQ. apply (Phi_later c (now s.1)); [simpl; lia|by eapply HPhi].
    - intros a s2 HQ Hothers Hc2 Hi3. apply HQ'; [done| |simpl in *; lia|done]. intros c' Hne.
      eapply (p_rely_trans (ProtocolOk := spsc_protocol_ok (n c') (B c'))); [apply Hr|].
      specialize (Hothers c' Hne). unfold at_seg in Hothers |- *. cbn [fst snd] in *.
      rewrite Ho, fupd_ne in Hothers by done. exact Hothers. }
  destruct e as [e|e]; intros s' Hr Hi; destruct (Hi) as [Hseg Hlog Hlt];
    destruct (Hw (at_seg c s') (fr_seg _ _ _ Hr c) (Hseg c)) as [Hsafe Hk]; (split; [exact Hsafe|]);
    intros x w Hx.
  - destruct Hx as (m & Hx & ->). destruct (Hk x m Hx) as (g' & Hi' & Hr' & Hw').
    apply (Hnext s' _ x g'); simpl; autorewrite with fupd; try done.
    intros c' Hne. by autorewrite with fupd.
  - destruct (sys_step_segs e s'.1 x w Hlt Hx) as [Hsegs Hc].
    destruct (Hk x (segs s'.1 c) eq_refl) as (g' & Hi' & Hr' & Hw').
    apply (Hnext s' w x g'); rewrite ?Hsegs; done.
Qed.
End step.

(** ** Rules for the calls *)

(** The handle of segment [c] of a process with role [r] there, after it has moved
    [l]. *)
Definition seg_state (c : C) (r : Role) (s : machine T * ghost T) (q : ShmSpscQueue) (l : list T) : Prop :=
  match r with
  | Producer => prod_state (n c) (B c) s q l
  | Consumer => cons_state (n c) (B c) s q l
  end.

Definition fstate (t : Role) (s : fleet * ghosts) (q : C -> ShmSpscQueue) (l : C -> list T) : Prop :=
  forall c, seg_state c (on c t) (at_seg c s) (q c) (l c).

Lemma seg_state_rely c r s s' q l :
  spsc_rely (n c) r s s' -> seg_state c r s q l -> seg_state c r s' q l.
Proof.
  destruct r; simpl; intros Hr.
  - intros (rc & ? & ? & Hk). exists rc. split_and!; [done|done|by eapply (prod_knows_rely _ s)].
  - intros (known & ? & ? & Hk & ?). exists known. split_and!; [done|done|by eapply (cons_knows_rely _ s)|done].
Qed.

Lemma fstate_rely t s s' q l : fl_rely t s s' -> fstate t s q l -> fstate t s' q l.
Proof. intros Hr Hs c. by eapply seg_state_rely; [apply Hr|]. Qed.

Lemma seg_state_prefix c r s q l : seg_state c r s q l -> l `prefix_of` g_log s.2.
Proof.
  destruct r; simpl.
  - intros (rc & _ & _ & Hk). by rewrite (pk_log _ _ _ _ _ Hk).
  - intros Hs. apply (cons_state_post (n c) (B c) s q l Hs).
Qed.

(** What a process may rely on of the messages it has moved. *)
Lemma fstate_Phi t s q l c : fl_inv s.1 s.2 -> fstate t s q l -> Phi c (now s.1) (l c).
Proof.
  intros Hi Hs. eapply Phi_prefix; [eapply (seg_state_prefix c (on c t) (at_seg c s)), Hs|].
  apply (fi_log _ _ Hi).
Qed.

Lemma wp_do_call {X} c r (e : call r X) q s l Q :
  seg_state c r s q l ->
  (forall s' q' x, seg_state c r s' q' (l ++ moved r e x) -> Q (q', x) s') ->
  wp (PR := spsc_protocol (n c) (B c)) r (do_call r e q) Q s.
Proof.
  destruct r; simpl in *.
  - apply (wp_do_pcall (n c) (fl_size c) (B c)).
  - apply (wp_do_ccall ndebug (n c) (fl_size c) (B c) (fl_base c)).
Qed.

Section rules.
Context {t : Role} {A : Type} (Q : A * (C -> list T) -> fleet * ghosts -> Prop).
Context (s : fleet * ghosts) (q : C -> ShmSpscQueue) (l : C -> list T) (Hs : fstate t s q l).

Lemma wp_client_ret a :
  (forall s', fstate t s' q l -> fl_inv s'.1 s'.2 -> Q (a, l) s') -> wp t (fclient t (Ret a) q l) Q s.
Proof. intros HQ s' Hr Hi. apply HQ; [by eapply fstate_rely|done]. Qed.

Lemma wp_client_call {X} c (e : call (on c t) X) (k : X -> prog (fcall t) A) :
  (on c t = Producer -> forall x, Phi c (now s.1) (l c ++ moved (on c t) e x)) ->
  (forall s' q' x, fstate t s' q' (fupd c (l c ++ moved (on c t) e x) l) -> now s.1 <= now s'.1 ->
     fl_inv s'.1 s'.2 -> wp t (fclient t (k x) q' (fupd c (l c ++ moved (on c t) e x) l)) Q s') ->
  wp t (fclient t (Vis (OnQueue c e) k) q l) Q s.
Proof.
  intros HPhi HQ. cbn [fclient]. apply wp_bind.
  apply (wp_lift c t _ (fun r s' => seg_state c (on c t) s' r.1 (l c ++ moved (on c t) e r.2))).
  - eapply wp_do_call; [apply Hs|]. by intros s' q' x Hx.
  - intros Hp [q' x] s' Hx. specialize (HPhi Hp x). cbn [fst snd] in Hx.
    revert Hx HPhi. generalize (l c ++ moved (on c t) e x) as sent. rewrite Hp.
    intros sent (rc & _ & _ & Hk) HPhi. by rewrite (pk_log _ _ _ _ _ Hk).
  - intros [q' x] s' Hx Hothers Hc Hi. apply HQ; [|done|done]. intros c'.
    destruct (decide (c' = c)) as [->|Hne]; autorewrite with fupd; [done|].
    eapply seg_state_rely; [by apply Hothers|apply Hs].
Qed.

Lemma wp_client_now (k : Z -> prog (fcall t) A) :
  (forall s' x, fstate t s' q l -> fl_inv s'.1 s'.2 -> now s.1 <= x < W64 -> now s'.1 = x ->
     wp t (fclient t (k x) q l) Q s') ->
  wp t (fclient t (Vis (Ask NowNs) k) q l) Q s.
Proof.
  intros HQ s1 Hr Hi. split; [done|]. intros x w [Hx ->]. exists s1.2.
  pose proof (fr_clock _ _ _ Hr). destruct Hi as [Hseg Hlog Hlt].
  assert (fl_inv (MkFleet (segs s1.1) x) s1.2) as Hi'.
  { split; [done| |simpl; lia]. intros c. apply (Phi_later c (now s1.1)); [simpl; lia|done]. }
  split_and!; [done| |].
  - split; [intros c; apply (seg_rely_refl c _ s1)|simpl; lia].
  - apply HQ; [|done|lia|done]. intros c. by apply (fstate_rely t s s1).
Qed.

Lemma wp_client_stopped (k : bool -> prog (fcall t) A) :
  (forall s' b, fstate t s' q l -> fl_inv s'.1 s'.2 -> now s.1 <= now s'.1 -> wp t (fclient t (k b) q l) Q s') ->
  wp t (fclient t (Vis (Ask Stopped) k) q l) Q s.
Proof.
  intros HQ [w1 g1] Hr Hi. split; [done|]. intros b w Hx. simpl in Hx. subst w. exists g1.
  split_and!; [done|by apply p_rely_refl|]. apply HQ; [by eapply fstate_rely|done|apply Hr].
Qed.
End rules.

(** ** Fresh segments *)
Context (h : C -> hfield -> Z) (pid : C -> Role -> Z) (seg : C -> Role -> ShmSegment).

Definition fresh_fleet (x : Z) : fleet :=
  MkFleet (fun c => fresh_machine (n c) (B c) (h c) (pid c Producer) (pid c Consumer)) x.
Definition fresh_handles (t : Role) (c : C) : ShmSpscQueue :=
  fresh_handle (n c) (B c) (seg c (on c t)) (on c t).
Definition no_log (c : C) : list T := [].

Lemma fresh_fstate t x : fstate t (fresh_fleet x, fun _ => fresh_ghost) (fresh_handles t) no_log.
Proof.
  intros c. unfold fresh_handles, seg_state, at_seg, no_log. cbn [fst snd segs fresh_fleet]. destruct (on c t).
  - apply fresh_prod_state, fl_size.
  - apply fresh_cons_state, fl_size.
Qed.

Lemma fresh_fl_inv x : x < W64 -> fl_inv (fresh_fleet x) (fun _ => fresh_ghost).
Proof. intros Hx. split; [intros c; apply fresh_inv, fl_size|intros c; apply Phi_nil|done]. Qed.

(** The two processes, each with its handles to the fresh segments. *)
Definition fleet_conf {A1 A2} (p1 : prog (fcall Producer) A1) (p2 : prog (fcall Consumer) A2) (x : Z) :
    conf flE fleet (A1 * (C -> list T)) (A2 * (C -> list T)) :=
  MkConf (fclient Producer p1 (fresh_handles Producer) no_log)
         (fclient Consumer p2 (fresh_handles Consumer) no_log) (fresh_fleet x).

Lemma fleet_verified {A1 A2} (p1 : prog (fcall Producer) A1) (p2 : prog (fcall Consumer) A2) x Q1 Q2 c :
  x < W64 ->
  (forall s q, fstate Producer s q no_log -> fl_inv s.1 s.2 -> now s.1 = x ->
     wp Producer (fclient Producer p1 q no_log) Q1 s) ->
  (forall s q, fstate Consumer s q no_log -> fl_inv s.1 s.2 -> now s.1 = x ->
     wp Consumer (fclient Consumer p2 q no_log) Q2 s) ->
  rtc cstep (fleet_conf p1 p2 x) c -> verified Q1 Q2 c.
Proof.
  intros Hx H1' H2' Hs. eapply verified_steps; [exact Hs|]. exists (fun _ => fresh_ghost).
  pose proof (fresh_fl_inv x Hx). split_and!; [done|apply H1'|apply H2']; (apply fresh_fstate || done).
Qed.

(** An answer the system may give in [w]. *)
Definition answer_now {X} (e : osE X) (w : fleet) : X :=
  match e in osE X return X with SteadyNow => now w | e => answer e end.

Lemma fl_live X t (e : flE X) w (g : ghosts) : p_inv w g -> m_safe t e w -> exists x w', m_step t e w x w'.
Proof.
  intros [Hseg _ Hlt] Hsafe. destruct e as [c e|e].
  - destruct (Delivery.mem_live (on c t) e (segs w c)) as (x & m & Hx);
      [apply (i_mem _ _ _ _ (Hseg c))|done|]. exists x. eexists. by exists m.
  - exists (answer_now e w). by destruct e; eexists.
Qed.

(** What both processes know at their ends: on every queue, what its consumer has
    received is a prefix of what its producer has sent, and the rest fits. *)
Lemma fleet_ends s q1 l1 q2 l2 c :
  fl_inv s.1 s.2 -> fstate Producer s q1 l1 -> fstate Consumer s q2 l2 ->
  let '(sent, got) := if fwd c then (l1 c, l2 c) else (l2 c, l1 c) in
  got `prefix_of` sent /\ zlen sent - zlen got <= n c - 1.
Proof.
  intros Hi Hs1 Hs2. pose proof (i_count _ _ _ _ (fi_seg _ _ Hi c)) as Hcount.
  assert (forall qp lp qc lc, prod_state (n c) (B c) (at_seg c s) qp lp ->
    cons_state (n c) (B c) (at_seg c s) qc lc -> lc `prefix_of` lp /\ zlen lp - zlen lc <= n c - 1) as Hends.
  { intros qp lp qc lc (rc & _ & _ & Hk) [Hpre Hcns]%(cons_state_post (n c) (B c)).
    pose proof (pk_log _ _ _ _ _ Hk) as Hlog. unfold pubs, at_seg in *. cbn [fst snd] in *.
    rewrite Hlog in *. split; [done|lia]. }
  specialize (Hs1 c). specialize (Hs2 c). unfold seg_state, on in Hs1, Hs2.
  destruct (fwd c); simpl in Hs1, Hs2; by eapply Hends.
Qed.
End protocol.

(** ** Any clients

    With nothing said of the elements, every client is verified. *)
Section any.
Context `{!PlatformOk _} `{!ElemOk T}.
Context (n : C -> Z) (B : C -> Role -> Z) `{!FleetOk n B}.
Context (h : C -> hfield -> Z) (pid : C -> Role -> Z) (seg : C -> Role -> ShmSegment).
Definition anything (c : C) (x : Z) (l : list T) : Prop := True.
#[local] Instance anything_log : LogPred anything.
Proof. by split. Qed.
#[local] Instance any_protocol : Protocol fleet (C -> ghost T) := fl_protocol n B anything.
#[local] Instance any_protocol_ok : ProtocolOk fleet (C -> ghost T) := fl_protocol_ok n B anything.

Definition any_post {A} (t : Role) (r : A * (C -> list T)) (s : fleet * (C -> ghost T)) : Prop :=
  exists q, fstate n B t s q r.2.

Lemma wp_any_client {A} t (p : prog (fcall t) A) q l s :
  fstate n B t s q l -> wp t (fclient t p q l) (any_post t) s.
Proof.
  revert q l s. induction p as [a|X e k IH]; intros q l s Hs.
  - eapply wp_client_ret; [exact Hs|]. intros s' Hs' _. by exists q.
  - destruct e as [c e|e]; [|revert k IH; destruct e; intros k IH].
    + eapply wp_client_call; try done. intros s' q' x Hs' _ _. by apply IH.
    + eapply wp_client_now; try done. intros s' x Hs' _ _ _. by apply IH.
    + eapply wp_client_stopped; try done. intros s' b Hs' _ _. by apply IH.
Qed.

(** C10: two processes that share any number of queues, in either direction, and use
    them in any order: whatever the interleaving and the memory model, no access is
    undefined, every run can be completed, and at the end each queue has delivered a
    prefix of what was sent on it, with at most its capacity in flight. *)
Theorem fleet_fifo {A1 A2} (p1 : prog (fcall Producer) A1) (p2 : prog (fcall Consumer) A2) x c :
  x < W64 -> rtc cstep (fleet_conf n B h pid seg p1 p2 x) c ->
  conf_safe c /\
  exists a1 l1 a2 l2 w, rtc cstep c (MkConf (Ret (a1, l1)) (Ret (a2, l2)) w) /\
    forall d, let '(sent, got) := if fwd d then (l1 d, l2 d) else (l2 d, l1 d) in
      got `prefix_of` sent /\ zlen sent - zlen got <= n d - 1.
Proof.
  intros Hx Hs. assert (verified (any_post Producer) (any_post Consumer) c) as Hv.
  { eapply fleet_verified; try done; intros s q Hq _ _; by apply wp_any_client. }
  split; [by eapply verified_safe|].
  apply (runs_to_end _ _ (fl_live n B anything)) in Hv as ([a1 l1] & [a2 l2] & w & Hr & Hv).
  exists a1, l1, a2, l2, w. split; [done|]. intros d.
  apply verified_done in Hv as (g & Hi & (q1 & Hq1) & (q2 & Hq2)).
  exact (fleet_ends n B anything (w, g) q1 l1 q2 l2 d Hi Hq1 Hq2).
Qed.
End any.
End fleet.
#[global] Arguments OnSeg {C T X} c e.
#[global] Arguments Sys {C T X} e.
#[global] Arguments OnQueue {C T fwd t X} c e.
#[global] Arguments Ask {C T fwd t X} e.
#[global] Arguments fleet C T : clear implicits.
#[global] Arguments flE C T X : clear implicits.
#[global] Arguments seen C T : clear implicits.
#[global] Arguments Moved {C T} c l.
#[global] Arguments Clock {C T} x.
