(* ===== verification/Footprint.v ===== *)
(** * What an operation can touch

    Two facts that do not depend on what the peer does.  [tame]: whatever the shared
    memory contains and the system answers, an operation makes no system call that could
    create, use or release a resource and reaches the control block only through its
    handle's pointer; this is what the resource theorems of Programs.v need, and it says
    nothing of which slots are touched.  [confined], the theorem of this file: as long
    as the index loads return values below the ring size, whatever they are, the slots
    touched are those of the handle's array and the values stored are indices of it. *)

From S2P Require Import Prelude Prog Effects Layout Segment Queue Ring Lifecycle Resources Machine Delivery Fleet.
#[local] Open Scope Z_scope.
#[local] Open Scope prog_scope.

(** Everything but the cached indices. *)
Record same_handle (q q' : ShmSpscQueue) : Prop := {
  sh_seg : seg_ q' = seg_ q;
  sh_ctrl : ctrl_ q' = ctrl_ q;
  sh_slots : slots_ q' = slots_ q;
  sh_capacity : capacity_ q' = capacity_ q;
  sh_role : role_ q' = role_ q;
  sh_bound : bound_ q' = bound_ q }.

#[export] Instance same_handle_preorder : PreOrder same_handle.
Proof. split; [by split|]. intros q1 q2 q3 [] []. split; congruence. Qed.

Section footprint.
Context {T : Type} `{Platform} `{Elem T}.
#[local] Abbreviation io := (prog (evE T)).

(** An access through the pointers of a handle: [c] to the control block, [b] to the
    slots, at an element boundary.  The index of the slot is not bounded here: a corrupt
    segment can make it anything, and no resource depends on it. *)
Definition through {X} (c b : Z) (e : memE T X) : Prop :=
  match e with
  | ALoad a _ _ | AStore a _ _ _ | ACas _ a _ _ _ _ _ | FLoad a _ | FStore a _ _ | MemsetCtrl a => a = c
  | SlotRead a | SlotWrite a _ => exists i, a = b + i * sizeT T
  end.

(** A call that neither uses nor changes descriptors, mappings, names and processes. *)
Definition harmless {X} (e : osE X) : bool :=
  match e with
  | ShmOpen _ _ _ | ShmUnlink _ | Mmap _ _ | Munmap _ _ | Close _ | Ftruncate _ _ | Fstat _ => false
  | Kill _ sig => sig =? 0
  | Fork | Waitpid _ => false
  | _ => true
  end.

(** Every access of the program is such an access, and its results satisfy [P]. *)
Fixpoint tame {A} (c b : Z) (P : A -> Prop) (p : io A) : Prop :=
  match p with
  | Ret a => P a
  | Vis e k =>
      match e with Mem e => through c b e | Os e => harmless e = true end /\
      forall x, tame c b P (k x)
  end.

Lemma tame_mono {A} c b (P P' : A -> Prop) p : (forall a, P a -> P' a) -> tame c b P p -> tame c b P' p.
Proof. intros HP. induction p as [a|X e k IH]; simpl; [auto|]. intros [He Hk]. split; [done|auto]. Qed.

Lemma tame_bind {A A'} c b (P : A' -> Prop) (p : io A) (f : A -> io A') :
  tame c b (fun a => tame c b P (f a)) p -> tame c b P (bind p f).
Proof. induction p as [a|X e k IH]; simpl; [done|]. intros [He Hk]. split; [done|auto]. Qed.

Lemma tame_seq {A A'} c b (P : A' -> Prop) (p : io A) (f : A -> io A') :
  tame c b (fun _ => True) p -> (forall a, tame c b P (f a)) -> tame c b P (bind p f).
Proof. intros Hp Hf. apply tame_bind. eapply tame_mono; [|exact Hp]. auto. Qed.

Create HintDb tame.
#[local] Hint Extern 1 (same_handle _ _) => split; reflexivity : tame.

(** Walks through straight-line code and its branches. *)
Ltac tame_step :=
  match goal with
  | |- tame _ _ _ (Ret _) => cbn [tame]
  | |- tame _ _ _ (Vis _ _) => cbn [tame]
  | |- tame _ _ _ (bind (Ret _) _) => cbn [bind]
  | |- tame _ _ _ (bind (Vis _ _) _) => cbn [bind]
  | |- tame _ _ _ (bind (act _) _) => unfold act; cbn [bind tame]
  | |- tame _ _ _ (bind (load _ _ _) _) => unfold load, act; cbn [bind tame]
  | |- tame _ _ _ (bind (store _ _ _ _) _) => unfold store, act; cbn [bind tame]
  | |- tame _ _ _ (store _ _ _ _) => unfold store, act; cbn [tame]
  | |- tame _ _ _ (bind (sys _) _) => unfold sys, act; cbn [bind tame]
  | |- tame _ _ _ (sys _) => unfold sys, act; cbn [tame]
  | |- tame _ _ _ (bind (slot_write _ _) _) => unfold slot_write, act; cbn [bind tame]
  | |- tame _ _ _ (bind (slot_read _) _) => unfold slot_read, act; cbn [bind tame]
  | |- tame _ _ _ (bind (bind _ _) _) => apply tame_bind
  | |- tame _ _ _ (bind (if ?b then _ else _) _) => destruct b
  | |- tame _ _ _ (if ?b then _ else _) => destruct b
  | |- _ /\ _ => split; [first [reflexivity | by eexists]|]
  | |- forall _, _ => intros ?
  end.
Ltac tame := repeat (cbv beta zeta; tame_step); auto with tame.

Lemma memcpy_in_tame c b a src :
  (exists i, a = b + i * sizeT T) -> tame c b (fun _ => True) (memcpy_in a src).
Proof.
  revert a. induction src as [|v src IH]; intros a Ha; cbn [memcpy_in]; [done|].
  unfold slot_write, act. cbn [bind tame]. split; [done|]. intros _. apply IH.
  destruct Ha as [i ->]. exists (i + 1). lia.
Qed.

Lemma memcpy_out_tame c b a k :
  (exists i, a = b + i * sizeT T) -> tame c b (fun _ => True) (memcpy_out a k).
Proof.
  revert a. induction k as [|k IH]; intros a Ha; cbn [memcpy_out]; [done|].
  unfold slot_read, act. cbn [bind tame]. split; [done|]. intros v. apply tame_seq; [|done]. apply IH.
  destruct Ha as [i ->]. exists (i + 1). lia.
Qed.

Section ops.
Context (ndebug : bool) (q : ShmSpscQueue).
#[local] Abbreviation keeps := (fun r => same_handle q r.1).
#[local] Abbreviation tame_q := (tame (ctrl_ q) (slots_ q)).

Lemma try_push_tame v : tame_q keeps (try_push q v).
Proof. unfold try_push. tame. Qed.

Lemma front_tame :
  tame_q (fun r => same_handle q r.1 /\ (r.2 = 0 \/ exists i, r.2 = slots_ q + i * sizeT T)) (front q).
Proof. unfold front. tame; cbn; first [by left | right; by eexists]. Qed.

Lemma pop_front_tame : tame_q (fun _ => True) (pop_front ndebug q).
Proof. unfold pop_front. tame. Qed.

Lemma processAlive_tame c b pid : tame c b (fun _ => True) (processAlive (T := T) pid).
Proof. unfold processAlive. tame. destruct x. by case_Z. Qed.

Lemma peerAlive_tame : tame_q (fun _ => True) (peerAlive (T := T) q).
Proof. unfold peerAlive. tame. apply processAlive_tame. Qed.

Lemma size_tame : tame_q (fun _ => True) (size (T := T) q).
Proof. unfold size. tame. Qed.

Lemma empty_tame : tame_q (fun _ => True) (empty (T := T) q).
Proof. unfold empty. tame. Qed.

Lemma push_n_tame src k : tame_q keeps (push_n q src k).
Proof.
  unfold push_n. tame; (apply tame_seq; [apply memcpy_in_tame; by eexists|intros _]); tame;
    apply tame_seq; try (apply memcpy_in_tame; by eexists); intros _; tame.
Qed.

Lemma pop_n_tame k : tame_q (fun r => same_handle q r.1.1) (pop_n (T := T) q k).
Proof.
  unfold pop_n. tame; (apply tame_seq; [apply memcpy_out_tame; by eexists|intros d1]); tame;
    try (apply tame_seq; [apply memcpy_out_tame; by eexists|intros d2]); tame.
Qed.
End ops.

(** The handle an operation returns is as good as the one it was given. *)
Lemma tame_same {A} q q' (P : A -> Prop) p :
  same_handle q q' -> tame (ctrl_ q') (slots_ q') P p -> tame (ctrl_ q) (slots_ q) P p.
Proof. intros Hs. by rewrite (sh_ctrl _ _ Hs), (sh_slots _ _ Hs). Qed.

Section calls.
Context (ndebug : bool).
#[local] Abbreviation keeps q := (fun r => same_handle q r.1).

(** Reads the element [front] points to and pops it, then goes on. *)
Lemma after_front_tame {A} q (f : T -> ShmSpscQueue -> io A) (e : ShmSpscQueue -> io A) P :
  (forall q', same_handle q q' -> tame (ctrl_ q) (slots_ q) P (e q')) ->
  (forall q' v, same_handle q q' -> tame (ctrl_ q) (slots_ q) P (f v q')) ->
  tame (ctrl_ q) (slots_ q) P
    (let* (q', p) := front q in if p =? 0 then e q' else let* v := slot_read p in f v q').
Proof.
  intros He Hf. apply tame_bind. eapply tame_mono; [|apply front_tame].
  intros [q' p] [Hs Hp]. cbn [fst snd] in *. case_Z; [by apply He|].
  unfold slot_read, act. cbn [bind tame]. split; [by destruct Hp|]. intros v. by apply Hf.
Qed.

Lemma try_pop_tame q : tame (ctrl_ q) (slots_ q) (keeps q) (try_pop (T := T) ndebug q).
Proof.
  unfold try_pop. apply (after_front_tame q (fun v q' => pop_front ndebug q';; Ret (q', Some v))
    (fun q' => Ret (q', None))); [done|].
  intros q' v Hs. apply tame_seq; [|done]. eapply tame_same; [exact Hs|]. apply pop_front_tame.
Qed.

Lemma peek_tame q take : tame (ctrl_ q) (slots_ q) (keeps q) (peek (T := T) ndebug q take).
Proof.
  unfold peek. apply (after_front_tame q (fun v q' => if take v then pop_front ndebug q';; Ret (q', Some (v, true))
    else Ret (q', Some (v, false))) (fun q' => Ret (q', None))); [done|].
  intros q' v Hs. destruct (take v); [|done].
  apply tame_seq; [|done]. eapply tame_same; [exact Hs|]. apply pop_front_tame.
Qed.

Lemma push_loop_tame fuel q v k spins :
  tame (ctrl_ q) (slots_ q) (keeps q) (push_loop (T := T) fuel q v k spins).
Proof.
  revert q spins. induction fuel as [|fuel IH]; intros q spins; cbn [push_loop]; [done|].
  apply tame_bind. eapply tame_mono; [|apply try_push_tame]. intros [q' [|]] Hs; cbn [fst] in *; [done|].
  assert (forall sp, tame (ctrl_ q) (slots_ q) (keeps q) (push_loop fuel q' v k sp)) as Hnext.
  { intros sp. eapply tame_same; [exact Hs|]. eapply tame_mono; [|apply IH]. intros r Hr. by etransitivity. }
  destruct (spins >=? k); [|apply Hnext]. apply tame_seq; [eapply tame_same; [exact Hs|]; apply peerAlive_tame|].
  intros alive. destruct alive; cbn [negb]; [|done]. unfold sys, act. cbn [bind tame]. by split.
Qed.

Lemma pop_loop_tame fuel q k spins :
  tame (ctrl_ q) (slots_ q) (keeps q) (pop_loop (T := T) ndebug fuel q k spins).
Proof.
  revert q spins. induction fuel as [|fuel IH]; intros q spins; cbn [pop_loop]; [done|].
  apply tame_bind. eapply tame_mono; [|apply try_pop_tame]. intros [q' [v|]] Hs; cbn [fst] in *; [done|].
  assert (forall sp, tame (ctrl_ q) (slots_ q) (keeps q) (pop_loop ndebug fuel q' k sp)) as Hnext.
  { intros sp. eapply tame_same; [exact Hs|]. eapply tame_mono; [|apply IH]. intros r Hr. by etransitivity. }
  destruct (spins >=? k); [|apply Hnext]. apply tame_seq; [eapply tame_same; [exact Hs|]; apply peerAlive_tame|].
  intros alive. apply tame_seq.
  - destruct alive; cbn [negb]; [done|]. eapply tame_same; [exact Hs|]. apply empty_tame.
  - intros gone. destruct gone; [done|]. unfold sys, act. cbn [bind tame]. by split.
Qed.

Lemma do_pcall_tame {X} (c : pcall X) q : tame (ctrl_ q) (slots_ q) (keeps q) (do_pcall c q).
Proof.
  destruct c; cbn [do_pcall].
  - apply try_push_tame.
  - apply push_n_tame.
  - apply push_loop_tame.
  - apply tame_seq; [apply peerAlive_tame|done].
  - apply tame_seq; [apply size_tame|done].
Qed.

Lemma do_ccall_tame {X} (c : ccall X) q : tame (ctrl_ q) (slots_ q) (keeps q) (do_ccall ndebug c q).
Proof.
  destruct c; cbn [do_ccall].
  - apply try_pop_tame.
  - apply tame_bind. eapply tame_mono; [|apply pop_n_tame]. by intros [[q' ?] out].
  - apply pop_loop_tame.
  - apply tame_seq; [apply peerAlive_tame|done].
  - apply tame_seq; [apply empty_tame|done].
  - apply tame_seq; [apply size_tame|done].
  - apply peek_tame.
Qed.
End calls.

(** ** Resources

    A tame program leaves descriptors, mappings and names alone. *)
Section resources.
Context {K : Type} `{PosixOk K}.

Lemma tame_owp {A} c b (P : A -> Prop) p k :
  tame c b P p -> mapped_at c k -> owp p k (fun a k' => same k k' /\ P a).
Proof.
  revert k. induction p as [a|X e f IH]; intros k Hp Hc; simpl in *; [by split; [constructor|]|].
  destruct Hp as [He Hf]. destruct e as [e|e].
  - split; [|intros x; by apply IH]. destruct e; simpl in *; by subst.
  - split; [by destruct e|]. intros x k' Hx.
    assert (same k k') as Hs.
    { apply quiet_step in Hx as (? & ? & ?); [by constructor|by destruct e]. }
    eapply owp_mono; [apply (IH x k'); [done|by eapply same_mapped]|].
    intros a k2 [Hs2 HP]. split; [|done]. destruct Hs, Hs2. constructor; congruence.
Qed.
End resources.

(** ** Within the ring

    The strong form: as long as the loads of the two indices return values below the
    ring size, whatever they are and however they change, the operations of a process
    stay within its ring.  [own] is the index the process publishes. *)
Section confined.
Context `{!PlatformOk _} `{!ElemOk T}.
Context (n : Z) (Hn : ring_size n) (own : afield).

(** A handle to a ring of [n] slots: its cached indices are below [n]. *)
Record handle_ok (q : ShmSpscQueue) : Prop := {
  ho_capacity : capacity_ q = n;
  ho_read : 0 <= readIdxCache_ q < n;
  ho_write : 0 <= writeIdxCache_ q < n }.

(** Loads through the control pointer; stores to the own index only, of an index below
    [n]; elements in one of the [n] slots, written by the producer and read by the
    consumer; of the system calls, the probe [kill(pid, 0)], [sched_yield] and a failed
    assertion. *)
Definition inside {X} (c b : Z) (e : evE T X) : Prop :=
  match e with
  | Mem (ALoad a _ _) => a = c
  | Mem (AStore a f v _) => a = c /\ f = own /\ 0 <= v < n
  | Mem (SlotWrite a _) => own = writeIdx /\ exists i, 0 <= i < n /\ a = b + i * sizeT T
  | Mem (SlotRead a) => own = readIdx /\ exists i, 0 <= i < n /\ a = b + i * sizeT T
  | Os (Kill _ sig) => sig = 0
  | Os SchedYield | Os AssertFail => True
  | _ => False
  end.

Definition index_answer {X} (e : evE T X) : X -> Prop :=
  match e with
  | Mem e => match e in memE _ X return X -> Prop with
             | ALoad _ writeIdx _ | ALoad _ readIdx _ => fun x => 0 <= x < n
             | _ => fun _ => True
             end
  | Os e => match e in osE X return X -> Prop with
            | AssertFail => fun _ => False
            | _ => fun _ => True
            end
  end.

Fixpoint confined {A} (c b : Z) (P : A -> Prop) (p : io A) : Prop :=
  match p with
  | Ret a => P a
  | Vis e k => inside c b e /\ forall x, index_answer e x -> confined c b P (k x)
  end.

Lemma confined_mono {A} c b (P P' : A -> Prop) p :
  (forall a, P a -> P' a) -> confined c b P p -> confined c b P' p.
Proof. intros HP. induction p as [a|X e k IH]; simpl; [auto|]. intros [He Hk]. split; [done|auto]. Qed.

Lemma confined_bind {A A'} c b (P : A' -> Prop) (p : io A) (f : A -> io A') :
  confined c b (fun a => confined c b P (f a)) p -> confined c b P (bind p f).
Proof. induction p as [a|X e k IH]; simpl; [done|]. intros [He Hk]. split; [done|auto]. Qed.

Lemma confined_seq {A A'} c b (P : A' -> Prop) (p : io A) (f : A -> io A') :
  confined c b (fun _ => True) p -> (forall a, confined c b P (f a)) -> confined c b P (bind p f).
Proof. intros Hp Hf. apply confined_bind. eapply confined_mono; [|exact Hp]. auto. Qed.

Lemma memcpy_in_confined c b i src :
  own = writeIdx -> 0 <= i -> i + zlen src <= n ->
  confined c b (fun _ => True) (memcpy_in (b + i * sizeT T) src).
Proof.
  intros Ho. revert i. induction src as [|v src IH]; intros i Hi Hle; cbn [memcpy_in]; [done|].
  rewrite zlen_cons in Hle. pose proof (zlen_nonneg src). unfold slot_write, act. cbn [bind confined].
  split; [split; [done|]; exists i; split; [lia|done]|]. intros _ _.
  replace (b + i * sizeT T + sizeT T) with (b + (i + 1) * sizeT T) by lia. apply IH; lia.
Qed.

Lemma memcpy_out_confined c b i k :
  own = readIdx -> 0 <= i -> i + Z.of_nat k <= n ->
  confined c b (fun _ => True) (memcpy_out (b + i * sizeT T) k).
Proof.
  intros Ho. revert i. induction k as [|k IH]; intros i Hi Hle; cbn [memcpy_out]; [done|].
  unfold slot_read, act. cbn [bind confined].
  split; [split; [done|]; exists i; split; [lia|done]|]. intros v _. apply confined_seq; [|done].
  replace (b + i * sizeT T + sizeT T) with (b + (i + 1) * sizeT T) by lia. apply IH; lia.
Qed.

(** *** The index computations, of any two indices *)
Lemma index_counts w r : 0 <= w < n -> 0 <= r < n ->
  exists p, p mod n = w /\ r mod n = r /\ 0 <= p - r < n.
Proof.
  intros Hw Hr. destruct (Z_le_dec r w).
  - exists w. rewrite !Z.mod_small by lia. lia.
  - exists (w + 1 * n). rewrite Z.mod_add, !Z.mod_small by lia. lia.
Qed.

Lemma freeSlots_range q w r : capacity_ q = n -> 0 <= w < n -> 0 <= r < n -> 0 <= freeSlots q w r < n.
Proof.
  intros Hq Hw Hr. destruct (index_counts w r Hw Hr) as (p & Hp & Hr' & Hd).
  rewrite <- Hp, <- Hr', (freeSlots_count n Hn q Hq p r Hd). lia.
Qed.

Lemma usedSlots_range q w r : capacity_ q = n -> 0 <= w < n -> 0 <= r < n -> 0 <= usedSlots q w r < n.
Proof.
  intros Hq Hw Hr. destruct (index_counts w r Hw Hr) as (p & Hp & Hr' & Hd).
  rewrite <- Hp, <- Hr', (usedSlots_count n Hn q Hq p r Hd). lia.
Qed.

Lemma next_range q w : capacity_ q = n -> 0 <= w < n ->
  0 <= (if u64 (w + 1) =? capacity_ q then 0 else u64 (w + 1)) < n.
Proof.
  intros Hq Hw. pose proof (next_count n Hn q Hq w) as He. rewrite (Z.mod_small w) in He by lia.
  rewrite He. apply mod_range, ring_pos, Hn.
Qed.

Lemma advance_range q w k : capacity_ q = n -> 0 <= w < n -> 0 <= k < n ->
  0 <= (if u64 (w + k) >=? capacity_ q then u64 (u64 (w + k) - capacity_ q) else u64 (w + k)) < n.
Proof.
  intros Hq Hw Hk. pose proof (advance_count n Hn q Hq w k Hk) as He. rewrite (Z.mod_small w) in He by lia.
  rewrite He. apply mod_range, ring_pos, Hn.
Qed.

Lemma room_range q w : capacity_ q = n -> 0 <= w < n -> u64 (capacity_ q - w) = n - w.
Proof.
  intros Hq Hw. pose proof (room_count n Hn q Hq w) as He. by rewrite (Z.mod_small w) in He by lia.
Qed.

(** *** The operations *)
Ltac conf_access := unfold load, store, slot_read, slot_write, sys, act; cbn [bind confined inside index_answer].
Tactic Notation "conf_load" ident(x) ident(Hx) := conf_access; split; [reflexivity|intros x Hx].

#[local] Abbreviation keeps q := (fun r => same_handle q r.1 /\ handle_ok r.1).
#[local] Abbreviation confined_q q := (confined (ctrl_ q) (slots_ q)).

Lemma set_read_ok q r : handle_ok q -> 0 <= r < n -> handle_ok (set_readIdxCache q r).
Proof. intros [] Hr. by split. Qed.

Lemma set_write_ok q w : handle_ok q -> 0 <= w < n -> handle_ok (set_writeIdxCache q w).
Proof. intros [] Hw. by split. Qed.

Lemma try_push_confined q v :
  own = writeIdx -> handle_ok q -> confined_q q (keeps q) (try_push q v).
Proof.
  intros Ho Hq. unfold try_push. conf_load w Hw. pose proof (next_range q w (ho_capacity _ Hq) Hw) as Hnext.
  assert (forall q', same_handle q q' -> handle_ok q' -> confined_q q (keeps q)
    (slot_write (slot_addr q' w) v;;
     store (ctrl_ q') writeIdx (if u64 (w + 1) =? capacity_ q then 0 else u64 (w + 1)) release;;
     Ret (q', true))) as Hwrite.
  { intros q' Hs Hq'. conf_access. unfold slot_addr. rewrite (sh_ctrl _ _ Hs), (sh_slots _ _ Hs).
    split; [split; [done|]; by exists w|]. intros _ _. split; [done|]. by intros _ _. }
  cbv zeta. case_Z; [|by apply Hwrite]. conf_load r Hr. pose proof (set_read_ok q r Hq Hr).
  case_Z; [done|]. by apply Hwrite.
Qed.

Lemma front_confined q :
  handle_ok q -> confined_q q (fun r => (same_handle q r.1 /\ handle_ok r.1) /\
    (r.2 = 0 \/ exists i, 0 <= i < n /\ r.2 = slots_ q + i * sizeT T)) (front q).
Proof.
  intros Hq. unfold front. conf_load r Hr. case_Z; [|cbn; split; [done|right; by exists r]].
  conf_load w Hw. pose proof (set_write_ok q w Hq Hw).
  case_Z; cbn; (split; [done|]); [by left|right; by exists r].
Qed.

Lemma pop_front_confined ndebug q :
  own = readIdx -> handle_ok q -> confined_q q (fun _ => True) (pop_front ndebug q).
Proof.
  intros Ho Hq. unfold pop_front. conf_load r Hr. pose proof (next_range q r (ho_capacity _ Hq) Hr).
  apply confined_seq; [|intros _; conf_access; by split].
  destruct ndebug; [done|]. conf_load w Hw. case_Z; [|done]. conf_access. by split.
Qed.

Lemma peerAlive_confined q : confined_q q (fun _ => True) (peerAlive (T := T) q).
Proof.
  unfold peerAlive. conf_access. split; [done|]. intros pid _. case_Z; [done|]. unfold processAlive.
  case_Z; [done|]. conf_access. split; [done|]. intros [rc e] _. by case_Z.
Qed.

Lemma size_confined q : confined_q q (fun _ => True) (size (T := T) q).
Proof. unfold size. conf_load w Hw. conf_load r Hr. done. Qed.

Lemma empty_confined q : confined_q q (fun _ => True) (empty (T := T) q).
Proof. unfold empty. conf_load w Hw. conf_load r Hr. done. Qed.

(** A batch in two parts, up to the end of the array and from its start. *)
Lemma push_n_confined q src :
  own = writeIdx -> handle_ok q -> confined_q q (keeps q) (push_n q src (zlen src)).
Proof.
  intros Ho Hq. unfold push_n. case_Z; [done|]. conf_load w Hw.
  assert (forall q' free, same_handle q q' -> handle_ok q' -> 0 <= free < n -> confined_q q (keeps q)
    (let count := Z.min (zlen src) free in
     let first := Z.min count (u64 (capacity_ q' - w)) in
     memcpy_in (slot_addr q' w) (ztake first src);;
     (if count >? first then memcpy_in (slot_addr q' 0) (ztake (count - first) (zdrop first src))
      else Ret tt);;
     let next := u64 (w + count) in
     let next := if next >=? capacity_ q' then u64 (next - capacity_ q') else next in
     store (ctrl_ q') writeIdx next release;; Ret (q', count))) as Hcopy.
  { intros q' free Hs Hq' Hf. pose proof (zlen_nonneg src). cbv zeta.
    rewrite (room_range q' w (ho_capacity _ Hq') Hw). set (count := Z.min (zlen src) free).
    set (first := Z.min count (n - w)).
    pose proof (advance_range q' w count (ho_capacity _ Hq') Hw ltac:(lia)).
    unfold slot_addr. rewrite (sh_ctrl _ _ Hs), (sh_slots _ _ Hs).
    apply confined_seq; [apply memcpy_in_confined; [done|lia|rewrite zlen_ztake; lia]|]. intros _.
    apply confined_seq; [|intros _; conf_access; split; [done|]; by intros _ _].
    destruct (count >? first); [|done]. apply memcpy_in_confined; [done|lia|].
    rewrite zlen_ztake; [lia|]. rewrite zlen_zdrop; lia. }
  pose proof (freeSlots_range q w _ (ho_capacity _ Hq) Hw (ho_read _ Hq)). case_Z; [|by apply Hcopy].
  conf_load r Hr. pose proof (set_read_ok q r Hq Hr) as Hq'.
  pose proof (freeSlots_range _ w _ (ho_capacity _ Hq') Hw (ho_read _ Hq')).
  case_Z; [done|]. by apply Hcopy.
Qed.

Lemma pop_n_confined q k :
  own = readIdx -> handle_ok q -> 0 <= k ->
  confined_q q (fun r => same_handle q r.1.1 /\ handle_ok r.1.1) (pop_n (T := T) q k).
Proof.
  intros Ho Hq Hk. unfold pop_n. case_Z; [done|]. conf_load r Hr.
  assert (forall q' avail, same_handle q q' -> handle_ok q' -> 0 <= avail < n ->
    confined_q q (fun r => same_handle q r.1.1 /\ handle_ok r.1.1)
    (let count := Z.min k avail in
     let first := Z.min count (u64 (capacity_ q' - r)) in
     let* d1 := memcpy_out (slot_addr (T := T) q' r) (Z.to_nat first) in
     let* d2 := (if count >? first then memcpy_out (slot_addr (T := T) q' 0) (Z.to_nat (count - first))
                 else Ret []) in
     let next := u64 (r + count) in
     let next := if next >=? capacity_ q' then u64 (next - capacity_ q') else next in
     store (ctrl_ q') readIdx next release;; Ret (q', count, d1 ++ d2))) as Hcopy.
  { intros q' avail Hs Hq' Hf. cbv zeta.
    rewrite (room_range q' r (ho_capacity _ Hq') Hr). set (count := Z.min k avail).
    set (first := Z.min count (n - r)).
    pose proof (advance_range q' r count (ho_capacity _ Hq') Hr ltac:(lia)).
    unfold slot_addr. rewrite (sh_ctrl _ _ Hs), (sh_slots _ _ Hs).
    apply confined_seq; [apply memcpy_out_confined; [done|lia|lia]|]. intros d1.
    apply confined_seq; [|intros d2; conf_access; split; [done|]; by intros _ _].
    destruct (count >? first); [|done]. apply memcpy_out_confined; [done|lia|lia]. }
  pose proof (usedSlots_range q _ r (ho_capacity _ Hq) (ho_write _ Hq) Hr). case_Z; [|by apply Hcopy].
  conf_load w Hw. pose proof (set_write_ok q w Hq Hw) as Hq'.
  pose proof (usedSlots_range _ _ r (ho_capacity _ Hq') (ho_write _ Hq') Hr).
  case_Z; [done|]. by apply Hcopy.
Qed.

Lemma confined_same {A} q q' (P : A -> Prop) p :
  same_handle q q' -> confined_q q' P p -> confined_q q P p.
Proof. intros Hs. by rewrite (sh_ctrl _ _ Hs), (sh_slots _ _ Hs). Qed.

Lemma keeps_same {X} q q' (r : ShmSpscQueue * X) : same_handle q q' -> keeps q' r -> keeps q r.
Proof. intros Hs [Hr ?]. split; [by etransitivity|done]. Qed.

Lemma after_front_confined {A} q (f : T -> ShmSpscQueue -> io A) (e : ShmSpscQueue -> io A) P :
  own = readIdx -> handle_ok q ->
  (forall q', same_handle q q' -> handle_ok q' -> confined_q q P (e q')) ->
  (forall q' v, same_handle q q' -> handle_ok q' -> confined_q q P (f v q')) ->
  confined_q q P (let* (q', p) := front q in if p =? 0 then e q' else let* v := slot_read p in f v q').
Proof.
  intros Ho Hq He Hf. apply confined_bind. eapply confined_mono; [|by apply front_confined].
  intros [q' p] [[Hs Hq'] Hp]. cbn [fst snd] in *. case_Z; [by apply He|].
  conf_access. split; [split; [done|]; by destruct Hp|]. intros v _. by apply Hf.
Qed.

Section loops.
Context (ndebug : bool).

Lemma try_pop_confined q :
  own = readIdx -> handle_ok q -> confined_q q (keeps q) (try_pop (T := T) ndebug q).
Proof.
  intros Ho Hq. unfold try_pop. apply (after_front_confined q (fun v q' => pop_front ndebug q';; Ret (q', Some v))
    (fun q' => Ret (q', None))); [done..|].
  intros q' v Hs Hq'. apply confined_seq; [|done]. eapply confined_same; [exact Hs|]. by apply pop_front_confined.
Qed.

Lemma peek_confined q take :
  own = readIdx -> handle_ok q -> confined_q q (keeps q) (peek (T := T) ndebug q take).
Proof.
  intros Ho Hq. unfold peek. apply (after_front_confined q
    (fun v q' => if take v then pop_front ndebug q';; Ret (q', Some (v, true)) else Ret (q', Some (v, false)))
    (fun q' => Ret (q', None))); [done..|].
  intros q' v Hs Hq'. destruct (take v); [|done].
  apply confined_seq; [|done]. eapply confined_same; [exact Hs|]. by apply pop_front_confined.
Qed.

Lemma push_loop_confined fuel q v k spins :
  own = writeIdx -> handle_ok q -> confined_q q (keeps q) (push_loop (T := T) fuel q v k spins).
Proof.
  intros Ho. revert q spins. induction fuel as [|fuel IH]; intros q spins Hq; cbn [push_loop]; [done|].
  apply confined_bind. eapply confined_mono; [|by apply try_push_confined].
  intros [q' [|]] [Hs Hq']; cbn [fst] in *; [done|].
  assert (forall sp, confined_q q (keeps q) (push_loop fuel q' v k sp)) as Hnext.
  { intros sp. eapply confined_same; [exact Hs|]. eapply confined_mono; [|by apply IH].
    intros r Hr. by eapply keeps_same. }
  destruct (spins >=? k); [|apply Hnext].
  apply confined_seq; [eapply confined_same; [exact Hs|]; apply peerAlive_confined|].
  intros [|]; cbn [negb]; [|done]. conf_access. by split.
Qed.

Lemma pop_loop_confined fuel q k spins :
  own = readIdx -> handle_ok q -> confined_q q (keeps q) (pop_loop (T := T) ndebug fuel q k spins).
Proof.
  intros Ho. revert q spins. induction fuel as [|fuel IH]; intros q spins Hq; cbn [pop_loop]; [done|].
  apply confined_bind. eapply confined_mono; [|by apply try_pop_confined].
  intros [q' [v|]] [Hs Hq']; cbn [fst] in *; [done|].
  assert (forall sp, confined_q q (keeps q) (pop_loop ndebug fuel q' k sp)) as Hnext.
  { intros sp. eapply confined_same; [exact Hs|]. eapply confined_mono; [|by apply IH].
    intros r Hr. by eapply keeps_same. }
  destruct (spins >=? k); [|apply Hnext].
  apply confined_seq; [eapply confined_same; [exact Hs|]; apply peerAlive_confined|].
  intros alive. apply confined_seq.
  - destruct alive; cbn [negb]; [done|]. eapply confined_same; [exact Hs|]. apply empty_confined.
  - intros [|]; [done|]. conf_access. by split.
Qed.

Lemma do_pcall_confined {X} (c : pcall X) q :
  own = writeIdx -> handle_ok q -> confined_q q (keeps q) (do_pcall c q).
Proof.
  intros Ho Hq. destruct c; cbn [do_pcall].
  - by apply try_push_confined.
  - by apply push_n_confined.
  - by apply push_loop_confined.
  - apply confined_seq; [apply peerAlive_confined|done].
  - apply confined_seq; [apply size_confined|done].
Qed.

Lemma do_ccall_confined {X} (c : ccall X) q :
  own = readIdx -> handle_ok q -> confined_q q (keeps q) (do_ccall ndebug c q).
Proof.
  intros Ho Hq. destruct c; cbn [do_ccall].
  - by apply try_pop_confined.
  - apply confined_bind. eapply confined_mono; [|apply pop_n_confined; [done|done|lia]]. by intros [[q' ?] out].
  - by apply pop_loop_confined.
  - apply confined_seq; [apply peerAlive_confined|done].
  - apply confined_seq; [apply empty_confined|done].
  - apply confined_seq; [apply size_confined|done].
  - by apply peek_confined.
Qed.
End loops.
End confined.

(** C34: an operation stays within its handle's ring.  Take any handle to a ring of [n]
    slots whose cached indices are below [n], and let the loads of the two indices
    return any values below [n], consistent or not, whatever the pid slots hold and the
    system answers.  Every call of the producer then loads only through the handle's
    control pointer, stores nothing but [writeIdx], to a value below [n], and writes,
    never reads, elements in the [n] slots of the handle's array; the consumer likewise
    stores only [readIdx] and only reads slots; the only system calls are the probe
    [kill(pid, 0)] and [sched_yield]; a failed assertion ends the call; and the handle
    returned differs in its cached indices only, which are again below [n]. *)
Theorem operations_keep_handle `{!PlatformOk _} `{!ElemOk T} ndebug n {X Y}
    (c : pcall (T := T) X) (d : ccall (T := T) Y) q :
  ring_size n -> handle_ok n q ->
  confined n writeIdx (ctrl_ q) (slots_ q) (fun r => same_handle q r.1 /\ handle_ok n r.1) (do_pcall c q) /\
  confined n readIdx (ctrl_ q) (slots_ q) (fun r => same_handle q r.1 /\ handle_ok n r.1)
    (do_ccall ndebug d q).
Proof.
  intros Hn Hq. split; [by apply (do_pcall_confined n Hn)|by apply (do_ccall_confined n Hn)].
Qed.
End footprint.

(** A batch that goes around the end of a ring of four, and a batch of pops. *)
Module FootprintSample.
#[local] Existing Instance x86_64.
#[local] Existing Instance elem_u64.
#[local] Existing Instance x86_64_ok.
#[local] Existing Instance elem_u64_ok.

Definition ring4 : ShmSpscQueue := MkQueue ShmSegment_default 4096 4352 4 Producer true 2 3.

Lemma operations_keep_handle_witness :
  confined 4 writeIdx 4096 4352 (fun r => same_handle ring4 r.1 /\ handle_ok 4 r.1)
    (do_pcall (CallPushN [7; 8; 9]) ring4) /\
  confined 4 readIdx 4096 4352 (fun r => same_handle ring4 r.1 /\ handle_ok 4 r.1)
    (do_ccall false (CallPopN (T := Z) 3) ring4).
Proof.
  apply (operations_keep_handle false 4 (CallPushN [7; 8; 9]) (CallPopN 3) ring4).
  - split; lia.
  - by split; cbn.
Defined.
End FootprintSample.
