(* ===== verification/System.v ===== *)
(** * From creation to delivery

    A process creates the queue, another one attaches to it: the two handles and the
    segment they end up with are the ones the delivery theorems start from. *)

From stdpp Require Import relations.
From S2P Require Import Prelude Prog Effects Machine Layout Segment Queue Lifecycle Shm Ring Sequential Refinement Blocking Session RaMemory Delivery.
#[local] Open Scope Z_scope.
#[local] Open Scope prog_scope.

Section system.
Context {T : Type} `{Platform} `{Elem T} `{!PlatformOk _} `{!ElemOk T}.

(** The pid of each side once the creator, in [role], and the attacher are in. *)
Definition pid_of (role : Role) (creator attacher : Z) (r : Role) : Z :=
  if decide (r = role) then creator else attacher.

(** C6: creating and attaching establish the queue.  The creator's [publish] (what
    [create] does once the segment is mapped) succeeds and returns a bound handle on
    an empty ring of [n] slots.  Any process that then maps the same segment, at
    whatever address and rounded up to whatever page size, passes [validate] and
    claims the other role; a third live process asking for the creator's role is
    refused and changes nothing.  The two handles and the control block are exactly
    the initial configuration of the delivery theorems. *)
Theorem create_then_attach fuel q w n role q2 w2 :
  ctrl_ q = w_base w -> pid_ok (w_self w) -> sizeT T < W32 ->
  0 <= n -> sizeof_ControlBlock + n * sizeT T = size_ (seg_ q) -> size_ (seg_ q) < W64 ->
  let B r := if decide (r = role) then w_base w else w_base w2 in
  exists w1, run alone (publish (S fuel) q n role) w =
      Some (Some (inr (fresh_handle n B (seg_ q) role)), w1) /\
    slots (w_shm w1) = slots (w_shm w) /\
    (w_shm w2 = w_shm w1 -> ctrl_ q2 = w_base w2 -> pid_ok (w_self w2) ->
     size_ (seg_ q) <= size_ (seg_ q2) ->
     run alone (validate (T := T) q2) w2 = Some (inr tt, w2) /\
     (exists w3, run alone (bind_queue (S fuel) q2 (peer role)) w2 =
        Some ((fresh_handle n B (seg_ q2) (peer role), Some (inr tt)), w3) /\
      slots (w_shm w3) = slots (w_shm w1) /\
      forall f, get_a (cb (w_shm w3)) f =
        init_value f (pid_of role (w_self w) (w_self w2) Producer)
                     (pid_of role (w_self w) (w_self w2) Consumer)) /\
     (w_self w2 <> w_self w -> pid_alive (w_kill w2) (w_self w) = true ->
      exists q3 m, run alone (bind_queue (S fuel) q2 role) w2 =
        Some ((q3, Some (inl (runtime_error m))), w2))).
Proof.
  intros Hc Hp Hs Hn Hb Hw B.
  exists (upd_cb w (published_block n (size_ (seg_ q)) (w_self w) role)). split; [|split; [reflexivity|]].
  { rewrite run_publish by done. unfold fresh_handle, B. rewrite decide_True by done. by rewrite Hc. }
  intros Hshm Hc2 Hp2 Hsz.
  assert (cb (w_shm w2) = published_block n (size_ (seg_ q)) (w_self w) role) as Hcb by (by rewrite Hshm).
  split; [|split].
  - destruct (run_validate q2 w2 Hc2) as (r & -> & Hr). rewrite Hcb in Hr.
    rewrite decide_True in Hr by (by apply published_compatible). by subst r.
  - destruct (run_bind_queue fuel q2 w2 (peer role) Hc2 Hp2) as (res & Hr & Hres). rewrite Hcb in Hres.
    replace (get_a (published_block _ _ _ _) _) with 0 in Hres by (by destruct role).
    replace (_ || _) with true in Hres by (unfold pid_alive; by rewrite orb_true_r). subst res.
    eexists. split; [|split].
    + rewrite Hr. unfold bound_handle, fresh_handle. rewrite Hcb, Hc2. unfold B.
      rewrite decide_False by (by destruct role). by destruct role.
    + cbn. by rewrite Hshm.
    + intros f. cbn [upd_cb upd_shm w_shm cb]. unfold pid_of. by destruct role, f.
  - intros Hne Ha. destruct (run_bind_queue fuel q2 w2 role Hc2 Hp2) as (res & Hr & Hres).
    rewrite Hcb in Hres. replace (get_a (published_block _ _ _ _) _) with (w_self w) in Hres by (by destruct role).
    rewrite (proj2 (Z.eqb_neq _ _)), Ha in Hres by done. destruct Hres as [m ->]. eauto.
Qed.
End system.

Module SystemSample.
Import Sample SessionSample.
#[local] Existing Instance x86_64.
#[local] Existing Instance elem_u64.
#[local] Existing Instance x86_64_ok.
#[local] Existing Instance elem_u64_ok.

(** The creator maps 296 bytes at 4096, the attacher one page at 8192. *)
Definition creator : ShmSpscQueue :=
  MkQueue (MkSegment 4096 296 true "/q") 4096 0 0 Producer false 0 0.
Definition blank : world Z := MkWorld (MkShm cb_zero [0; 0; 0; 0; 0]) 4096 kill78 7 0 0.
Definition joined : world Z := page_world (published_block 5 296 7 Producer).

Lemma create_then_attach_witness :
  exists w1, run alone (publish 1 creator 5 Producer) blank =
      Some (Some (inr (MkQueue (seg_ creator) 4096 4352 5 Producer true 0 0)), w1) /\
    run alone (validate (T := Z) page_handle) joined = Some (inr tt, joined) /\
    exists w3, run alone (bind_queue 1 page_handle Consumer) joined =
      Some ((MkQueue (seg_ page_handle) 8192 8448 5 Consumer true 0 0, Some (inr tt)), w3).
Proof.
  destruct (create_then_attach (T := Z) 0 creator blank 5 Producer page_handle joined)
    as (w1 & Hpub & _ & Hrest); [done|split; reflexivity|reflexivity|lia|reflexivity|reflexivity|].
  assert (w_shm joined = w_shm w1) as Hj.
  { vm_compute in Hpub. injection Hpub as <-. vm_compute. reflexivity. }
  destruct Hrest as (Hv & (w3 & Hb & _) & _); [done|done|split; reflexivity|vm_compute; congruence|].
  exists w1. split; [exact Hpub|]. split; [exact Hv|]. exists w3. exact Hb.
Defined.
End SystemSample.
