(* ===== verification/Caveats.v ===== *)
(** * Behaviours at the edges

    Executions that the code allows and a reader of its documentation would not
    expect, each exhibited as a concrete run of the model. *)

From stdpp Require Import relations.
From S2P Require Import Prelude Prog Effects Machine Layout Segment Queue Lifecycle Shm Ring Sequential Refinement Blocking Session RaMemory Delivery System.
#[local] Open Scope Z_scope.
#[local] Open Scope prog_scope.
#[local] Existing Instance x86_64.
#[local] Existing Instance elem_u64.

(** ** The last messages of a producer that has left

    [peerAlive()] reads the peer's pid with a relaxed load.  Reading the -1 that
    [detach()] stored with release order therefore does not make the pushes before
    it visible, and the index loads of [empty()] may still return old values. *)
Module Drain.

(** The producer pushes one element and detaches; the consumer calls the blocking
    [pop] and probes the producer after every attempt. *)
Definition push_and_leave : prog (evE Z) bool :=
  let* (q, sent) := try_push (fresh_handle 4 Runs.bases ShmSegment_default Producer) 7 in
  release_slot (ctrl_ q) Producer 10;;
  Ret sent.
Definition pop_until_gone : prog (evE Z) (ShmSpscQueue * option (option Z)) :=
  pop false 3 (fresh_handle 4 Runs.bases ShmSegment_default Consumer) 0.

Definition before : ra_conf Z bool (ShmSpscQueue * option (option Z)) :=
  MkConf push_and_leave pop_until_gone (fresh_machine 4 Runs.bases (fun _ => 0) 10 11).

(** The producer runs to its end; then the consumer reads its own index, an old
    [writeIdx], the new pid, and an old [writeIdx] again. *)
Definition after : ra_conf Z bool (ShmSpscQueue * option (option Z)) :=
  sched (replicate 4 (Producer, O) ++
         [(Consumer, O); (Consumer, 1%nat); (Consumer, O); (Consumer, 1%nat); (Consumer, O)]) before.

(** C36: the release/acquire memory model allows [pop] to return false ("the peer is
    gone and the queue is empty") although the departed producer's element was
    published before it detached and is still in the ring. *)
Theorem pop_may_miss_last_element :
  rtc cstep before after /\
  pthread after = Ret true /\
  (exists q, cthread after = Ret (q, Some None)) /\
  option_map m_val (last (hist (memory after) writeIdx)) = Some 1 /\
  option_map m_val (last (hist (memory after) readIdx)) = Some 0 /\
  c_val (cells (memory after) 0) = 7.
Proof.
  split; [apply sched_sound|]. split; [vm_compute; reflexivity|].
  split; [eexists; vm_compute; reflexivity|]. split; [vm_compute; reflexivity|].
  split; vm_compute; reflexivity.
Qed.
End Drain.

(** ** Two handles of one process

    [bind] treats a slot that holds the caller's own pid as free. *)
Module TwoHandles.
Import Sample SessionSample SystemSample.

(** A producer's handle exists in process 7; the same process opens the segment a
    second time, as [attach] does: mapped at another address and not owned; it binds
    and destroys that handle; then process 9 asks for the role. *)
Definition second : prog (evE Z) (ShmSpscQueue * option (exn + unit)) :=
  let* (q, r) := bind_queue 1 page_handle Producer in
  detach q;;
  Ret (q, r).
Definition again (w : world Z) : world Z := MkWorld (w_shm w) 8192 (w_kill w) (w_self w) 0 0.
Definition others (w : world Z) : world Z := MkWorld (w_shm w) 8192 kill78 9 0 0.

(** C37: a second producer handle is accepted when it comes from the same process,
    both handles then share the slot, and destroying the second one gives the slot
    up for both: another process can claim the role while the first handle, still
    bound to a live process, keeps pushing. *)
Theorem second_handle_frees_role :
  exists q1 w1 q2 w2 q3 w3,
    run alone (publish 1 creator 5 Producer) blank = Some (Some (inr q1), w1) /\
    run alone second (again w1) = Some ((q2, Some (inr tt)), w2) /\
    run alone (bind_queue 1 page_handle Producer) (others w2) = Some ((q3, Some (inr tt)), w3) /\
    bound_ q1 = true /\ bound_ q3 = true /\ pid_alive kill78 (w_self w1) = true /\
    cb_producerPid (cb (w_shm w3)) = 9.
Proof.
  do 6 eexists. split; [vm_compute; reflexivity|]. split; [vm_compute; reflexivity|].
  split; [vm_compute; reflexivity|]. split_and!; vm_compute; reflexivity.
Qed.
End TwoHandles.
