(* ===== verification/Message.v ===== *)
(** * Messages and their verdict

    [Message], [checksumOf] and [makeMessage] of common.h, and the sequence and
    checksum check of demo_consumer.cpp. *)

From stdpp Require Import relations.
From S2P Require Import Prelude Prog Effects Layout Fleet.
#[local] Open Scope Z_scope.
#[local] Open Scope prog_scope.

Record Message : Type := MkMessage {
  seq : Z;
  sentNs : Z;
  payload : list Z;
  checksum : Z;
  reserved : Z }.

(** [sizeof(Message) == 48], the alignment of its 64-bit members, and the all-zero
    object. *)
Definition elem_message : Elem Message :=
  {| sizeT := 48; alignT := 8; zeroT := MkMessage 0 0 (replicate 6 0) 0 0 |}.

Lemma elem_message_ok : @ElemOk Message x86_64 elem_message.
Proof.
  split; simpl; [lia|exists 3; split; [lia|reflexivity]|lia|exists 6; reflexivity].
Defined.

(** The lambda [mix] of [checksumOf]: FNV-1a on 32-bit words. *)
Definition mix (h v : Z) : Z := u32 (Z.lxor h v * 16777619).

Definition checksumOf (m : Message) : Z :=
  let h := mix 2166136261 (u32 (seq m)) in
  let h := mix h (u32 (Z.shiftr (seq m) 32)) in
  foldl mix h (payload m).

Definition makeMessage (s t : Z) : Message :=
  let m := MkMessage s t
    (map (fun i => u32 (u64 (u64 (s * 31) + i))) [0; 1; 2; 3; 4; 5]) 0 0 in
  MkMessage (seq m) (sentNs m) (payload m) (checksumOf m) (reserved m).

(** ** The consumer's verdict *)

(** The counters of the receiving loop. *)
Record tally : Type := MkTally { received : Z; expect : Z; errors : Z }.

(** The body of the inner loop: [expect] is incremented in the condition, before the
    checksum is looked at. *)
Definition check_message (t : tally) (m : Message) : tally :=
  let e := expect t in
  let t := MkTally (received t) (u64 (expect t + 1)) (errors t) in
  if negb (seq m =? e) || negb (checksum m =? checksumOf m)
  then MkTally (received t) (u64 (seq m + 1)) (u64 (errors t + 1))
  else t.

(** A batch whose messages carry the expected numbers and their own checksums. *)
Definition in_sequence (e : Z) (ms : list Message) : Prop :=
  forall i m, ms !! i = Some m -> seq m = e + Z.of_nat i /\ checksum m = checksumOf m.

Lemma makeMessage_valid s t : checksum (makeMessage s t) = checksumOf (makeMessage s t).
Proof. unfold makeMessage, checksumOf. cbn [seq payload checksum]. reflexivity. Qed.

#[local] Opaque checksumOf.

Lemma in_sequence_cons e m ms :
  in_sequence e (m :: ms) <-> (seq m = e /\ checksum m = checksumOf m) /\ in_sequence (e + 1) ms.
Proof.
  split.
  - intros Hs. split.
    + destruct (Hs O m eq_refl) as [-> ?]. split; [lia|done].
    + intros i m' Hi. destruct (Hs (S i) m' Hi) as [-> ?]. split; [lia|done].
  - intros [[<- Hc] Hs] [|i] m' Hi; simpl in Hi; [simplify_eq; split; [lia|done]|].
    destruct (Hs i m' Hi) as [-> ?]. split; [lia|done].
Qed.

Lemma in_sequence_prefix e ms ms' : ms `prefix_of` ms' -> in_sequence e ms' -> in_sequence e ms.
Proof. intros [r ->] Hs i m Hi. apply Hs. by apply lookup_app_l_Some. Qed.

Lemma in_sequence_app e ms ms' :
  in_sequence e ms -> in_sequence (e + zlen ms) ms' -> in_sequence e (ms ++ ms').
Proof.
  intros H1 H2 i m [Hi|[Hle Hi]]%lookup_app_Some; [by apply H1|].
  destruct (H2 _ _ Hi) as [-> ?]. split; [unfold zlen; lia|done].
Qed.

Lemma check_message_cases t m :
  0 <= errors t -> errors t + 1 < W64 ->
  if decide (seq m = expect t /\ checksum m = checksumOf m)
  then check_message t m = MkTally (received t) (u64 (expect t + 1)) (errors t)
  else check_message t m = MkTally (received t) (u64 (seq m + 1)) (errors t + 1).
Proof.
  intros H0 H1. unfold check_message.
  destruct (Z.eqb_spec (seq m) (expect t)), (Z.eqb_spec (checksum m) (checksumOf m)); cbn [negb orb];
    [rewrite decide_True by done|rewrite decide_False by tauto..]; cbn [errors received];
    rewrite ?(u64_small (errors t + 1)) by lia; done.
Qed.

Lemma check_errors_mono ms t :
  0 <= errors t -> errors t + zlen ms < W64 -> errors t <= errors (foldl check_message t ms).
Proof.
  revert t. induction ms as [|m ms IH]; intros t H0 H1; [done|]. rewrite zlen_cons in H1.
  pose proof (zlen_nonneg ms). pose proof (check_message_cases t m H0 ltac:(lia)) as Hc. cbn [foldl].
  case_decide; rewrite Hc; (etransitivity; [|apply IH; cbn; lia]); cbn; lia.
Qed.

Lemma check_errors_zero ms t :
  0 <= errors t -> errors t + zlen ms < W64 -> 0 <= expect t -> expect t + zlen ms < W64 ->
  (errors (foldl check_message t ms) = errors t <-> in_sequence (expect t) ms) /\
  (in_sequence (expect t) ms ->
   foldl check_message t ms = MkTally (received t) (expect t + zlen ms) (errors t)).
Proof.
  revert t. induction ms as [|m ms IH]; intros t H0 H1 H2 H3.
  { rewrite zlen_nil, Z.add_0_r. cbn. split; [split; [by intros _ i ? ?|done]|by destruct t]. }
  rewrite zlen_cons in *. pose proof (zlen_nonneg ms).
  pose proof (check_message_cases t m H0 ltac:(lia)) as Hc. cbn [foldl].
  rewrite in_sequence_cons. case_decide as Hm; rewrite Hc.
  - rewrite u64_small by lia.
    destruct (IH (MkTally (received t) (expect t + 1) (errors t))) as [Hi' He']; cbn in *; [lia..|].
    split; [tauto|]. intros [_ Hs]. rewrite (He' Hs). f_equal. lia.
  - split; [|tauto]. split; [|tauto]. intros He.
    pose proof (check_errors_mono ms (MkTally (received t) (u64 (seq m + 1)) (errors t + 1))) as Hmono.
    cbn in Hmono. lia.
Qed.

(** C31: the consumer's verdict is exact.  A stream of messages is counted without
    error if and only if each one carries the next sequence number and a checksum
    that matches its contents. *)
Theorem verdict_exact l :
  zlen l < W64 ->
  errors (foldl check_message (MkTally 0 0 0) l) = 0 <-> in_sequence 0 l.
Proof. intros Hl. apply (check_errors_zero l (MkTally 0 0 0)); cbn; lia. Qed.

(** After an error the count resumes at the number that was received, so that a
    gap of any length in an otherwise good stream is counted as one error, and the
    messages after it are checked against the right numbers. *)
Theorem gap_is_one_error ms lost ms' :
  in_sequence 0 ms -> 0 < lost -> ms' <> [] -> in_sequence (zlen ms + lost) ms' ->
  zlen ms + lost + zlen ms' < W64 ->
  errors (foldl check_message (MkTally 0 0 0) (ms ++ ms')) = 1 /\
  expect (foldl check_message (MkTally 0 0 0) (ms ++ ms')) = zlen ms + lost + zlen ms'.
Proof.
  intros Hs Hlost Hne Hs' Hb. pose proof (zlen_nonneg ms'). pose proof (zlen_nonneg ms).
  destruct (check_errors_zero ms (MkTally 0 0 0)) as [_ Hms]; cbn; [lia..|].
  rewrite foldl_app, (Hms Hs). cbn [received expect errors]. rewrite Z.add_0_l.
  destruct ms' as [|m ms']; [done|]. rewrite zlen_cons in *. pose proof (zlen_nonneg ms').
  apply in_sequence_cons in Hs' as [[Hm Hc] Hs'].
  cbn [foldl]. pose proof (check_message_cases (MkTally 0 (zlen ms) 0) m ltac:(cbn; lia) ltac:(cbn; word_lia)) as Hcm.
  rewrite decide_False in Hcm by (cbn; lia). rewrite Hcm. cbn [received expect errors].
  rewrite Hm, u64_small by lia. change (0 + 1) with 1.
  destruct (check_errors_zero ms' (MkTally 0 (zlen ms + lost + 1) 1)) as [_ Hms'];
    cbn [received expect errors] in *; [lia|word_lia|lia..|].
  rewrite (Hms' Hs'). cbn [expect errors]. split; [done|lia].
Qed.

(** ** Stamps *)

(** A message published at time [x] carries an earlier stamp. *)
Definition stamped {C : Type} (c : C) (x : Z) (l : list Message) : Prop :=
  Forall (fun m => 0 <= sentNs m <= x) l.

#[export] Instance stamped_log {C : Type} : LogPred (stamped (C := C)).
Proof.
  split.
  - intros c x y l Hle Hl. eapply Forall_impl; [exact Hl|]. simpl. lia.
  - intros c x l l' [r ->] [? _]%Forall_app. done.
  - intros c x. constructor.
Qed.

(** ** Examples *)
Module MessageSample.
#[local] Existing Instance x86_64.
#[local] Existing Instance x86_64_ok.
#[local] Existing Instance elem_message.
#[local] Existing Instance elem_message_ok.

Definition two : list Message := [makeMessage 0 100; makeMessage 1 200].
Definition late : list Message := [makeMessage 5 300; makeMessage 6 400].

Lemma two_in_sequence : in_sequence 0 two.
Proof.
  apply in_sequence_cons. split; [split; [reflexivity|apply makeMessage_valid]|].
  apply in_sequence_cons. split; [split; [reflexivity|apply makeMessage_valid]|]. by intros i.
Defined.

Lemma late_in_sequence : in_sequence 5 late.
Proof.
  apply in_sequence_cons. split; [split; [reflexivity|apply makeMessage_valid]|].
  apply in_sequence_cons. split; [split; [reflexivity|apply makeMessage_valid]|]. by intros i.
Defined.

Lemma verdict_exact_witness : errors (foldl check_message (MkTally 0 0 0) two) = 0.
Proof. apply (verdict_exact two); [unfold zlen; simpl; word_lia|exact two_in_sequence]. Defined.

Lemma gap_is_one_error_witness :
  errors (foldl check_message (MkTally 0 0 0) (two ++ late)) = 1 /\
  expect (foldl check_message (MkTally 0 0 0) (two ++ late)) = zlen two + 3 + zlen late.
Proof.
  apply (gap_is_one_error two 3 late); [exact two_in_sequence|lia|done|exact late_in_sequence|].
  unfold zlen. simpl. word_lia.
Defined.

(** The checksum notices a flipped payload bit. *)
Example flipped_bit :
  let m := makeMessage 3 100 in
  errors (check_message (MkTally 0 3 0)
    (MkMessage (seq m) (sentNs m) (<[2%nat := Z.lxor 1 95]> (payload m)) (checksum m) 0)) = 1.
Proof. vm_compute. reflexivity. Qed.
End MessageSample.
