(* ===== verification/Demo.v ===== *)
(** * The demo, end to end

    The sending loop of demo_producer.cpp and the receiving loop of demo_consumer.cpp
    as clients of one queue, with the clock they read and the flag their signal
    handlers set. *)

From stdpp Require Import relations.
From S2P Require Import Prelude Prog Effects Machine Layout Segment Queue Shm Ring RaMemory RelyGuarantee SpscProtocol Concurrent Delivery Fleet Message.
#[local] Open Scope Z_scope.
#[local] Open Scope prog_scope.

(** ** The two loops as clients of the queue *)

(** The one queue between the two programs; the producer is the first process. *)
Definition straight (c : unit) : bool := true.
#[local] Abbreviation client t := (prog (fcall (T := Message) straight t)).
#[local] Abbreviation queue e := (act (OnQueue tt e)).

(** The [for] loop of demo_producer.  Every round sends one message, so [rounds] more
    than [total] are enough for it to end by itself; [fuel] bounds the attempts of
    each push.  The result is the count of messages sent. *)
Fixpoint demo_send (rounds fuel : nat) (total sent : Z) : client Producer Z :=
  match rounds with
  | O => Ret sent
  | S rounds =>
      if sent <? total then
        let* stop := act (Ask Stopped) in
        if (stop : bool) then Ret sent else
        let* t := act (Ask NowNs) in
        let* r := queue (CallPush fuel (makeMessage sent t) 4096 : call (on straight tt Producer) _) in
        match r with
        | Some true => demo_send rounds fuel total (u64 (sent + 1))
        | _ => Ret sent
        end
      else Ret sent
  end.

(** The count of messages sent and the time it took. *)
Definition demo_producer (fuel : nat) (total : Z) : client Producer (Z * Z) :=
  let* start := act (Ask NowNs) in
  let* sent := demo_send (S (Z.to_nat total)) fuel total 0 in
  let* fin := act (Ask NowNs) in
  Ret (sent, u64 (fin - start)).

(** The state of the receiving loop. *)
Record receiver : Type := MkReceiver { counts : tally; latency : list Z; lastReport : Z }.

(** One message of a batch read at time [t]: its checks, and a latency sample as long
    as the vector has room for it without growing. *)
Definition take_message (cap t : Z) (r : receiver) (m : Message) : receiver :=
  MkReceiver (check_message (counts r) m)
    (if (zlen (latency r) <? cap) && negb (sentNs m =? 0)
     then latency r ++ [u64 (t - sentNs m)] else latency r)
    (lastReport r).

Definition take_batch (cap t : Z) (r : receiver) (buf : list Message) : receiver :=
  let r := foldl (take_message cap t) r buf in
  let k := counts r in
  MkReceiver (MkTally (u64 (received k + zlen buf)) (expect k) (errors k)) (latency r) (lastReport r).

(** The [while] loop of demo_consumer, [rounds] iterations of it at most.  [cap] is
    the capacity [reserve] has given the vector of samples. *)
Fixpoint demo_receive (rounds : nat) (cap : Z) (r : receiver) : client Consumer receiver :=
  match rounds with
  | O => Ret r
  | S rounds =>
      let* stop := act (Ask Stopped) in
      if (stop : bool) then Ret r else
      let* buf := queue (CallPopN 256 : call (on straight tt Consumer) _) in
      match buf with
      | [] =>
          let* alive := queue (CallConsumerPeerAlive : call (on straight tt Consumer) _) in
          if (alive : bool) then demo_receive rounds cap r else
          let* e := queue (CallEmpty : call (on straight tt Consumer) _) in
          if (e : bool) then Ret r else demo_receive rounds cap r
      | _ =>
          let* t := act (Ask NowNs) in
          let r := take_batch cap t r buf in
          if u64 (t - lastReport r) >=? 1000000000 then
            queue (CallConsumerSize : call (on straight tt Consumer) _);;
            demo_receive rounds cap (MkReceiver (counts r) (latency r) t)
          else demo_receive rounds cap r
      end
  end.

(** The loop's result and the time it took. *)
Definition demo_consumer (rounds : nat) (cap : Z) : client Consumer (receiver * Z) :=
  let* start := act (Ask NowNs) in
  let* r := demo_receive rounds cap (MkReceiver (MkTally 0 0 0) [] start) in
  let* fin := act (Ask NowNs) in
  Ret (r, u64 (fin - start)).

(** Whatever the queue and the clock answer, there are at most [cap] samples. *)
Lemma take_batch_room cap t r buf :
  zlen (latency r) <= cap -> zlen (latency (take_batch cap t r buf)) <= cap.
Proof.
  unfold take_batch. cbv zeta. cbn [latency]. revert r. induction buf as [|m buf IH]; intros r Hr; [done|].
  cbn [foldl]. apply IH. unfold take_message. cbn [latency]. destruct (Z.ltb_spec (zlen (latency r)) cap); [|done].
  destruct (negb _); cbn [andb]; [|done]. rewrite zlen_app. unfold zlen in *. simpl. lia.
Qed.

Lemma demo_receive_room rounds cap r :
  zlen (latency r) <= cap -> always (fun r => zlen (latency r) <= cap) (demo_receive rounds cap r).
Proof.
  revert r. induction rounds as [|rounds IH]; intros r Hr; cbn [demo_receive]; [done|].
  cbn [bind act always]. intros [|]; [done|]. cbn [bind act always]. intros [|m buf]; cbn [bind act always].
  - intros [|]; [by apply IH|]. cbn [bind act always]. intros [|]; [done|by apply IH].
  - intros t. pose proof (take_batch_room cap t r (m :: buf) Hr) as Hb.
    destruct (_ >=? _); cbn [bind act always]; [intros _|]; by apply IH.
Qed.

Lemma demo_consumer_room rounds cap :
  0 <= cap -> always (fun r => zlen (latency r.1) <= cap) (demo_consumer rounds cap).
Proof.
  intros Hc. unfold demo_consumer. cbn [bind act always]. intros start.
  apply always_seq with (P := fun r => zlen (latency r) <= cap); [by apply demo_receive_room|].
  intros r Hr. cbn [bind act always]. by intros fin.
Qed.

(** What the counters say of the messages received so far. *)
Definition tally_of (got : list Message) : tally :=
  let t := foldl check_message (MkTally 0 0 0) got in MkTally (u64 (zlen got)) (expect t) (errors t).

Lemma received_check ms t : received (foldl check_message t ms) = received t.
Proof.
  revert t. induction ms as [|m ms IH]; intros t; [done|]. cbn [foldl]. rewrite IH.
  unfold check_message. by destruct (_ || _).
Qed.

(** The check does not look at the count of messages. *)
Lemma check_message_received t k m :
  check_message (MkTally k (expect t) (errors t)) m =
  MkTally k (expect (check_message t m)) (errors (check_message t m)).
Proof. unfold check_message. cbn [expect errors received]. by destruct (_ || _). Qed.

Lemma foldl_check_received ms t k :
  foldl check_message (MkTally k (expect t) (errors t)) ms =
  MkTally k (expect (foldl check_message t ms)) (errors (foldl check_message t ms)).
Proof.
  revert t. induction ms as [|m ms IH]; intros t; [done|]. cbn [foldl].
  rewrite check_message_received. apply IH.
Qed.

Lemma counts_take_batch cap t r buf :
  counts (foldl (take_message cap t) r buf) = foldl check_message (counts r) buf /\
  lastReport (foldl (take_message cap t) r buf) = lastReport r.
Proof. revert r. induction buf as [|m buf IH]; intros r; [done|]. cbn [foldl]. apply (IH (take_message cap t r m)). Qed.

Lemma tally_of_app cap t r got buf :
  counts r = tally_of got -> counts (take_batch cap t r buf) = tally_of (got ++ buf).
Proof.
  intros Hr. unfold take_batch. cbv zeta. cbn [counts].
  rewrite (proj1 (counts_take_batch cap t r buf)), Hr. unfold tally_of. rewrite foldl_app, zlen_app.
  rewrite (foldl_check_received buf (foldl check_message (MkTally 0 0 0) got)). cbn [received expect errors].
  f_equal. unfold u64. by rewrite Zplus_mod_idemp_l.
Qed.

(** ** The latency samples

    The reference: the ages at the times they were read of the messages of [rs], without
    those that carry no stamp. *)
Definition ages (rs : list (Z * Message)) : list Z :=
  omap (fun p => if sentNs p.2 =? 0 then None else Some (p.1 - sentNs p.2)) rs.

Lemma take_message_latency cap t r m rs :
  0 <= cap -> 0 <= sentNs m <= t -> t < W64 -> latency r = ztake cap (ages rs) ->
  latency (take_message cap t r m) = ztake cap (ages (rs ++ [(t, m)])).
Proof.
  intros Hc Hm Ht Hl. unfold take_message, ages. rewrite omap_app. cbn [latency omap list_omap fst snd].
  rewrite Hl. fold (ages rs). destruct (sentNs m =? 0); cbn [negb]; [by rewrite andb_false_r, app_nil_r|].
  rewrite andb_true_r, u64_small by lia.
  destruct (Z.ltb_spec (zlen (ztake cap (ages rs))) cap) as [Hlt|Hge].
  - unfold zlen, ztake in *. rewrite length_take in Hlt. rewrite !take_ge; [done|..];
      rewrite ?length_app; simpl; lia.
  - unfold zlen, ztake in *. rewrite length_take in Hge. by rewrite take_app_le by lia.
Qed.

Lemma take_batch_latency cap t buf r rs :
  0 <= cap -> t < W64 -> stamped tt t buf -> latency r = ztake cap (ages rs) ->
  latency (take_batch cap t r buf) = ztake cap (ages (rs ++ map (pair t) buf)).
Proof.
  intros Hc Ht Hst. unfold take_batch. cbv zeta. cbn [latency]. revert r rs.
  induction Hst as [|m buf Hm Hst IH]; intros r rs Hr; cbn [foldl map]; [by rewrite app_nil_r|].
  rewrite (cons_middle (t, m)), (assoc_L (++)). apply IH. by apply take_message_latency.
Qed.

(** What the receiver's state says at time [x] of the messages received and of what the
    process has seen: the counters are those of the verdict, every message was followed
    by a reading of the clock, and the samples are the ages at these readings, the
    first [cap] of them. *)
Definition received_ok (cap x : Z) (r : receiver) (got : list Message) (tr : list (seen unit Message)) : Prop :=
  counts r = tally_of got /\
  exists rs, readings tr = ([], rs) /\ map snd rs = got /\
    Forall (fun p => sentNs p.2 <= p.1 <= x) rs /\ latency r = ztake cap (ages rs).

Lemma received_ok_later cap x y r got tr :
  x <= y -> received_ok cap x r got tr -> received_ok cap y r got tr.
Proof.
  intros Hle (Hc & rs & Hrs & Hm & Ht & Hl). split; [done|]. exists rs. split_and!; try done.
  eapply Forall_impl; [exact Ht|]. simpl. lia.
Qed.

(** A call that moves nothing. *)
Lemma received_ok_idle cap x r got tr :
  received_ok cap x r got tr -> received_ok cap x r got (tr ++ [Moved tt []]).
Proof.
  intros (Hc & rs & Hrs & Hok). split; [done|]. exists rs. by rewrite readings_snoc, Hrs.
Qed.

(** A reading of the clock when no message waits for one. *)
Lemma received_ok_clock cap x r got tr t :
  received_ok cap x r got tr -> received_ok cap x r got (tr ++ [Clock t]).
Proof.
  intros (Hc & rs & Hrs & Hok). split; [done|]. exists rs. rewrite readings_snoc, Hrs. cbn.
  by rewrite app_nil_r.
Qed.

Lemma received_ok_batch cap t r got buf tr :
  0 <= cap -> t < W64 -> stamped tt t buf -> received_ok cap t r got tr ->
  received_ok cap t (take_batch cap t r buf) (got ++ buf) ((tr ++ [Moved tt buf]) ++ [Clock t]).
Proof.
  intros Hcap Ht Hst (Hc & rs & Hrs & Hm & Hts & Hl). split; [by apply tally_of_app|].
  exists (rs ++ map (pair t) buf). rewrite !readings_snoc, Hrs. split_and!.
  - done.
  - rewrite map_app, Hm, map_map. cbn. by rewrite map_id.
  - apply Forall_app_2; [done|]. clear -Hst.
    induction Hst as [|m buf Hm Hst IH]; simpl; constructor; [simpl; lia|done].
  - by apply take_batch_latency.
Qed.

Section end_to_end.
Context `{PlatformOk}.
#[local] Existing Instance elem_message.
Context `{!ElemOk Message} (ndebug : bool).
Context (n : unit -> Z) (B : unit -> Role -> Z) `{!FleetOk n B}.
Context (h : unit -> hfield -> Z) (pid : unit -> Role -> Z) (seg : unit -> Role -> ShmSegment).
#[local] Abbreviation state := (fleet unit Message * (unit -> ghost Message))%type.
#[local] Instance demo_protocol : Protocol (fleet unit Message) (unit -> ghost Message) :=
  fl_protocol straight n B stamped.
#[local] Instance demo_protocol_ok : ProtocolOk (fleet unit Message) (unit -> ghost Message) :=
  fl_protocol_ok straight n B stamped.
#[local] Instance demo_machine : Machine (flE unit Message) (fleet unit Message) := fl_machine straight.
#[local] Abbreviation run_client t p := (fclient straight ndebug t p).

Lemma wp_demo_send {A} rounds fuel total sent k q l s (Q : A * (unit -> list Message) -> state -> Prop) :
  fstate straight n B Producer s q l -> 0 <= now s.1 ->
  in_sequence 0 (l tt) -> sent = zlen (l tt) -> sent <= total < W64 ->
  (forall s' q' l' sent', fstate straight n B Producer s' q' l' -> in_sequence 0 (l' tt) ->
     sent' = zlen (l' tt) -> sent' <= total -> wp Producer (run_client Producer (k sent') q' l') Q s') ->
  wp Producer (run_client Producer (bind (demo_send rounds fuel total sent) k) q l) Q s.
Proof.
  intros Hs Hnow Hseq Hsent Hle Hk. revert q l s sent Hs Hnow Hseq Hsent Hle.
  induction rounds as [|rounds IH]; intros q l s sent Hs Hnow Hseq Hsent Hle; [by apply Hk; [..|lia]|].
  cbn [demo_send]. pose proof (zlen_nonneg (l tt)). case_Z; [|by apply Hk; [..|lia]]. cbn [bind act].
  client_rule wp_client_stopped. intros s1 stop Hs1 Hi1 Hc1. destruct stop; [by apply Hk; [..|lia]|].
  cbn [bind act]. client_rule wp_client_now. intros s2 t Hs2 Hi2 Ht2 Hx2. cbn [bind act].
  pose proof (fstate_Phi straight n B stamped Producer s2 q l tt Hi2 Hs2) as Hphi.
  client_rule wp_client_call.
  - intros _ [[|]|]; cbn [moved on straight sent_by]; rewrite ?app_nil_r; try done.
    apply Forall_app_2; [done|]. constructor; [|constructor]. cbn [sentNs makeMessage]. lia.
  - intros s3 q3 r Hs3 Hc3 Hi3. destruct r as [[|]|]; cbn [moved on straight sent_by] in *;
      [|rewrite app_nil_r in *; apply Hk; autorewrite with fupd; done || lia..].
    rewrite u64_small by lia. apply IH; autorewrite with fupd; [done|lia| |by rewrite zlen_app, Hsent|lia].
    apply in_sequence_app; [done|]. intros i m [-> <-]%list_lookup_singleton_Some.
    split; [cbn [seq makeMessage]; lia|apply makeMessage_valid].
Qed.

Definition sent_post (total : Z) (r : Z * Z * (unit -> list Message)) (s : state) : Prop :=
  (exists q, fstate straight n B Producer s q r.2) /\ in_sequence 0 (r.2 tt) /\
  r.1.1 = zlen (r.2 tt) /\ r.1.1 <= total.

Lemma wp_demo_producer fuel total q s :
  0 <= total < W64 -> fstate straight n B Producer s q no_log -> 0 <= now s.1 ->
  wp Producer (run_client Producer (demo_producer fuel total) q no_log) (sent_post total) s.
Proof.
  intros Ht Hs Hnow. unfold demo_producer. cbn [bind act].
  client_rule wp_client_now. intros s1 start Hs1 _ ? ?.
  apply wp_demo_send; [done|lia|by intros i|done|done|]. intros s2 q2 l2 sent Hs2 Hseq Hlen Hle.
  cbn [bind act]. client_rule wp_client_now. intros s3 fin Hs3 _ _ _.
  client_rule wp_client_ret. intros s4 Hs4 _. split_and!; [by exists q2|done|done|done].
Qed.

#[local] Abbreviation watched p tr := (traced (observe straight Consumer) p tr).

Lemma wp_demo_receive {A} rounds cap r k q l tr s
    (Q : A * list (seen unit Message) * (unit -> list Message) -> state -> Prop) :
  fstate straight n B Consumer s q l -> 0 <= cap -> received_ok cap (now s.1) r (l tt) tr ->
  (forall s' q' l' r' tr', fstate straight n B Consumer s' q' l' ->
     received_ok cap (now s'.1) r' (l' tt) tr' ->
     wp Consumer (run_client Consumer (watched (k r') tr') q' l') Q s') ->
  wp Consumer (run_client Consumer (watched (bind (demo_receive rounds cap r) k) tr) q l) Q s.
Proof.
  intros Hs Hcap Hr Hk. revert q l s r tr Hs Hr.
  induction rounds as [|rounds IH]; intros q l s r tr Hs Hr; [by apply Hk|].
  cbn [demo_receive bind act traced]. client_rule wp_client_stopped. intros s1 stop Hs1 Hi1 Hc1.
  cbn [observe]. rewrite app_nil_r.
  apply (received_ok_later _ _ (now s1.1)) in Hr; [|done]. destruct stop; [by apply Hk|].
  cbn [bind act traced]. client_rule wp_client_call; [done|]. intros s2 q2 buf Hs2 Hc2 Hi2.
  apply (received_ok_later _ _ (now s2.1)) in Hr; [|done]. cbn [observe moved on straight got_by] in *.
  destruct buf as [|m buf].
  - rewrite app_nil_r in *. cbn [bind act traced]. client_rule wp_client_call; [done|].
    intros s3 q3 alive Hs3 Hc3 Hi3. apply (received_ok_later _ _ (now s3.1)) in Hr; [|done].
    cbn [observe moved on straight got_by] in *. rewrite app_nil_r in *. do 2 apply received_ok_idle in Hr.
    destruct alive; [by apply IH; autorewrite with fupd|].
    cbn [bind act traced]. client_rule wp_client_call; [done|]. intros s4 q4 e Hs4 Hc4 Hi4.
    apply (received_ok_later _ _ (now s4.1)) in Hr; [|done]. cbn [observe moved on straight got_by] in *.
    apply received_ok_idle in Hr. rewrite app_nil_r in *.
    by destruct e; [apply Hk|apply IH]; autorewrite with fupd.
  - cbn [bind act traced]. client_rule wp_client_now. intros s3 t Hs3 Hi3 Ht3 Hx3. cbn [observe].
    pose proof (fstate_Phi straight n B stamped Consumer s3 _ _ tt Hi3 Hs3) as Hphi.
    apply (received_ok_later _ _ t) in Hr; [|lia]. autorewrite with fupd in Hphi.
    apply (received_ok_batch cap t r (l tt) (m :: buf)) in Hr; [|done|lia|].
    2: { rewrite Hx3 in Hphi. by apply Forall_app in Hphi as [_ ?]. }
    destruct (u64 (t - lastReport (take_batch cap t r (m :: buf))) >=? 1000000000).
    + cbn [bind act traced]. client_rule wp_client_call; [done|]. intros s4 q4 depth Hs4 Hc4 Hi4.
      apply (received_ok_later _ _ (now s4.1)) in Hr; [|lia]. cbn [observe moved on straight got_by] in *.
      apply received_ok_idle in Hr. rewrite app_nil_r in *. by apply IH; autorewrite with fupd.
    + apply IH; autorewrite with fupd; [done|]. by rewrite Hx3.
Qed.

Definition got_post (cap : Z) (r : receiver * Z * list (seen unit Message) * (unit -> list Message))
    (s : state) : Prop :=
  (exists q, fstate straight n B Consumer s q r.2) /\ received_ok cap (now s.1) r.1.1.1 (r.2 tt) r.1.2.

Lemma wp_demo_consumer rounds cap q s :
  0 <= cap -> fstate straight n B Consumer s q no_log ->
  wp Consumer (run_client Consumer (watched (demo_consumer rounds cap) []) q no_log) (got_post cap) s.
Proof.
  intros Hcap Hs. unfold demo_consumer. cbn [bind act traced].
  client_rule wp_client_now. intros s1 start Hs1 _ _ _. apply wp_demo_receive; [done|done| |].
  - split; [done|]. exists []. split_and!; [done|done|done|]. symmetry. apply take_nil.
  - intros s2 q2 l2 r tr Hs2 Hr. cbn [bind act traced]. client_rule wp_client_now. intros s3 fin Hs3 _ ? ?.
    intros s4 Hrel Hi. split; [exists q2; by eapply fstate_rely|]. apply fr_clock in Hrel.
    apply received_ok_clock. eapply received_ok_later; [|exact Hr]. simpl in *. lia.
Qed.

(** The two programs; the consumer is watched. *)
Definition demo_conf (fuel : nat) (total : Z) (rounds : nat) (cap x : Z) :
    conf (flE unit Message) (fleet unit Message) (Z * Z * (unit -> list Message))
      (receiver * Z * list (seen unit Message) * (unit -> list Message)) :=
  fleet_conf straight ndebug n B h pid seg (demo_producer fuel total)
    (watched (demo_consumer rounds cap) []) x.

(** C5: the demo, end to end.  Whatever the interleaving, the memory model, the signals
    and the answers of the system, when the two processes end the producer has sent
    the messages 0, 1, 2, ... in order and reports their number; the consumer has
    received a prefix of them, reports its length, and counts no sequence or checksum
    error.  Its latency samples are true ages: in the trace [tr] of what the consumer
    has popped and of the times it has read, each message was followed by a reading of
    the clock, not earlier than its stamp, and the samples are exactly the first such
    reading minus the stamp, for the stamped messages in the order received, up to the
    capacity of the vector. *)
Theorem demo_runs_clean fuel total rounds cap x c k dt sent r dt' tr got :
  0 <= total < W64 -> 0 <= cap -> 0 <= x < W64 ->
  rtc cstep (demo_conf fuel total rounds cap x) c ->
  pthread c = Ret (k, dt, sent) -> cthread c = Ret (r, dt', tr, got) ->
  k = zlen (sent tt) /\ k <= total /\ in_sequence 0 (sent tt) /\ got tt `prefix_of` sent tt /\
  counts r = MkTally (zlen (got tt)) (zlen (got tt)) 0 /\
  exists rs, readings tr = ([], rs) /\ map snd rs = got tt /\
    Forall (fun p => sentNs p.2 <= p.1 <= now (memory c)) rs /\
    latency r = ztake cap (ages rs).
Proof.
  intros Ht Hcap Hx Hs Hp Hc. assert (verified (sent_post total) (got_post cap) c) as Hv.
  { refine (fleet_verified straight ndebug n B stamped h pid seg _ _ x _ _ c _ _ _ Hs); [lia| |].
    - intros s q Hq _ Hn. apply wp_demo_producer; [done|done|lia].
    - intros s q Hq _ _. by apply wp_demo_consumer. }
  destruct c as [p q m]. simpl in Hp, Hc. subst p q.
  apply verified_done in Hv as (g & Hi & ((q1 & Hq1) & Hseq & Hk & Hle) & ((q2 & Hq2) & Hct & Hlat)).
  cbn [fst snd] in *. pose proof (fleet_ends straight n B stamped (m, g) q1 sent q2 got tt Hi Hq1 Hq2) as [Hpre _].
  pose proof (in_sequence_prefix _ _ _ Hpre Hseq) as Hgot. apply prefix_length in Hpre as Hlen.
  assert (zlen (got tt) < W64) as Hlt by (unfold zlen in *; lia). pose proof (zlen_nonneg (got tt)).
  destruct (check_errors_zero (got tt) (MkTally 0 0 0)) as [_ He]; cbn [errors expect]; [lia..|].
  split_and!; [done|done|done|done| |done].
  rewrite Hct. unfold tally_of. by rewrite (He Hgot), u64_small by lia.
Qed.
End end_to_end.

(** ** A concrete run *)
Module DemoSample.
#[local] Existing Instance x86_64.
#[local] Existing Instance x86_64_ok.
#[local] Existing Instance elem_message.
#[local] Existing Instance elem_message_ok.

(** The one queue, of capacity 3. *)
Definition sizes (c : unit) : Z := 4.
Definition places (c : unit) : Role -> Z := Runs.bases.
#[export] Instance places_ok : FleetOk sizes places.
Proof. split; [intros c; exact Runs.size4|intros c; exact Runs.bases_pos]. Defined.

#[local] Abbreviation demo_state :=
  (conf (flE unit Message) (fleet unit Message) (Z * Z * (unit -> list Message))
     (receiver * Z * list (seen unit Message) * (unit -> list Message))).
Definition demo_start : demo_state :=
  demo_conf false sizes places (fun _ _ => 0) (fun _ _ => 10) (fun _ _ => ShmSegment_default) 3 2 3 16 100.
(** The clock advances by 100 before each stamp and by 30 before the batch is read. *)
Definition demo_end : demo_state :=
  sched (H := fl_machine straight) (Executor0 := fl_executor straight)
    (concat (replicate 2 [(Producer, O); (Producer, O); (Producer, 100%nat); (Producer, O); (Producer, O)]) ++
     replicate 9 (Producer, O) ++ replicate 7 (Consumer, O) ++ [(Consumer, 30%nat)] ++
     replicate 20 (Consumer, O)) demo_start.

(** What a finished process has moved, and what it has seen. *)
Definition moved_by {A} (p : prog (flE unit Message) (A * (unit -> list Message))) : unit -> list Message :=
  match p with Ret (_, l) => l | Vis _ _ => no_log end.
Definition seen_by {A B} (p : prog (flE unit Message) (A * list (seen unit Message) * B)) :
    list (seen unit Message) :=
  match p with Ret (_, tr, _) => tr | Vis _ _ => [] end.

Example demo_sent : pthread demo_end = Ret (2, 200, moved_by (pthread demo_end)).
Proof. vm_compute. reflexivity. Qed.

Example demo_got :
  cthread demo_end = Ret (MkReceiver (MkTally 2 2 0) [130; 30] 300, 30, seen_by (cthread demo_end),
    moved_by (cthread demo_end)).
Proof. vm_compute. reflexivity. Qed.

Example demo_messages :
  moved_by (cthread demo_end) tt = [makeMessage 0 200; makeMessage 1 300] /\ now (memory demo_end) = 330 /\
  (readings (seen_by (cthread demo_end))).2 = [(330, makeMessage 0 200); (330, makeMessage 1 300)].
Proof. vm_compute. done. Qed.

Lemma demo_runs_clean_witness :
  let sent := moved_by (pthread demo_end) tt in
  let got := moved_by (cthread demo_end) tt in
  2 = zlen sent /\ 2 <= 2 /\ in_sequence 0 sent /\ got `prefix_of` sent /\
  MkTally 2 2 0 = MkTally (zlen got) (zlen got) 0 /\
  exists rs, readings (seen_by (cthread demo_end)) = ([], rs) /\ map snd rs = got /\
    Forall (fun p => sentNs p.2 <= p.1 <= now (memory demo_end)) rs /\ [130; 30] = ztake 16 (ages rs).
Proof.
  apply (demo_runs_clean false sizes places (fun _ _ => 0) (fun _ _ => 10) (fun _ _ => ShmSegment_default)
           3 2 3 16 100 demo_end 2 200 (moved_by (pthread demo_end))
           (MkReceiver (MkTally 2 2 0) [130; 30] 300) 30 (seen_by (cthread demo_end))
           (moved_by (cthread demo_end)));
    [word_lia|lia|word_lia|apply sched_sound|exact demo_sent|exact demo_got].
Defined.
End DemoSample.
