(* ===== verification/Bench.v ===== *)
(** * The throughput benchmark: everything sent is drained

    The transfer loops of bench_throughput.cpp.  The benchmark divides the elapsed
    time by [total], which is right only if the consumer's loop ends exactly when
    the [total] messages have all arrived. *)

From stdpp Require Import relations.
From S2P Require Import Prelude Prog Effects Machine Layout Segment Queue Shm Ring RaMemory RelyGuarantee SpscProtocol Concurrent Delivery Fleet Message.
#[local] Open Scope Z_scope.
#[local] Open Scope prog_scope.
#[local] Existing Instance elem_message.

(** The parent's loops: for a batch of one, an attempt at a time (the [for] over the
    messages with the inner [while] that retries); otherwise [push_n] of what is
    left, at most a batch.  [fuel] bounds the attempts; [false] is "still going". *)
Fixpoint bench_send_one (fuel : nat) (m : Message) (total i : Z) : prog (pcall (T := Message)) bool :=
  match fuel with
  | O => Ret false
  | S fuel =>
      if i <? total then
        let* pushed := act (CallTryPush m) in
        bench_send_one fuel m total (if (pushed : bool) then u64 (i + 1) else i)
      else Ret true
  end.

Fixpoint bench_send_batch (fuel : nat) (buf : list Message) (total sent : Z) :
    prog (pcall (T := Message)) bool :=
  match fuel with
  | O => Ret false
  | S fuel =>
      if sent <? total then
        let want := Z.min (zlen buf) (u64 (total - sent)) in
        let* k := act (CallPushN (ztake want buf)) in
        bench_send_batch fuel buf total (u64 (sent + k))
      else Ret true
  end.

Definition bench_buf (batch : nat) : list Message :=
  map (fun i => makeMessage (Z.of_nat i) 0) (List.seq 0 batch).

Definition bench_producer (fuel batch : nat) (total : Z) : prog (pcall (T := Message)) bool :=
  match batch with
  | 1%nat => bench_send_one fuel (makeMessage 0 0) total 0
  | _ => bench_send_batch fuel (bench_buf batch) total 0
  end.

(** The child's loops. *)
Fixpoint bench_recv_one (fuel : nat) (total got : Z) : prog (ccall (T := Message)) bool :=
  match fuel with
  | O => Ret false
  | S fuel =>
      if got <? total then
        let* m := act CallTryPop in
        bench_recv_one fuel total (match m with Some _ => u64 (got + 1) | None => got end)
      else Ret true
  end.

Fixpoint bench_recv_batch (fuel batch : nat) (total got : Z) : prog (ccall (T := Message)) bool :=
  match fuel with
  | O => Ret false
  | S fuel =>
      if got <? total then
        let* ms := act (CallPopN batch) in
        bench_recv_batch fuel batch total (u64 (got + zlen ms))
      else Ret true
  end.

Definition bench_consumer (fuel batch : nat) (total : Z) : prog (ccall (T := Message)) bool :=
  match batch with
  | 1%nat => bench_recv_one fuel total 0
  | _ => bench_recv_batch fuel batch total 0
  end.

Section bench.
Context `{PlatformOk} `{!ElemOk Message} (ndebug : bool).
Context (n : Z) (Hn : ring_size n) (B : Role -> Z) (HB : forall t, 0 < B t).
Context (h : hfield -> Z) (pp pc : Z).
#[local] Instance bench_protocol : Protocol (machine Message) (ghost Message) := spsc_protocol n B.
#[local] Instance bench_protocol_ok : ProtocolOk (machine Message) (ghost Message) := spsc_protocol_ok n B.

Definition bench_sent (total : Z) (r : bool * list Message) (s : machine Message * ghost Message) : Prop :=
  g_log s.2 = r.2 /\ zlen r.2 <= total /\ (r.1 = true -> zlen r.2 = total).
Definition bench_got (total : Z) (r : bool * list Message) (s : machine Message * ghost Message) : Prop :=
  cons_post r s /\ (r.1 = true -> total <= zlen r.2).

Lemma wp_bench_sent_ret total b q s sent :
  prod_state n B s q sent -> zlen sent <= total -> (b = true -> total <= zlen sent) ->
  wp Producer (producer (Ret b) q sent) (bench_sent total) s.
Proof.
  intros (rc & ? & ? & Hs) Hle Hb. eapply wp_prod_ret; [exact Hs|]. intros s' Hs'.
  split; [apply (pk_log _ _ _ _ _ Hs')|]. simpl. split; [done|]. intros Ht. specialize (Hb Ht). lia.
Qed.

Lemma wp_bench_got_ret total b q s got :
  cons_state n B s q got -> (b = true -> total <= zlen got) ->
  wp Consumer (consumer ndebug (Ret b) q got) (bench_got total) s.
Proof.
  intros (known & ? & ? & Hs & ?) Hb. eapply wp_cons_ret; [exact Hs|]. intros s' Hs'.
  split; [|done]. apply (cons_state_post n B s' q). exists known. done.
Qed.

Lemma wp_bench_send_one fuel m total q s sent :
  prod_state n B s q sent -> zlen sent <= total < W64 ->
  wp Producer (producer (bench_send_one fuel m total (zlen sent)) q sent) (bench_sent total) s.
Proof.
  revert q s sent. induction fuel as [|fuel IH]; intros q s sent Hs Hle;
    [by apply wp_bench_sent_ret; [done|lia|]|]. pose proof (zlen_nonneg sent).
  cbn [bench_send_one]. case_Z; [|apply wp_bench_sent_ret; [done|lia|lia]].
  unfold producer. cbn [producer_then bind act]. apply wp_bind.
  eapply (wp_do_pcall n Hn B); [exact Hs|]. intros s1 q1 [|] Hs1; cbn [sent_by] in *.
  - rewrite u64_small by lia.
    replace (zlen sent + 1) with (zlen (sent ++ [m])) by (by rewrite zlen_app).
    apply IH; [done|]. rewrite zlen_app. change (zlen [m]) with 1. lia.
  - rewrite app_nil_r in *. by apply IH.
Qed.

Lemma wp_bench_send_batch fuel buf total q s sent :
  prod_state n B s q sent -> zlen sent <= total < W64 ->
  wp Producer (producer (bench_send_batch fuel buf total (zlen sent)) q sent) (bench_sent total) s.
Proof.
  revert q s sent. induction fuel as [|fuel IH]; intros q s sent Hs Hle;
    [by apply wp_bench_sent_ret; [done|lia|]|]. pose proof (zlen_nonneg sent).
  cbn [bench_send_batch]. case_Z; [|apply wp_bench_sent_ret; [done|lia|lia]].
  unfold producer. cbn [producer_then bind act]. apply wp_bind. rewrite u64_small by lia.
  set (want := Z.min (zlen buf) (total - zlen sent)). pose proof (zlen_nonneg buf).
  assert (zlen (ztake want buf) = want) as Hw by (apply zlen_ztake; lia). cbn [do_pcall].
  eapply (wp_push_n n Hn B); [exact Hs|lia|]. intros s1 q1 k Hk Hs1. cbn [sent_by] in *.
  assert (zlen (ztake k (ztake want buf)) = k) as Hl by (apply zlen_ztake; lia).
  rewrite u64_small by lia.
  replace (zlen sent + k) with (zlen (sent ++ ztake k (ztake want buf))) by (by rewrite zlen_app, Hl).
  apply IH; [done|]. rewrite zlen_app, Hl. lia.
Qed.

Lemma wp_bench_recv_one fuel total q s got :
  cons_state n B s q got -> total + 1 < W64 ->
  wp Consumer (consumer ndebug (bench_recv_one fuel total (zlen got)) q got) (bench_got total) s.
Proof.
  intros Hs Hw. revert q s got Hs. induction fuel as [|fuel IH]; intros q s got Hs;
    [by apply wp_bench_got_ret|]. pose proof (zlen_nonneg got).
  cbn [bench_recv_one]. case_Z; [|by apply wp_bench_got_ret].
  unfold consumer. cbn [consumer_then bind act]. apply wp_bind.
  eapply (wp_do_ccall ndebug n Hn B HB); [exact Hs|]. intros s1 q1 [m|] Hs1; cbn [got_by] in *.
  - rewrite u64_small by lia.
    replace (zlen got + 1) with (zlen (got ++ [m])) by (by rewrite zlen_app). by apply IH.
  - rewrite app_nil_r in *. by apply IH.
Qed.

Lemma wp_bench_recv_batch fuel batch total q s got :
  cons_state n B s q got -> total + Z.of_nat batch < W64 ->
  wp Consumer (consumer ndebug (bench_recv_batch fuel batch total (zlen got)) q got) (bench_got total) s.
Proof.
  intros Hs Hw. revert q s got Hs. induction fuel as [|fuel IH]; intros q s got Hs;
    [by apply wp_bench_got_ret|]. pose proof (zlen_nonneg got).
  cbn [bench_recv_batch]. case_Z; [|by apply wp_bench_got_ret].
  unfold consumer. cbn [consumer_then bind act]. apply wp_bind. cbn [do_ccall]. apply wp_bind.
  eapply (wp_pop_n n Hn B); [exact Hs|lia|]. intros s1 q1 out Ho (known & ? & ? & Hs1 & ?).
  eapply wp_cons_ret; [exact Hs1|]. intros s2 Hs2. cbn [got_by]. pose proof (zlen_nonneg out).
  rewrite u64_small, <- zlen_app by lia. apply IH. exists known. done.
Qed.

Definition bench_conf (fuel fuel' batch : nat) (total : Z) (s1 s2 : ShmSegment) :
    ra_conf Message (bool * list Message) (bool * list Message) :=
  fresh_conf ndebug n B h pp pc (bench_producer fuel batch total) (bench_consumer fuel' batch total) s1 s2.

(** C16: the benchmark measures complete transfers.  Whatever the batch size, the
    interleaving and the memory model, the parent never sends more than [total]
    messages, and when both loops have ended exactly [total] were sent and the child
    has received every one of them, in order. *)
Theorem bench_transfers_total fuel fuel' batch total s1 s2 c b sent b' got :
  0 <= total -> total + Z.of_nat batch + 1 < W64 ->
  rtc cstep (bench_conf fuel fuel' batch total s1 s2) c ->
  pthread c = Ret (b, sent) -> cthread c = Ret (b', got) ->
  zlen sent <= total /\ (b = true -> b' = true -> zlen sent = total /\ got = sent).
Proof.
  intros H0 Hb Hs Hp Hc. assert (verified (bench_sent total) (bench_got total) c) as Hv.
  { eapply verified_steps; [exact Hs|]. exists fresh_ghost. split_and!; [by apply fresh_inv|..].
    - assert (prod_state n B (fresh_machine n B h pp pc, fresh_ghost) (fresh_handle n B s1 Producer) [])
        as Hst by (by apply fresh_prod_state).
      unfold bench_conf, fresh_conf, bench_producer. cbn [pthread memory]. change 0 with (zlen (@nil Message)).
      destruct batch as [|[|batch]]; first [apply wp_bench_send_one|apply wp_bench_send_batch];
        try done; rewrite zlen_nil; lia.
    - assert (cons_state n B (fresh_machine n B h pp pc, fresh_ghost) (fresh_handle n B s2 Consumer) [])
        as Hst by (by apply fresh_cons_state).
      unfold bench_conf, fresh_conf, bench_consumer. cbn [cthread memory]. change 0 with (zlen (@nil Message)).
      destruct batch as [|[|batch]]; first [apply wp_bench_recv_one|apply wp_bench_recv_batch];
        try done; lia. }
  destruct c as [p q m]. simpl in Hp, Hc. subst p q.
  apply verified_done in Hv as (g & Hi & (HP & Hle & Ht) & ([Hpre _] & Hg)). simpl in *.
  split; [done|]. intros -> ->. specialize (Ht eq_refl). specialize (Hg eq_refl). split; [done|].
  rewrite HP in Hpre. destruct Hpre as [r Hr]. rewrite Hr, zlen_app in *.
  destruct r as [|x r]; [by rewrite app_nil_r|]. rewrite zlen_cons in *. pose proof (zlen_nonneg r). lia.
Qed.
End bench.

(** ** A concrete run: five messages, in batches of two, through a ring of four *)
Module BenchSample.
#[local] Existing Instance x86_64.
#[local] Existing Instance x86_64_ok.
#[local] Existing Instance elem_message_ok.

Definition bench_start (batch : nat) : ra_conf Message (bool * list Message) (bool * list Message) :=
  bench_conf false 4 Runs.bases (fun _ => 0) 10 11 8 30 batch 5 ShmSegment_default ShmSegment_default.
Definition bench_end (batch : nat) : ra_conf Message (bool * list Message) (bool * list Message) :=
  sched (concat (replicate 20 (replicate 5 (Producer, O) ++ replicate 12 (Consumer, O))))
    (bench_start batch).

Definition sample_sent : list Message :=
  [makeMessage 0 0; makeMessage 1 0; makeMessage 0 0; makeMessage 1 0; makeMessage 0 0].

Example bench_sent_all : pthread (bench_end 2) = Ret (true, sample_sent).
Proof. vm_compute. reflexivity. Qed.

Example bench_got_all : cthread (bench_end 2) = Ret (true, sample_sent).
Proof. vm_compute. reflexivity. Qed.

(** One at a time, every message is the first of the buffer. *)
Example bench_single :
  cthread (bench_end 1) = Ret (true, replicate 5 (makeMessage 0 0)).
Proof. vm_compute. reflexivity. Qed.

Lemma bench_transfers_total_witness :
  zlen sample_sent <= 5 /\ (true = true -> true = true -> zlen sample_sent = 5 /\ sample_sent = sample_sent).
Proof.
  apply (bench_transfers_total false 4 Runs.size4 Runs.bases Runs.bases_pos (fun _ => 0) 10 11 8 30 2 5
           ShmSegment_default ShmSegment_default (bench_end 2));
    [lia|simpl; word_lia|apply sched_sound|exact bench_sent_all|exact bench_got_all].
Defined.
End BenchSample.
