(* ===== verification/Latency.v ===== *)
(** * The latency benchmark: a ping-pong over two queues

    bench_latency.cpp: the parent sends numbered, stamped messages on the queue
    [ping]; the child echoes each one on the queue [pong], stamped again; the parent
    collects the round-trip and one-way times.  Both processes read the same clock.
    The theorem says that the numbers are what they claim to be: every reply is the
    echo of the message of its round, the round-trip times are the differences of the
    clock readings around the round, the one-way times those of the stamps, and none
    exceeds its round trip. *)

From stdpp Require Import relations.
From S2P Require Import Prelude Binary64 Stats Prog Effects Machine Layout Segment Queue Shm Ring RaMemory RelyGuarantee SpscProtocol Concurrent Delivery Fleet Message.
#[local] Open Scope Z_scope.
#[local] Open Scope prog_scope.

Inductive chan : Type := Ping | Pong.
#[export] Instance chan_eq_dec : EqDecision chan.
Proof. solve_decision. Defined.

(** The parent produces on [ping] and consumes on [pong]. *)
Definition forth (c : chan) : bool := match c with Ping => true | Pong => false end.
#[local] Abbreviation parent := (prog (fcall (T := Message) forth Producer)).
#[local] Abbreviation child := (prog (fcall (T := Message) forth Consumer)).

(** ** The two programs

    The empty [while] loops around [try_push] and [try_pop] take a fuel; [false] and
    [None] are "still spinning". *)
Fixpoint ping_spin (fuel : nat) (m : Message) : parent bool :=
  match fuel with
  | O => Ret false
  | S fuel =>
      let* pushed := act (OnQueue Ping (CallTryPush m : call (on forth Ping Producer) bool)) in
      if (pushed : bool) then Ret true else ping_spin fuel m
  end.

Fixpoint reply_spin (fuel : nat) : parent (option Message) :=
  match fuel with
  | O => Ret None
  | S fuel =>
      let* r := act (OnQueue Pong (CallTryPop : call (on forth Pong Producer) (option Message))) in
      match r with Some m => Ret (Some m) | None => reply_spin fuel end
  end.

Fixpoint in_spin (fuel : nat) : child (option Message) :=
  match fuel with
  | O => Ret None
  | S fuel =>
      let* r := act (OnQueue Ping (CallTryPop : call (on forth Ping Consumer) (option Message))) in
      match r with Some m => Ret (Some m) | None => in_spin fuel end
  end.

Fixpoint out_spin (fuel : nat) (m : Message) : child bool :=
  match fuel with
  | O => Ret false
  | S fuel =>
      let* pushed := act (OnQueue Pong (CallTryPush m : call (on forth Pong Consumer) bool)) in
      if (pushed : bool) then Ret true else out_spin fuel m
  end.

Record samples : Type := MkSamples { rtt : list Z; oneWay : list Z }.

(** The samples of one round; rounds below [warmup] are not counted. *)
Definition add_sample (warmup i t0 t1 : Z) (reply : Message) (sm : samples) : samples :=
  if i >=? warmup then
    MkSamples (rtt sm ++ [u64 (t1 - t0)])
      (oneWay sm ++ [if sentNs reply >? t0 then u64 (sentNs reply - t0) else 0])
  else sm.

(** The parent's loop; a round per message, so [rounds] more than [total] suffice. *)
Fixpoint ping_loop (rounds fuel : nat) (total warmup i : Z) (sm : samples) : parent (bool * samples) :=
  match rounds with
  | O => Ret (false, sm)
  | S rounds =>
      if i <? total then
        let* t0 := act (Ask NowNs) in
        let* sent := ping_spin fuel (makeMessage i t0) in
        if (sent : bool) then
          let* r := reply_spin fuel in
          match r with
          | Some reply =>
              let* t1 := act (Ask NowNs) in
              ping_loop rounds fuel total warmup (u64 (i + 1)) (add_sample warmup i t0 t1 reply sm)
          | None => Ret (false, sm)
          end
        else Ret (false, sm)
      else Ret (true, sm)
  end.

(** [m.sentNs = nowNs()]. *)
Definition restamp (m : Message) (t : Z) : Message :=
  MkMessage (seq m) t (payload m) (checksum m) (reserved m).

Fixpoint echo_loop (rounds fuel : nat) (total i : Z) : child bool :=
  match rounds with
  | O => Ret false
  | S rounds =>
      if i <? total then
        let* r := in_spin fuel in
        match r with
        | Some m =>
            let* t := act (Ask NowNs) in
            let* sent := out_spin fuel (restamp m t) in
            if (sent : bool) then echo_loop rounds fuel total (u64 (i + 1)) else Ret false
        | None => Ret false
        end
      else Ret true
  end.

Definition warmup_of (iters : Z) : Z := u64 (iters / 10 + 1).
Definition latency_parent (fuel : nat) (iters : Z) : parent (bool * samples) :=
  let total := u64 (iters + warmup_of iters) in
  ping_loop (S (Z.to_nat total)) fuel total (warmup_of iters) 0 (MkSamples [] []).
Definition latency_child (fuel : nat) (iters : Z) : child bool :=
  let total := u64 (iters + warmup_of iters) in
  echo_loop (S (Z.to_nat total)) fuel total 0.

(** Whatever the queues and the clock answer, a completed loop has one sample of each
    kind per counted round. *)
Lemma ping_loop_count rounds fuel total warmup i sm :
  0 <= i <= total -> total < W64 -> warmup <= total ->
  always (fun r => r.1 = true ->
    zlen (rtt r.2) = zlen (rtt sm) + (total - Z.max i warmup) /\
    zlen (oneWay r.2) = zlen (oneWay sm) + (total - Z.max i warmup)) (ping_loop rounds fuel total warmup i sm).
Proof.
  revert i sm. induction rounds as [|rounds IH]; intros i sm Hi Ht Hw; cbn [ping_loop]; [done|].
  case_Z; [|cbn; lia]. cbn [bind act always]. intros t0. apply always_bind. intros [|]; [|done].
  apply always_bind. intros [reply|]; [|done]. cbn [bind act always]. intros t1.
  rewrite u64_small by lia. specialize (IH (i + 1) (add_sample warmup i t0 t1 reply sm)).
  assert (zlen (rtt (add_sample warmup i t0 t1 reply sm)) = zlen (rtt sm) + (Z.max (i + 1) warmup - Z.max i warmup) /\
    zlen (oneWay (add_sample warmup i t0 t1 reply sm)) = zlen (oneWay sm) + (Z.max (i + 1) warmup - Z.max i warmup))
    as [Hr Ho].
  { unfold add_sample. rewrite Z.geb_leb. destruct (Z.leb_spec warmup i); cbn [rtt oneWay];
      unfold zlen; rewrite ?length_app; simpl; lia. }
  rewrite Hr, Ho in IH. eapply always_mono; [apply IH; lia|]. cbn beta. intros r Hk Hd. specialize (Hk Hd). lia.
Qed.

Lemma latency_parent_count fuel iters :
  0 <= iters <= 2 ^ 53 ->
  always (fun r => r.1 = true -> zlen (rtt r.2) = iters /\ zlen (oneWay r.2) = iters) (latency_parent fuel iters).
Proof.
  intros Hi. assert (0 <= iters / 10 <= iters) by (split; [apply Z.div_pos; lia|apply Z.div_le_upper_bound; lia]).
  unfold latency_parent, warmup_of. rewrite (u64_small (iters / 10 + 1)) by word_lia.
  rewrite (u64_small (iters + (iters / 10 + 1))) by word_lia.
  eapply always_mono; [apply ping_loop_count; word_lia|]. cbn beta. intros r Hk Hd. specialize (Hk Hd).
  unfold zlen in *. simpl in Hk. lia.
Qed.

(** ** What the programs know *)

(** [r] is the echo of [m], stamped later; the checksum does not cover the stamp. *)
Definition echo_of (m r : Message) : Prop := r = restamp m (sentNs r) /\ sentNs m <= sentNs r.

Lemma restamp_valid m t : checksum m = checksumOf m -> checksum (restamp m t) = checksumOf (restamp m t).
Proof. done. Qed.

(** The one-way time the parent computes. *)
Definition one_way (m r : Message) : Z := if sentNs r >? sentNs m then sentNs r - sentNs m else 0.

(** *** The clock readings around the messages

    The reference for the round trips, from what the parent has seen: each message it
    has sent with the last time it had read by then, each reply with the first time it
    has read afterwards; [waiting] are the replies no reading has followed yet. *)
Record book : Type := MkBook {
  lastRead : Z; sends : list (Z * Message); waiting : list Message; replies : list (Z * Message) }.

Definition note (b : book) (o : seen chan Message) : book :=
  match o with
  | Moved Ping l => MkBook (lastRead b) (sends b ++ map (pair (lastRead b)) l) (waiting b) (replies b)
  | Moved Pong l => MkBook (lastRead b) (sends b) (waiting b ++ l) (replies b)
  | Clock x => MkBook x (sends b) [] (replies b ++ map (pair x) (waiting b))
  end.
Definition book_of (tr : list (seen chan Message)) : book := foldl note (MkBook 0 [] [] []) tr.

Lemma book_of_snoc tr o : book_of (tr ++ [o]) = note (book_of tr) o.
Proof. unfold book_of. by rewrite foldl_app. Qed.

Lemma note_idle b c : note b (Moved c []) = b.
Proof. destruct b, c; cbn; by rewrite app_nil_r. Qed.

(** Every message was stamped with the reading before it, every reply followed by one. *)
Definition booked (b : book) (sent got : list Message) : Prop :=
  sends b = map (fun m => (sentNs m, m)) sent /\ waiting b = [] /\ map snd (replies b) = got.

(** The time from the stamp of [m] to the reading after the reply. *)
Definition round_trip (m : Message) (p : Z * Message) : Z := p.1 - sentNs m.

(** The samples of the rounds with the messages [sent] and the replies [rs]. *)
Definition sampled (warmup : Z) (sm : samples) (sent : list Message) (rs : list (Z * Message)) : Prop :=
  let w := Z.to_nat warmup in
  oneWay sm = zip_with one_way (drop w sent) (drop w (map snd rs)) /\
  rtt sm = zip_with round_trip (drop w sent) (drop w rs) /\
  Forall (fun p => sentNs p.2 <= p.1) rs.

Lemma zip_extra {X R} (f : Message -> X -> R) w sent rs l :
  length sent = length rs -> zip_with f (drop w (sent ++ l)) (drop w rs) = zip_with f (drop w sent) (drop w rs).
Proof.
  intros Hl. rewrite drop_app. assert (length (drop w sent) = length (drop w rs)) as Hd by (rewrite !length_drop; lia).
  rewrite <- (app_nil_r (drop w rs)), zip_with_app by done. by rewrite app_nil_r, zip_with_nil_r, app_nil_r.
Qed.

Lemma sampled_extra warmup sm sent rs m :
  length sent = length rs -> sampled warmup sm sent rs -> sampled warmup sm (sent ++ [m]) rs.
Proof.
  intros Hl (Ho & Hr & Hf). unfold sampled. by rewrite !zip_extra by (by rewrite ?length_map).
Qed.

(** A completed round adds its samples, if it counts. *)
Lemma sampled_round warmup i t0 t1 m reply sm sent rs :
  zlen sent = i -> zlen rs = i -> 0 <= warmup -> sampled warmup sm sent rs -> sentNs m = t0 ->
  0 <= t0 <= t1 -> 0 <= sentNs reply <= t1 -> t1 < W64 ->
  sampled warmup (add_sample warmup i t0 t1 reply sm) (sent ++ [m]) (rs ++ [(t1, reply)]).
Proof.
  intros Hs Hg Hw (Ho & Hr & Hf) Hm Ht Hrep Hlt. unfold sampled, add_sample, zlen in *.
  assert (Forall (fun p => sentNs p.2 <= p.1) (rs ++ [(t1, reply)])) as Hf'.
  { apply Forall_app_2; [done|]. constructor; [simpl; lia|constructor]. }
  rewrite map_app, Z.geb_leb. destruct (Z.leb_spec warmup i) as [Hle|Hgt]; cbn [rtt oneWay].
  - rewrite !drop_app_le by (rewrite ?length_map; lia).
    rewrite !zip_with_app by (rewrite !length_drop, ?length_map; lia). split_and!; [..|done].
    + rewrite <- Ho. f_equal. cbn [map zip_with snd]. unfold one_way. rewrite Hm, Z.gtb_ltb.
      destruct (Z.ltb_spec t0 (sentNs reply)); [by rewrite u64_small by lia|done].
    + rewrite <- Hr. f_equal. cbn [zip_with]. unfold round_trip. cbn [fst]. by rewrite Hm, u64_small by lia.
  - rewrite !drop_ge in * by (rewrite ?length_app, ?length_map; simpl; lia). done.
Qed.

Section pingpong.
Context `{PlatformOk}.
#[local] Existing Instance elem_message.
Context `{!ElemOk Message} (ndebug : bool).
Context (n : chan -> Z) (B : chan -> Role -> Z) `{!FleetOk n B}.
Context (h : chan -> hfield -> Z) (pid : chan -> Role -> Z) (seg : chan -> Role -> ShmSegment).
#[local] Abbreviation state := (fleet chan Message * (chan -> ghost Message))%type.
#[local] Instance latency_protocol : Protocol (fleet chan Message) (chan -> ghost Message) :=
  fl_protocol forth n B stamped.
#[local] Instance latency_protocol_ok : ProtocolOk (fleet chan Message) (chan -> ghost Message) :=
  fl_protocol_ok forth n B stamped.
#[local] Instance latency_machine : Machine (flE chan Message) (fleet chan Message) := fl_machine forth.
#[local] Abbreviation run_client t p := (fclient forth ndebug t p).
#[local] Abbreviation owns := (fstate forth n B).

(** What a spinning process has done: the other queue is as it was. *)
Definition moved_on (c d : chan) (l l' : chan -> list Message) (x : list Message) : Prop :=
  l' c = l c ++ x /\ l' d = l d.

Lemma moved_on_nil c d l : moved_on c d l l [].
Proof. split; [by rewrite app_nil_r|done]. Qed.

Lemma moved_on_fupd c d l x : c <> d -> moved_on c d l (fupd c (l c ++ x) l) x.
Proof. intros Hne. split; by autorewrite with fupd. Qed.

Lemma moved_on_again c d l l' x : c <> d -> moved_on c d (fupd c (l c ++ []) l) l' x -> moved_on c d l l' x.
Proof. intros Hne [H1 H2]. autorewrite with fupd in *. rewrite app_nil_r in H1. done. Qed.

(** An attempt ends a spinning loop or leaves the logs as they were. *)
Ltac spin_attempt IH Hk :=
  intros s1 q1 b Hs1 Hc1 Hi1; cbn [moved on forth peer sent_by got_by] in *; destruct b;
  first [ apply Hk; [done|lia|by apply moved_on_fupd]
        | apply IH; [done|autorewrite with fupd; rewrite ?app_nil_r; by eapply Phi_later ..|];
          intros s2 q2 l2 b Hs2 Hc2 Hl2; apply Hk; [done|lia|by apply moved_on_again] ].

#[local] Abbreviation watched p tr := (traced (observe forth Producer) p tr).
#[local] Abbreviation parent_out A := (A * list (seen chan Message) * (chan -> list Message))%type.

(** The same for the parent, whose trace is kept. *)
Ltac watched_attempt IH Hk :=
  intros s1 q1 b Hs1 Hc1 Hi1; cbn [observe moved on forth peer sent_by got_by] in *; destruct b;
  first [ apply Hk; [done|lia|by apply moved_on_fupd|by rewrite book_of_snoc]
        | apply IH; [done|autorewrite with fupd; rewrite ?app_nil_r; by eapply Phi_later ..|];
          intros s2 q2 l2 b tr2 Hs2 Hc2 Hl2 Hb2; rewrite book_of_snoc, note_idle in Hb2;
          apply Hk; [done|lia|by apply moved_on_again|done] ].

Lemma wp_ping_spin {A} fuel m k q l tr s (Q : parent_out A -> state -> Prop) :
  owns Producer s q l -> stamped Ping (now s.1) (l Ping ++ [m]) ->
  (forall s' q' l' b tr', owns Producer s' q' l' -> now s.1 <= now s'.1 ->
     moved_on Ping Pong l l' (if (b : bool) then [m] else []) ->
     book_of tr' = note (book_of tr) (Moved Ping (if b then [m] else [])) ->
     wp Producer (run_client Producer (watched (k b) tr') q' l') Q s') ->
  wp Producer (run_client Producer (watched (bind (ping_spin fuel m) k) tr) q l) Q s.
Proof.
  revert q l tr s. induction fuel as [|fuel IH]; intros q l tr s Hs Hm Hk;
    [apply Hk; [done|lia|apply moved_on_nil|by rewrite note_idle]|].
  cbn [ping_spin bind act traced]. client_rule wp_client_call.
  - intros _ [|]; cbn [moved on forth sent_by]; [done|]. eapply Phi_prefix; [|exact Hm]. rewrite app_nil_r. by eexists.
  - watched_attempt IH Hk.
Qed.

Lemma wp_out_spin {A} fuel m k q l s (Q : A * (chan -> list Message) -> state -> Prop) :
  owns Consumer s q l -> stamped Pong (now s.1) (l Pong ++ [m]) ->
  (forall s' q' l' b, owns Consumer s' q' l' -> now s.1 <= now s'.1 ->
     moved_on Pong Ping l l' (if (b : bool) then [m] else []) ->
     wp Consumer (run_client Consumer (k b) q' l') Q s') ->
  wp Consumer (run_client Consumer (bind (out_spin fuel m) k) q l) Q s.
Proof.
  revert q l s. induction fuel as [|fuel IH]; intros q l s Hs Hm Hk;
    [apply Hk; [done|lia|apply moved_on_nil]|]. cbn [out_spin bind act]. client_rule wp_client_call.
  - intros _ [|]; cbn [moved on forth peer sent_by]; [done|]. eapply Phi_prefix; [|exact Hm]. rewrite app_nil_r. by eexists.
  - spin_attempt IH Hk.
Qed.

Lemma wp_reply_spin {A} fuel k q l tr s (Q : parent_out A -> state -> Prop) :
  owns Producer s q l ->
  (forall s' q' l' r tr', owns Producer s' q' l' -> now s.1 <= now s'.1 ->
     moved_on Pong Ping l l' (match r with Some m => [m] | None => [] end) ->
     book_of tr' = note (book_of tr) (Moved Pong (match r with Some m => [m] | None => [] end)) ->
     wp Producer (run_client Producer (watched (k r) tr') q' l') Q s') ->
  wp Producer (run_client Producer (watched (bind (reply_spin fuel) k) tr) q l) Q s.
Proof.
  revert q l tr s. induction fuel as [|fuel IH]; intros q l tr s Hs Hk;
    [apply Hk; [done|lia|apply moved_on_nil|by rewrite note_idle]|].
  cbn [reply_spin bind act traced]. client_rule wp_client_call; [done|].
  watched_attempt IH Hk.
Qed.

Lemma wp_in_spin {A} fuel k q l s (Q : A * (chan -> list Message) -> state -> Prop) :
  owns Consumer s q l ->
  (forall s' q' l' r, owns Consumer s' q' l' -> now s.1 <= now s'.1 ->
     moved_on Ping Pong l l' (match r with Some m => [m] | None => [] end) ->
     wp Consumer (run_client Consumer (k r) q' l') Q s') ->
  wp Consumer (run_client Consumer (bind (in_spin fuel) k) q l) Q s.
Proof.
  revert q l s. induction fuel as [|fuel IH]; intros q l s Hs Hk;
    [apply Hk; [done|lia|apply moved_on_nil]|]. cbn [in_spin bind act]. client_rule wp_client_call; [done|].
  spin_attempt IH Hk.
Qed.

Definition parent_post (total warmup : Z) (r : parent_out (bool * samples)) (s : state) : Prop :=
  (exists q, owns Producer s q r.2) /\ in_sequence 0 (r.2 Ping) /\
  booked (book_of r.1.2) (r.2 Ping) (r.2 Pong) /\
  sampled warmup r.1.1.2 (r.2 Ping) (replies (book_of r.1.2)) /\
  (r.1.1.1 = true -> zlen (r.2 Ping) = total /\ zlen (r.2 Pong) = total).

Lemma wp_parent_ret total warmup b sm tr q l s :
  owns Producer s q l -> in_sequence 0 (l Ping) -> booked (book_of tr) (l Ping) (l Pong) ->
  sampled warmup sm (l Ping) (replies (book_of tr)) ->
  (b = true -> zlen (l Ping) = total /\ zlen (l Pong) = total) ->
  wp Producer (run_client Producer (watched (Ret (b, sm)) tr) q l) (parent_post total warmup) s.
Proof.
  intros Hs Hseq Hb Hsm Hfull. cbn [traced]. client_rule wp_client_ret. intros s' Hs' _.
  split_and!; [by exists q|done..].
Qed.

(** The book after a message was stamped and sent, and after its reply was read. *)
Lemma booked_send b t0 m sent got :
  booked b sent got -> sentNs m = t0 ->
  booked (note (note b (Clock t0)) (Moved Ping [m])) (sent ++ [m]) got /\
  replies (note (note b (Clock t0)) (Moved Ping [m])) = replies b.
Proof.
  intros (Hs & Hw & Hr) <-. unfold booked. cbn. rewrite Hw. cbn. rewrite app_nil_r, Hs, map_app. done.
Qed.

Lemma booked_reply b t1 r sent got :
  booked b sent got ->
  booked (note (note b (Moved Pong [r])) (Clock t1)) sent (got ++ [r]) /\
  replies (note (note b (Moved Pong [r])) (Clock t1)) = replies b ++ [(t1, r)].
Proof. intros (Hs & Hw & Hr). unfold booked. cbn. rewrite Hw. cbn. by rewrite map_app, Hr. Qed.

Lemma booked_clock b t sent got : booked b sent got ->
  booked (note b (Clock t)) sent got /\ replies (note b (Clock t)) = replies b.
Proof. intros (Hs & Hw & Hr). unfold booked. cbn. by rewrite Hw, app_nil_r. Qed.

Lemma wp_ping_loop rounds fuel total warmup i sm q l tr s :
  owns Producer s q l -> 0 <= now s.1 -> 0 <= warmup -> zlen (l Ping) = i -> zlen (l Pong) = i ->
  i <= total < W64 -> in_sequence 0 (l Ping) -> booked (book_of tr) (l Ping) (l Pong) ->
  sampled warmup sm (l Ping) (replies (book_of tr)) ->
  wp Producer (run_client Producer (watched (ping_loop rounds fuel total warmup i sm) tr) q l)
    (parent_post total warmup) s.
Proof.
  intros Hs Hnow Hw. revert i sm q l tr s Hs Hnow.
  induction rounds as [|rounds IH]; intros i sm q l tr s Hs Hnow Hping Hpong Hle Hseq Hbk Hsm;
    [by apply wp_parent_ret|].
  cbn [ping_loop]. pose proof (zlen_nonneg (l Ping)). case_Z; [|apply wp_parent_ret; try done; lia].
  assert (zlen (replies (book_of tr)) = i) as Hrs.
  { destruct Hbk as (_ & _ & Hr). rewrite <- Hr in Hpong. unfold zlen in *. by rewrite length_map in Hpong. }
  cbn [bind act traced]. client_rule wp_client_now. intros s1 t0 Hs1 Hi1 Ht0 Hx1. cbn [observe].
  pose proof (fstate_Phi forth n B stamped Producer s1 q l Ping Hi1 Hs1) as Hst.
  apply wp_ping_spin; [done| |].
  { apply Forall_app_2; [done|]. constructor; [|constructor]. cbn [sentNs makeMessage]. lia. }
  intros s2 q2 l2 b tr2 Hs2 Hc2 [Hl2 Hl2'] Hb2. rewrite book_of_snoc in Hb2. destruct b.
  2: { rewrite app_nil_r in Hl2. rewrite note_idle in Hb2.
       destruct (booked_clock _ t0 _ _ Hbk) as [Hbk2 Hrep2].
       apply wp_parent_ret; rewrite ?Hb2, ?Hl2, ?Hl2', ?Hrep2; done. }
  destruct (booked_send _ t0 (makeMessage i t0) _ _ Hbk eq_refl) as [Hbk2 Hrep2].
  rewrite <- Hb2, <- Hl2, <- Hl2' in Hbk2. rewrite <- Hb2 in Hrep2.
  assert (in_sequence 0 (l2 Ping)) as Hseq2.
  { rewrite Hl2. apply in_sequence_app; [done|]. intros j m [-> <-]%list_lookup_singleton_Some.
    split; [cbn [seq makeMessage]; lia|apply makeMessage_valid]. }
  apply wp_reply_spin; [done|]. intros s3 q3 l3 r tr3 Hs3 Hc3 [Hl3 Hl3'] Hb3. destruct r as [reply|].
  2: { rewrite app_nil_r in Hl3. rewrite note_idle in Hb3.
       apply wp_parent_ret; rewrite ?Hb3, ?Hl3, ?Hl3', ?Hrep2; try done.
       rewrite Hl2. apply sampled_extra; [unfold zlen in *; lia|done]. }
  cbn [bind act traced]. client_rule wp_client_now. intros s4 t1 Hs4 Hi4 Ht1 Hx4. cbn [observe].
  pose proof (fstate_Phi forth n B stamped Producer s4 q3 l3 Pong Hi4 Hs4) as Hst4.
  rewrite Hl3 in Hst4. apply Forall_app in Hst4 as [_ [Hrep _]%Forall_cons].
  destruct (booked_reply _ t1 reply _ _ Hbk2) as [Hbk4 Hrep4].
  apply IH; rewrite ?book_of_snoc, ?Hb3, ?Hrep4, ?Hrep2, ?Hl3, ?Hl3', ?Hl2', ?zlen_app;
    change (zlen [_]) with 1; rewrite ?u64_small by lia; try done; try lia.
  - rewrite Hl2, zlen_app. change (zlen [_]) with 1. lia.
  - by rewrite <- Hl2'.
  - rewrite Hl2. apply sampled_round; try done; cbn [sentNs makeMessage]; lia.
Qed.

Definition child_post (r : bool * (chan -> list Message)) (s : state) : Prop :=
  (exists q, owns Consumer s q r.2) /\
  exists heard, heard `prefix_of` r.2 Ping /\ Forall2 echo_of heard (r.2 Pong).

Lemma wp_child_ret b q l s heard :
  owns Consumer s q l -> heard `prefix_of` l Ping -> Forall2 echo_of heard (l Pong) ->
  wp Consumer (run_client Consumer (Ret b) q l) child_post s.
Proof.
  intros Hs Hh He. client_rule wp_client_ret. intros s' Hs' _. split; [by exists q|by exists heard].
Qed.

Lemma wp_echo_loop rounds fuel total i q l s :
  owns Consumer s q l -> Forall2 echo_of (l Ping) (l Pong) ->
  wp Consumer (run_client Consumer (echo_loop rounds fuel total i) q l) child_post s.
Proof.
  revert i q l s. induction rounds as [|rounds IH]; intros i q l s Hs He; [by eapply wp_child_ret|].
  cbn [echo_loop]. case_Z; [|by eapply wp_child_ret].
  apply wp_in_spin; [done|]. intros s1 q1 l1 r Hs1 Hc1 [Hl1 Hl1']. destruct r as [m|].
  2: { rewrite app_nil_r in Hl1. eapply wp_child_ret; [done|by rewrite Hl1|by rewrite Hl1']. }
  cbn [bind act]. client_rule wp_client_now. intros s2 t Hs2 Hi2 Ht Hx2.
  pose proof (fstate_Phi forth n B stamped Consumer s2 q1 l1 Ping Hi2 Hs2) as Hping.
  pose proof (fstate_Phi forth n B stamped Consumer s2 q1 l1 Pong Hi2 Hs2) as Hpong.
  rewrite Hl1 in Hping. apply Forall_app in Hping as [_ [Hm _]%Forall_cons].
  apply wp_out_spin; [done| |].
  { apply Forall_app_2; [done|]. constructor; [|constructor]. cbn [sentNs restamp]. lia. }
  intros s3 q3 l3 b Hs3 Hc3 [Hl3 Hl3']. destruct b.
  - apply IH; [done|]. rewrite Hl3', Hl1, Hl3, Hl1'. apply Forall2_app; [done|].
    constructor; [|constructor]. split; [done|cbn [sentNs restamp]; lia].
  - rewrite app_nil_r in Hl3. eapply wp_child_ret; [done|rewrite Hl3', Hl1; by apply prefix_app_r|].
    by rewrite Hl3, Hl1'.
Qed.

(** ** The benchmark; the parent is watched *)
Definition latency_conf (fuel fuel' : nat) (iters x : Z) :
    conf (flE chan Message) (fleet chan Message) (parent_out (bool * samples)) (bool * (chan -> list Message)) :=
  fleet_conf forth ndebug n B h pid seg (watched (latency_parent fuel iters) []) (latency_child fuel' iters) x.

Lemma latency_verified fuel fuel' iters x c :
  0 <= iters -> iters + iters / 10 + 1 < W64 -> 0 <= x < W64 ->
  rtc cstep (latency_conf fuel fuel' iters x) c ->
  verified (parent_post (iters + iters / 10 + 1) (iters / 10 + 1)) child_post c.
Proof.
  intros Hi Hb Hx Hs. assert (0 <= iters / 10) by (apply Z.div_pos; lia).
  assert (warmup_of iters = iters / 10 + 1) as Hw by (apply u64_small; lia).
  refine (fleet_verified forth ndebug n B stamped h pid seg _ _ x _ _ c _ _ _ Hs); [lia| |].
  - intros s q Hq _ Hn. unfold latency_parent. rewrite Hw, u64_small by lia. cbv zeta.
    replace (iters + (iters / 10 + 1)) with (iters + iters / 10 + 1) by lia.
    apply wp_ping_loop; try done; try lia. unfold sampled, no_log. cbn. by rewrite !drop_nil.
  - intros s q Hq _ _. unfold latency_child. apply wp_echo_loop; [done|constructor].
Qed.

Lemma echoes_received sent got heard echoed :
  got `prefix_of` echoed -> heard `prefix_of` sent -> Forall2 echo_of heard echoed ->
  Forall2 echo_of (take (length got) sent) got.
Proof.
  intros [r1 ->] [r2 ->] He. apply Forall2_app_inv_r in He as (h1 & h2 & H1 & _ & ->).
  rewrite <- app_assoc, take_app_length'; [done|]. by apply Forall2_length in H1.
Qed.

(** Without clamping: the one-way times are true differences, none above its round
    trip. *)
Definition stamp_diff (m r : Message) : Z := sentNs r - sentNs m.

Lemma zip_drop_take {X R} (f : Message -> X -> R) w sent rs :
  zip_with f (drop w sent) (drop w rs) = zip_with f (drop w (take (length rs) sent)) (drop w rs).
Proof. by rewrite <- !zip_with_drop, zip_with_take_l. Qed.

Lemma echo_times sent rs :
  Forall2 echo_of sent (map snd rs) -> Forall (fun p => sentNs p.2 <= p.1) rs ->
  zip_with one_way sent (map snd rs) = zip_with stamp_diff sent (map snd rs) /\
  Forall2 Z.le (zip_with stamp_diff sent (map snd rs)) (zip_with round_trip sent rs).
Proof.
  revert sent. induction rs as [|[t r] rs IH]; intros sent He Hf.
  { apply Forall2_nil_inv_r in He as ->. by split. }
  apply Forall2_cons_inv_r in He as (m & sent' & [Hm Hle] & He & ->).
  apply Forall_cons in Hf as [Ht Hf]. destruct (IH sent' He Hf) as [Heq Hfa]. cbn [map zip_with fst snd] in *.
  split; [|constructor; [unfold stamp_diff, round_trip; cbn; lia|done]]. f_equal; [|done].
  unfold one_way, stamp_diff. rewrite Z.gtb_ltb. destruct (Z.ltb_spec (sentNs m) (sentNs r)); lia.
Qed.

Lemma sampled_echoes warmup sm sent rs :
  sampled warmup sm sent rs -> Forall2 echo_of (take (length rs) sent) (map snd rs) ->
  oneWay sm = zip_with stamp_diff (drop (Z.to_nat warmup) sent) (drop (Z.to_nat warmup) (map snd rs)) /\
  Forall2 Z.le (oneWay sm) (rtt sm).
Proof.
  intros (Ho & Hr & Hf) He. rewrite (zip_drop_take one_way) in Ho.
  rewrite (zip_drop_take round_trip) in Hr. rewrite (zip_drop_take stamp_diff).
  rewrite length_map in Ho |- *. rewrite skipn_map in Ho |- *.
  apply (Forall2_drop _ _ _ (Z.to_nat warmup)) in He. rewrite skipn_map in He.
  destruct (echo_times _ _ He ltac:(by apply Forall_drop)) as [Heq Hle].
  by rewrite Hr, Ho, Heq.
Qed.

(** C9: the latency benchmark reports true numbers.  Whatever the interleaving and the
    memory model, when both processes have ended, the parent has sent the messages 0,
    1, 2, ..., each stamped with the clock reading made just before it was sent; each
    reply it has received is the echo of the message of the same round, with a valid
    checksum and stamped no earlier than the message and no later than the clock
    reading that followed the reply.  The round-trip times are exactly these readings
    after the reply minus the readings before the sending; the one-way times are the
    differences of the two stamps, no one clamped or wrapped, and none exceeds its
    round trip.  If the parent's loop has ended, there are exactly [iters] samples of
    each.  The readings are those in the trace [tr] of what the parent has seen. *)
Theorem latency_samples_true fuel fuel' iters x c b sm tr l1 b' l2 :
  0 <= iters -> iters + iters / 10 + 1 < W64 -> 0 <= x < W64 ->
  rtc cstep (latency_conf fuel fuel' iters x) c ->
  pthread c = Ret (b, sm, tr, l1) -> cthread c = Ret (b', l2) ->
  let sent := l1 Ping in
  let got := l1 Pong in
  let rs := replies (book_of tr) in
  let w := Z.to_nat (iters / 10 + 1) in
  in_sequence 0 sent /\ booked (book_of tr) sent got /\
  Forall2 echo_of (take (length got) sent) got /\ Forall (fun p => sentNs p.2 <= p.1) rs /\
  rtt sm = zip_with round_trip (drop w sent) (drop w rs) /\
  oneWay sm = zip_with stamp_diff (drop w sent) (drop w got) /\
  Forall2 Z.le (oneWay sm) (rtt sm) /\
  (b = true -> length sent = length got /\ zlen (rtt sm) = iters /\ zlen (oneWay sm) = iters).
Proof.
  intros Hit Hb Hx Hs Hp Hc. pose proof (latency_verified fuel fuel' iters x c Hit Hb Hx Hs) as Hv.
  assert (0 <= iters / 10) by (apply Z.div_pos; lia).
  destruct c as [p q m]. simpl in Hp, Hc. subst p q.
  apply verified_done in Hv as (g & Hi & ((q1 & Hq1) & Hseq & Hbk & Hsm & Hfull) & ((q2 & Hq2) & heard & Hh & He)).
  cbn [fst snd] in *.
  pose proof (fleet_ends forth n B stamped (m, g) q1 l1 q2 l2 Ping Hi Hq1 Hq2) as [Hping _].
  pose proof (fleet_ends forth n B stamped (m, g) q1 l1 q2 l2 Pong Hi Hq1 Hq2) as [Hpong _].
  cbn [forth] in Hping, Hpong.
  assert (Forall2 echo_of (take (length (l1 Pong)) (l1 Ping)) (l1 Pong)) as Hecho
    by (eapply echoes_received; [exact Hpong|by transitivity (l2 Ping)|exact He]).
  destruct Hbk as (Hbs & Hbw & Hbr). pose proof (sampled_echoes _ _ _ _ Hsm) as Hse.
  rewrite <- (length_map snd), Hbr in Hse. destruct (Hse Hecho) as [Hone Hle].
  destruct Hsm as (_ & Hrtt & Hrep). split_and!; try done.
  intros ->. destruct (Hfull eq_refl) as [H1' H2']. apply Forall2_length in Hle as Hlen.
  unfold zlen in *. rewrite <- Hlen, Hone, length_zip_with, !length_drop. lia.
Qed.

(** C39: with no iterations ([bench_latency 0]) only the one warm-up round runs, both
    sample vectors stay empty, and the printing that follows reads the last element
    of an empty vector. *)
Theorem latency_without_iterations fuel fuel' x c sm tr l1 b' l2 :
  0 <= x < W64 -> rtc cstep (latency_conf fuel fuel' 0 x) c ->
  pthread c = Ret (true, sm, tr, l1) -> cthread c = Ret (b', l2) ->
  printLatency (rtt sm) = None /\ printLatency (oneWay sm) = None.
Proof.
  intros Hx Hs Hp Hc. assert (0 + 0 / 10 + 1 < W64) as Hb by (rewrite W64_val; reflexivity).
  pose proof (latency_verified fuel fuel' 0 x c ltac:(lia) Hb Hx Hs) as Hv.
  destruct c as [p q m]. simpl in Hp, Hc. subst p q.
  apply verified_done in Hv as (g & Hi & (_ & _ & _ & (Ho & Hr & _) & Hfull) & _). cbn [fst snd] in *.
  destruct (Hfull eq_refl) as [H1' _]. change (0 + 0 / 10 + 1) with 1 in H1'.
  change (Z.to_nat (0 / 10 + 1)) with 1%nat in Ho, Hr. unfold zlen in H1'.
  rewrite (drop_ge (l1 Ping) 1) in Ho, Hr by lia. by rewrite Ho, Hr.
Qed.
End pingpong.

(** ** A concrete run: a warm-up round and a counted one *)
Module LatencySample.
#[local] Existing Instance x86_64.
#[local] Existing Instance x86_64_ok.
#[local] Existing Instance elem_message.
#[local] Existing Instance elem_message_ok.

Definition sizes (c : chan) : Z := 4.
Definition places (c : chan) (t : Role) : Z :=
  match c with Ping => Runs.bases t | Pong => 2097152 + Runs.bases t end.
#[export] Instance places_ok : FleetOk sizes places.
Proof. split; [intros c; exact Runs.size4|intros [] []; reflexivity]. Defined.

#[local] Abbreviation latency_result := (conf (flE chan Message) (fleet chan Message)
  (bool * samples * list (seen chan Message) * (chan -> list Message)) (bool * (chan -> list Message))).
Definition latency_start (iters : Z) : latency_result :=
  latency_conf false sizes places (fun _ _ => 0) (fun _ _ => 10) (fun _ _ => ShmSegment_default)
    40 40 iters 1000.
(** The processes take turns; a clock reading falls 7 or 5 nanoseconds after the one
    before it. *)
Definition latency_end (iters : Z) : latency_result :=
  sched (H := fl_machine forth) (Executor0 := fl_executor forth)
    (concat (replicate 40 (replicate 4 (Producer, 7%nat) ++ [(Producer, O)] ++ replicate 4 (Consumer, 5%nat) ++ [(Consumer, O)])))
    (latency_start iters).

Definition moved_by {A} (p : prog (flE chan Message) (A * (chan -> list Message))) : chan -> list Message :=
  match p with Ret (_, l) => l | Vis _ _ => no_log end.

Definition seen_by {A B} (p : prog (flE chan Message) (A * list (seen chan Message) * B)) :
    list (seen chan Message) :=
  match p with Ret (_, tr, _) => tr | Vis _ _ => [] end.

Example latency_parent_ends :
  pthread (latency_end 1) = Ret (true, MkSamples [12] [5], seen_by (pthread (latency_end 1)), moved_by (pthread (latency_end 1))).
Proof. vm_compute. reflexivity. Qed.

Example latency_child_ends :
  cthread (latency_end 1) = Ret (true, moved_by (cthread (latency_end 1))).
Proof. vm_compute. reflexivity. Qed.

Example latency_stamps :
  map sentNs (moved_by (pthread (latency_end 1)) Ping) = [1007; 1026] /\
  map sentNs (moved_by (pthread (latency_end 1)) Pong) = [1012; 1031] /\
  map fst (replies (book_of (seen_by (pthread (latency_end 1))))) = [1019; 1038].
Proof. vm_compute. done. Qed.

Lemma latency_samples_true_witness :
  let sent := moved_by (pthread (latency_end 1)) Ping in
  let got := moved_by (pthread (latency_end 1)) Pong in
  let rs := replies (book_of (seen_by (pthread (latency_end 1)))) in
  in_sequence 0 sent /\ booked (book_of (seen_by (pthread (latency_end 1)))) sent got /\
  Forall2 echo_of (take (length got) sent) got /\ Forall (fun p => sentNs p.2 <= p.1) rs /\
  [12] = zip_with round_trip (drop 1 sent) (drop 1 rs) /\
  [5] = zip_with stamp_diff (drop 1 sent) (drop 1 got) /\ Forall2 Z.le [5] [12] /\
  (true = true -> length sent = length got /\ zlen [12] = 1 /\ zlen [5] = 1).
Proof.
  apply (latency_samples_true false sizes places (fun _ _ => 0) (fun _ _ => 10)
           (fun _ _ => ShmSegment_default) 40 40 1 1000 (latency_end 1) true (MkSamples [12] [5])
           (seen_by (pthread (latency_end 1))) (moved_by (pthread (latency_end 1))) true (moved_by (cthread (latency_end 1))));
    [lia|rewrite W64_val; reflexivity|word_lia|apply sched_sound|exact latency_parent_ends
    |exact latency_child_ends].
Defined.

Example warmup_parent_ends :
  pthread (latency_end 0) = Ret (true, MkSamples [] [], seen_by (pthread (latency_end 0)), moved_by (pthread (latency_end 0))).
Proof. vm_compute. reflexivity. Qed.

Example warmup_child_ends :
  cthread (latency_end 0) = Ret (true, moved_by (cthread (latency_end 0))).
Proof. vm_compute. reflexivity. Qed.

Lemma latency_without_iterations_witness : printLatency [] = None /\ printLatency [] = None.
Proof.
  apply (latency_without_iterations false sizes places (fun _ _ => 0) (fun _ _ => 10)
           (fun _ _ => ShmSegment_default) 40 40 1000 (latency_end 0) (MkSamples [] [])
           (seen_by (pthread (latency_end 0))) (moved_by (pthread (latency_end 0))) true (moved_by (cthread (latency_end 0))));
    [word_lia|apply sched_sound|exact warmup_parent_ends|exact warmup_child_ends].
Defined.

(** The run of two queues in opposite directions, stopped in mid-run. *)
Definition latency_middle : latency_result :=
  sched (H := fl_machine forth) (Executor0 := fl_executor forth)
    (concat (replicate 8 [(Producer, 7%nat); (Consumer, 5%nat)])) (latency_start 1).

Lemma fleet_fifo_witness :
  conf_safe (H := fl_machine forth) latency_middle /\
  exists a1 l1 a2 l2 w, rtc (cstep (H := fl_machine forth)) latency_middle (MkConf (Ret (a1, l1)) (Ret (a2, l2)) w) /\
    forall d, let '(sent, got) := if forth d then (l1 d, l2 d) else (l2 d, l1 d) in
      got `prefix_of` sent /\ zlen sent - zlen got <= sizes d - 1.
Proof.
  apply (fleet_fifo forth false sizes places (fun _ _ => 0) (fun _ _ => 10) (fun _ _ => ShmSegment_default)
           (traced (observe forth Producer) (latency_parent 40 1) []) (latency_child 40 1) 1000);
    [word_lia|apply sched_sound].
Defined.
End LatencySample.
