(* ===== verification/Programs.v ===== *)
(** * The programs

    The [main] functions of the two demo programs and of the two benchmarks, from the
    creation of their queues to the destructors that run at their ends, as programs
    over all the system calls.  Their loops are the clients of Demo.v, Bench.v and
    Latency.v.  The theorems are about resources, on every path: exceptions, signals,
    a peer that never comes, and the child process of a benchmark, which leaves by
    [_exit]. *)

From S2P Require Import Prelude Prog Effects Binary64 Stats Machine Layout Segment Queue Lifecycle Resources Delivery Fleet Footprint Message Demo Bench Latency.
#[local] Open Scope Z_scope.
#[local] Open Scope prog_scope.
#[local] Existing Instance elem_message.
#[local] Set Warnings "-clear-no-such-hyp".

Section programs.
Context `{Platform}.
Context (ndebug : bool).
#[local] Abbreviation io := (prog (evE Message)).

(** A client run on the handles of its process, with what comes after it. *)
Fixpoint in_process {C A R : Type} `{EqDecision C} {fwd : C -> bool} (t : Role)
    (p : prog (fcall (T := Message) fwd t) A) (q : C -> ShmSpscQueue)
    (final : A -> (C -> ShmSpscQueue) -> io R) : io R :=
  match p with
  | Ret a => final a q
  | Vis e k =>
      match e with
      | OnQueue c e =>
          let* (q', x) := do_call ndebug (on fwd c t) e (q c) in
          in_process t (k x) (fupd c q' q) final
      | Ask e => let* x := sys (ask_os e) in in_process t (k x) q final
      end
  end.

(** ** The demo *)

(** How a [main] with its catch-all ends; [Unprintable] is undefined behaviour in the
    printing of the samples. *)
Inductive outcome (R : Type) : Type :=
| Threw (e : exn)
| Interrupted
| Unprintable
| Finished (r : R).
#[local] Arguments Threw {R} e.
#[local] Arguments Interrupted {R}.
#[local] Arguments Unprintable {R}.
#[local] Arguments Finished {R} r.

(** [while (!g_stop && !q.waitForPeer(1000)) {}] *)
Fixpoint await_peer (rounds fuel : nat) (q : ShmSpscQueue) : io (option unit) :=
  match rounds with
  | O => Ret None
  | S rounds =>
      let* stop := sys Signalled in
      if (stop : bool) then Ret (Some tt) else
      let* r := waitForPeer fuel q 1000 in
      match r with
      | None => Ret None
      | Some true => Ret (Some tt)
      | Some false => await_peer rounds fuel q
      end
  end.

(** [if (!latency.empty()) printLatency(...)] *)
Definition print_samples (l : list Z) : option (option summary) :=
  match l with
  | [] => Some None
  | _ => option_map Some (printLatency l)
  end.

(** demo_consumer's [main]; [cap] is the capacity of the vector of samples.  The pid
    printed is read with the default, stronger memory order. *)
Definition demo_consumer_main (rounds fuel : nat) (cap : Z) (name : string) (capacity : Z) :
    io (option (outcome (receiver * Z))) :=
  let* r := create fuel name capacity Consumer in
  match r with
  | None => Ret None
  | Some (inl e) => Ret (Some (Threw e))
  | Some (inr q) =>
      let* _ := sys GetPid in
      match bytesNeeded (T := Message) capacity with
      | inl e => detach q;; Ret (Some (Threw e))
      | inr _ =>
          let* w := await_peer rounds fuel q in
          match w with
          | None => Ret None
          | Some _ =>
              let* stop := sys Signalled in
              if (stop : bool) then detach q;; Ret (Some Interrupted) else
              let* _ := load (control q) producerPid acquire in
              in_process Consumer (demo_consumer rounds cap) (fun _ => q) (fun r q =>
                match print_samples (latency r.1) with
                | Some _ => detach (q tt);; Ret (Some (Finished r))
                | None => Ret (Some Unprintable)
                end)
          end
      end
  end.

(** The exit code; of no meaning where the behaviour is undefined. *)
Definition consumer_exit_code (o : outcome (receiver * Z)) : Z :=
  match o with
  | Threw _ => 1
  | Interrupted | Unprintable => 0
  | Finished r => if errors (counts r.1) =? 0 then 0 else 1
  end.

(** demo_producer's [main]. *)
Definition demo_producer_main (fuel : nat) (name : string) (total : Z) : io (option (outcome (Z * Z))) :=
  let* r := attach fuel fuel name Producer 10000 in
  match r with
  | None => Ret None
  | Some (inl e) => Ret (Some (Threw e))
  | Some (inr q) =>
      let* _ := sys GetPid in
      in_process Producer (demo_producer fuel total) (fun _ => q) (fun r q =>
        detach (q tt);; Ret (Some (Finished r)))
  end.

(** ** The benchmarks

    The parent returns; the child leaves by [_exit], without running destructors; an
    exception is not caught and terminates the process; bench_latency's printing is
    undefined on an empty vector (bench_throughput prints none). *)
Inductive ending : Type :=
| Returned (code : Z)
| Exited
| Terminated (e : exn)
| PrintUndefined.

Definition SIGKILL : Z := 9.
Definition kName : string := "/shmspsc_bench".
Definition kPing : string := "/shmspsc_ping".
Definition kPong : string := "/shmspsc_pong".

(** [run] of bench_throughput. *)
Definition bench_run (fuel : nat) (total capacity : Z) (batch : nat) : io (option ending) :=
  let* r := create fuel kName capacity Producer in
  match r with
  | None => Ret None
  | Some (inl e) => Ret (Some (Terminated e))
  | Some (inr q) =>
      let* pid := sys Fork in
      if pid =? 0 then
        let* r := attach fuel fuel kName Consumer 5000 in
        match r with
        | None => Ret None
        | Some (inl e) => Ret (Some (Terminated e))
        | Some (inr c) =>
            consumer_then ndebug (bench_consumer fuel batch total) c [] (fun done _ _ =>
              Ret (if (done : bool) then Some Exited else None))
        end
      else
        let* w := waitForPeer fuel q 5000 in
        match w with
        | None => Ret None
        | Some false =>
            let* _ := sys (Kill pid SIGKILL) in
            let* _ := sys (Waitpid pid) in
            detach q;; Ret (Some (Returned 0))
        | Some true =>
            let* _ := sys SteadyNow in
            producer_then (bench_producer fuel batch total) q [] (fun done q _ =>
              if (done : bool) then
                let* _ := sys (Waitpid pid) in
                let* _ := sys SteadyNow in
                detach q;; Ret (Some (Returned 0))
              else Ret None)
        end
  end.

(** The runs of bench_throughput's [main], one after the other. *)
Fixpoint bench_runs (fuel : nat) (total : Z) (l : list (Z * nat)) : io (option ending) :=
  match l with
  | [] => ShmSegment_remove kName;; Ret (Some (Returned 0))
  | (cap, batch) :: l =>
      let* r := bench_run fuel total cap batch in
      match r with
      | Some (Returned _) => bench_runs fuel total l
      | r => Ret r
      end
  end.

Definition bench_throughput_main (fuel : nat) (total : Z) : io (option ending) :=
  bench_runs fuel total
    [(8192, 1%nat); (8192, 8%nat); (8192, 32%nat); (8192, 128%nat);
     (64, 32%nat); (1024, 32%nat); (65536, 32%nat)].

(** The end of bench_latency's [main]: [pong] is destroyed before [ping]. *)
Definition leave (ping pong : ShmSpscQueue) (r : ending) : io (option ending) :=
  detach pong;; detach ping;; Ret (Some r).

(** The child of bench_latency. *)
Definition latency_echo (fuel : nat) (iters : Z) : io (option ending) :=
  let* r := attach fuel fuel kPing Consumer 5000 in
  match r with
  | None => Ret None
  | Some (inl e) => Ret (Some (Terminated e))
  | Some (inr inq) =>
      let* r := attach fuel fuel kPong Producer 5000 in
      match r with
      | None => Ret None
      | Some (inl e) => Ret (Some (Terminated e))
      | Some (inr outq) =>
          in_process Consumer (latency_child fuel iters) (fun c => match c with Ping => inq | Pong => outq end)
            (fun done _ => Ret (if (done : bool) then Some Exited else None))
      end
  end.

(** [!ping.waitForPeer(5000) || !pong.waitForPeer(5000)] *)
Definition latency_peers (fuel : nat) (ping pong : ShmSpscQueue) : io (option bool) :=
  let* w := waitForPeer fuel ping 5000 in
  match w with
  | Some true => waitForPeer fuel pong 5000
  | w => Ret w
  end.

(** The parent once the child has attached. *)
Definition latency_measure (fuel : nat) (iters pid : Z) (ping pong : ShmSpscQueue) : io (option ending) :=
  in_process Producer (latency_parent fuel iters)
    (fun c => match c with Ping => ping | Pong => pong end) (fun r q =>
    if r.1 then
      let* _ := sys (Waitpid pid) in
      match printLatency (rtt r.2), printLatency (oneWay r.2) with
      | Some _, Some _ =>
          ShmSegment_remove kPing;; ShmSegment_remove kPong;;
          leave (q Ping) (q Pong) (Returned 0)
      | _, _ => Ret (Some PrintUndefined)
      end
    else Ret None).

Definition bench_latency_main (fuel : nat) (iters : Z) : io (option ending) :=
  let* _ := clockOverheadNs (Z.to_nat 200000) in
  let* r := create fuel kPing 64 Producer in
  match r with
  | None => Ret None
  | Some (inl e) => Ret (Some (Terminated e))
  | Some (inr ping) =>
      let* r := create fuel kPong 64 Consumer in
      match r with
      | None => Ret None
      | Some (inl e) => Ret (Some (Terminated e))
      | Some (inr pong) =>
          let* pid := sys Fork in
          if pid =? 0 then latency_echo fuel iters else
          let* w := latency_peers fuel ping pong in
          match w with
          | None => Ret None
          | Some false =>
              let* _ := sys (Kill pid SIGKILL) in
              let* _ := sys (Waitpid pid) in
              leave ping pong (Returned 1)
          | Some true => latency_measure fuel iters pid ping pong
          end
      end
  end.

(** ** Resources *)
Lemma wait_loop_tame fuel q d : tame (ctrl_ q) (slots_ q) (fun _ => True) (wait_loop (T := Message) fuel q d).
Proof.
  induction fuel as [|fuel IH]; cbn [wait_loop]; [done|]. unfold load, sys, act. cbn [bind tame].
  split; [done|]. intros pid. destruct (pid >? 0); [done|]. cbn [tame]. split; [done|]. intros now.
  destruct (now >=? d); [done|]. cbn [tame]. by split.
Qed.

Lemma waitForPeer_tame fuel q ms : tame (ctrl_ q) (slots_ q) (fun _ => True) (waitForPeer (T := Message) fuel q ms).
Proof. unfold waitForPeer, sys, act. cbn [bind tame]. split; [done|]. intros now. apply wait_loop_tame. Qed.

Lemma await_peer_tame rounds fuel q : tame (ctrl_ q) (slots_ q) (fun _ => True) (await_peer rounds fuel q).
Proof.
  induction rounds as [|rounds IH]; cbn [await_peer]; [done|]. unfold sys, act. cbn [bind tame].
  split; [done|]. intros [|]; [done|]. apply tame_seq; [apply waitForPeer_tame|]. by intros [[|]|].
Qed.

Section resources.
Context {K : Type} `{PosixOk K}.
#[local] Existing Instance same_preorder.

Lemma holds_handle (k k1 : K) q q' : same_handle q q' -> holds k q k1 -> holds k q' k1.
Proof. intros Hs [? ? ? ?]. constructor; rewrite ?(sh_ctrl _ _ Hs), ?(sh_seg _ _ Hs); done. Qed.

(** Programs that use handles but keep them. *)
Lemma in_process_owp {C A R} `{EqDecision C} {fwd : C -> bool} t (P : A -> Prop) (p : prog (fcall fwd t) A) q
    (final : A -> (C -> ShmSpscQueue) -> io R) (k : K) Q :
  always P p -> (forall c, mapped_at (ctrl_ (q c)) k) ->
  (forall a q' k', P a -> same k k' -> (forall c, same_handle (q c) (q' c)) -> owp (final a q') k' Q) ->
  owp (in_process t p q final) k Q.
Proof.
  revert q k. induction p as [a|X e f IH]; intros q k Hp Hq Hf; cbn [in_process]; [by apply Hf|].
  cbn [always] in Hp. destruct e as [c e|e].
  - apply owp_bind. eapply owp_mono.
    { eapply tame_owp; [|apply (Hq c)]. instantiate (1 := fun r => same_handle (q c) r.1).
      destruct (on fwd c t); [apply do_pcall_tame|apply do_ccall_tame]. }
    intros [q' x] k' [Hs Hh]. cbn [fst] in Hh. apply IH; [apply Hp| |].
    + intros c'. destruct (decide (c' = c)) as [->|Hne]; autorewrite with fupd; [|by eapply same_mapped].
      rewrite (sh_ctrl _ _ Hh). by eapply same_mapped.
    + intros a q2 k2 HP Hs2 Hh2. apply Hf; [done|by etransitivity|]. intros c'. specialize (Hh2 c').
      destruct (decide (c' = c)) as [->|Hne]; autorewrite with fupd in Hh2; [by etransitivity|done].
  - apply owp_quiet; [by destruct e|by destruct e|]. intros x k' Hs.
    apply IH; [apply Hp|intros c; by eapply same_mapped|].
    intros a q2 k2 HP Hs2 Hh2. apply Hf; [done|by etransitivity|done].
Qed.

Lemma producer_then_owp {A R} (p : prog pcall A) q l (final : A -> ShmSpscQueue -> list Message -> io R) (k : K) Q :
  mapped_at (ctrl_ q) k ->
  (forall a q' l' k', same k k' -> same_handle q q' -> owp (final a q' l') k' Q) ->
  owp (producer_then p q l final) k Q.
Proof.
  revert q l k. induction p as [a|X e f IH]; intros q l k Hq Hf; cbn [producer_then]; [by apply Hf|].
  apply owp_bind. eapply owp_mono; [eapply tame_owp; [apply do_pcall_tame|done]|].
  intros [q' x] k' [Hs Hh]. cbn [fst] in Hh. apply IH; [rewrite (sh_ctrl _ _ Hh); by eapply same_mapped|].
  intros a q2 l2 k2 Hs2 Hh2. apply Hf; by etransitivity.
Qed.

Lemma consumer_then_owp {A R} (p : prog ccall A) q l (final : A -> ShmSpscQueue -> list Message -> io R) (k : K) Q :
  mapped_at (ctrl_ q) k ->
  (forall a q' l' k', same k k' -> same_handle q q' -> owp (final a q' l') k' Q) ->
  owp (consumer_then ndebug p q l final) k Q.
Proof.
  revert q l k. induction p as [a|X e f IH]; intros q l k Hq Hf; cbn [consumer_then]; [by apply Hf|].
  apply owp_bind. eapply owp_mono; [eapply tame_owp; [apply do_ccall_tame|done]|].
  intros [q' x] k' [Hs Hh]. cbn [fst] in Hh. apply IH; [rewrite (sh_ctrl _ _ Hh); by eapply same_mapped|].
  intros a q2 l2 k2 Hs2 Hh2. apply Hf; by etransitivity.
Qed.

(** The handle of a creator, and of a process that has attached, since [k]. *)
Record owned (k : K) (name : string) (q : ShmSpscQueue) (k1 : K) : Prop := {
  o_holds : holds k q k1;
  o_ctrl : 0 < ctrl_ q;
  o_owner : owner_ (seg_ q) = true;
  o_name : name_ (seg_ q) = name;
  o_nonempty : name <> "";
  o_linked : linked k1 = {[name]} ∪ linked k }.

Record borrowed (k : K) (q : ShmSpscQueue) (k1 : K) : Prop := {
  b_holds : holds k q k1;
  b_ctrl : 0 < ctrl_ q;
  b_owner : owner_ (seg_ q) = false;
  b_linked : linked k1 = linked k }.

Lemma owned_mapped k name q k1 : owned k name q k1 -> mapped_at (ctrl_ q) k1.
Proof. intros Ho. apply (holds_mapped k); [apply Ho|]. pose proof (o_ctrl _ _ _ _ Ho). lia. Qed.

Lemma borrowed_mapped k q k1 : borrowed k q k1 -> mapped_at (ctrl_ q) k1.
Proof. intros Hb. apply (holds_mapped k); [apply Hb|]. pose proof (b_ctrl _ _ _ Hb). lia. Qed.

Lemma owned_later k name q k1 q' k2 :
  same k1 k2 -> same_handle q q' -> owned k name q k1 -> owned k name q' k2.
Proof.
  intros Hs Hh [H1' H2' H3' H4' H5' H6']. split; rewrite ?(sh_ctrl _ _ Hh), ?(sh_seg _ _ Hh); try done.
  - eapply holds_handle; [exact Hh|]. by eapply holds_same.
  - by rewrite (same_linked _ _ Hs).
Qed.

Lemma borrowed_later k q k1 q' k2 : same k1 k2 -> same_handle q q' -> borrowed k q k1 -> borrowed k q' k2.
Proof.
  intros Hs Hh [H1' H2' H3' H4']. split; rewrite ?(sh_ctrl _ _ Hh), ?(sh_seg _ _ Hh); try done.
  - eapply holds_handle; [exact Hh|]. by eapply holds_same.
  - by rewrite (same_linked _ _ Hs).
Qed.

(** The destructor of the creator's handle unmaps and unlinks; that of an attached
    one only unmaps. *)
Definition closed (k : K) (name : string) (k' : K) : Prop :=
  fds k' = fds k /\ maps k' = maps k /\ linked k' = linked k ∖ {[name]}.

Lemma owned_detach {R} k name q k1 (f : ShmSpscQueue -> io R) Q :
  owned k name q k1 -> (forall q' k', closed k name k' -> owp (f q') k' Q) ->
  owp (bind (detach q) f) k1 Q.
Proof.
  intros [Hh Hc Ho Hn Hne Hl] Hf. apply owp_bind. eapply owp_mono; [by apply (detach_holds k)|].
  intros q' k' (Hf' & Hm' & Hl'). apply Hf. split_and!; [done|done|]. rewrite Hl', Hl. unfold held_name.
  rewrite Ho, Hn, bool_decide_false by done. cbn. set_solver.
Qed.

Lemma borrowed_detach {R} k q k1 (f : ShmSpscQueue -> io R) Q :
  borrowed k q k1 -> (forall q' k', same k k' -> owp (f q') k' Q) -> owp (bind (detach q) f) k1 Q.
Proof.
  intros [Hh Hc Ho Hl] Hf. apply owp_bind. eapply owp_mono; [by apply (detach_holds k)|].
  intros q' k' (Hf' & Hm' & Hl'). apply Hf. constructor; [done|done|]. rewrite Hl', Hl. unfold held_name.
  rewrite Ho. cbn. set_solver.
Qed.

(** Opening a queue, and what the rest of the program may assume. *)
Lemma owp_create {R} fuel name cap role (k : K) (f : option (exn + ShmSpscQueue) -> io R) Q :
  (forall k', owp (f None) k' Q) ->
  (forall e k', fds k' = fds k -> maps k' = maps k ->
     (linked k' = linked k \/ linked k' = linked k ∖ {[name]}) -> owp (f (Some (inl e))) k' Q) ->
  (forall q k', owned k name q k' -> owp (f (Some (inr q))) k' Q) ->
  owp (bind (create fuel name cap role) f) k Q.
Proof.
  intros Hn He Hq. apply owp_bind. eapply owp_mono; [apply create_spec_queue|].
  intros [[e|q]|] k' (Hf & Hr); [|apply Hq|apply Hn].
  - destruct Hr as [Hm Hl]. by apply He.
  - destruct Hr as (? & ? & ? & ? & ? & ? & ?). by split.
Qed.

Lemma owp_attach {R} fuel fuel' name role ms (k : K) (f : option (exn + ShmSpscQueue) -> io R) Q :
  (forall k', owp (f None) k' Q) -> (forall e k', same k k' -> owp (f (Some (inl e))) k' Q) ->
  (forall q k', borrowed k q k' -> owp (f (Some (inr q))) k' Q) ->
  owp (bind (attach fuel fuel' name role ms) f) k Q.
Proof.
  intros Hn He Hq. apply owp_bind. eapply owp_mono; [apply attach_spec|].
  intros [[e|q]|] k' (Hf & Hl & Hr); [|apply Hq|apply Hn].
  - apply He. by constructor.
  - destruct Hr as (? & ? & ? & ?). by split.
Qed.

Lemma owp_tame {A R} c b (P : A -> Prop) (p : io A) (f : A -> io R) (k : K) Q :
  tame c b P p -> mapped_at c k -> (forall a k', same k k' -> owp (f a) k' Q) -> owp (bind p f) k Q.
Proof.
  intros Hp Hc Hf. apply owp_bind. eapply owp_mono; [by eapply tame_owp|]. intros a k' [Hs _]. by apply Hf.
Qed.

(** What a program that used the queue [name] as its creator leaves behind. *)
Definition released (k : K) (name : string) (k' : K) : Prop :=
  fds k' = fds k /\ maps k' = maps k /\ (linked k' = linked k \/ linked k' = linked k ∖ {[name]}).

Lemma closed_released k name k' : closed k name k' -> released k name k' /\ name ∉ linked k'.
Proof. intros (Hf & Hm & Hl). split; [split_and!; [done|done|by right]|]. rewrite Hl. set_solver. Qed.

(** How the demo consumer may leave the resources. *)
Definition consumer_end_ok (k : K) (name : string) (r : option (outcome (receiver * Z))) (k' : K) : Prop :=
  match r with
  | None => True
  | Some (Threw _) => released k name k'
  | Some Unprintable => False
  | Some _ => released k name k' /\ name ∉ linked k'
  end.

Lemma printable n l : zlen l = n -> 0 < n <= 2 ^ 53 -> exists s, printLatency l = Some s.
Proof.
  intros Hl Hi. destruct (printLatency l) as [s|] eqn:Hp; [by exists s|].
  destruct (printLatency_parts l) as (? & ? & ? & ? & ? & Hs & _); [|lia|congruence].
  intros ->. unfold zlen in Hl. simpl in Hl. lia.
Qed.

Lemma print_samples_defined l : zlen l <= 2 ^ 53 -> exists s, print_samples l = Some s.
Proof.
  intros Hl. destruct l as [|x l]; [by exists None|]. pose proof (zlen_nonneg l). unfold print_samples.
  destruct (printable _ (x :: l) eq_refl) as [s ->]; [rewrite zlen_cons in *; lia|]. by exists (Some s).
Qed.

Lemma demo_consumer_main_spec rounds fuel cap name capacity (k : K) :
  0 <= cap <= 2 ^ 53 ->
  owp (demo_consumer_main rounds fuel cap name capacity) k (consumer_end_ok k name).
Proof.
  intros Hcap. apply owp_create; [done|by intros e k' Hf Hm Hl|].
  intros q k1 Ho. apply owp_quiet; [done|done|]. intros pid k2 Hs2.
  assert (forall q' k', same k2 k' -> same_handle q q' -> owned k name q' k') as Hown.
  { intros q' k' Hs Hh. eapply owned_later; [|exact Hh|exact Ho]. by etransitivity. }
  assert (forall q' k' (o : outcome (receiver * Z)), same k2 k' -> same_handle q q' -> o <> Unprintable ->
    owp (detach (T := Message) q';; Ret (Some o)) k' (consumer_end_ok k name)) as Hend.
  { intros q' k' o Hs Hh Ho'. eapply owned_detach; [by apply Hown|]. intros _ k3 Hc.
    apply closed_released in Hc as [? ?]. by destruct o. }
  destruct (bytesNeeded capacity) as [e|bytes]; [by apply Hend|].
  pose proof (owned_mapped _ _ _ _ (Hown q k2 ltac:(done) ltac:(done))) as Hmap.
  eapply owp_tame; [apply await_peer_tame|done|]. intros [[]|] k3 Hs3; [|done].
  apply owp_quiet; [done|done|]. intros stop k4 Hs4.
  assert (same k2 k4) as Hs by (by etransitivity).
  destruct stop; [by apply Hend|]. apply owp_mem; [by eapply same_mapped|]. intros _.
  eapply in_process_owp; [apply (demo_consumer_room rounds cap); lia|intros _; by eapply same_mapped|].
  intros r q' k5 Hroom Hs5 Hh. destruct (print_samples_defined (latency r.1)) as [sm ->]; [cbn beta in Hroom; lia|].
  apply Hend; [by etransitivity|apply Hh|done].
Qed.

Lemma demo_producer_main_spec fuel name total (k : K) :
  owp (demo_producer_main fuel name total) k (fun r k' => r <> None -> same k k').
Proof.
  apply owp_attach; [done|by intros e k' Hs _|]. intros q k1 Hb.
  apply owp_quiet; [done|done|]. intros pid k2 Hs2.
  eapply in_process_owp; [apply always_trivial|intros _; eapply same_mapped; [done|by eapply borrowed_mapped]|].
  intros r q' k3 _ Hs3 Hh. eapply borrowed_detach; [|by intros _ k4 Hs4 _].
  eapply borrowed_later; [|apply (Hh tt)|exact Hb]. by etransitivity.
Qed.

(** C11: the demo programs clean up on every path.  However their [main] functions end,
    by an exception from any system call or check, stopped by a signal while waiting
    for the peer or in the loop, or at the end of the stream: the consumer, which
    creates the queue, holds no descriptor and no mapping more than before and has
    removed its name (unless the exception came first), and the latency statistics it
    prints are always defined; the producer leaves the resources and the name exactly
    as it found them. *)
Theorem demo_programs_release rounds fuel cap name capacity total (k : K) :
  0 <= cap <= 2 ^ 53 ->
  owp (demo_consumer_main rounds fuel cap name capacity) k (consumer_end_ok k name) /\
  owp (demo_producer_main fuel name total) k (fun r k' => r <> None -> same k k').
Proof. intros Hcap. split; [by apply demo_consumer_main_spec|apply demo_producer_main_spec]. Qed.

(** How a run of the throughput benchmark may leave the resources, by the way the
    process ends. *)
Definition bench_end_ok (k : K) (r : option ending) (k' : K) : Prop :=
  match r with
  | Some (Returned _) => closed k kName k'
  | Some Exited => fds k' = fds k /\ kName ∈ linked k'
  | _ => True
  end.

Lemma bench_run_spec fuel total cap batch (k : K) :
  owp (bench_run fuel total cap batch) k (bench_end_ok k).
Proof.
  apply owp_create; [done|done|]. intros q k1 Ho. apply owp_quiet; [done|done|]. intros pid k2 Hs2.
  pose proof (owned_later _ _ _ _ _ _ Hs2 (reflexivity q) Ho) as Ho2.
  pose proof (owned_mapped _ _ _ _ Ho2) as Hmap. case_Z.
  - apply owp_attach; [done|done|]. intros c k3 Hb. apply consumer_then_owp; [by eapply borrowed_mapped|].
    intros [|] c' l k4 Hs4 Hh; [|done]. cbn. destruct Hb as [Hh3 _ _ Hl3].
    split; [|rewrite (same_linked _ _ Hs4), Hl3, (o_linked _ _ _ _ Ho2); set_solver].
    rewrite (same_fds _ _ Hs4), (h_fds _ _ _ Hh3). apply (h_fds _ _ _ (o_holds _ _ _ _ Ho2)).
  - eapply owp_tame; [apply waitForPeer_tame|done|]. intros w k3 Hs3. destruct w as [[|]|]; [..|done].
    + apply owp_quiet; [done|done|]. intros _ k4 Hs4.
      assert (same k2 k4) as Hs by (by etransitivity).
      apply producer_then_owp; [by eapply same_mapped|]. intros [|] q' l k5 Hs5 Hh; [|done].
      apply owp_quiet; [done|done|]. intros _ k6 Hs6. apply owp_quiet; [done|done|]. intros _ k7 Hs7.
      eapply owned_detach; [|by intros _ k8 Hc].
      eapply owned_later; [|exact Hh|exact Ho2]. by repeat (etransitivity; [eassumption|]).
    + apply owp_quiet; [done|done|]. intros _ k4 Hs4. apply owp_quiet; [done|done|]. intros _ k5 Hs5.
      eapply owned_detach; [|by intros _ k8 Hc].
      eapply owned_later; [|reflexivity|exact Ho2]. by repeat (etransitivity; [eassumption|]).
Qed.

Lemma bench_runs_spec fuel total l (k : K) : owp (bench_runs fuel total l) k (bench_end_ok k).
Proof.
  revert k. induction l as [|[cap batch] l IH]; intros k; cbn [bench_runs].
  - split; [done|]. intros rc k' (Hf & Hm & Hl)%unlink_step. by cbn.
  - apply owp_bind. eapply owp_mono; [apply bench_run_spec|]. intros [[| | |]|] k1 H1'; try done.
    eapply owp_mono; [apply IH|]. destruct H1' as (Hf & Hm & Hl).
    intros [[| | |]|] k2 H2'; try done; cbn in *.
    + destruct H2' as (Hf2 & Hm2 & Hl2). unfold closed. rewrite Hf2, Hm2, Hl2, Hl. split_and!; [done|done|set_solver].
    + destruct H2' as [Hf2 ?]. by rewrite Hf2.
Qed.

(** *** The latency benchmark *)
Lemma read_clock_owp {R} n sink (f : Z -> io R) (k : K) Q :
  (forall z k', same k k' -> owp (f z) k' Q) -> owp (bind (read_clock n sink) f) k Q.
Proof.
  revert sink k. induction n as [|n IH]; intros sink k Hf; cbn [read_clock]; [by apply Hf|].
  apply (owp_quiet (T := Message)); [done|done|]. intros t k1 Hs1. apply IH. intros z k2 Hs2.
  apply Hf. by etransitivity.
Qed.

Lemma clockOverheadNs_owp {R} n (f : option Z -> io R) (k : K) Q :
  (forall r k', same k k' -> owp (f r) k' Q) -> owp (bind (clockOverheadNs n) f) k Q.
Proof.
  intros Hf. apply owp_bind. apply owp_quiet; [done|done|]. intros t k1 Hs1.
  apply read_clock_owp. intros z k2 Hs2. apply owp_quiet; [done|done|]. intros t' k3 Hs3.
  apply Hf. by repeat (etransitivity; [eassumption|]).
Qed.

(** How the latency benchmark may leave the resources. *)
Definition latency_end_ok (iters : Z) (k : K) (r : option ending) (k' : K) : Prop :=
  match r with
  | Some (Returned _) =>
      fds k' = fds k /\ maps k' = maps k /\ linked k' = linked k ∖ {[kPing]} ∖ {[kPong]}
  | Some Exited => fds k' = fds k /\ kPing ∈ linked k' /\ kPong ∈ linked k'
  | Some PrintUndefined => ~ 0 < iters <= 2 ^ 53
  | _ => True
  end.

(** Both queues are open, [pong] after [ping]. *)
Definition opened (k : K) (ping pong : ShmSpscQueue) (k' : K) : Prop :=
  exists k1, owned k kPing ping k1 /\ owned k1 kPong pong k'.

Lemma opened_linked k ping pong k' :
  opened k ping pong k' -> linked k' = {[kPong]} ∪ ({[kPing]} ∪ linked k).
Proof. intros (k1 & Hi & Ho). by rewrite (o_linked _ _ _ _ Ho), (o_linked _ _ _ _ Hi). Qed.

Lemma opened_fds k ping pong k' : opened k ping pong k' -> fds k' = fds k.
Proof.
  intros (k1 & Hi & Ho). rewrite (h_fds _ _ _ (o_holds _ _ _ _ Ho)). apply (h_fds _ _ _ (o_holds _ _ _ _ Hi)).
Qed.

Lemma opened_mapped k ping pong k' :
  opened k ping pong k' -> mapped_at (ctrl_ ping) k' /\ mapped_at (ctrl_ pong) k'.
Proof.
  intros (k1 & Hi & Ho). split; [|by eapply owned_mapped]. apply owned_mapped in Hi as [sz Hin].
  exists sz. rewrite (h_maps _ _ _ (o_holds _ _ _ _ Ho)). set_solver.
Qed.

Lemma opened_later k ping pong k2 ping' pong' k3 :
  same k2 k3 -> same_handle ping ping' -> same_handle pong pong' ->
  opened k ping pong k2 -> opened k ping' pong' k3.
Proof.
  intros Hs Hi Ho (k1 & H1' & H2'). exists k1. split; [|by eapply owned_later].
  by eapply owned_later; [reflexivity| |].
Qed.

(** They are destroyed in the opposite order, whatever names have been removed
    before. *)
Lemma opened_leave k ping pong k2 k' c iters :
  opened k ping pong k2 -> fds k' = fds k2 -> maps k' = maps k2 ->
  linked k' ∖ {[kPong]} ∖ {[kPing]} = linked k2 ∖ {[kPong]} ∖ {[kPing]} ->
  owp (leave ping pong (Returned c)) k' (latency_end_ok iters k).
Proof.
  intros Hop Hf Hm Hl. rewrite (opened_linked _ _ _ _ Hop) in Hl. destruct Hop as (k1 & Hi & Ho).
  destruct Hi as [Hi1 Hi2 Hi3 Hi4 Hi5 _], Ho as [Ho1 Ho2 Ho3 Ho4 Ho5 _].
  unfold leave. apply owp_bind. eapply owp_mono.
  { apply (detach_holds k1); [|done]. destruct Ho1. constructor; rewrite ?Hf, ?Hm; done. }
  intros _ k3 (Hf3 & Hm3 & Hl3). apply owp_bind. eapply owp_mono.
  { apply (detach_holds k); [|done]. destruct Hi1. constructor; rewrite ?Hf3, ?Hm3; done. }
  intros _ k4 (Hf4 & Hm4 & Hl4). cbn. split; [done|]. split; [done|]. rewrite Hl4, Hl3. unfold held_name.
  rewrite Hi3, Hi4, Ho3, Ho4, !bool_decide_false by done. cbn [andb negb]. rewrite Hl. set_solver.
Qed.

Lemma latency_echo_owp fuel iters (k : K) Q :
  (forall e k', Q (Some (Terminated e)) k') -> (forall k', Q None k') ->
  (forall k', fds k' = fds k -> linked k' = linked k -> Q (Some Exited) k') ->
  owp (latency_echo fuel iters) k Q.
Proof.
  intros He Hn HQ. apply owp_attach; [exact Hn|intros; apply He|]. intros inq k1 Hb1.
  apply owp_attach; [exact Hn|intros; apply He|]. intros outq k2 Hb2.
  pose proof (borrowed_mapped _ _ _ Hb1) as [sz Hin]. pose proof (borrowed_mapped _ _ _ Hb2) as Hout.
  destruct Hb1 as [Hh1 _ _ Hl1], Hb2 as [Hh2 _ _ Hl2].
  eapply in_process_owp; [apply always_trivial| |].
  { intros [|]; [|done]. exists sz. rewrite (h_maps _ _ _ Hh2). set_solver. }
  intros [|] q k3 _ Hs3 _; [|apply Hn]. apply HQ.
  - by rewrite (same_fds _ _ Hs3), (h_fds _ _ _ Hh2), (h_fds _ _ _ Hh1).
  - by rewrite (same_linked _ _ Hs3), Hl2.
Qed.

Lemma latency_peers_tame fuel ping pong (k : K) (f : option bool -> io (option ending)) Q :
  mapped_at (ctrl_ ping) k -> mapped_at (ctrl_ pong) k ->
  (forall r k', same k k' -> owp (f r) k' Q) -> owp (bind (latency_peers fuel ping pong) f) k Q.
Proof.
  intros Hi Ho Hf. apply owp_bind. eapply owp_tame; [apply waitForPeer_tame|exact Hi|].
  intros [[|]|] k1 Hs1; [|by apply Hf ..].
  eapply owp_mono; [eapply tame_owp; [apply waitForPeer_tame|by eapply same_mapped]|].
  intros r k2 [Hs2 _]. apply Hf. by etransitivity.
Qed.

(** The result of the parent's loop, whatever it is answered. *)
Definition counted (iters : Z) (r : bool * samples) : Prop :=
  r.1 = true -> 0 < iters <= 2 ^ 53 -> zlen (rtt r.2) = iters /\ zlen (oneWay r.2) = iters.

Lemma latency_parent_counted fuel iters : always (counted iters) (latency_parent fuel iters).
Proof.
  destruct (decide (0 < iters <= 2 ^ 53)) as [Hb|Hb].
  - eapply always_mono; [apply (latency_parent_count fuel); lia|]. by intros r Hr Hd _; apply Hr.
  - eapply always_mono; [apply always_trivial|]. by intros r _ _ ?.
Qed.

(** The parent's side once the child has attached. *)
Lemma latency_parent_owp fuel iters pid k ping pong k2 :
  opened k ping pong k2 ->
  owp (latency_measure fuel iters pid ping pong) k2 (latency_end_ok iters k).
Proof.
  intros Hop. pose proof (opened_mapped _ _ _ _ Hop) as [Hmi Hmo].
  eapply in_process_owp; [apply (latency_parent_counted fuel iters)|by intros [|]|].
  intros [b sm] q k3 Hcount Hs3 Hh. cbn [fst snd]. destruct b; [|done]. specialize (Hcount eq_refl).
  cbn [fst snd] in Hcount. apply owp_quiet; [done|done|]. intros _ k4 Hs4.
  assert (opened k (q Ping) (q Pong) k4) as Hop4.
  { eapply opened_later; [|apply (Hh Ping)|apply (Hh Pong)|exact Hop]. by etransitivity. }
  destruct (printLatency (rtt sm)) eqn:Hp1; [destruct (printLatency (oneWay sm)) eqn:Hp2|].
  - apply owp_bind. split; [done|]. intros rc1 k5 (Hf5 & Hm5 & Hl5)%unlink_step.
    split; [done|]. intros rc2 k6 (Hf6 & Hm6 & Hl6)%unlink_step.
    eapply opened_leave; [exact Hop4|congruence|congruence|]. rewrite Hl6, Hl5. set_solver.
  - cbn. intros Hi. destruct (Hcount Hi) as [_ Hc]. destruct (printable _ _ Hc Hi). congruence.
  - cbn. intros Hi. destruct (Hcount Hi) as [Hc _]. destruct (printable _ _ Hc Hi). congruence.
Qed.

Lemma bench_latency_main_spec fuel iters (k : K) :
  owp (bench_latency_main fuel iters) k (latency_end_ok iters k).
Proof.
  apply clockOverheadNs_owp. intros _ k0 Hs0.
  apply owp_mono with (Q := latency_end_ok iters k0).
  2: { intros [[| | |]|] k'; cbn; rewrite ?(same_fds _ _ Hs0), ?(same_maps _ _ Hs0), ?(same_linked _ _ Hs0); auto. }
  clear k Hs0. apply owp_create; [done|done|]. intros ping k1 Hi. apply owp_create; [done|done|]. intros pong k2 Ho.
  assert (opened k0 ping pong k2) as Hop by (by exists k1). clear Hi Ho.
  apply owp_quiet; [done|done|]. intros pid k3 Hs3.
  apply (opened_later _ _ _ _ ping pong _ Hs3) in Hop; [|done|done]. case_Z.
  { apply latency_echo_owp; [done|done|]. intros k' Hf Hl. cbn.
    rewrite Hl, Hf, (opened_linked _ _ _ _ Hop), (opened_fds _ _ _ _ Hop). set_solver. }
  pose proof (opened_mapped _ _ _ _ Hop) as [Hmi Hmo].
  apply latency_peers_tame; [done|done|]. intros w k4 Hs4.
  apply (opened_later _ _ _ _ ping pong _ Hs4) in Hop; [|done|done].
  destruct w as [[|]|]; [by apply latency_parent_owp| |done].
  do 2 (apply owp_quiet; [done|done|]; intros ? ? ?). eapply opened_leave; [exact Hop|..].
  all: by repeat match goal with Hs : same _ _ |- _ => destruct Hs as [?Hf ?Hm ?Hl] end; congruence.
Qed.

(** C12: the benchmarks clean up after themselves.  When the process that started one
    returns from [main], whether or not the child came, it holds the descriptors and
    mappings it started with and has removed the names it created, and no other; the
    child, which leaves by [_exit] without running destructors, holds no descriptor
    more than it was forked with and has removed no name its parent still uses.  The
    latency benchmark asked for 1 to [2 ^ 53] iterations gets as far as this clean-up:
    the samples it prints from are not empty.  (Only resources and this printing are
    meant here; the element accesses of the loops are the subject of Delivery.v,
    Bench.v and Latency.v.) *)
Theorem benchmarks_release fuel total iters (k : K) :
  owp (bench_throughput_main fuel total) k (bench_end_ok k) /\
  owp (bench_latency_main fuel iters) k (latency_end_ok iters k).
Proof. split; [apply bench_runs_spec|apply bench_latency_main_spec]. Qed.
End resources.
End programs.
#[global] Arguments Threw {R} e.
#[global] Arguments Interrupted {R}.
#[global] Arguments Unprintable {R}.
#[global] Arguments Finished {R} r.

(** ** Concrete runs *)
Module ProgramsSample.
#[local] Existing Instance x86_64.
#[local] Existing Instance Kernel.kern_posix.
#[local] Existing Instance Kernel.kern_posix_ok.
Import Kernel.

Lemma demo_programs_release_witness :
  owp (demo_consumer_main false 3 5 100 "/demo" 16) boot (consumer_end_ok boot "/demo") /\
  owp (demo_producer_main false 5 "/demo" 10) boot (fun r k' => r <> None -> same boot k').
Proof. apply (demo_programs_release false 3 5 100 "/demo" 16 10 boot). lia. Defined.

Lemma benchmarks_release_witness :
  owp (bench_throughput_main false 5 100) boot (bench_end_ok boot) /\
  owp (bench_latency_main false 5 20) boot (latency_end_ok 20 boot).
Proof. exact (benchmarks_release false 5 100 20 boot). Defined.

(** A system on which [fork] fails.  The world is the time of the clock, ten seconds
    between two readings, and the signals sent. *)
Record forkless : Type := MkForkless { time : Z; signals : list (Z * Z) }.

Definition forkless_os {X} (e : osE X) (w : forkless) : X * forkless :=
  match e in osE X return X * forkless with
  | Kill pid sig => ((0, 0), MkForkless (time w) (signals w ++ [(pid, sig)]))
  | GetPid => (77, w)
  | SchedYield | Usleep _ | AssertFail => (tt, w)
  | SteadyNow => (time w, MkForkless (time w + 10000 * ns_per_ms) (signals w))
  | ShmOpen _ _ _ => ((3, 0), w)
  | ShmUnlink _ | Munmap _ _ | Close _ => (0, w)
  | Ftruncate _ _ => ((0, 0), w)
  | Fstat _ => ((0, 0, 4096), w)
  | Mmap _ _ => ((65536, 0), w)
  | Signalled => (false, w)
  | Fork => (-1, w)
  | Waitpid _ => (-1, w)
  end.

(** A fresh segment, whose loads answer zero and whose claims succeed. *)
Definition forkless_handler : handler (evE Message) forkless := fun X e w =>
  match e with
  | Os e => Some (forkless_os e w)
  | Mem e =>
      match e in memE _ X return option (X * forkless) with
      | ALoad _ _ _ | FLoad _ _ => Some (0, w)
      | ACas _ _ _ e _ _ _ => Some ((true, e), w)
      | AStore _ _ _ _ | FStore _ _ _ | MemsetCtrl _ | SlotWrite _ _ => Some (tt, w)
      | SlotRead _ => None
      end
  end.

Lemma forkless_read_clock n sink w : exists z,
  run forkless_handler (read_clock n sink) w =
  Some (z, MkForkless (time w + Z.of_nat n * (10000 * ns_per_ms)) (signals w)).
Proof.
  revert sink w. induction n as [|n IH]; intros sink [t l].
  - exists sink. cbn [read_clock run time signals]. do 3 f_equal. lia.
  - cbn [read_clock]. unfold sys, act. cbn [bind run forkless_handler forkless_os].
    destruct (IH (u64 (sink + t)) (MkForkless (t + 10000 * ns_per_ms) l)) as [z Hz].
    cbn [time signals] in *. exists z. rewrite Hz. do 3 f_equal. lia.
Qed.

Lemma forkless_clock n l : exists z,
  run forkless_handler (clockOverheadNs n) (MkForkless 0 l) =
  Some (z, MkForkless ((Z.of_nat n + 2) * (10000 * ns_per_ms)) l).
Proof.
  unfold clockOverheadNs, sys, act. cbn [bind run forkless_handler forkless_os time signals].
  rewrite run_bind. destruct (forkless_read_clock n 0 (MkForkless (0 + 10000 * ns_per_ms) l)) as [z ->].
  cbn [bind run forkless_handler forkless_os time signals]. eexists. do 3 f_equal. lia.
Qed.

(** C40: the benchmarks do not check whether [fork] succeeded.  When it fails, no
    child attaches, the wait for it times out, and the clean-up path sends SIGKILL to
    the "pid" -1, which addresses every process the user may signal. *)
Theorem failed_fork_kills_everyone total batch iters :
  match run forkless_handler (bench_run false 4 total 64 batch) (MkForkless 0 []) with
  | Some (r, w) => r = Some (Returned 0) /\ (-1, SIGKILL) ∈ signals w
  | None => False
  end /\
  match run forkless_handler (bench_latency_main false 4 iters) (MkForkless 0 []) with
  | Some (r, w) => r = Some (Returned 1) /\ (-1, SIGKILL) ∈ signals w
  | None => False
  end.
Proof.
  split.
  - assert (run forkless_handler (bench_run false 4 total 64 batch) (MkForkless 0 []) =
      Some (Some (Returned 0), MkForkless (2 * (10000 * ns_per_ms)) [(-1, SIGKILL)])) as ->.
    { vm_compute. reflexivity. }
    split; [done|]. set_solver.
  - unfold bench_latency_main. rewrite run_bind. destruct (forkless_clock (Z.to_nat 200000) []) as [z ->].
    rewrite Z2Nat.id by lia. vm_compute. split; [done|]. apply list_elem_of_singleton. done.
Qed.
End ProgramsSample.
